(** * The constraint graph of the type checker (lib/Sema/ConstraintGraph.cpp)

    A shallow embedding of the constraint graph: its nodes, the change
    journal with its scopes, the mutation operations, constraint gathering,
    the connected-components engine with one-way ordering and edge
    contraction, followed by the properties established about them. *)

From stdpp Require Import gmap list sorting.

(** ** Outcomes of a run

    [Abort] is a failed [assert] (or an access the C++ code leaves
    undefined, such as [pop_back] on an empty vector); [Timeout] is the
    recursion budget of the model running out. *)

Inductive Res (A : Type) : Type :=
| Done (a : A)
| Abort
| Timeout.
Arguments Done {A} a.
Arguments Abort {A}.
Arguments Timeout {A}.

#[global] Instance Res_ret : MRet Res := fun A a => Done a.
#[global] Instance Res_bind : MBind Res := fun A B f m =>
  match m with
  | Done a => f a
  | Abort => Abort
  | Timeout => Timeout
  end.

Definition assert (b : bool) : Res unit :=
  if b then Done tt else Abort.

Definition fromOption {A} (o : option A) : Res A :=
  match o with
  | Some a => Done a
  | None => Abort
  end.

(** A [for] loop over a range, threading the loop state. *)
Fixpoint forEach {A S : Type} (body : A -> S -> Res S) (l : list A) (s : S)
  : Res S :=
  match l with
  | [] => Done s
  | x :: l' => s' ← body x s; forEach body l' s'
  end.

(** [vector::back] and [vector::pop_back]. *)
Definition back {A} (l : list A) : option A := last l.
Definition pop_back {A} (l : list A) : list A := removelast l.

(** ** External entities

    Type variables and constraints are handles owned by the constraint
    system.  A type variable is identified with its ID ([getID]); a
    constraint with its address. *)

Abbreviation TypeVariableType := nat (only parsing).
Abbreviation Constraint := nat (only parsing).

Definition getID (tv : TypeVariableType) : nat := tv.

Inductive ConstraintKind : Type :=
| Bind
| BindParam
| BindToPointerType
| Equal
| OneWayBind
| OneWayBindParam
| Subtype
| Conversion
| ConformsTo.

#[global] Instance ConstraintKind_eq_dec : EqDecision ConstraintKind.
Proof. solve_decision. Defined.

(** Modelled from the spec: the type surface ([desugared],
    [has_type_variables], [get_type_variables], [find_if], [is<InOutType>],
    [as<TypeVariableType>]); the type representation itself is declared
    outside this file.  [TyParen] is the sugared form. *)
Inductive Ty : Type :=
| TyNominal (name : nat)
| TyVar (tv : TypeVariableType)
| TyInOut (object : Ty)
| TyParen (underlying : Ty)
| TyFunction (input result : Ty).

#[global] Instance Ty_eq_dec : EqDecision Ty.
Proof. solve_decision. Defined.

Fixpoint typeVariablesIn (t : Ty) : list TypeVariableType :=
  match t with
  | TyNominal _ => []
  | TyVar tv => [tv]
  | TyInOut o => typeVariablesIn o
  | TyParen u => typeVariablesIn u
  | TyFunction i r => typeVariablesIn i ++ typeVariablesIn r
  end.

Definition hasTypeVariable (t : Ty) : bool :=
  match typeVariablesIn t with
  | [] => false
  | _ :: _ => true
  end.

Fixpoint getDesugaredType (t : Ty) : Ty :=
  match t with
  | TyParen u => getDesugaredType u
  | _ => t
  end.

Definition getAsTypeVariable (t : Ty) : option TypeVariableType :=
  match getDesugaredType t with
  | TyVar tv => Some tv
  | _ => None
  end.

Definition isInOutType (t : Ty) : bool :=
  match getDesugaredType t with
  | TyInOut _ => true
  | _ => false
  end.

Fixpoint findIf (pred : Ty -> bool) (t : Ty) : bool :=
  pred t ||
  match t with
  | TyNominal _ => false
  | TyVar _ => false
  | TyInOut o => findIf pred o
  | TyParen u => findIf pred u
  | TyFunction i r => findIf pred i || findIf pred r
  end.

(** Modelled from the spec: the solver state of the constraint system, with
    [retire_constraint] and [remove_generated_constraint]. *)
Record SolverState : Type := {
  depth : nat;
  retiredConstraints : list Constraint;
  generatedConstraints : list Constraint;
}.

(** Modelled from the spec: the capability surface of the constraint system
    (section 6) together with the constraint and type-variable surfaces it
    owns. *)
Record ConstraintSystem : Type := {
  getRepresentative : TypeVariableType -> TypeVariableType;
  getFixedType : TypeVariableType -> option Ty;
  canBindToLValue : TypeVariableType -> bool;
  canBindToInOut : TypeVariableType -> bool;
  getPotentialBindings : TypeVariableType -> option (list Ty);
  getKind : Constraint -> ConstraintKind;
  getFirstType : Constraint -> Ty;
  getSecondType : Constraint -> Ty;
  getTypeVariables : Constraint -> list TypeVariableType;
  ActiveConstraints : list Constraint;
  InactiveConstraints : list Constraint;
  solverState : option SolverState;
}.

(** ** Nodes *)

Record ConstraintGraphNode : Type := {
  TypeVar : TypeVariableType;
  Constraints : list Constraint;
  ConstraintIndex : gmap Constraint nat;
  EquivalenceClass : list TypeVariableType;
  FixedBindings : list TypeVariableType;
}.

Definition newNode (typeVar : TypeVariableType) : ConstraintGraphNode :=
  {| TypeVar := typeVar; Constraints := []; ConstraintIndex := ∅;
     EquivalenceClass := []; FixedBindings := [] |}.

Definition setConstraints (n : ConstraintGraphNode) (cs : list Constraint)
    (idx : gmap Constraint nat) : ConstraintGraphNode :=
  {| TypeVar := TypeVar n; Constraints := cs; ConstraintIndex := idx;
     EquivalenceClass := EquivalenceClass n;
     FixedBindings := FixedBindings n |}.

Definition setEquivalenceClass (n : ConstraintGraphNode)
    (ec : list TypeVariableType) : ConstraintGraphNode :=
  {| TypeVar := TypeVar n; Constraints := Constraints n;
     ConstraintIndex := ConstraintIndex n;
     EquivalenceClass := ec; FixedBindings := FixedBindings n |}.

Definition setFixedBindings (n : ConstraintGraphNode)
    (fb : list TypeVariableType) : ConstraintGraphNode :=
  {| TypeVar := TypeVar n; Constraints := Constraints n;
     ConstraintIndex := ConstraintIndex n;
     EquivalenceClass := EquivalenceClass n; FixedBindings := fb |}.

(** [EquivalenceClass] is [mutable]: reading it fills it in with the node's
    own variable when it is still empty. *)
Definition materialize (n : ConstraintGraphNode) : ConstraintGraphNode :=
  match EquivalenceClass n with
  | [] => setEquivalenceClass n [TypeVar n]
  | _ :: _ => n
  end.

Definition node_getEquivalenceClassUnsafe (n : ConstraintGraphNode)
  : list TypeVariableType * ConstraintGraphNode :=
  (EquivalenceClass (materialize n), materialize n).

Definition node_getEquivalenceClass (cs : ConstraintSystem)
    (n : ConstraintGraphNode)
  : Res (list TypeVariableType * ConstraintGraphNode) :=
  _ ← assert (bool_decide (TypeVar n = getRepresentative cs (TypeVar n)));
  Done (node_getEquivalenceClassUnsafe n).

Definition node_addConstraint (constraint : Constraint)
    (n : ConstraintGraphNode) : Res ConstraintGraphNode :=
  match ConstraintIndex n !! constraint with
  | Some _ => Abort
  | None =>
      Done (setConstraints n (Constraints n ++ [constraint])
              (<[constraint := length (Constraints n)]> (ConstraintIndex n)))
  end.

Definition node_removeConstraint (constraint : Constraint)
    (n : ConstraintGraphNode) : Res ConstraintGraphNode :=
  index ← fromOption (ConstraintIndex n !! constraint);
  let idx := delete constraint (ConstraintIndex n) in
  _ ← assert (bool_decide (Constraints n !! index = Some constraint));
  let lastIndex := length (Constraints n) - 1 in
  if bool_decide (index = lastIndex) then
    Done (setConstraints n (pop_back (Constraints n)) idx)
  else
    lastConstraint ← fromOption (Constraints n !! lastIndex);
    Done (setConstraints n
            (pop_back (<[index := lastConstraint]> (Constraints n)))
            (<[lastConstraint := index]> idx)).

Definition node_addToEquivalenceClass (cs : ConstraintSystem)
    (typeVars : list TypeVariableType) (n : ConstraintGraphNode)
  : Res ConstraintGraphNode :=
  _ ← assert (bool_decide (TypeVar n = getRepresentative cs (TypeVar n)));
  let n' := materialize n in
  Done (setEquivalenceClass n' (EquivalenceClass n' ++ typeVars)).

Definition node_addFixedBinding (typeVar : TypeVariableType)
    (n : ConstraintGraphNode) : Res ConstraintGraphNode :=
  Done (setFixedBindings n (FixedBindings n ++ [typeVar])).

(** The argument is not looked at: the last binding is popped. *)
Definition node_removeFixedBinding (typeVar : TypeVariableType)
    (n : ConstraintGraphNode) : Res ConstraintGraphNode :=
  match FixedBindings n with
  | [] => Abort
  | _ :: _ => Done (setFixedBindings n (pop_back (FixedBindings n)))
  end.

(** ** The graph, its journal and its scopes *)

Inductive Change : Type :=
| AddedTypeVariable (typeVar : TypeVariableType)
| AddedConstraint (constraint : Constraint)
| RemovedConstraint (constraint : Constraint)
| ExtendedEquivalenceClass (typeVar : TypeVariableType) (prevSize : nat)
| BoundTypeVariable (typeVar : TypeVariableType) (fixed : Ty).

#[global] Instance Change_eq_dec : EqDecision Change.
Proof. solve_decision. Defined.

#[warnings="-register-all"]
Inductive ConstraintGraphScope : Type :=
| mkScope (ParentScope : option ConstraintGraphScope) (NumChanges : nat).

Definition ParentScope (s : ConstraintGraphScope)
  : option ConstraintGraphScope :=
  match s with mkScope p _ => p end.

Definition NumChanges (s : ConstraintGraphScope) : nat :=
  match s with mkScope _ n => n end.

(** [Nodes] and [GraphIndex] are the graph-node and graph-index slots of the
    type variables' implementations; a type variable without a node has no
    entry in [Nodes], while its [GraphIndex] keeps the last value written. *)
Record ConstraintGraph : Type := {
  Nodes : gmap TypeVariableType ConstraintGraphNode;
  GraphIndex : gmap TypeVariableType nat;
  TypeVariables : list TypeVariableType;
  OrphanedConstraints : list Constraint;
  ActiveScope : option ConstraintGraphScope;
  Changes : list Change;
}.

Definition emptyGraph : ConstraintGraph :=
  {| Nodes := ∅; GraphIndex := ∅; TypeVariables := [];
     OrphanedConstraints := []; ActiveScope := None; Changes := [] |}.

Definition setNodes (g : ConstraintGraph)
    (ns : gmap TypeVariableType ConstraintGraphNode) : ConstraintGraph :=
  {| Nodes := ns; GraphIndex := GraphIndex g;
     TypeVariables := TypeVariables g;
     OrphanedConstraints := OrphanedConstraints g;
     ActiveScope := ActiveScope g; Changes := Changes g |}.

Definition setOrphanedConstraints (g : ConstraintGraph)
    (oc : list Constraint) : ConstraintGraph :=
  {| Nodes := Nodes g; GraphIndex := GraphIndex g;
     TypeVariables := TypeVariables g;
     OrphanedConstraints := oc;
     ActiveScope := ActiveScope g; Changes := Changes g |}.

Definition setActiveScope (g : ConstraintGraph)
    (s : option ConstraintGraphScope) : ConstraintGraph :=
  {| Nodes := Nodes g; GraphIndex := GraphIndex g;
     TypeVariables := TypeVariables g;
     OrphanedConstraints := OrphanedConstraints g;
     ActiveScope := s; Changes := Changes g |}.

Definition setChanges (g : ConstraintGraph) (chs : list Change)
  : ConstraintGraph :=
  {| Nodes := Nodes g; GraphIndex := GraphIndex g;
     TypeVariables := TypeVariables g;
     OrphanedConstraints := OrphanedConstraints g;
     ActiveScope := ActiveScope g; Changes := chs |}.

(** Record the change, if there are active scopes. *)
Definition recordChange (ch : Change) (g : ConstraintGraph)
  : ConstraintGraph :=
  match ActiveScope g with
  | Some _ => setChanges g (Changes g ++ [ch])
  | None => g
  end.

(** Apply a node operation to the node a reference designates. *)
Definition withNode (typeVar : TypeVariableType)
    (op : ConstraintGraphNode -> Res ConstraintGraphNode)
    (g : ConstraintGraph) : Res ConstraintGraph :=
  n ← fromOption (Nodes g !! typeVar);
  n' ← op n;
  Done (setNodes g (<[typeVar := n']> (Nodes g))).

Definition getEquivalenceClassUnsafe (typeVar : TypeVariableType)
    (g : ConstraintGraph) : Res (list TypeVariableType * ConstraintGraph) :=
  n ← fromOption (Nodes g !! typeVar);
  let '(ec, n') := node_getEquivalenceClassUnsafe n in
  Done (ec, setNodes g (<[typeVar := n']> (Nodes g))).

Definition getEquivalenceClass (cs : ConstraintSystem)
    (typeVar : TypeVariableType) (g : ConstraintGraph)
  : Res (list TypeVariableType * ConstraintGraph) :=
  n ← fromOption (Nodes g !! typeVar);
  '(ec, n') ← node_getEquivalenceClass cs n;
  Done (ec, setNodes g (<[typeVar := n']> (Nodes g))).

(** The first half of [lookupNode]'s slow path: allocate the node, record
    the type variable and journal the addition. *)
Definition createNode (typeVar : TypeVariableType) (g : ConstraintGraph)
  : ConstraintGraph :=
  let index := length (TypeVariables g) in
  recordChange (AddedTypeVariable typeVar)
    {| Nodes := <[typeVar := newNode typeVar]> (Nodes g);
       GraphIndex := <[typeVar := index]> (GraphIndex g);
       TypeVariables := TypeVariables g ++ [typeVar];
       OrphanedConstraints := OrphanedConstraints g;
       ActiveScope := ActiveScope g; Changes := Changes g |}.

Section Mutation.

Context (cs : ConstraintSystem).

(** [mergeNodes], given how nodes are looked up. *)
Definition mergeNodesWith
    (lookup : TypeVariableType -> ConstraintGraph ->
              Res (nat * ConstraintGraph))
    (typeVar1 typeVar2 : TypeVariableType) (g : ConstraintGraph)
  : Res ConstraintGraph :=
  _ ← assert (bool_decide
                (getRepresentative cs typeVar1 = getRepresentative cs typeVar2));
  let typeVarRep := getRepresentative cs typeVar1 in
  '(_, g) ← lookup typeVarRep g;
  _ ← assert (bool_decide (typeVar1 = typeVarRep) ||
              bool_decide (typeVar2 = typeVarRep));
  let typeVarNonRep :=
    if bool_decide (typeVar1 = typeVarRep) then typeVar2 else typeVar1 in
  g ← match ActiveScope g with
      | Some _ =>
          '(ec, g) ← getEquivalenceClass cs typeVarRep g;
          Done (recordChange
                  (ExtendedEquivalenceClass typeVarRep (length ec)) g)
      | None => Done g
      end;
  '(_, g) ← lookup typeVarNonRep g;
  '(ec, g) ← getEquivalenceClassUnsafe typeVarNonRep g;
  withNode typeVarRep (node_addToEquivalenceClass cs ec) g.

(** One iteration of the loop of [bindTypeVariable]; the loop state is the
    set [knownTypeVars] and the graph. *)
Definition bindStep
    (lookup : TypeVariableType -> ConstraintGraph ->
              Res (nat * ConstraintGraph))
    (typeVar otherTypeVar : TypeVariableType)
    (st : gset TypeVariableType * ConstraintGraph)
  : Res (gset TypeVariableType * ConstraintGraph) :=
  let '(knownTypeVars, g) := st in
  if bool_decide (otherTypeVar ∈ knownTypeVars) then Done st
  else
    let knownTypeVars := {[otherTypeVar]} ∪ knownTypeVars in
    if bool_decide (typeVar = otherTypeVar) then Done (knownTypeVars, g)
    else
      '(_, g) ← lookup otherTypeVar g;
      g ← withNode otherTypeVar (node_addFixedBinding typeVar) g;
      g ← withNode typeVar (node_addFixedBinding otherTypeVar) g;
      Done (knownTypeVars, g).

Definition bindTypeVariableWith
    (lookup : TypeVariableType -> ConstraintGraph ->
              Res (nat * ConstraintGraph))
    (typeVar : TypeVariableType) (fixed : Ty) (g : ConstraintGraph)
  : Res ConstraintGraph :=
  if negb (hasTypeVariable fixed) then Done g
  else
    let typeVars := typeVariablesIn fixed in
    '(_, g) ← lookup typeVar g;
    '(_, g) ← forEach (bindStep lookup typeVar) typeVars (∅, g);
    Done (recordChange (BoundTypeVariable typeVar fixed) g).

(** [lookupNode]: the sole node-creation entry point.  The budget is only
    spent when a node has to be created. *)
Fixpoint lookupNode (fuel : nat) (typeVar : TypeVariableType)
    (g : ConstraintGraph) : Res (nat * ConstraintGraph) :=
  match Nodes g !! typeVar with
  | Some _ =>
      index ← fromOption (GraphIndex g !! typeVar);
      _ ← assert (bool_decide (index < length (TypeVariables g)));
      _ ← assert (bool_decide (TypeVariables g !! index = Some typeVar));
      Done (index, g)
  | None =>
      match fuel with
      | 0 => Timeout
      | S fuel' =>
          let index := length (TypeVariables g) in
          let g := createNode typeVar g in
          let typeVarRep := getRepresentative cs typeVar in
          g ← (if bool_decide (typeVar ≠ typeVarRep) then
                 mergeNodesWith (lookupNode fuel') typeVar typeVarRep g
               else
                 match getFixedType cs typeVarRep with
                 | Some fixed =>
                     bindTypeVariableWith (lookupNode fuel') typeVar fixed g
                 | None => Done g
                 end);
          Done (index, g)
      end
  end.

Definition mergeNodes (fuel : nat) := mergeNodesWith (lookupNode fuel).

Definition bindTypeVariable (fuel : nat) :=
  bindTypeVariableWith (lookupNode fuel).

Definition unbindStep (fuel : nat)
    (typeVar otherTypeVar : TypeVariableType)
    (st : gset TypeVariableType * ConstraintGraph)
  : Res (gset TypeVariableType * ConstraintGraph) :=
  let '(knownTypeVars, g) := st in
  if bool_decide (otherTypeVar ∈ knownTypeVars) then Done st
  else
    let knownTypeVars := {[otherTypeVar]} ∪ knownTypeVars in
    '(_, g) ← lookupNode fuel otherTypeVar g;
    g ← withNode otherTypeVar (node_removeFixedBinding typeVar) g;
    g ← withNode typeVar (node_removeFixedBinding otherTypeVar) g;
    Done (knownTypeVars, g).

Definition unbindTypeVariable (fuel : nat) (typeVar : TypeVariableType)
    (fixed : Ty) (g : ConstraintGraph) : Res ConstraintGraph :=
  if negb (hasTypeVariable fixed) then Done g
  else
    let typeVars := typeVariablesIn fixed in
    '(_, g) ← lookupNode fuel typeVar g;
    '(_, g) ← forEach (unbindStep fuel typeVar) typeVars (∅, g);
    Done g.

Definition removeNode (typeVar : TypeVariableType) (g : ConstraintGraph)
  : Res ConstraintGraph :=
  index ← fromOption (GraphIndex g !! typeVar);
  _ ← assert (negb (bool_decide (TypeVariables g = [])));
  let lastIndex := length (TypeVariables g) - 1 in
  tvs ← (if bool_decide (index < lastIndex) then
           lastVar ← fromOption (TypeVariables g !! lastIndex);
           Done (<[index := lastVar]> (TypeVariables g))
         else Done (TypeVariables g));
  Done {| Nodes := delete typeVar (Nodes g);
          GraphIndex := GraphIndex g;
          TypeVariables := pop_back tvs;
          OrphanedConstraints := OrphanedConstraints g;
          ActiveScope := ActiveScope g; Changes := Changes g |}.

Definition addConstraintStep (fuel : nat) (constraint : Constraint)
    (typeVar : TypeVariableType) (g : ConstraintGraph)
  : Res ConstraintGraph :=
  '(_, g) ← lookupNode fuel typeVar g;
  withNode typeVar (node_addConstraint constraint) g.

Definition addConstraint (fuel : nat) (constraint : Constraint)
    (g : ConstraintGraph) : Res ConstraintGraph :=
  let referencedTypeVars := getTypeVariables cs constraint in
  g ← forEach (addConstraintStep fuel constraint) referencedTypeVars g;
  let g :=
    match referencedTypeVars with
    | [] => setOrphanedConstraints g (OrphanedConstraints g ++ [constraint])
    | _ :: _ => g
    end in
  Done (recordChange (AddedConstraint constraint) g).

Definition removeConstraintStep (fuel : nat) (constraint : Constraint)
    (typeVar : TypeVariableType) (g : ConstraintGraph)
  : Res ConstraintGraph :=
  '(_, g) ← lookupNode fuel typeVar g;
  withNode typeVar (node_removeConstraint constraint) g.

(** [std::find]: the position of the first occurrence. *)
Fixpoint findIndex (c : Constraint) (l : list Constraint) : option nat :=
  match l with
  | [] => None
  | x :: l' => if bool_decide (x = c) then Some 0 else S <$> findIndex c l'
  end.

Definition removeOrphan (constraint : Constraint) (g : ConstraintGraph)
  : Res ConstraintGraph :=
  known ← fromOption (findIndex constraint (OrphanedConstraints g));
  lastOrphan ← fromOption (back (OrphanedConstraints g));
  Done (setOrphanedConstraints g
          (pop_back (<[known := lastOrphan]> (OrphanedConstraints g)))).

Definition removeConstraint (fuel : nat) (constraint : Constraint)
    (g : ConstraintGraph) : Res ConstraintGraph :=
  let referencedTypeVars := getTypeVariables cs constraint in
  g ← forEach (removeConstraintStep fuel constraint) referencedTypeVars g;
  g ← match referencedTypeVars with
      | [] => removeOrphan constraint g
      | _ :: _ => Done g
      end;
  Done (recordChange (RemovedConstraint constraint) g).

(** ** Scopes and undo *)

Definition openScope (g : ConstraintGraph)
  : ConstraintGraphScope * ConstraintGraph :=
  let s := mkScope (ActiveScope g) (length (Changes g)) in
  (s, setActiveScope g (Some s)).

Definition truncateEquivalenceClass (prevSize : nat)
    (n : ConstraintGraphNode) : Res ConstraintGraphNode :=
  _ ← assert (bool_decide (prevSize <= length (EquivalenceClass n)));
  Done (setEquivalenceClass n (take prevSize (EquivalenceClass n))).

Definition undo (fuel : nat) (ch : Change) (g : ConstraintGraph)
  : Res ConstraintGraph :=
  let prevActiveScope := ActiveScope g in
  let g := setActiveScope g None in
  g ← match ch with
      | AddedTypeVariable typeVar => removeNode typeVar g
      | AddedConstraint constraint => removeConstraint fuel constraint g
      | RemovedConstraint constraint => addConstraint fuel constraint g
      | ExtendedEquivalenceClass typeVar prevSize =>
          '(_, g) ← lookupNode fuel typeVar g;
          withNode typeVar (truncateEquivalenceClass prevSize) g
      | BoundTypeVariable typeVar fixed =>
          unbindTypeVariable fuel typeVar fixed g
      end;
  Done (setActiveScope g prevActiveScope).

(** The loop of the scope's destructor; it runs at most [iters] times, one
    popped change each. *)
Fixpoint unwind (iters fuel : nat) (numChanges : nat) (g : ConstraintGraph)
  : Res ConstraintGraph :=
  if bool_decide (numChanges < length (Changes g)) then
    match iters with
    | 0 => Timeout
    | S iters' =>
        ch ← fromOption (back (Changes g));
        g ← undo fuel ch g;
        unwind iters' fuel numChanges (setChanges g (pop_back (Changes g)))
    end
  else Done g.

Definition closeScope (fuel : nat) (s : ConstraintGraphScope)
    (g : ConstraintGraph) : Res ConstraintGraph :=
  _ ← assert (bool_decide (NumChanges s <= length (Changes g)));
  g ← unwind (length (Changes g)) fuel (NumChanges s) g;
  Done (setActiveScope g (ParentScope s)).

End Mutation.

(** ** Gathering constraints *)

Module GatheringKind.
Inductive t : Type :=
| EquivalenceClass
| AllMentions.
End GatheringKind.

(** The locals of [gatherConstraints] that its loops update, with the graph
    (node lookups may create nodes, and reading an equivalence class may
    fill it in). *)
Record GatherState : Type := {
  gathered : list Constraint;
  visitedTypeVars : gset TypeVariableType;
  visitedConstraints : gset Constraint;
  gatherGraph : ConstraintGraph;
}.

Definition getConstraints (typeVar : TypeVariableType) (g : ConstraintGraph)
  : Res (list Constraint) :=
  n ← fromOption (Nodes g !! typeVar);
  Done (Constraints n).

Definition getFixedBindings (typeVar : TypeVariableType)
    (g : ConstraintGraph) : Res (list TypeVariableType) :=
  n ← fromOption (Nodes g !! typeVar);
  Done (FixedBindings n).

Section Gathering.

Context (cs : ConstraintSystem) (fuel : nat).
Context (acceptConstraint : Constraint -> bool).

(** The innermost loop body of [addAdjacentConstraints]. *)
Definition visitAdjacentConstraint (constraint : Constraint)
    (st : GatherState) : Res GatherState :=
  if bool_decide (constraint ∈ visitedConstraints st) then Done st
  else
    let visited := {[constraint]} ∪ visitedConstraints st in
    Done {| gathered :=
              if acceptConstraint constraint
              then gathered st ++ [constraint] else gathered st;
            visitedTypeVars := visitedTypeVars st;
            visitedConstraints := visited;
            gatherGraph := gatherGraph st |}.

Definition visitAdjacentTypeVar (adjTypeVarEquiv : TypeVariableType)
    (st : GatherState) : Res GatherState :=
  if bool_decide (adjTypeVarEquiv ∈ visitedTypeVars st) then Done st
  else
    '(_, g) ← lookupNode cs fuel adjTypeVarEquiv (gatherGraph st);
    constraints ← getConstraints adjTypeVarEquiv g;
    forEach visitAdjacentConstraint constraints
      {| gathered := gathered st;
         visitedTypeVars := {[adjTypeVarEquiv]} ∪ visitedTypeVars st;
         visitedConstraints := visitedConstraints st;
         gatherGraph := g |}.

Definition addAdjacentConstraints (adjTypeVar : TypeVariableType)
    (st : GatherState) : Res GatherState :=
  let rep := getRepresentative cs adjTypeVar in
  '(_, g) ← lookupNode cs fuel rep (gatherGraph st);
  '(adjTypeVarsToVisit, g) ← getEquivalenceClass cs rep g;
  forEach visitAdjacentTypeVar adjTypeVarsToVisit
    {| gathered := gathered st;
       visitedTypeVars := visitedTypeVars st;
       visitedConstraints := visitedConstraints st;
       gatherGraph := g |}.

(** The body of the loop over a member's constraints. *)
Definition gatherConstraint (kind : GatheringKind.t)
    (constraint : Constraint) (st : GatherState) : Res GatherState :=
  let st :=
    {| gathered :=
         if negb (bool_decide (constraint ∈ visitedConstraints st)) &&
            acceptConstraint constraint
         then gathered st ++ [constraint] else gathered st;
       visitedTypeVars := visitedTypeVars st;
       visitedConstraints := {[constraint]} ∪ visitedConstraints st;
       gatherGraph := gatherGraph st |} in
  match kind with
  | GatheringKind.AllMentions =>
      forEach addAdjacentConstraints (getTypeVariables cs constraint) st
  | GatheringKind.EquivalenceClass => Done st
  end.

(** The body of the loop over the equivalence class. *)
Definition gatherMember (kind : GatheringKind.t)
    (typeVar : TypeVariableType) (st : GatherState) : Res GatherState :=
  '(_, g) ← lookupNode cs fuel typeVar (gatherGraph st);
  constraints ← getConstraints typeVar g;
  st ← forEach (gatherConstraint kind) constraints
         {| gathered := gathered st;
            visitedTypeVars := visitedTypeVars st;
            visitedConstraints := visitedConstraints st;
            gatherGraph := g |};
  fixedBindings ← getFixedBindings typeVar (gatherGraph st);
  forEach addAdjacentConstraints fixedBindings st.

Definition gatherConstraints (typeVar : TypeVariableType)
    (kind : GatheringKind.t) (g : ConstraintGraph)
  : Res (list Constraint * ConstraintGraph) :=
  let rep := getRepresentative cs typeVar in
  '(_, g) ← lookupNode cs fuel rep g;
  '(equivClass, g) ← getEquivalenceClass cs rep g;
  st ← forEach (gatherMember kind) equivClass
         {| gathered := []; visitedTypeVars := ∅; visitedConstraints := ∅;
            gatherGraph := g |};
  Done (gathered st, gatherGraph st).

End Gathering.

(** ** Connected components with one-way ordering *)

Record OneWayComponent : Type := {
  owTypeVars : list TypeVariableType;
  dependsOn : list nat;
}.

Record Component : Type := {
  typeVars : list TypeVariableType;
  constraints : list Constraint;
  oneWayComponents : list OneWayComponent;
}.

Record RawOneWayComponent : Type := {
  rawTypeVars : list TypeVariableType;
  outAdjacencies : list TypeVariableType;
  inAdjacencies : list TypeVariableType;
}.

Definition emptyRaw : RawOneWayComponent :=
  {| rawTypeVars := []; outAdjacencies := []; inAdjacencies := [] |}.

(** The mutable members of the [ConnectedComponents] helper. *)
Record ConnectedComponents : Type := {
  cg : ConstraintGraph;
  representatives : gmap TypeVariableType TypeVariableType;
  oneWayDigraph : gmap TypeVariableType RawOneWayComponent;
}.

Definition setCg (cc : ConnectedComponents) (g : ConstraintGraph)
  : ConnectedComponents :=
  {| cg := g; representatives := representatives cc;
     oneWayDigraph := oneWayDigraph cc |}.

Definition setRepresentatives (cc : ConnectedComponents)
    (reps : gmap TypeVariableType TypeVariableType) : ConnectedComponents :=
  {| cg := cg cc; representatives := reps;
     oneWayDigraph := oneWayDigraph cc |}.

Definition setOneWayDigraph (cc : ConnectedComponents)
    (dg : gmap TypeVariableType RawOneWayComponent) : ConnectedComponents :=
  {| cg := cg cc; representatives := representatives cc;
     oneWayDigraph := dg |}.

(** [findRepresentative], with path compression. *)
Fixpoint findRepresentative (fuel : nat) (typeVar : TypeVariableType)
    (reps : gmap TypeVariableType TypeVariableType)
  : Res (TypeVariableType * gmap TypeVariableType TypeVariableType) :=
  match reps !! typeVar with
  | None => Done (typeVar, reps)
  | Some parent =>
      match fuel with
      | 0 => Timeout
      | S fuel' =>
          '(rep, reps) ← findRepresentative fuel' parent reps;
          Done (rep,
                if bool_decide (rep ≠ parent) then <[typeVar := rep]> reps
                else reps)
      end
  end.

Definition unionSets (fuel : nat) (typeVar1 typeVar2 : TypeVariableType)
    (reps : gmap TypeVariableType TypeVariableType)
  : Res (bool * gmap TypeVariableType TypeVariableType) :=
  '(rep1, reps) ← findRepresentative fuel typeVar1 reps;
  '(rep2, reps) ← findRepresentative fuel typeVar2 reps;
  if bool_decide (rep1 = rep2) then Done (false, reps)
  else if bool_decide (getID rep1 < getID rep2)
       then Done (true, <[rep2 := rep1]> reps)
       else Done (true, <[rep1 := rep2]> reps).

(** The loop state of the loops that only union: the flag and the map. *)
Definition unionStep (fuel : nat) (typeVar otherTypeVar : TypeVariableType)
    (st : bool * gmap TypeVariableType TypeVariableType)
  : Res (bool * gmap TypeVariableType TypeVariableType) :=
  '(unioned, reps) ← unionSets fuel typeVar otherTypeVar st.2;
  Done (unioned || st.1, reps).

Definition unionSetsViaConstraint (cs : ConstraintSystem) (fuel : nat)
    (constraint : Constraint)
    (reps : gmap TypeVariableType TypeVariableType)
  : Res (bool * gmap TypeVariableType TypeVariableType) :=
  match getTypeVariables cs constraint with
  | typeVar :: (_ :: _) as rest =>
      forEach (unionStep fuel typeVar) rest (false, reps)
  | _ => Done (false, reps)
  end.

Definition isOneWay (k : ConstraintKind) : bool :=
  bool_decide (k = OneWayBind) || bool_decide (k = OneWayBindParam).

(** [insertIfUnique]. *)
Definition insertIfUnique (vector : list TypeVariableType)
    (typeVar : TypeVariableType) : list TypeVariableType :=
  if bool_decide (typeVar ∈ vector) then vector else vector ++ [typeVar].

Section Components.

Context (cs : ConstraintSystem) (fuel : nat).
Context (inputTypeVars : list TypeVariableType).

(** The locals of [connectedComponents]. *)
Record CCLoop : Type := {
  oneWayConstraints : list Constraint;
  ccVisited : gset Constraint;
  ccState : ConnectedComponents;
}.

Definition ccUnion (typeVar other : TypeVariableType)
    (cc : ConnectedComponents) : Res ConnectedComponents :=
  '(_, reps) ← unionSets fuel typeVar other (representatives cc);
  Done (setRepresentatives cc reps).

Definition ccConstraint (constraint : Constraint) (st : CCLoop)
  : Res CCLoop :=
  if bool_decide (constraint ∈ ccVisited st) then Done st
  else
    let visited := {[constraint]} ∪ ccVisited st in
    if isOneWay (getKind cs constraint) then
      Done {| oneWayConstraints := oneWayConstraints st ++ [constraint];
              ccVisited := visited; ccState := ccState st |}
    else
      '(_, reps) ← unionSetsViaConstraint cs fuel constraint
                     (representatives (ccState st));
      Done {| oneWayConstraints := oneWayConstraints st;
              ccVisited := visited;
              ccState := setRepresentatives (ccState st) reps |}.

Definition ccTypeVar (typeVar : TypeVariableType) (st : CCLoop)
  : Res CCLoop :=
  let cc := ccState st in
  let rep := getRepresentative cs typeVar in
  '(_, g) ← lookupNode cs fuel rep (cg cc);
  '(equivClass, g) ← getEquivalenceClass cs rep g;
  cc ← forEach (ccUnion typeVar) equivClass (setCg cc g);
  '(_, g) ← lookupNode cs fuel typeVar (cg cc);
  let cc := setCg cc g in
  fixedBindings ← getFixedBindings typeVar g;
  cc ← forEach (ccUnion typeVar) fixedBindings cc;
  nodeConstraints ← getConstraints typeVar g;
  forEach ccConstraint nodeConstraints
    {| oneWayConstraints := oneWayConstraints st;
       ccVisited := ccVisited st; ccState := cc |}.

Definition connectedComponents (cc : ConnectedComponents)
  : Res (list Constraint * ConnectedComponents) :=
  st ← forEach ccTypeVar inputTypeVars
         {| oneWayConstraints := []; ccVisited := ∅; ccState := cc |};
  Done (oneWayConstraints st, ccState st).

(** [getRepresentativesInType], the lambda of [buildOneWayConstraintGraph]. *)
Definition repInTypeStep (typeVar : TypeVariableType)
    (st : list TypeVariableType * gmap TypeVariableType TypeVariableType)
  : Res (list TypeVariableType * gmap TypeVariableType TypeVariableType) :=
  '(rep, reps) ← findRepresentative fuel typeVar st.2;
  Done (insertIfUnique st.1 rep, reps).

Definition getRepresentativesInType (type : Ty)
    (reps : gmap TypeVariableType TypeVariableType)
  : Res (list TypeVariableType * gmap TypeVariableType TypeVariableType) :=
  forEach repInTypeStep (typeVariablesIn type) ([], reps).

Definition digraphAt (dg : gmap TypeVariableType RawOneWayComponent)
    (typeVar : TypeVariableType) : RawOneWayComponent :=
  default emptyRaw (dg !! typeVar).

Definition addOneWayEdge (lhsTypeRep rhsTypeRep : TypeVariableType)
    (dg : gmap TypeVariableType RawOneWayComponent)
  : gmap TypeVariableType RawOneWayComponent :=
  let r := digraphAt dg rhsTypeRep in
  let dg := <[rhsTypeRep :=
               {| rawTypeVars := rawTypeVars r;
                  outAdjacencies := insertIfUnique (outAdjacencies r) lhsTypeRep;
                  inAdjacencies := inAdjacencies r |}]> dg in
  let l := digraphAt dg lhsTypeRep in
  <[lhsTypeRep :=
      {| rawTypeVars := rawTypeVars l;
         outAdjacencies := outAdjacencies l;
         inAdjacencies := insertIfUnique (inAdjacencies l) rhsTypeRep |}]> dg.

Definition addOneWayEdges (lhsTypeReps rhsTypeReps : list TypeVariableType)
    (dg : gmap TypeVariableType RawOneWayComponent)
  : gmap TypeVariableType RawOneWayComponent :=
  foldl (fun dg lhsTypeRep =>
           foldl (fun dg rhsTypeRep => addOneWayEdge lhsTypeRep rhsTypeRep dg)
                 dg rhsTypeReps)
        dg lhsTypeReps.

Definition oneWayEdgesStep (constraint : Constraint)
    (cc : ConnectedComponents) : Res ConnectedComponents :=
  '(lhsTypeReps, reps) ← getRepresentativesInType
                           (getFirstType cs constraint) (representatives cc);
  '(rhsTypeReps, reps) ← getRepresentativesInType
                           (getSecondType cs constraint) reps;
  Done {| cg := cg cc; representatives := reps;
          oneWayDigraph :=
            addOneWayEdges lhsTypeReps rhsTypeReps (oneWayDigraph cc) |}.

Definition placeTypeVarStep (typeVar : TypeVariableType)
    (cc : ConnectedComponents) : Res ConnectedComponents :=
  '(rep, reps) ← findRepresentative fuel typeVar (representatives cc);
  match oneWayDigraph cc !! rep with
  | None => Done (setRepresentatives cc reps)
  | Some known =>
      Done {| cg := cg cc; representatives := reps;
              oneWayDigraph :=
                <[rep := {| rawTypeVars := rawTypeVars known ++ [typeVar];
                            outAdjacencies := outAdjacencies known;
                            inAdjacencies := inAdjacencies known |}]>
                  (oneWayDigraph cc) |}
  end.

Definition buildOneWayConstraintGraph (oneWay : list Constraint)
    (cc : ConnectedComponents) : Res ConnectedComponents :=
  cc ← forEach oneWayEdgesStep oneWay cc;
  forEach placeTypeVarStep inputTypeVars cc.

Definition unionViaConstraintStep (constraint : Constraint)
    (cc : ConnectedComponents) : Res ConnectedComponents :=
  '(_, reps) ← unionSetsViaConstraint cs fuel constraint (representatives cc);
  Done (setRepresentatives cc reps).

(** The constructor of [ConnectedComponents]. *)
Definition makeConnectedComponents (g : ConstraintGraph)
  : Res ConnectedComponents :=
  '(oneWay, cc) ← connectedComponents
                    {| cg := g; representatives := ∅; oneWayDigraph := ∅ |};
  match oneWay with
  | [] => Done cc
  | _ :: _ =>
      cc ← buildOneWayConstraintGraph oneWay cc;
      forEach unionViaConstraintStep oneWay cc
  end.

End Components.

(** Update the element at a position of a vector; out of range is undefined
    in the source. *)
Definition updateAt {A} (i : nat) (f : A -> A) (l : list A) : Res (list A) :=
  x ← fromOption (l !! i);
  Done (<[i := f x]> l).

(** [postorderDepthFirstSearchRec].  The two hooks may update state of
    their own ([findRepresentative] compresses paths, [postVisit] records). *)
Fixpoint postorderDepthFirstSearchRec {S : Type} (fuel : nat)
    (getAdjacencies : TypeVariableType -> S ->
                      Res (list TypeVariableType * S))
    (postVisit : TypeVariableType -> S -> Res S)
    (typeVar : TypeVariableType) (st : gset TypeVariableType * S)
  : Res (gset TypeVariableType * S) :=
  if bool_decide (typeVar ∈ st.1) then Done st
  else
    match fuel with
    | 0 => Timeout
    | S fuel' =>
        '(adjs, s) ← getAdjacencies typeVar st.2;
        '(visited, s) ←
          forEach (postorderDepthFirstSearchRec fuel' getAdjacencies postVisit)
                  adjs ({[typeVar]} ∪ st.1, s);
        s ← postVisit typeVar s;
        Done (visited, s)
    end.

Section GetComponents.

Context (cs : ConstraintSystem) (fuel : nat).
Context (inputTypeVars : list TypeVariableType).

Definition postorderDepthFirstSearch {S : Type}
    (getAdjacencies : TypeVariableType -> S ->
                      Res (list TypeVariableType * S))
    (postVisit : TypeVariableType -> S -> Res S) (s : S) : Res S :=
  '(_, s) ← forEach (postorderDepthFirstSearchRec fuel getAdjacencies postVisit)
                    inputTypeVars (∅, s);
  Done s.

Definition emptyComponent : Component :=
  {| typeVars := []; constraints := []; oneWayComponents := [] |}.

Definition emptyOneWayComponent : OneWayComponent :=
  {| owTypeVars := []; dependsOn := [] |}.

(** First loop of [getComponents]. *)
Definition unboundStep (typeVar : TypeVariableType)
    (st : gset TypeVariableType * gmap TypeVariableType TypeVariableType)
  : Res (gset TypeVariableType * gmap TypeVariableType TypeVariableType) :=
  match getFixedType cs typeVar with
  | Some _ => Done st
  | None =>
      '(rep, reps) ← findRepresentative fuel typeVar st.2;
      Done ({[rep]} ∪ st.1, reps)
  end.

(** The locals of the second loop of [getComponents]. *)
Record AssignLoop : Type := {
  components : list Component;
  componentIdxMap : gmap TypeVariableType nat;
  knownConstraints : gset Constraint;
  assignState : ConnectedComponents;
}.

Definition assignConstraintStep (constraint : Constraint)
    (st : gset Constraint * Component) : Res (gset Constraint * Component) :=
  if bool_decide (constraint ∈ st.1) then Done st
  else
    Done ({[constraint]} ∪ st.1,
          {| typeVars := typeVars st.2;
             constraints := constraints st.2 ++ [constraint];
             oneWayComponents := oneWayComponents st.2 |}).

Definition assignStep
    (componentHasUnboundTypeVar : gset TypeVariableType)
    (typeVar : TypeVariableType) (st : AssignLoop) : Res AssignLoop :=
  let cc := assignState st in
  '(rep, reps) ← findRepresentative fuel typeVar (representatives cc);
  let cc := setRepresentatives cc reps in
  if negb (bool_decide (rep ∈ componentHasUnboundTypeVar)) then
    Done {| components := components st;
            componentIdxMap := componentIdxMap st;
            knownConstraints := knownConstraints st; assignState := cc |}
  else
    let '(componentIdx, idxMap, comps) :=
      match componentIdxMap st !! rep with
      | Some idx => (idx, componentIdxMap st, components st)
      | None =>
          (size (componentIdxMap st),
           <[rep := size (componentIdxMap st)]> (componentIdxMap st),
           components st ++ [emptyComponent])
      end in
    component ← fromOption (comps !! componentIdx);
    let component :=
      {| typeVars := typeVars component ++ [typeVar];
         constraints := constraints component;
         oneWayComponents := oneWayComponents component |} in
    '(_, g) ← lookupNode cs fuel typeVar (cg cc);
    nodeConstraints ← getConstraints typeVar g;
    '(known, component) ← forEach assignConstraintStep nodeConstraints
                            (knownConstraints st, component);
    Done {| components := <[componentIdx := component]> comps;
            componentIdxMap := idxMap;
            knownConstraints := known;
            assignState := setCg cc g |}.

(** The hooks of the first search of
    [populateOneWayComponentDependencies]; the state is the union-find map
    and [dependencyOrders]. *)
Definition outAdjacenciesOf
    (digraph : gmap TypeVariableType RawOneWayComponent)
    (idxMap : gmap TypeVariableType nat) (typeVar : TypeVariableType)
    (st : gmap TypeVariableType TypeVariableType * list (list TypeVariableType))
  : Res (list TypeVariableType *
         (gmap TypeVariableType TypeVariableType *
          list (list TypeVariableType))) :=
  '(rep, reps) ← findRepresentative fuel typeVar st.1;
  match idxMap !! rep with
  | None => Done ([], (reps, st.2))
  | Some _ =>
      match digraph !! typeVar with
      | None => Done ([], (reps, st.2))
      | Some oneWayComponent =>
          Done (outAdjacencies oneWayComponent, (reps, st.2))
      end
  end.

Definition recordDependencyOrder
    (digraph : gmap TypeVariableType RawOneWayComponent)
    (idxMap : gmap TypeVariableType nat) (typeVar : TypeVariableType)
    (st : gmap TypeVariableType TypeVariableType * list (list TypeVariableType))
  : Res (gmap TypeVariableType TypeVariableType *
         list (list TypeVariableType)) :=
  match digraph !! typeVar with
  | None => Done st
  | Some _ =>
      '(rep, reps) ← findRepresentative fuel typeVar st.1;
      match idxMap !! rep with
      | None => Done (reps, st.2)
      | Some idx =>
          orders ← updateAt idx (fun order => order ++ [typeVar]) st.2;
          Done (reps, orders)
      end
  end.

(** The hooks of the backward search, one per subcomponent; the state is
    the subcomponent under construction ([oneWayComponents.back()]). *)
Definition inAdjacenciesOf
    (digraph : gmap TypeVariableType RawOneWayComponent)
    (typeVar : TypeVariableType) (st : OneWayComponent)
  : Res (list TypeVariableType * OneWayComponent) :=
  match digraph !! typeVar with
  | None => Done ([], st)
  | Some oneWayComponent => Done (inAdjacencies oneWayComponent, st)
  end.

Definition recordDependsOn (subcomponentIdxs : gmap TypeVariableType nat)
    (typeVar dependsOnVar : TypeVariableType) (st : OneWayComponent)
  : Res OneWayComponent :=
  if bool_decide (dependsOnVar = typeVar) then Done st
  else
    subcomponentIdx ← fromOption (subcomponentIdxs !! dependsOnVar);
    Done {| owTypeVars := owTypeVars st;
            dependsOn := dependsOn st ++ [subcomponentIdx] |}.

(** The body of the loop over [reversed(dependencyOrder)]; the state is
    [subcomponentIdxs] and the component's [oneWayComponents]. *)
Definition subcomponentStep
    (digraph : gmap TypeVariableType RawOneWayComponent)
    (typeVar : TypeVariableType)
    (st : gmap TypeVariableType nat * list OneWayComponent)
  : Res (gmap TypeVariableType nat * list OneWayComponent) :=
  _ ← assert (bool_decide (st.1 !! typeVar = None));
  let subcomponentIdxs := <[typeVar := length st.2]> st.1 in
  let fresh :=
    match digraph !! typeVar with
    | Some rawOneWayComponent =>
        {| owTypeVars := rawTypeVars rawOneWayComponent; dependsOn := [] |}
    | None => {| owTypeVars := [typeVar]; dependsOn := [] |}
    end in
  '(_, owc) ← postorderDepthFirstSearchRec fuel (inAdjacenciesOf digraph)
                (recordDependsOn subcomponentIdxs typeVar) typeVar (∅, fresh);
  Done (subcomponentIdxs, st.2 ++ [owc]).

Definition populateComponent
    (digraph : gmap TypeVariableType RawOneWayComponent)
    (dependencyOrder : list TypeVariableType) (component : Component)
  : Res Component :=
  match dependencyOrder with
  | [] => Done component
  | _ :: _ =>
      '(_, owcs) ← forEach (subcomponentStep digraph) (reverse dependencyOrder)
                     (∅, oneWayComponents component);
      Done {| typeVars := typeVars component;
              constraints := constraints component;
              oneWayComponents := owcs |}
  end.

(** Run a body on the elements of two vectors of equal length, index by
    index. *)
Fixpoint forEach2 {A B : Type} (body : A -> B -> Res B) (l : list A)
    (k : list B) : Res (list B) :=
  match l, k with
  | x :: l', y :: k' =>
      y' ← body x y; k'' ← forEach2 body l' k'; Done (y' :: k'')
  | _, [] => Done []
  | [], _ :: _ => Abort
  end.

Definition populateOneWayComponentDependencies
    (cc : ConnectedComponents) (idxMap : gmap TypeVariableType nat)
    (comps : list Component) : Res (list Component * ConnectedComponents) :=
  let digraph := oneWayDigraph cc in
  '(reps, dependencyOrders) ←
    postorderDepthFirstSearch (outAdjacenciesOf digraph idxMap)
      (recordDependencyOrder digraph idxMap)
      (representatives cc, replicate (length comps) []);
  comps ← forEach2 (populateComponent digraph) dependencyOrders comps;
  Done (comps, setRepresentatives cc reps).

Definition getComponents (cc : ConnectedComponents)
  : Res (list Component * ConnectedComponents) :=
  '(componentHasUnboundTypeVar, reps) ←
    forEach unboundStep inputTypeVars (∅, representatives cc);
  st ← forEach (assignStep componentHasUnboundTypeVar) inputTypeVars
         {| components := []; componentIdxMap := ∅; knownConstraints := ∅;
            assignState := setRepresentatives cc reps |};
  if bool_decide (oneWayDigraph cc = ∅) then
    Done (components st, assignState st)
  else
    populateOneWayComponentDependencies (assignState st)
      (componentIdxMap st) (components st).

Definition computeConnectedComponents (g : ConstraintGraph)
  : Res (list Component * ConstraintGraph) :=
  cc ← makeConnectedComponents cs fuel inputTypeVars g;
  '(comps, cc) ← getComponents cc;
  Done (comps, cg cc).

End GetComponents.

(** ** Edge contraction *)

Definition shouldContractEdge (kind : ConstraintKind) : bool :=
  match kind with
  | Bind | BindParam | BindToPointerType | Equal => true
  | _ => false
  end.

(** Modelled from the spec: [find_constraints(predicate)] enumerates the
    registered constraints, the active ones before the inactive ones. *)
Definition findConstraints (cs : ConstraintSystem)
    (pred : Constraint -> bool) : list Constraint :=
  filter (fun c => pred c = true) (ActiveConstraints cs ++ InactiveConstraints cs).

Definition setConstraintLists (cs : ConstraintSystem)
    (active inactive : list Constraint) (ss : option SolverState)
  : ConstraintSystem :=
  {| getRepresentative := getRepresentative cs;
     getFixedType := getFixedType cs;
     canBindToLValue := canBindToLValue cs;
     canBindToInOut := canBindToInOut cs;
     getPotentialBindings := getPotentialBindings cs;
     getKind := getKind cs;
     getFirstType := getFirstType cs;
     getSecondType := getSecondType cs;
     getTypeVariables := getTypeVariables cs;
     ActiveConstraints := active;
     InactiveConstraints := inactive;
     solverState := ss |}.

(** [list::erase] of one element. *)
Fixpoint eraseFirst (c : Constraint) (l : list Constraint)
  : list Constraint :=
  match l with
  | [] => []
  | x :: l' => if bool_decide (x = c) then l' else x :: eraseFirst c l'
  end.

(** Modelled from the spec: [retire_constraint] and
    [remove_generated_constraint] of the solver state. *)
Definition retireConstraint (c : Constraint) (ss : SolverState)
  : SolverState :=
  {| depth := depth ss; retiredConstraints := c :: retiredConstraints ss;
     generatedConstraints := generatedConstraints ss |}.

Definition removeGeneratedConstraint (c : Constraint) (ss : SolverState)
  : SolverState :=
  {| depth := depth ss; retiredConstraints := retiredConstraints ss;
     generatedConstraints := eraseFirst c (generatedConstraints ss) |}.

(** The test applied to each nested type of a candidate binding. *)
Definition mentionsInOut (cs : ConstraintSystem) (nestedType : Ty) : bool :=
  match getAsTypeVariable nestedType with
  | Some tv => if canBindToInOut cs tv then true else isInOutType nestedType
  | None => isInOutType nestedType
  end.

(** The loop over the candidate bindings, leaving at the first candidate
    that is not contractable. *)
Fixpoint scanBindings (cs : ConstraintSystem) (bindings : list Ty)
    (isNotContractable : bool) : bool :=
  match bindings with
  | [] => isNotContractable
  | type :: rest =>
      let isNotContractable := findIf (mentionsInOut cs) type in
      if isNotContractable then true
      else scanBindings cs rest isNotContractable
  end.

Definition isNotContractable (cs : ConstraintSystem)
    (tyvar1 : TypeVariableType) : bool :=
  match getPotentialBindings cs tyvar1 with
  | Some bindings => scanBindings cs bindings true
  | None => true
  end.

Definition removeEdge (fuel : nat) (constraint : Constraint)
    (st : ConstraintSystem * ConstraintGraph)
  : Res (ConstraintSystem * ConstraintGraph) :=
  let '(cs, g) := st in
  let inActive := bool_decide (constraint ∈ ActiveConstraints cs) in
  let active :=
    if inActive then eraseFirst constraint (ActiveConstraints cs)
    else ActiveConstraints cs in
  let inInactive := bool_decide (constraint ∈ InactiveConstraints cs) in
  let inactive :=
    if inInactive then eraseFirst constraint (InactiveConstraints cs)
    else InactiveConstraints cs in
  let isExistingConstraint := inActive || inInactive in
  let ss :=
    match solverState cs with
    | Some ss =>
        Some (if isExistingConstraint then retireConstraint constraint ss
              else removeGeneratedConstraint constraint ss)
    | None => None
    end in
  let cs := setConstraintLists cs active inactive ss in
  g ← removeConstraint cs fuel constraint g;
  Done (cs, g).

Section Contraction.

Context (fuel : nat).

(** Modelled from the spec: [merge_equivalence_classes(a, b,
    update_work_list)], the merge performed by the constraint system; it is
    declared outside this file and is taken as given. *)
Context (mergeEquivalenceClasses :
           TypeVariableType -> TypeVariableType -> bool ->
           ConstraintSystem * ConstraintGraph ->
           Res (ConstraintSystem * ConstraintGraph)).

(** Merge the edges and remove the constraint. *)
Definition contract (constraint : Constraint)
    (rep1 rep2 : TypeVariableType)
    (st : ConstraintSystem * ConstraintGraph)
  : Res (ConstraintSystem * ConstraintGraph) :=
  st ← removeEdge fuel constraint st;
  if bool_decide (rep1 ≠ rep2) then
    mergeEquivalenceClasses rep1 rep2 false st
  else Done st.

(** The body of the loop of [contractEdges]; the flag tells whether this
    constraint was contracted. *)
Definition contractEdge (constraint : Constraint)
    (st : ConstraintSystem * ConstraintGraph)
  : Res (bool * (ConstraintSystem * ConstraintGraph)) :=
  let cs := st.1 in
  let kind := getKind cs constraint in
  _ ← assert (shouldContractEdge kind);
  let t1 := getDesugaredType (getFirstType cs constraint) in
  let t2 := getDesugaredType (getSecondType cs constraint) in
  match getAsTypeVariable t1, getAsTypeVariable t2 with
  | Some tyvar1, Some tyvar2 =>
      let isParamBindingConstraint := bool_decide (kind = BindParam) in
      if isParamBindingConstraint && canBindToInOut cs tyvar1 &&
         isNotContractable cs tyvar1
      then Done (false, st)
      else
        let rep1 := getRepresentative cs tyvar1 in
        let rep2 := getRepresentative cs tyvar2 in
        if bool_decide (canBindToLValue cs rep1 = canBindToLValue cs rep2) ||
           isParamBindingConstraint
        then
          st ← contract constraint rep1 rep2 st;
          Done (true, st)
        else Done (false, st)
  | _, _ => Done (false, st)
  end.

Definition contractEdgeStep (constraint : Constraint)
    (acc : bool * (ConstraintSystem * ConstraintGraph))
  : Res (bool * (ConstraintSystem * ConstraintGraph)) :=
  '(contracted, st) ← contractEdge constraint acc.2;
  Done (contracted || acc.1, st).

Definition contractEdges (st : ConstraintSystem * ConstraintGraph)
  : Res (bool * (ConstraintSystem * ConstraintGraph)) :=
  let collected :=
    findConstraints st.1 (fun c => shouldContractEdge (getKind st.1 c)) in
  forEach contractEdgeStep collected (false, st).

(** [optimize]: contract until nothing is contracted any more, within the
    given number of rounds. *)
Fixpoint optimize (rounds : nat) (st : ConstraintSystem * ConstraintGraph)
  : Res (ConstraintSystem * ConstraintGraph) :=
  match rounds with
  | 0 => Timeout
  | S rounds' =>
      '(didContractEdges, st) ← contractEdges st;
      if (didContractEdges : bool) then optimize rounds' st else Done st
  end.

End Contraction.

(** ** Verification *)

(** [ConstraintGraphNode::verify]: the constraint vector and its map have
    not gotten out of sync.  The checks of one entry do not depend on the
    others, so the order in which the map is enumerated is immaterial. *)
Definition node_verifyEntry (n : ConstraintGraphNode)
    (info : Constraint * nat) (_ : unit) : Res unit :=
  _ ← assert (bool_decide (info.2 < length (Constraints n)));
  assert (bool_decide (Constraints n !! info.2 = Some info.1)).

Definition node_verify (n : ConstraintGraphNode) : Res unit :=
  _ ← assert (bool_decide (length (Constraints n) = size (ConstraintIndex n)));
  forEach (node_verifyEntry n) (map_to_list (ConstraintIndex n)) tt.

Section Verification.

Context (cs : ConstraintSystem) (fuel : nat).

(** The type variables are either representatives or represented within
    their representative's equivalence class.  Both branches read the class
    of the representative's node through [getEquivalenceClass]; reading it
    again returns the same class, so it is read once here. *)
Definition verifyEquivalent (typeVar equiv : TypeVariableType) (_ : unit)
  : Res unit :=
  assert (bool_decide (typeVar = getRepresentative cs equiv)).

Definition verifyRepresented (typeVar : TypeVariableType)
    (g : ConstraintGraph) : Res ConstraintGraph :=
  let typeVarRep := getRepresentative cs typeVar in
  '(_, g) ← lookupNode cs fuel typeVarRep g;
  '(ec, g) ← getEquivalenceClass cs typeVarRep g;
  if bool_decide (typeVar ≠ typeVarRep) then
    _ ← assert (bool_decide (typeVar ∈ ec));
    Done g
  else
    _ ← forEach (verifyEquivalent typeVar) ec tt;
    Done g.

(** The type variable map and vector are in sync. *)
Definition verifyIndex (g : ConstraintGraph)
    (slot : nat * TypeVariableType) (_ : unit) : Res unit :=
  _ ← assert (bool_decide (GraphIndex g !! slot.2 = Some slot.1));
  assert (bool_decide (is_Some (Nodes g !! slot.2))).

(** Consistency of all of the nodes in the graph. *)
Definition verifyNode (g : ConstraintGraph) (typeVar : TypeVariableType)
    (_ : unit) : Res unit :=
  n ← fromOption (Nodes g !! typeVar);
  node_verify n.

(** Collect all of the constraints known to the constraint graph. *)
Definition collectKnown (typeVar : TypeVariableType)
    (acc : gset Constraint * ConstraintGraph)
  : Res (gset Constraint * ConstraintGraph) :=
  '(_, g) ← lookupNode cs fuel typeVar acc.2;
  constraints ← getConstraints typeVar g;
  Done (acc.1 ∪ list_to_set constraints, g).

(** All of the constraints in the constraint system are accounted for. *)
Definition verifyMention (g : ConstraintGraph) (constraint : Constraint)
    (typeVar : TypeVariableType) (_ : unit) : Res unit :=
  node ← fromOption (Nodes g !! typeVar);
  assert (bool_decide (is_Some (ConstraintIndex node !! constraint))).

Definition verifyConstraint (knownConstraints : gset Constraint)
    (g : ConstraintGraph) (constraint : Constraint) (_ : unit) : Res unit :=
  let referencedTypeVars := getTypeVariables cs constraint in
  _ ← assert (bool_decide (constraint ∈ knownConstraints) ||
              bool_decide (referencedTypeVars = []));
  forEach (verifyMention g constraint) referencedTypeVars tt.

(** [ConstraintGraph::verify].  [constraints] is what the constraint system
    answers to [getConstraints()].  The first loop runs over the type
    variables present when it starts. *)
Definition verify (constraints : list Constraint) (g : ConstraintGraph)
  : Res ConstraintGraph :=
  g ← forEach verifyRepresented (TypeVariables g) g;
  _ ← forEach (verifyIndex g) (imap pair (TypeVariables g)) tt;
  _ ← forEach (verifyNode g) (TypeVariables g) tt;
  '(knownConstraints, g) ← forEach collectKnown (TypeVariables g) (∅, g);
  _ ← forEach (verifyConstraint knownConstraints g) constraints tt;
  Done g.

End Verification.

(** * Properties *)

(** ** Reasoning about runs *)

Lemma bind_Done {A B} (m : Res A) (f : A -> Res B) (b : B) :
  m ≫= f = Done b <-> exists a, m = Done a /\ f a = Done b.
Proof.
  destruct m as [a| |]; simpl; split.
  - intros H. exists a. auto.
  - intros (a' & Ha & Hf). congruence.
  - discriminate.
  - intros (a' & Ha & _). discriminate.
  - discriminate.
  - intros (a' & Ha & _). discriminate.
Qed.

Lemma assert_Done (b : bool) (u : unit) : assert b = Done u <-> b = true.
Proof. destruct b, u; simpl; split; congruence. Qed.

Lemma fromOption_Done {A} (o : option A) (a : A) :
  fromOption o = Done a <-> o = Some a.
Proof. destruct o; simpl; split; congruence. Qed.

(** Decompose a hypothesis stating that a run is [Done]. *)
Ltac inv_done :=
  repeat match goal with
  | H : _ ≫= _ = Done _ |- _ =>
      let a := fresh "r" in
      let Ha := fresh "Hr" in
      apply bind_Done in H as (a & Ha & H)
  | H : assert _ = Done _ |- _ => apply assert_Done in H
  | H : fromOption _ = Done _ |- _ => apply fromOption_Done in H
  | H : Done _ = Done _ |- _ => injection H as H; try subst
  | H : @Abort _ = Done _ |- _ => discriminate H
  | H : @Timeout _ = Done _ |- _ => discriminate H
  | H : mret _ = Done _ |- _ => injection H as H; try subst
  | H : bool_decide _ = true |- _ => apply bool_decide_eq_true_1 in H
  | H : bool_decide _ = false |- _ => apply bool_decide_eq_false_1 in H
  | H : (let '(_, _) := ?p in _) = Done _ |- _ => destruct p
  end.

Lemma forEach_invariant {A S} (P : S -> Prop) (body : A -> S -> Res S)
    (l : list A) (s s' : S) :
  P s ->
  (forall x s1 s2, x ∈ l -> P s1 -> body x s1 = Done s2 -> P s2) ->
  forEach body l s = Done s' -> P s'.
Proof.
  revert s. induction l as [|x l IH]; simpl; intros s Hs Hbody Hrun.
  - congruence.
  - apply bind_Done in Hrun as (s1 & H1 & Hrun).
    apply (IH s1); [|intros y t1 t2 Hy; apply Hbody; set_solver|auto].
    apply (Hbody x s s1); [set_solver|auto|auto].
Qed.

(** The same with an invariant that knows which elements have been
    processed. *)
Lemma forEach_prefix_invariant {A S} (P : list A -> S -> Prop)
    (body : A -> S -> Res S) (l : list A) (s s' : S) :
  P [] s ->
  (forall pre x s1 s2, prefix (pre ++ [x]) l ->
     P pre s1 -> body x s1 = Done s2 -> P (pre ++ [x]) s2) ->
  forEach body l s = Done s' -> P l s'.
Proof.
  intros Hs Hbody.
  assert (Hgen : forall rest pre s, pre ++ rest = l -> P pre s ->
            forEach body rest s = Done s' -> P l s').
  { induction rest as [|x rest IH]; simpl; intros pre t Hl Ht Hrun.
    - rewrite app_nil_r in Hl. subst. congruence.
    - apply bind_Done in Hrun as (t1 & H1 & Hrun).
      apply (IH (pre ++ [x]) t1); [by rewrite <- app_assoc| |auto].
      apply (Hbody pre x t t1); auto.
      exists rest. by rewrite <- app_assoc. }
  intros Hrun. by apply (Hgen l [] s).
Qed.

Lemma forEach_app {A S} (body : A -> S -> Res S) (l1 l2 : list A) (s : S) :
  forEach body (l1 ++ l2) s = forEach body l1 s ≫= forEach body l2.
Proof.
  revert s. induction l1 as [|x l1 IH]; simpl; intros s; [done|].
  destruct (body x s) as [s1| |]; simpl; auto.
Qed.

(** ** Well-formed graphs

    The node store and the vector of type variables agree, and every stored
    graph-index is the slot of its variable. *)

Record GraphWF (g : ConstraintGraph) : Prop := {
  wf_nodup : NoDup (TypeVariables g);
  wf_index : forall i tv,
    TypeVariables g !! i = Some tv -> GraphIndex g !! tv = Some i;
  wf_nodes : forall tv, is_Some (Nodes g !! tv) <-> tv ∈ TypeVariables g;
}.

Definition hasNode (g : ConstraintGraph) (tv : TypeVariableType) : Prop :=
  is_Some (Nodes g !! tv).

Lemma emptyGraph_wf : GraphWF emptyGraph.
Proof.
  split; simpl.
  - constructor.
  - intros i tv H. by rewrite lookup_nil in H.
  - intros tv. rewrite lookup_empty. split; [intros [? ?]; done|].
    intros H. by apply elem_of_nil in H.
Qed.

Lemma lookupNode_existing cs fuel g tv :
  GraphWF g -> hasNode g tv ->
  exists i, lookupNode cs fuel tv g = Done (i, g) /\
            TypeVariables g !! i = Some tv.
Proof.
  intros Hwf [n Hn].
  assert (Hin : tv ∈ TypeVariables g) by (apply (wf_nodes g Hwf); eauto).
  apply list_elem_of_lookup in Hin as [i Hi].
  exists i. split; [|done].
  assert (Hlt : i < length (TypeVariables g)) by (by apply lookup_lt_Some in Hi).
  destruct fuel; simpl; rewrite Hn;
    rewrite (wf_index g Hwf i tv Hi); simpl;
    rewrite (bool_decide_eq_true_2 _ Hlt); simpl;
    by rewrite (bool_decide_eq_true_2 _ Hi).
Qed.

Lemma lookupNode_existing_inv cs fuel g tv i g' :
  hasNode g tv -> lookupNode cs fuel tv g = Done (i, g') ->
  g' = g /\ TypeVariables g !! i = Some tv.
Proof.
  intros [n Hn] Hrun.
  destruct fuel; simpl in Hrun; rewrite Hn in Hrun; inv_done; auto.
Qed.

(** ** What the node operations do to the graph *)

Lemma materialize_set n :
  materialize n = setEquivalenceClass n (EquivalenceClass (materialize n)).
Proof. unfold materialize. destruct n as [tv c i [|x ec] fb]; reflexivity. Qed.

Lemma materialize_length n : 1 <= length (EquivalenceClass (materialize n)).
Proof.
  unfold materialize. destruct (EquivalenceClass n) eqn:E; simpl; [lia|].
  rewrite E. simpl. lia.
Qed.

Lemma setEquivalenceClass_materialize n ec :
  setEquivalenceClass (materialize n) ec = setEquivalenceClass n ec.
Proof. unfold materialize. destruct n as [tv c i [|x l] fb]; reflexivity. Qed.

(** Replace the equivalence class of a node. *)
Definition updateClass (tv : TypeVariableType) (n : ConstraintGraphNode)
    (ec : list TypeVariableType) (g : ConstraintGraph) : ConstraintGraph :=
  setNodes g (<[tv := setEquivalenceClass n ec]> (Nodes g)).

(** Push a symmetric pair of fixed bindings. *)
Definition pushPair (tv other : TypeVariableType)
    (n1 n2 : ConstraintGraphNode) (g : ConstraintGraph) : ConstraintGraph :=
  setNodes g
    (<[tv := setFixedBindings n1 (FixedBindings n1 ++ [other])]>
       (<[other := setFixedBindings n2 (FixedBindings n2 ++ [tv])]>
          (Nodes g))).

Lemma getEquivalenceClassUnsafe_Done tv g ec g' :
  getEquivalenceClassUnsafe tv g = Done (ec, g') ->
  exists n, Nodes g !! tv = Some n /\
            ec = EquivalenceClass (materialize n) /\
            g' = updateClass tv n ec g.
Proof.
  unfold getEquivalenceClassUnsafe, node_getEquivalenceClassUnsafe.
  intros H. inv_done. exists r. split; [done|]. split; [done|].
  unfold updateClass. by rewrite <- materialize_set.
Qed.

Lemma getEquivalenceClass_Done cs tv g ec g' :
  getEquivalenceClass cs tv g = Done (ec, g') ->
  exists n, Nodes g !! tv = Some n /\
            TypeVar n = getRepresentative cs (TypeVar n) /\
            ec = EquivalenceClass (materialize n) /\
            g' = updateClass tv n ec g.
Proof.
  unfold getEquivalenceClass, node_getEquivalenceClass,
    node_getEquivalenceClassUnsafe.
  intros H. inv_done. exists r. split; [done|]. split; [done|].
  split; [done|]. unfold updateClass. by rewrite <- materialize_set.
Qed.

Lemma addToEquivalenceClass_Done cs tv ec g g' :
  withNode tv (node_addToEquivalenceClass cs ec) g = Done g' ->
  exists n, Nodes g !! tv = Some n /\
            TypeVar n = getRepresentative cs (TypeVar n) /\
            g' = updateClass tv n (EquivalenceClass (materialize n) ++ ec) g.
Proof.
  unfold withNode, node_addToEquivalenceClass.
  intros H. inv_done. exists r. split; [done|]. split; [done|].
  unfold updateClass. by rewrite setEquivalenceClass_materialize.
Qed.

Lemma addFixedBinding_pair tv other g g1 g2 :
  tv <> other ->
  withNode other (node_addFixedBinding tv) g = Done g1 ->
  withNode tv (node_addFixedBinding other) g1 = Done g2 ->
  exists n1 n2, Nodes g !! tv = Some n1 /\ Nodes g !! other = Some n2 /\
                g2 = pushPair tv other n1 n2 g.
Proof.
  unfold withNode, node_addFixedBinding. intros Hne H1 H2. inv_done.
  simpl in Hr. rewrite lookup_insert_ne in Hr by done.
  exists r, r1. split; [done|]. split; [done|]. reflexivity.
Qed.

(** The journal step of [mergeNodes]. *)
Definition recordedExtension (cs : ConstraintSystem)
    (rep : TypeVariableType) (g g' : ConstraintGraph) : Prop :=
  match ActiveScope g with
  | Some _ =>
      exists n, Nodes g !! rep = Some n /\
        TypeVar n = getRepresentative cs (TypeVar n) /\
        g' = recordChange
               (ExtendedEquivalenceClass rep
                  (length (EquivalenceClass (materialize n))))
               (updateClass rep n (EquivalenceClass (materialize n)) g)
  | None => g' = g
  end.

Lemma mergeNodesWith_Done cs lookup typeVar1 typeVar2 g g' :
  mergeNodesWith cs lookup typeVar1 typeVar2 g = Done g' ->
  let rep := getRepresentative cs typeVar1 in
  let nonRep := if bool_decide (typeVar1 = rep) then typeVar2 else typeVar1 in
  exists i1 g1 g2 i3 g3 ec g4,
    getRepresentative cs typeVar1 = getRepresentative cs typeVar2 /\
    lookup rep g = Done (i1, g1) /\
    (typeVar1 = rep \/ typeVar2 = rep) /\
    recordedExtension cs rep g1 g2 /\
    lookup nonRep g2 = Done (i3, g3) /\
    getEquivalenceClassUnsafe nonRep g3 = Done (ec, g4) /\
    withNode rep (node_addToEquivalenceClass cs ec) g4 = Done g'.
Proof.
  unfold mergeNodesWith. intros H. simpl.
  apply bind_Done in H as (u0 & H0 & H).
  apply assert_Done, bool_decide_eq_true_1 in H0.
  apply bind_Done in H as ([i1 g1] & H1 & H).
  apply bind_Done in H as (u2 & H2 & H). apply assert_Done in H2.
  apply bind_Done in H as (g2 & H3 & H).
  apply bind_Done in H as ([i3 g3] & H4 & H).
  apply bind_Done in H as ([ec g4] & H5 & H).
  exists i1, g1, g2, i3, g3, ec, g4.
  split; [done|]. split; [done|]. split.
  { apply orb_true_iff in H2 as [H2|H2]; inv_done; auto. }
  split; [|done].
  unfold recordedExtension. destruct (ActiveScope g1); [|by inv_done].
  apply bind_Done in H3 as ([ec' g'']& Hec & H3). inv_done.
  apply getEquivalenceClass_Done in Hec as (n & Hn & Hrep & -> & ->).
  eauto.
Qed.

Lemma bindStep_Done lookup typeVar other known g known' g' :
  bindStep lookup typeVar other (known, g) = Done (known', g') ->
  (other ∈ known /\ known' = known /\ g' = g) \/
  ((other ∉ known) /\ known' = {[other]} ∪ known /\
   ((typeVar = other /\ g' = g) \/
    (typeVar <> other /\
     (exists i1 g1 n1 n2, lookup other g = Done (i1, g1) /\
        Nodes g1 !! typeVar = Some n1 /\ Nodes g1 !! other = Some n2 /\
        g' = pushPair typeVar other n1 n2 g1)))).
Proof.
  unfold bindStep. intros H.
  destruct (bool_decide (other ∈ known)) eqn:Hk.
  { inv_done. auto. }
  right. inv_done. split; [done|].
  destruct (bool_decide (typeVar = other)) eqn:Ho.
  { inv_done. auto. }
  apply bind_Done in H as ([i1 g1] & H1 & H).
  apply bind_Done in H as (ga & H2 & H).
  apply bind_Done in H as (gb & H3 & H). inv_done.
  split; [done|]. right. split; [done|].
  destruct (addFixedBinding_pair _ _ _ _ _ Ho H2 H3)
    as (n1 & n2 & Hn1 & Hn2 & ->).
  exists i1, g1, n1, n2. auto.
Qed.

Lemma bindTypeVariableWith_Done lookup typeVar fixed g g' :
  bindTypeVariableWith lookup typeVar fixed g = Done g' ->
  (hasTypeVariable fixed = false /\ g' = g) \/
  (hasTypeVariable fixed = true /\
   exists i1 g1 known g2,
     lookup typeVar g = Done (i1, g1) /\
     forEach (bindStep lookup typeVar) (typeVariablesIn fixed) (∅, g1)
       = Done (known, g2) /\
     g' = recordChange (BoundTypeVariable typeVar fixed) g2).
Proof.
  unfold bindTypeVariableWith. intros H.
  destruct (hasTypeVariable fixed); simpl in H.
  2:{ inv_done. auto. }
  right. split; [done|].
  apply bind_Done in H as ([i1 g1] & H1 & H).
  apply bind_Done in H as ([known g2] & H2 & H). inv_done.
  exists i1, g1, known, g2. auto.
Qed.

Lemma lookupNode_Done cs fuel tv g i g' :
  lookupNode cs fuel tv g = Done (i, g') ->
  (hasNode g tv /\ g' = g /\ TypeVariables g !! i = Some tv) \/
  (Nodes g !! tv = None /\ i = length (TypeVariables g) /\
   exists fuel', fuel = S fuel' /\
     let rep := getRepresentative cs tv in
     if bool_decide (tv ≠ rep) then
       mergeNodesWith cs (lookupNode cs fuel') tv rep (createNode tv g)
         = Done g'
     else
       match getFixedType cs rep with
       | Some fixed =>
           bindTypeVariableWith (lookupNode cs fuel') tv fixed
             (createNode tv g) = Done g'
       | None => g' = createNode tv g
       end).
Proof.
  intros H. destruct (Nodes g !! tv) as [n|] eqn:Hn.
  - left. assert (Hh : hasNode g tv) by (by eexists).
    destruct (lookupNode_existing_inv _ _ _ _ _ _ Hh H). auto.
  - right. split; [done|]. destruct fuel as [|fuel']; simpl in H;
      rewrite Hn in H; [discriminate|].
    apply bind_Done in H as (g1 & H1 & H). inv_done.
    split; [done|]. exists fuel'. split; [done|]. simpl.
    destruct (bool_decide (tv ≠ getRepresentative cs tv)); [done|].
    destruct (getFixedType cs (getRepresentative cs tv)); [done|].
    by inv_done.
Qed.

Lemma bindStep_known' lookup typeVar l known g known' g' :
  forEach (bindStep lookup typeVar) l (known, g) = Done (known', g') ->
  forall u, u ∈ known -> u ∈ known'.
Proof.
  revert known g. induction l as [|x l IH]; intros known g Hrun u Hu;
    simpl in Hrun.
  { by injection Hrun as <- <-. }
  apply bind_Done in Hrun as ([k1 g1] & Hstep & Hrun).
  apply (IH _ _ Hrun).
  apply bindStep_Done in Hstep as [(_ & -> & _)|(_ & -> & _)]; set_solver.
Qed.

(** What a change that [mergeNodes] or [bindTypeVariable] records looks
    like at the time it is recorded. *)
Definition recordable (ch : Change) (g : ConstraintGraph) : Prop :=
  match ch with
  | ExtendedEquivalenceClass tv prevSize =>
      exists n, Nodes g !! tv = Some n /\
                prevSize = length (EquivalenceClass n) /\ 1 <= prevSize
  | BoundTypeVariable tv fixed =>
      hasNode g tv /\ hasTypeVariable fixed = true /\
      forall u, u ∈ typeVariablesIn fixed -> hasNode g u
  | _ => False
  end.

Lemma hasNode_updateClass tv n ec g u :
  Nodes g !! tv = Some n -> hasNode (updateClass tv n ec g) u <-> hasNode g u.
Proof.
  intros Hn. unfold hasNode, updateClass. simpl.
  destruct (decide (tv = u)) as [->|Hne].
  - rewrite lookup_insert_eq, Hn. split; eauto.
  - by rewrite lookup_insert_ne.
Qed.

Lemma hasNode_recordChange ch g u :
  hasNode (recordChange ch g) u <-> hasNode g u.
Proof. unfold hasNode, recordChange. by destruct (ActiveScope g). Qed.

Lemma hasNode_pushPair tv other n1 n2 g u :
  Nodes g !! tv = Some n1 -> Nodes g !! other = Some n2 ->
  hasNode (pushPair tv other n1 n2 g) u <-> hasNode g u.
Proof.
  intros H1 H2. unfold hasNode, pushPair. simpl.
  destruct (decide (tv = u)) as [->|Hne].
  - rewrite lookup_insert_eq, H1. split; eauto.
  - rewrite lookup_insert_ne by done.
    destruct (decide (other = u)) as [->|Hne2].
    + rewrite lookup_insert_eq, H2. split; eauto.
    + by rewrite lookup_insert_ne.
Qed.

Lemma hasNode_createNode tv g u :
  hasNode (createNode tv g) u <-> u = tv \/ hasNode g u.
Proof.
  unfold createNode. rewrite hasNode_recordChange. unfold hasNode. simpl.
  destruct (decide (tv = u)) as [->|Hne].
  - rewrite lookup_insert_eq. split; eauto.
  - rewrite lookup_insert_ne by done. split; [auto|]. intros [->|H]; done.
Qed.

Lemma recordChange_ActiveScope ch g :
  ActiveScope (recordChange ch g) = ActiveScope g.
Proof.
  unfold recordChange. destruct (ActiveScope g) eqn:E; simpl; congruence.
Qed.

Lemma recordChange_active ch g :
  is_Some (ActiveScope g) -> Changes (recordChange ch g) = Changes g ++ [ch].
Proof. intros [s Hs]. unfold recordChange. rewrite Hs. done. Qed.

Lemma recordChange_prefix ch g :
  Changes g `prefix_of` Changes (recordChange ch g).
Proof.
  unfold recordChange. destruct (ActiveScope g); simpl; [|done].
  by apply prefix_app_r.
Qed.

(** ** Invariants of node lookup

    The fixed bindings that [bindTypeVariable] pushes are journalled only at
    its end, after the lookups of the other variables, which may bind in
    turn.  An invariant is therefore indexed by the pushes that are still to
    be journalled: pairs (owner, pushed variable), in the order pushed. *)

Definition pairPushes (tv other : TypeVariableType)
  : list (TypeVariableType * TypeVariableType) :=
  [(other, tv); (tv, other)].

Fixpoint bindPushes (typeVar : TypeVariableType)
    (typeVars : list TypeVariableType) (known : gset TypeVariableType)
  : list (TypeVariableType * TypeVariableType) :=
  match typeVars with
  | [] => []
  | other :: rest =>
      if bool_decide (other ∈ known) then bindPushes typeVar rest known
      else
        (if bool_decide (typeVar = other) then []
         else pairPushes typeVar other) ++
        bindPushes typeVar rest ({[other]} ∪ known)
  end.

Definition pushesOf (typeVar : TypeVariableType) (fixed : Ty)
  : list (TypeVariableType * TypeVariableType) :=
  bindPushes typeVar (typeVariablesIn fixed) ∅.

(** A property kept by the elementary steps of the slow path of
    [lookupNode]. *)
Record StepInvariant
    (P : list (TypeVariableType * TypeVariableType) ->
         ConstraintGraph -> Prop) : Prop := {
  inv_create : forall pend tv g,
    Nodes g !! tv = None -> P pend g -> P pend (createNode tv g);
  inv_materialize : forall pend tv n g,
    Nodes g !! tv = Some n -> P pend g ->
    P pend (updateClass tv n (EquivalenceClass (materialize n)) g);
  inv_extend : forall pend tv n g,
    Nodes g !! tv = Some n -> 1 <= length (EquivalenceClass n) -> P pend g ->
    P pend (recordChange
              (ExtendedEquivalenceClass tv (length (EquivalenceClass n))) g);
  inv_append : forall pend tv n ec g,
    Nodes g !! tv = Some n ->
    (is_Some (ActiveScope g) ->
     exists pendpast gpast m jpost,
       P pendpast gpast /\
       Changes g = Changes gpast ++ ExtendedEquivalenceClass tv m :: jpost) ->
    P pend g ->
    P pend (updateClass tv n (EquivalenceClass (materialize n) ++ ec) g);
  inv_pair : forall pend tv other n1 n2 g,
    tv <> other -> Nodes g !! tv = Some n1 -> Nodes g !! other = Some n2 ->
    P pend g -> P (pend ++ pairPushes tv other) (pushPair tv other n1 n2 g);
  inv_bound : forall pend tv fixed g,
    hasNode g tv -> hasTypeVariable fixed = true ->
    (forall u, u ∈ typeVariablesIn fixed -> hasNode g u) ->
    P (pend ++ pushesOf tv fixed) g ->
    P pend (recordChange (BoundTypeVariable tv fixed) g);
}.

(** A property that does not look at the pending pushes. *)
Lemma simpleStepInvariant (P : ConstraintGraph -> Prop) :
  (forall tv g, Nodes g !! tv = None -> P g -> P (createNode tv g)) ->
  (forall ch g, recordable ch g -> P g -> P (recordChange ch g)) ->
  (forall tv n ec g, Nodes g !! tv = Some n -> P g ->
                     P (updateClass tv n ec g)) ->
  (forall tv other n1 n2 g,
     tv <> other -> Nodes g !! tv = Some n1 -> Nodes g !! other = Some n2 ->
     P g -> P (pushPair tv other n1 n2 g)) ->
  StepInvariant (fun _ => P).
Proof.
  intros Hc Hr Hk Hp. split; eauto.
  - intros _ tv n g Hn Hlen HP. apply Hr; [|done]. simpl. eauto.
  - intros _ tv fixed g Hn Hhas Hall HP. apply Hr; [|done]. simpl. eauto.
Qed.

Section LookupInvariant.

Context (cs : ConstraintSystem).
Context (P : list (TypeVariableType * TypeVariableType) ->
             ConstraintGraph -> Prop).
Context (StepP : StepInvariant P).

(** What is known after a step: the property, no node has vanished, the
    journal has only grown and the scope is the same. *)
Definition kept (pend : list (TypeVariableType * TypeVariableType))
    (g g' : ConstraintGraph) : Prop :=
  P pend g' /\ (forall u, hasNode g u -> hasNode g' u) /\
  Changes g `prefix_of` Changes g' /\ ActiveScope g' = ActiveScope g.

Definition lookupKeeps
    (lookup : TypeVariableType -> ConstraintGraph ->
              Res (nat * ConstraintGraph)) : Prop :=
  forall pend tv g i g', P pend g -> lookup tv g = Done (i, g') ->
                         kept pend g g' /\ hasNode g' tv.

Lemma kept_refl pend g : P pend g -> kept pend g g.
Proof using Type. intros H. split; [done|]. split; [done|]. by split. Qed.

Lemma kept_trans pend pend' g1 g2 g3 :
  kept pend g1 g2 -> (P pend g2 -> kept pend' g2 g3) -> kept pend' g1 g3.
Proof using Type.
  intros (H1 & M1 & C1 & S1) H. destruct (H H1) as (H2 & M2 & C2 & S2).
  split; [done|]. split; [auto|]. split; [by etrans|congruence].
Qed.

Lemma kept_materialize pend tv n g :
  Nodes g !! tv = Some n -> P pend g ->
  kept pend g (updateClass tv n (EquivalenceClass (materialize n)) g).
Proof using All.
  intros Hn HP. split; [by apply (inv_materialize P StepP)|].
  split; [|by split]. intros u Hu. by apply hasNode_updateClass.
Qed.

Lemma recordedExtension_kept pend rep g g' :
  P pend g -> recordedExtension cs rep g g' ->
  kept pend g g' /\
  (is_Some (ActiveScope g) ->
   exists m, Changes g' = Changes g ++ [ExtendedEquivalenceClass rep m]).
Proof using All.
  intros HP H. unfold recordedExtension in H.
  destruct (ActiveScope g) eqn:Hs.
  2:{ subst. split; [by apply kept_refl|]. intros [? ?]. done. }
  destruct H as (n & Hn & _ & ->).
  set (ec := EquivalenceClass (materialize n)).
  set (gm := updateClass rep n ec g).
  assert (Hgm : Nodes gm !! rep = Some (setEquivalenceClass n ec)).
  { unfold gm, updateClass. simpl. apply lookup_insert_eq. }
  split.
  - apply (kept_trans pend pend _ gm); [by apply kept_materialize|].
    intros Pm. split; [|split; [|split]].
    + apply (inv_extend P StepP pend rep _ gm Hgm); [|done].
      simpl. apply materialize_length.
    + intros u. by rewrite hasNode_recordChange.
    + apply recordChange_prefix.
    + apply recordChange_ActiveScope.
  - intros _. exists (length ec). rewrite recordChange_active; [done|].
    simpl. rewrite Hs. eauto.
Qed.

Lemma mergeNodesWith_keeps lookup pend typeVar1 typeVar2 g g' :
  lookupKeeps lookup -> P pend g ->
  mergeNodesWith cs lookup typeVar1 typeVar2 g = Done g' -> kept pend g g'.
Proof using All.
  intros Hl HP Hrun.
  apply mergeNodesWith_Done in Hrun
    as (i1 & g1 & g2 & i3 & g3 & ec & g4 & _ & L1 & _ & R2 & L3 & E4 & A5).
  destruct (Hl _ _ _ _ _ HP L1) as [K1 N1].
  apply (kept_trans pend pend _ g1); [done|]. intros P1.
  destruct (recordedExtension_kept _ _ _ _ P1 R2) as [K2 J2].
  apply (kept_trans pend pend _ g2); [done|]. intros P2.
  destruct (Hl _ _ _ _ _ P2 L3) as [K3 N3].
  apply (kept_trans pend pend _ g3); [done|]. intros P3.
  apply getEquivalenceClassUnsafe_Done in E4 as (n4 & Hn4 & Hec4 & ->).
  subst ec.
  apply (kept_trans pend pend _ _ _ (kept_materialize pend _ n4 g3 Hn4 P3)).
  intros P4.
  apply addToEquivalenceClass_Done in A5 as (n5 & Hn5 & _ & ->).
  split; [|split; [|by split]].
  - apply (inv_append P StepP); [done| |done].
    intros Hact. simpl in Hact.
    destruct K2 as (_ & _ & _ & S2). destruct K3 as (_ & _ & [j3 C3] & S3).
    rewrite S3, S2 in Hact. destruct (J2 Hact) as [m Hm].
    exists pend, g1, m, j3. split; [done|]. simpl.
    rewrite C3, Hm, <- app_assoc. done.
  - intros u Hu. by apply hasNode_updateClass.
Qed.

Lemma bindLoop_keeps lookup typeVar l :
  lookupKeeps lookup ->
  forall pend known g known' g',
    P pend g -> hasNode g typeVar ->
    (forall u, u ∈ known -> hasNode g u) ->
    forEach (bindStep lookup typeVar) l (known, g) = Done (known', g') ->
    kept (pend ++ bindPushes typeVar l known) g g' /\
    (forall u, u ∈ known' -> hasNode g' u) /\
    (forall u, u ∈ l -> u ∈ known').
Proof using All.
  intros Hl. induction l as [|x l IH]; intros pend known g known' g' HP Hn Hk Hrun;
    simpl in Hrun.
  { injection Hrun as <- <-. simpl. rewrite app_nil_r.
    split; [by apply kept_refl|]. split; [done|].
    intros u Hu. by apply elem_of_nil in Hu. }
  apply bind_Done in Hrun as ([k1 g1] & Hstep & Hrun). simpl.
  apply bindStep_Done in Hstep as [(Hin & -> & ->)|(Hin & -> & Hstep)].
  { rewrite bool_decide_eq_true_2 by done.
    destruct (IH _ _ _ _ _ HP Hn Hk Hrun) as (K & N & M).
    split; [done|]. split; [done|]. intros u Hu.
    apply elem_of_cons in Hu as [->|Hu]; [|auto].
    apply (bindStep_known' _ _ _ _ _ _ _ Hrun x Hin). }
  rewrite bool_decide_eq_false_2 by done.
  destruct Hstep as [[-> ->]|(Hne & i2 & g2 & n1 & n2 & L & Hn1 & Hn2 & ->)].
  { rewrite bool_decide_eq_true_2 by done. simpl.
    assert (Hk' : forall u, u ∈ ({[x]} ∪ known : gset nat) -> hasNode g u).
    { intros u Hu. apply elem_of_union in Hu as [Hu|Hu]; [|auto].
      apply elem_of_singleton in Hu. by subst. }
    destruct (IH _ _ _ _ _ HP Hn Hk' Hrun) as (K & N & M).
    split; [done|]. split; [done|]. intros u Hu.
    apply elem_of_cons in Hu as [->|Hu]; [|auto].
    apply (bindStep_known' _ _ _ _ _ _ _ Hrun x). set_solver. }
  rewrite bool_decide_eq_false_2 by done.
  destruct (Hl _ _ _ _ _ HP L) as [(P2 & M2 & C2 & S2) N2].
  set (g3 := pushPair typeVar x n1 n2 g2) in *.
  assert (P3 : P (pend ++ pairPushes typeVar x) g3).
  { by apply (inv_pair P StepP). }
  assert (M3 : forall u, hasNode g u -> hasNode g3 u).
  { intros u Hu. apply hasNode_pushPair; auto. }
  assert (Hk' : forall u, u ∈ ({[x]} ∪ known : gset nat) -> hasNode g3 u).
  { intros u Hu. apply elem_of_union in Hu as [Hu|Hu]; [|auto].
    apply elem_of_singleton in Hu. subst. apply hasNode_pushPair; auto. }
  destruct (IH _ _ _ _ _ P3 (M3 _ Hn) Hk' Hrun)
    as ((P4 & M4 & C4 & S4) & N & M).
  rewrite <- app_assoc in P4.
  split; [split; [done|split; [auto|split]]|].
  - etrans; [exact C2|]. exact C4.
  - rewrite S4. exact S2.
  - split; [done|]. intros u Hu.
    apply elem_of_cons in Hu as [->|Hu]; [|auto].
    apply (bindStep_known' _ _ _ _ _ _ _ Hrun x). set_solver.
Qed.

Lemma bindTypeVariableWith_keeps lookup pend typeVar fixed g g' :
  lookupKeeps lookup -> P pend g ->
  bindTypeVariableWith lookup typeVar fixed g = Done g' -> kept pend g g'.
Proof using All.
  intros Hl HP Hrun.
  apply bindTypeVariableWith_Done in Hrun
    as [[_ ->]|(Hhas & i1 & g1 & known & g2 & L & Hloop & ->)].
  { by apply kept_refl. }
  destruct (Hl _ _ _ _ _ HP L) as [K1 N1].
  apply (kept_trans pend pend _ g1); [done|]. intros P1.
  eapply bindLoop_keeps in Hloop as ((P2 & M2 & C2 & S2) & N & M);
    [|done|exact P1|done|set_solver].
  split; [|split; [|split]].
  - apply (inv_bound P StepP); auto.
  - intros u Hu. apply hasNode_recordChange. auto.
  - etrans; [exact C2|]. apply recordChange_prefix.
  - by rewrite recordChange_ActiveScope.
Qed.

Lemma kept_createNode pend tv g :
  Nodes g !! tv = None -> P pend g ->
  kept pend g (createNode tv g) /\ hasNode (createNode tv g) tv.
Proof using All.
  intros Hn HP. split; [split; [|split; [|split]]|].
  - by apply (inv_create P StepP).
  - intros u Hu. apply hasNode_createNode. auto.
  - unfold createNode. etrans; [|apply recordChange_prefix]. done.
  - unfold createNode. by rewrite recordChange_ActiveScope.
  - apply hasNode_createNode. auto.
Qed.

Lemma lookupNode_keeps fuel : lookupKeeps (lookupNode cs fuel).
Proof using All.
  induction fuel as [|fuel IH]; intros pend tv g i g' HP Hrun.
  { apply lookupNode_Done in Hrun
      as [(Hn & -> & _)|(Hn & _ & fuel' & Hf & Hrun)]; [|discriminate].
    split; [by apply kept_refl|done]. }
  apply lookupNode_Done in Hrun
    as [(Hn & -> & _)|(Hn & _ & fuel' & Hf & Hrun)].
  { split; [by apply kept_refl|done]. }
  injection Hf as <-. simpl in Hrun.
  destruct (kept_createNode pend tv g Hn HP) as [Kc Nc].
  assert (K : P pend (createNode tv g) -> kept pend (createNode tv g) g').
  { intros Pc. destruct (bool_decide (tv ≠ getRepresentative cs tv)).
    - eapply mergeNodesWith_keeps; eauto.
    - destruct (getFixedType cs (getRepresentative cs tv)).
      + eapply bindTypeVariableWith_keeps; eauto.
      + subst. by apply kept_refl. }
  split; [by apply (kept_trans pend pend _ (createNode tv g))|].
  destruct Kc as (Pc & _). destruct (K Pc) as (_ & M & _). auto.
Qed.

Lemma mergeNodes_keeps fuel pend typeVar1 typeVar2 g g' :
  P pend g -> mergeNodes cs fuel typeVar1 typeVar2 g = Done g' ->
  kept pend g g'.
Proof using All. apply mergeNodesWith_keeps, lookupNode_keeps. Qed.

Lemma bindTypeVariable_keeps fuel pend typeVar fixed g g' :
  P pend g -> bindTypeVariable cs fuel typeVar fixed g = Done g' ->
  kept pend g g'.
Proof using All. apply bindTypeVariableWith_keeps, lookupNode_keeps. Qed.

End LookupInvariant.

Lemma withNode_Done tv op g g' :
  withNode tv op g = Done g' ->
  exists n n', Nodes g !! tv = Some n /\ op n = Done n' /\
               g' = setNodes g (<[tv := n']> (Nodes g)).
Proof.
  unfold withNode. intros H.
  apply bind_Done in H as (n & Hn & H). apply fromOption_Done in Hn.
  apply bind_Done in H as (n' & Hop & H). injection H as <-.
  eauto.
Qed.

Lemma hasNode_setNodes_insert tv n n' g u :
  Nodes g !! tv = Some n ->
  hasNode (setNodes g (<[tv := n']> (Nodes g))) u <-> hasNode g u.
Proof.
  intros Hn. unfold hasNode. simpl.
  destruct (decide (tv = u)) as [->|Hne].
  - rewrite lookup_insert_eq, Hn. split; eauto.
  - by rewrite lookup_insert_ne.
Qed.

(** ** The public mutations *)

Inductive Mutation : Type :=
| MLookup (typeVar : TypeVariableType)
| MAddConstraint (constraint : Constraint)
| MRemoveConstraint (constraint : Constraint)
| MMergeNodes (typeVar1 typeVar2 : TypeVariableType)
| MBindTypeVariable (typeVar : TypeVariableType) (fixed : Ty).

Definition applyMutation (cs : ConstraintSystem) (fuel : nat) (m : Mutation)
    (g : ConstraintGraph) : Res ConstraintGraph :=
  match m with
  | MLookup typeVar => '(_, g) ← lookupNode cs fuel typeVar g; Done g
  | MAddConstraint constraint => addConstraint cs fuel constraint g
  | MRemoveConstraint constraint => removeConstraint cs fuel constraint g
  | MMergeNodes typeVar1 typeVar2 => mergeNodes cs fuel typeVar1 typeVar2 g
  | MBindTypeVariable typeVar fixed => bindTypeVariable cs fuel typeVar fixed g
  end.

Definition applyMutations (cs : ConstraintSystem) (fuel : nat)
    (ms : list Mutation) (g : ConstraintGraph) : Res ConstraintGraph :=
  forEach (applyMutation cs fuel) ms g.


(** ** The journal grows only under a scope *)

Definition unjournalled (j : list Change) (g : ConstraintGraph) : Prop :=
  ActiveScope g = None /\ Changes g = j.

Lemma unjournalled_create j tv g :
  Nodes g !! tv = None -> unjournalled j g -> unjournalled j (createNode tv g).
Proof.
  intros _ [Hs Hj]. unfold unjournalled, createNode, recordChange; simpl.
  rewrite Hs. done.
Qed.

Lemma unjournalled_record j ch g :
  recordable ch g -> unjournalled j g -> unjournalled j (recordChange ch g).
Proof. intros _ [Hs Hj]. unfold unjournalled, recordChange. by rewrite Hs. Qed.

Lemma unjournalled_class j tv n ec g :
  Nodes g !! tv = Some n -> unjournalled j g ->
  unjournalled j (updateClass tv n ec g).
Proof. intros _ [Hs Hj]. done. Qed.

Lemma unjournalled_pair j tv other n1 n2 g :
  tv <> other -> Nodes g !! tv = Some n1 -> Nodes g !! other = Some n2 ->
  unjournalled j g -> unjournalled j (pushPair tv other n1 n2 g).
Proof. intros _ _ _ [Hs Hj]. done. Qed.

Lemma unjournalled_steps j : StepInvariant (fun _ => unjournalled j).
Proof.
  apply simpleStepInvariant.
  - apply unjournalled_create.
  - apply unjournalled_record.
  - apply unjournalled_class.
  - apply unjournalled_pair.
Qed.

Lemma unjournalled_lookup cs j fuel tv g i g' :
  unjournalled j g -> lookupNode cs fuel tv g = Done (i, g') ->
  unjournalled j g'.
Proof.
  intros Hu L.
  by destruct (lookupNode_keeps cs _ (unjournalled_steps j) fuel [] _ _ _ _
                 Hu L) as [[? _] _].
Qed.

Lemma unjournalled_withNode j tv op g g' :
  unjournalled j g -> withNode tv op g = Done g' -> unjournalled j g'.
Proof.
  intros [Hs Hj] H. apply withNode_Done in H as (n & n' & _ & _ & ->). done.
Qed.

Lemma unjournalled_applyMutation cs fuel m j g g' :
  unjournalled j g -> applyMutation cs fuel m g = Done g' ->
  unjournalled j g'.
Proof.
  intros Hu Hrun. destruct m as [tv|c|c|a b|tv fixed]; simpl in Hrun.
  - apply bind_Done in Hrun as ([i g1] & L & Hrun). injection Hrun as <-.
    by apply (unjournalled_lookup _ _ _ _ _ _ _ Hu L).
  - unfold addConstraint in Hrun.
    apply bind_Done in Hrun as (g1 & Hloop & Hrun). injection Hrun as <-.
    assert (H1 : unjournalled j g1).
    { eapply (forEach_invariant (unjournalled j)); [exact Hu| |exact Hloop].
      intros tv s1 s2 _ Hs1 Hstep. unfold addConstraintStep in Hstep.
      apply bind_Done in Hstep as ([i ga] & L & Hstep).
      apply (unjournalled_lookup _ _ _ _ _ _ _ Hs1) in L.
      eapply unjournalled_withNode; eauto. }
    destruct H1 as [Hs Hj]. unfold unjournalled, recordChange.
    destruct (getTypeVariables cs c); simpl; rewrite Hs; done.
  - unfold removeConstraint in Hrun.
    apply bind_Done in Hrun as (g1 & Hloop & Hrun).
    apply bind_Done in Hrun as (g2 & Horph & Hrun). injection Hrun as <-.
    assert (H1 : unjournalled j g1).
    { eapply (forEach_invariant (unjournalled j)); [exact Hu| |exact Hloop].
      intros tv s1 s2 _ Hs1 Hstep. unfold removeConstraintStep in Hstep.
      apply bind_Done in Hstep as ([i ga] & L & Hstep).
      apply (unjournalled_lookup _ _ _ _ _ _ _ Hs1) in L.
      eapply unjournalled_withNode; eauto. }
    assert (H2 : unjournalled j g2).
    { destruct (getTypeVariables cs c); [|by injection Horph as <-].
      unfold removeOrphan in Horph.
      apply bind_Done in Horph as (k & _ & Horph).
      apply bind_Done in Horph as (l & _ & Horph). injection Horph as <-.
      done. }
    destruct H2 as [Hs Hj]. unfold unjournalled, recordChange.
    rewrite Hs. done.
  - apply (mergeNodes_keeps cs _ (unjournalled_steps j) _ [] _ _ _ _ Hu Hrun).
  - apply (bindTypeVariable_keeps cs _ (unjournalled_steps j) _ [] _ _ _ _
             Hu Hrun).
Qed.

(** ** One journal entry per call, when no node has to be created *)









(** ** Concrete constraint systems, for running the code *)

(** A constraint system given by the table of its constraints (kind, first
    and second type; the address of a constraint is its row), the external
    union-find and the fixed types. *)
Definition tableRow (table : list (ConstraintKind * Ty * Ty))
    (c : Constraint) : ConstraintKind * Ty * Ty :=
  default (ConformsTo, TyNominal 0, TyNominal 0) (table !! c).

Definition tableCS (table : list (ConstraintKind * Ty * Ty))
    (rep : TypeVariableType -> TypeVariableType)
    (fixed : TypeVariableType -> option Ty) : ConstraintSystem :=
  {| getRepresentative := rep;
     getFixedType := fixed;
     canBindToLValue := fun _ => false;
     canBindToInOut := fun _ => false;
     getPotentialBindings := fun _ => None;
     getKind := fun c => (tableRow table c).1.1;
     getFirstType := fun c => (tableRow table c).1.2;
     getSecondType := fun c => (tableRow table c).2;
     getTypeVariables := fun c =>
       remove_dups (typeVariablesIn (tableRow table c).1.2 ++
                    typeVariablesIn (tableRow table c).2);
     ActiveConstraints := seq 0 (length table);
     InactiveConstraints := [];
     solverState := None |}.

(** The result of a run that is known to finish. *)
Definition finished {A} (d : A) (r : Res A) : A :=
  match r with
  | Done a => a
  | _ => d
  end.

(** Two constraints over three variables, nobody merged or bound. *)
Definition csPlain : ConstraintSystem :=
  tableCS [(Bind, TyVar 0, TyVar 1); (Equal, TyVar 1, TyVar 2)]
          (fun tv => tv) (fun _ => None).



(** ** Unbinding a type variable bound to a type that mentions it *)

Definition fixedBindingsOf (g : ConstraintGraph) (tv : TypeVariableType)
  : list TypeVariableType :=
  match Nodes g !! tv with
  | Some n => FixedBindings n
  | None => []
  end.

(** [T0] is bound to a type over [T3] and [T4]. *)
Definition graphBound0 : ConstraintGraph :=
  finished emptyGraph
    (applyMutation csPlain 3
       (MBindTypeVariable 0 (TyFunction (TyVar 3) (TyVar 4))) emptyGraph).

Definition selfMentioning : Ty := TyFunction (TyVar 0) (TyVar 1).

(** C5 (the code at the failing input): binding [T0] to a type that mentions
    [T0] and [T1] adds the one pair [(T0, T1)]; undoing it pops three
    bindings of [T0] and so drops the bindings to [T3] and [T4] that were
    there before, while [T3] and [T4] keep theirs. *)
Lemma C5_unbind_self_mention_overpops :
  exists g1 g2,
    bindTypeVariable csPlain 3 0 selfMentioning graphBound0 = Done g1 /\
    unbindTypeVariable csPlain 3 0 selfMentioning g1 = Done g2 /\
    fixedBindingsOf graphBound0 0 = [3; 4] /\
    fixedBindingsOf g1 0 = [3; 4; 1] /\
    fixedBindingsOf g2 0 = [] /\
    fixedBindingsOf g2 3 = [0] /\ fixedBindingsOf g2 4 = [0].
Proof.
  eexists. eexists. split; [vm_compute; reflexivity|].
  split; [vm_compute; reflexivity|]. repeat split.
Qed.

(** ** The guard of edge contraction for parameter bindings *)

Definition candidates (cs : ConstraintSystem) (tv : TypeVariableType)
  : list Ty :=
  default [] (getPotentialBindings cs tv).

Definition riskyCandidate (cs : ConstraintSystem) (tv : TypeVariableType)
  : Prop :=
  exists t, t ∈ candidates cs tv /\ findIf (mentionsInOut cs) t = true.

Lemma scanBindings_true cs bindings b :
  scanBindings cs bindings b = true <->
  (bindings = [] /\ b = true) \/
  (exists t, t ∈ bindings /\ findIf (mentionsInOut cs) t = true).
Proof.
  revert b. induction bindings as [|t rest IH]; intros b; simpl.
  - split; [auto|]. intros [[_ H]|(t & Ht & _)]; [done|].
    by apply elem_of_nil in Ht.
  - destruct (findIf (mentionsInOut cs) t) eqn:Ht.
    + split; [|done]. intros _. right. exists t. split; [left|done].
    + rewrite IH. split.
      * intros [[-> ?]|(u & Hu & Hr)]; [done|].
        right. exists u. split; [by right|done].
      * intros [[? _]|(u & Hu & Hr)]; [done|].
        apply elem_of_cons in Hu as [->|Hu]; [congruence|].
        right. eauto.
Qed.

Lemma isNotContractable_true cs tv :
  isNotContractable cs tv = true <->
  candidates cs tv = [] \/ riskyCandidate cs tv.
Proof.
  unfold isNotContractable, riskyCandidate, candidates.
  destruct (getPotentialBindings cs tv) as [bindings|]; simpl.
  - rewrite scanBindings_true. split; intros [H|H]; auto.
    left. tauto.
  - split; auto.
Qed.

(** The parameter-binding constraint [BindParam(T0, T1)], where [T0] can
    bind to [inout] and has the given potential bindings. *)
Definition csParam (bindings : option (list Ty)) : ConstraintSystem :=
  {| getRepresentative := fun tv => tv;
     getFixedType := fun _ => None;
     canBindToLValue := fun _ => false;
     canBindToInOut := fun tv => bool_decide (tv = 0);
     getPotentialBindings := fun tv =>
       if bool_decide (tv = 0) then bindings else None;
     getKind := fun _ => BindParam;
     getFirstType := fun _ => TyParen (TyVar 0);
     getSecondType := fun _ => TyVar 1;
     getTypeVariables := fun _ => [0; 1];
     ActiveConstraints := [0];
     InactiveConstraints := [];
     solverState := None |}.

Definition graphParam (bindings : option (list Ty)) : ConstraintGraph :=
  finished emptyGraph
    (applyMutation (csParam bindings) 2 (MAddConstraint 0) emptyGraph).

(** The external merge, for running the code: it leaves the state alone. *)
Definition mergeNothing (a b : TypeVariableType) (updateWorkList : bool)
    (st : ConstraintSystem * ConstraintGraph)
  : Res (ConstraintSystem * ConstraintGraph) :=
  Done st.

(** C8, as stated, fails: with no potential bindings for [T0] at all the
    contraction is skipped although no candidate is risky. *)
Lemma C8_counterexample :
  getKind (csParam None) 0 = BindParam /\
  canBindToInOut (csParam None) 0 = true /\
  contractEdge 2 mergeNothing 0 (csParam None, graphParam None)
    = Done (false, (csParam None, graphParam None)) /\
  ~ riskyCandidate (csParam None) 0.
Proof.
  split; [done|]. split; [done|]. split; [reflexivity|].
  intros (t & Ht & _). by apply elem_of_nil in Ht.
Qed.

(** C8 (amended): for a [BindParam] constraint between the type variables
    [a] and [b] where [a] can bind to [inout], [contractEdges] skips the
    constraint, leaving the state as it is, exactly when [a] has no
    candidate binding at all or some candidate contains a type variable that
    can bind to [inout] or an [InOut] type; otherwise it contracts, whatever
    the l-value capabilities of the representatives. *)
Theorem C8_param_binding_guard fuel merge cs g c a b :
  getKind cs c = BindParam ->
  getDesugaredType (getFirstType cs c) = TyVar a ->
  getDesugaredType (getSecondType cs c) = TyVar b ->
  canBindToInOut cs a = true ->
  (candidates cs a = [] \/ riskyCandidate cs a ->
   contractEdge fuel merge c (cs, g) = Done (false, (cs, g))) /\
  (~ (candidates cs a = [] \/ riskyCandidate cs a) ->
   contractEdge fuel merge c (cs, g) =
     st ← contract fuel merge c (getRepresentative cs a)
            (getRepresentative cs b) (cs, g);
     Done (true, st)).
Proof.
  intros Hkind H1 H2 Hio. unfold contractEdge. simpl.
  rewrite Hkind, H1, H2. simpl. unfold getAsTypeVariable. simpl.
  rewrite Hio. simpl. split; intros H.
  - apply isNotContractable_true in H. by rewrite H.
  - destruct (isNotContractable cs a) eqn:E.
    + apply isNotContractable_true in E. done.
    + simpl. by rewrite orb_true_r.
Qed.

Lemma C8_param_binding_guard_witness :
  let cs := csParam (Some [TyNominal 3]) in
  let g := graphParam (Some [TyNominal 3]) in
  (getKind cs 0 = BindParam /\
   getDesugaredType (getFirstType cs 0) = TyVar 0 /\
   getDesugaredType (getSecondType cs 0) = TyVar 1 /\
   canBindToInOut cs 0 = true) /\
  ((candidates cs 0 = [] \/ riskyCandidate cs 0 ->
    contractEdge 2 mergeNothing 0 (cs, g) = Done (false, (cs, g))) /\
   (~ (candidates cs 0 = [] \/ riskyCandidate cs 0) ->
    contractEdge 2 mergeNothing 0 (cs, g) =
      st ← contract 2 mergeNothing 0 (getRepresentative cs 0)
             (getRepresentative cs 1) (cs, g);
      Done (true, st))).
Proof.
  intros cs g. split; [repeat split|].
  apply (C8_param_binding_guard 2 mergeNothing cs g 0 0 1); reflexivity.
Defined.

(** ** Dependencies between one-way components point backwards *)

Lemma postorderDepthFirstSearchRec_invariant {S : Type} (P : S -> Prop)
    (getAdjacencies : TypeVariableType -> S -> Res (list TypeVariableType * S))
    (postVisit : TypeVariableType -> S -> Res S) :
  (forall tv s adjs s', P s -> getAdjacencies tv s = Done (adjs, s') -> P s') ->
  (forall tv s s', P s -> postVisit tv s = Done s' -> P s') ->
  forall fuel tv st st',
    P st.2 ->
    postorderDepthFirstSearchRec fuel getAdjacencies postVisit tv st = Done st' ->
    P st'.2.
Proof.
  intros Hadj Hpost. induction fuel as [|fuel IH]; intros tv st st' HP Hrun;
    simpl in Hrun; destruct (bool_decide (tv ∈ st.1));
    try (injection Hrun as <-; done); [discriminate|].
  apply bind_Done in Hrun as ([adjs s1] & Ha & Hrun).
  apply bind_Done in Hrun as ([visited s2] & Hloop & Hrun).
  apply bind_Done in Hrun as (s3 & Hp & Hrun). injection Hrun as <-. simpl.
  apply (Hpost _ _ _) in Hp; [done|].
  change s2 with (visited, s2).2.
  eapply (forEach_invariant (fun st => P st.2)); [| |exact Hloop].
  - simpl. eapply Hadj; eauto.
  - intros x t1 t2 _ Ht1 Hstep. eapply IH; eauto.
Qed.

(** Every recorded dependency lies below the given bound. *)
Definition dependsBelow (bound : nat) (owc : OneWayComponent) : Prop :=
  forall d, d ∈ dependsOn owc -> d < bound.

Definition backwardDependencies (owcs : list OneWayComponent) : Prop :=
  forall i owc, owcs !! i = Some owc -> dependsBelow i owc.

Lemma subcomponentStep_backward fuel digraph typeVar idxs owcs idxs' owcs' :
  (forall tv i, idxs !! tv = Some i -> i < length owcs) ->
  backwardDependencies owcs ->
  subcomponentStep fuel digraph typeVar (idxs, owcs) = Done (idxs', owcs') ->
  (forall tv i, idxs' !! tv = Some i -> i < length owcs') /\
  backwardDependencies owcs'.
Proof.
  intros Hidx Hback Hrun. unfold subcomponentStep in Hrun. simpl in Hrun.
  apply bind_Done in Hrun as (u & Hfresh & Hrun).
  apply assert_Done, bool_decide_eq_true_1 in Hfresh.
  apply bind_Done in Hrun as ([visited owc] & Hdfs & Hrun).
  injection Hrun as <- <-.
  assert (Hnew : dependsBelow (length owcs) owc).
  { change owc with (visited, owc).2.
    eapply (postorderDepthFirstSearchRec_invariant
              (dependsBelow (length owcs))); [| | |exact Hdfs]; simpl.
    - intros tv s adjs s' Hs Ha. unfold inAdjacenciesOf in Ha.
      destruct (digraph !! tv); injection Ha as _ <-; done.
    - intros tv s s' Hs Hp. unfold recordDependsOn in Hp.
      destruct (bool_decide (tv = typeVar)) eqn:Heq;
        [injection Hp as <-; done|].
      apply bool_decide_eq_false_1 in Heq.
      apply bind_Done in Hp as (idx & Hlook & Hp). injection Hp as <-.
      apply fromOption_Done in Hlook.
      rewrite lookup_insert_ne in Hlook by done.
      intros d Hd. simpl in Hd. apply elem_of_app in Hd as [Hd|Hd]; [auto|].
      apply list_elem_of_singleton in Hd. subst d. eauto.
    - destruct (digraph !! typeVar); intros d Hd; simpl in Hd;
        by apply elem_of_nil in Hd. }
  split.
  - intros tv i Hi. rewrite length_app. simpl.
    destruct (decide (typeVar = tv)) as [->|Hne].
    + rewrite lookup_insert_eq in Hi. injection Hi as <-. lia.
    + rewrite lookup_insert_ne in Hi by done. apply Hidx in Hi. lia.
  - intros i o Hi. apply lookup_app_Some in Hi as [Hi|[Hlen Hi]]; [eauto|].
    apply list_lookup_singleton_Some in Hi as [Hi <-].
    replace i with (length owcs) by lia. done.
Qed.

Lemma populateComponent_backward fuel digraph order component component' :
  oneWayComponents component = [] ->
  populateComponent fuel digraph order component = Done component' ->
  backwardDependencies (oneWayComponents component').
Proof.
  intros Hempty Hrun. unfold populateComponent in Hrun.
  destruct order as [|x order].
  { injection Hrun as <-. rewrite Hempty. intros i owc Hi.
    by rewrite lookup_nil in Hi. }
  apply bind_Done in Hrun as ([idxs owcs] & Hloop & Hrun).
  injection Hrun as <-. simpl.
  pose (Q := fun st : gmap TypeVariableType nat * list OneWayComponent =>
               (forall tv i, st.1 !! tv = Some i -> i < length st.2) /\
               backwardDependencies st.2).
  assert (HQ : Q (idxs, owcs)); [|by destruct HQ].
  eapply (forEach_invariant Q); [| |exact Hloop].
  - unfold Q. simpl. rewrite Hempty. split.
    + intros tv i Hi. by rewrite lookup_empty in Hi.
    + intros i owc Hi. by rewrite lookup_nil in Hi.
  - intros tv [i1 o1] [i2 o2] _ [Ha Hb] Hstep.
    eapply subcomponentStep_backward; eauto.
Qed.

Lemma forEach2_Forall {A B} (Q : B -> Prop) (body : A -> B -> Res B)
    (l : list A) (k k' : list B) :
  (forall x y y', y ∈ k -> body x y = Done y' -> Q y') ->
  forEach2 body l k = Done k' -> Forall Q k'.
Proof.
  revert k k'. induction l as [|x l IH]; intros [|y k] k' Hbody Hrun;
    simpl in Hrun; try (injection Hrun as <-; constructor); try discriminate.
  apply bind_Done in Hrun as (y' & Hy & Hrun).
  apply bind_Done in Hrun as (k'' & Hk & Hrun). injection Hrun as <-.
  constructor.
  - eapply Hbody; [left|done].
  - eapply IH; [|done]. intros x0 y0 y0' Hin. apply Hbody. by right.
Qed.

(** The second loop of [getComponents] leaves [oneWayComponents] empty. *)
Lemma assignStep_noOneWay cs fuel unbound typeVar st st' :
  Forall (fun comp => oneWayComponents comp = []) (components st) ->
  assignStep cs fuel unbound typeVar st = Done st' ->
  Forall (fun comp => oneWayComponents comp = []) (components st').
Proof.
  intros Hall Hrun. unfold assignStep in Hrun.
  apply bind_Done in Hrun as ([rep reps] & _ & Hrun).
  destruct (negb (bool_decide (rep ∈ unbound))); [by injection Hrun as <-|].
  set (sel := match componentIdxMap st !! rep with
              | Some idx => _ | None => _ end) in Hrun.
  assert (Hsel : Forall (fun comp => oneWayComponents comp = []) sel.2).
  { unfold sel. destruct (componentIdxMap st !! rep); simpl; [done|].
    apply Forall_app. split; [done|]. by constructor. }
  destruct sel as [[componentIdx idxMap] comps]. simpl in Hsel.
  apply bind_Done in Hrun as (component & Hc & Hrun).
  apply fromOption_Done in Hc.
  apply bind_Done in Hrun as ([i g] & _ & Hrun).
  apply bind_Done in Hrun as (nodeConstraints & _ & Hrun).
  apply bind_Done in Hrun as ([known component'] & Hloop & Hrun).
  injection Hrun as <-. simpl.
  apply Forall_insert; [done|].
  change component' with (known, component').2.
  eapply (forEach_invariant (fun st => oneWayComponents st.2 = []));
    [| |exact Hloop].
  - simpl. eapply (Forall_lookup_1 _ _ _ _ Hsel Hc).
  - intros c [k1 c1] [k2 c2] _ H1 Hstep. unfold assignConstraintStep in Hstep.
    simpl in *. destruct (bool_decide (c ∈ k1)); by injection Hstep as _ <-.
Qed.

Lemma getComponents_backward cs fuel inputTypeVars cc comps cc' :
  getComponents cs fuel inputTypeVars cc = Done (comps, cc') ->
  Forall (fun comp => backwardDependencies (oneWayComponents comp)) comps.
Proof.
  intros Hrun. unfold getComponents in Hrun.
  apply bind_Done in Hrun as ([unbound reps] & _ & Hrun).
  apply bind_Done in Hrun as (st & Hloop & Hrun).
  assert (Hempty : Forall (fun comp => oneWayComponents comp = [])
                     (components st)).
  { eapply (forEach_invariant
              (fun st => Forall (fun comp => oneWayComponents comp = [])
                           (components st))); [| |exact Hloop].
    - constructor.
    - intros tv s1 s2 _. apply assignStep_noOneWay. }
  destruct (bool_decide (oneWayDigraph cc = ∅)).
  { injection Hrun as <- <-. eapply Forall_impl; [exact Hempty|].
    intros comp Hc. simpl in Hc. rewrite Hc. intros i owc Hi.
    by rewrite lookup_nil in Hi. }
  unfold populateOneWayComponentDependencies in Hrun.
  apply bind_Done in Hrun as ([reps' orders] & _ & Hrun).
  apply bind_Done in Hrun as (comps' & Hpop & Hrun).
  injection Hrun as <- <-.
  eapply forEach2_Forall; [|exact Hpop].
  intros order comp comp' Hin Hbody.
  eapply populateComponent_backward; [|exact Hbody].
  rewrite Forall_forall in Hempty. by apply Hempty.
Qed.

(** The constraint system of the one-way scenario: [Equal(T0, T1)],
    [Equal(T2, T3)] and [OneWayBind(T0, T2)]. *)
Definition csOneWay : ConstraintSystem :=
  tableCS [(Equal, TyVar 0, TyVar 1); (Equal, TyVar 2, TyVar 3);
           (OneWayBind, TyVar 0, TyVar 2)]
          (fun tv => tv) (fun _ => None).

Definition graphOneWay : ConstraintGraph :=
  finished emptyGraph
    (applyMutations csOneWay 4
       [MAddConstraint 0; MAddConstraint 1; MAddConstraint 2] emptyGraph).

(** C4: in every result of [computeConnectedComponents], within each
    component every index in a subcomponent's [dependsOn] is strictly less
    than the subcomponent's own index in [oneWayComponents]. *)
Theorem C4_depends_on_earlier cs fuel inputTypeVars g comps g' :
  computeConnectedComponents cs fuel inputTypeVars g = Done (comps, g') ->
  forall comp i owc d,
    comp ∈ comps -> oneWayComponents comp !! i = Some owc ->
    d ∈ dependsOn owc -> d < i.
Proof.
  intros Hrun comp i owc d Hcomp Hi Hd.
  unfold computeConnectedComponents in Hrun.
  apply bind_Done in Hrun as (cc & _ & Hrun).
  apply bind_Done in Hrun as ([comps' cc'] & Hget & Hrun).
  injection Hrun as <- <-.
  apply getComponents_backward in Hget.
  rewrite Forall_forall in Hget. by apply (Hget comp Hcomp i owc Hi d).
Qed.

Lemma C4_depends_on_earlier_witness :
  let result :=
    finished ([], emptyGraph)
      (computeConnectedComponents csOneWay 8 [0; 1; 2; 3] graphOneWay) in
  computeConnectedComponents csOneWay 8 [0; 1; 2; 3] graphOneWay
    = Done (result.1, result.2) /\
  result.1 =
    [{| typeVars := [0; 1; 2; 3]; constraints := [0; 2; 1];
        oneWayComponents :=
          [{| owTypeVars := [2; 3]; dependsOn := [] |};
           {| owTypeVars := [0; 1]; dependsOn := [0] |}] |}] /\
  forall comp i owc d,
    comp ∈ result.1 -> oneWayComponents comp !! i = Some owc ->
    d ∈ dependsOn owc -> d < i.
Proof.
  intros result.
  assert (Hrun : computeConnectedComponents csOneWay 8 [0; 1; 2; 3] graphOneWay
                 = Done (result.1, result.2)) by (vm_compute; reflexivity).
  split; [exact Hrun|]. split; [vm_compute; reflexivity|].
  exact (C4_depends_on_earlier csOneWay 8 [0; 1; 2; 3] graphOneWay
           result.1 result.2 Hrun).
Defined.

(** ** Graphs up to the filling-in of equivalence classes

    Reading an equivalence class may materialize it; nothing else of the
    graph changes then. *)

Definition classOf (g : ConstraintGraph) (tv : TypeVariableType)
  : list TypeVariableType :=
  match Nodes g !! tv with
  | Some n => EquivalenceClass (materialize n)
  | None => []
  end.

Definition constraintsOf (g : ConstraintGraph) (tv : TypeVariableType)
  : list Constraint :=
  match Nodes g !! tv with
  | Some n => Constraints n
  | None => []
  end.

Definition sameNode (n n' : ConstraintGraphNode) : Prop :=
  TypeVar n = TypeVar n' /\ Constraints n = Constraints n' /\
  ConstraintIndex n = ConstraintIndex n' /\
  FixedBindings n = FixedBindings n' /\
  EquivalenceClass (materialize n) = EquivalenceClass (materialize n').

Definition sameGraph (g g' : ConstraintGraph) : Prop :=
  TypeVariables g = TypeVariables g' /\ GraphIndex g = GraphIndex g' /\
  OrphanedConstraints g = OrphanedConstraints g' /\
  ActiveScope g = ActiveScope g' /\ Changes g = Changes g' /\
  forall tv, option_Forall2 sameNode (Nodes g !! tv) (Nodes g' !! tv).

Lemma sameNode_refl n : sameNode n n.
Proof. by repeat split. Qed.

Lemma sameNode_trans n1 n2 n3 :
  sameNode n1 n2 -> sameNode n2 n3 -> sameNode n1 n3.
Proof.
  intros (A1 & B1 & C1 & D1 & E1) (A2 & B2 & C2 & D2 & E2).
  repeat split; congruence.
Qed.

Lemma sameNode_materialize n : sameNode n (materialize n).
Proof.
  unfold sameNode, materialize.
  destruct n as [tv c i [|x ec] fb]; simpl; repeat split.
Qed.

Lemma sameGraph_refl g : sameGraph g g.
Proof.
  repeat split. intros tv. destruct (Nodes g !! tv); constructor.
  apply sameNode_refl.
Qed.

Lemma sameGraph_trans g1 g2 g3 :
  sameGraph g1 g2 -> sameGraph g2 g3 -> sameGraph g1 g3.
Proof.
  intros (A1 & B1 & C1 & D1 & E1 & F1) (A2 & B2 & C2 & D2 & E2 & F2).
  repeat split; try congruence. intros tv.
  specialize (F1 tv). specialize (F2 tv).
  destruct F1 as [n1 n2 H1|]; inversion F2; subst; constructor.
  eauto using sameNode_trans.
Qed.

Lemma sameGraph_hasNode g g' tv :
  sameGraph g g' -> hasNode g tv <-> hasNode g' tv.
Proof.
  intros (_ & _ & _ & _ & _ & F). specialize (F tv). unfold hasNode.
  destruct F; split; intros [? ?]; eauto; done.
Qed.

Lemma sameGraph_classOf g g' tv :
  sameGraph g g' -> classOf g tv = classOf g' tv.
Proof.
  intros (_ & _ & _ & _ & _ & F). specialize (F tv). unfold classOf.
  destruct F as [n n' (_ & _ & _ & _ & E)|]; done.
Qed.

Lemma sameGraph_constraintsOf g g' tv :
  sameGraph g g' -> constraintsOf g tv = constraintsOf g' tv.
Proof.
  intros (_ & _ & _ & _ & _ & F). specialize (F tv). unfold constraintsOf.
  destruct F as [n n' (_ & E & _)|]; done.
Qed.

Lemma sameGraph_fixedBindingsOf g g' tv :
  sameGraph g g' -> fixedBindingsOf g tv = fixedBindingsOf g' tv.
Proof.
  intros (_ & _ & _ & _ & _ & F). specialize (F tv). unfold fixedBindingsOf.
  destruct F as [n n' (_ & _ & _ & E & _)|]; done.
Qed.

Lemma sameGraph_materialize tv n g :
  Nodes g !! tv = Some n ->
  sameGraph g (updateClass tv n (EquivalenceClass (materialize n)) g).
Proof.
  intros Hn. repeat split. intros u. unfold updateClass. simpl.
  destruct (decide (tv = u)) as [->|Hne].
  - rewrite lookup_insert_eq, Hn. constructor.
    rewrite <- materialize_set. apply sameNode_materialize.
  - rewrite lookup_insert_ne by done.
    destruct (Nodes g !! u); constructor. apply sameNode_refl.
Qed.

Lemma getEquivalenceClass_same cs tv g ec g' :
  getEquivalenceClass cs tv g = Done (ec, g') ->
  ec = classOf g tv /\ sameGraph g g'.
Proof.
  intros H. apply getEquivalenceClass_Done in H as (n & Hn & _ & -> & ->).
  unfold classOf. rewrite Hn. split; [done|]. by apply sameGraph_materialize.
Qed.

Lemma getEquivalenceClassUnsafe_same tv g ec g' :
  getEquivalenceClassUnsafe tv g = Done (ec, g') ->
  ec = classOf g tv /\ sameGraph g g'.
Proof.
  intros H. apply getEquivalenceClassUnsafe_Done in H as (n & Hn & -> & ->).
  unfold classOf. rewrite Hn. split; [done|]. by apply sameGraph_materialize.
Qed.

Lemma getConstraints_Done tv g l :
  getConstraints tv g = Done l -> hasNode g tv /\ l = constraintsOf g tv.
Proof.
  unfold getConstraints, constraintsOf, hasNode. intros H.
  apply bind_Done in H as (n & Hn & H). apply fromOption_Done in Hn.
  injection H as <-. rewrite Hn. eauto.
Qed.

Lemma getFixedBindings_Done tv g l :
  getFixedBindings tv g = Done l -> hasNode g tv /\ l = fixedBindingsOf g tv.
Proof.
  unfold getFixedBindings, fixedBindingsOf, hasNode. intros H.
  apply bind_Done in H as (n & Hn & H). apply fromOption_Done in Hn.
  injection H as <-. rewrite Hn. eauto.
Qed.

(** Every variable the graph refers to has a node: the members of the
    equivalence classes, and the representatives of the variables that the
    constraints and the fixed bindings of a node mention. *)
Record Closed (cs : ConstraintSystem) (g : ConstraintGraph) : Prop := {
  closed_class : forall r m, m ∈ classOf g r -> hasNode g m;
  closed_constraints : forall tv c v,
    c ∈ constraintsOf g tv -> v ∈ getTypeVariables cs c ->
    hasNode g (getRepresentative cs v);
  closed_bindings : forall tv u,
    u ∈ fixedBindingsOf g tv -> hasNode g (getRepresentative cs u);
}.

(** ** What [gatherConstraints] returns *)

Section GatherProof.

Context (cs : ConstraintSystem) (fuel : nat).
Context (acceptConstraint : Constraint -> bool).
Context (g0 : ConstraintGraph).
Context (Hclosed : Closed cs g0).
(** The constraints that may be visited. *)
Context (R : Constraint -> Prop).

(** The invariant of all loops, apart from what it says about
    [visitedTypeVars]. *)
Record GatherCore (st : GatherState) : Prop := {
  gc_graph : sameGraph g0 (gatherGraph st);
  gc_nodup : NoDup (gathered st);
  gc_gathered : forall c,
    c ∈ gathered st <->
    c ∈ visitedConstraints st /\ acceptConstraint c = true;
  gc_sound : forall c, c ∈ visitedConstraints st -> R c;
}.

(** A visited type variable has had all its constraints visited. *)
Definition coversTypeVars (st : GatherState) : Prop :=
  forall m c, m ∈ visitedTypeVars st -> c ∈ constraintsOf g0 m ->
              c ∈ visitedConstraints st.

Definition GatherInv (st : GatherState) : Prop :=
  GatherCore st /\ coversTypeVars st.

Definition grows (st st' : GatherState) : Prop :=
  visitedConstraints st ⊆ visitedConstraints st'.

Lemma grows_refl st : grows st st.
Proof using All. unfold grows. set_solver. Qed.

Lemma grows_trans st1 st2 st3 : grows st1 st2 -> grows st2 st3 -> grows st1 st3.
Proof using All. unfold grows. set_solver. Qed.

Lemma visitAdjacentConstraint_spec c st st' :
  GatherCore st -> R c ->
  visitAdjacentConstraint acceptConstraint c st = Done st' ->
  GatherCore st' /\ grows st st' /\ c ∈ visitedConstraints st' /\
  visitedTypeVars st' = visitedTypeVars st.
Proof using All.
  intros [Hg Hn Hb Hs] HR Hrun. unfold visitAdjacentConstraint in Hrun.
  destruct (bool_decide (c ∈ visitedConstraints st)) eqn:Hc.
  { apply bool_decide_eq_true_1 in Hc. injection Hrun as <-.
    split; [by split|]. split; [apply grows_refl|]. done. }
  apply bool_decide_eq_false_1 in Hc. injection Hrun as <-.
  split; [split; simpl|].
  - done.
  - destruct (acceptConstraint c); [|done].
    apply NoDup_app. split; [done|]. split; [|apply NoDup_singleton].
    intros x Hx Hx'. apply list_elem_of_singleton in Hx'. subst x.
    apply Hb in Hx as [? _]. done.
  - intros x. destruct (acceptConstraint c) eqn:Ha.
    + rewrite elem_of_app, list_elem_of_singleton, Hb. set_solver.
    + rewrite Hb. split; [set_solver|]. intros [Hx Hax].
      split; [|done]. apply elem_of_union in Hx as [Hx|Hx]; [|done].
      apply elem_of_singleton in Hx. congruence.
  - intros x Hx. apply elem_of_union in Hx as [Hx|Hx]; [|auto].
    apply elem_of_singleton in Hx. by subst.
  - simpl. split; [unfold grows; simpl; set_solver|].
    split; [set_solver|done].
Qed.

Lemma visitAdjacentConstraints_spec l st st' :
  GatherCore st -> (forall c, c ∈ l -> R c) ->
  forEach (visitAdjacentConstraint acceptConstraint) l st = Done st' ->
  GatherCore st' /\ grows st st' /\
  (forall c, c ∈ l -> c ∈ visitedConstraints st') /\
  visitedTypeVars st' = visitedTypeVars st.
Proof using All.
  intros Hcore HR Hrun.
  pose (Q := fun (pre : list Constraint) (s : GatherState) =>
     GatherCore s /\ grows st s /\
     (forall c, c ∈ pre -> c ∈ visitedConstraints s) /\
     visitedTypeVars s = visitedTypeVars st).
  eapply (forEach_prefix_invariant Q); [| |exact Hrun].
  - split; [done|]. split; [apply grows_refl|]. split; [|done].
    intros c Hc. by apply elem_of_nil in Hc.
  - intros pre x s1 s2 Hpre (C1 & G1 & V1 & T1) Hstep.
    assert (Hx : x ∈ l).
    { destruct Hpre as [k ->]. set_solver. }
    destruct (visitAdjacentConstraint_spec _ _ _ C1 (HR x Hx) Hstep)
      as (C2 & G2 & V2 & T2).
    split; [done|]. split; [by apply (grows_trans _ s1)|].
    split; [|congruence].
    intros c Hc. apply elem_of_app in Hc as [Hc|Hc].
    + apply G2. auto.
    + apply list_elem_of_singleton in Hc. by subst.
Qed.

Lemma lookup_same tv st i g :
  sameGraph g0 (gatherGraph st) -> hasNode g0 tv ->
  lookupNode cs fuel tv (gatherGraph st) = Done (i, g) ->
  g = gatherGraph st.
Proof using All.
  intros Hsame Hn Hrun.
  apply (sameGraph_hasNode _ _ tv Hsame) in Hn.
  by destruct (lookupNode_existing_inv _ _ _ _ _ _ Hn Hrun).
Qed.

Lemma visitAdjacentTypeVar_spec m st st' :
  GatherInv st -> hasNode g0 m ->
  (forall c, c ∈ constraintsOf g0 m -> R c) ->
  visitAdjacentTypeVar cs fuel acceptConstraint m st = Done st' ->
  GatherInv st' /\ grows st st' /\
  (forall c, c ∈ constraintsOf g0 m -> c ∈ visitedConstraints st').
Proof using All.
  intros [Hcore Hcov] Hn HR Hrun. unfold visitAdjacentTypeVar in Hrun.
  destruct (bool_decide (m ∈ visitedTypeVars st)) eqn:Hm.
  { apply bool_decide_eq_true_1 in Hm. injection Hrun as <-.
    split; [done|]. split; [apply grows_refl|]. intros c Hc.
    by apply (Hcov m). }
  apply bind_Done in Hrun as ([i g] & L & Hrun).
  apply (lookup_same _ _ _ _ (gc_graph _ Hcore) Hn) in L. subst g.
  apply bind_Done in Hrun as (l & Hl & Hrun).
  apply getConstraints_Done in Hl as [_ ->].
  rewrite <- (sameGraph_constraintsOf _ _ m (gc_graph _ Hcore)) in Hrun.
  apply visitAdjacentConstraints_spec in Hrun as (C & G & V & T);
    [| |done].
  2:{ destruct Hcore. by split. }
  simpl in *. split; [split; [done|]|split; [done|done]].
  intros x c Hx Hc. rewrite T in Hx.
  apply elem_of_union in Hx as [Hx|Hx].
  - apply elem_of_singleton in Hx. subst x. auto.
  - apply G. simpl. by apply (Hcov x).
Qed.

(** A loop whose body keeps the invariant, only adds visited constraints
    and covers what [covered] says about its element, covers all that at
    the end. *)
Lemma gather_loop {A} (body : A -> GatherState -> Res GatherState)
    (covered : A -> Constraint -> Prop) (l : list A) st st' :
  (forall x s s', x ∈ l -> GatherInv s -> body x s = Done s' ->
     GatherInv s' /\ grows s s' /\
     (forall c, covered x c -> c ∈ visitedConstraints s')) ->
  GatherInv st -> forEach body l st = Done st' ->
  GatherInv st' /\ grows st st' /\
  (forall x c, x ∈ l -> covered x c -> c ∈ visitedConstraints st').
Proof using All.
  intros Hbody Hinv Hrun.
  pose (Q := fun (pre : list A) (s : GatherState) =>
     GatherInv s /\ grows st s /\
     (forall x c, x ∈ pre -> covered x c -> c ∈ visitedConstraints s)).
  eapply (forEach_prefix_invariant Q); [| |exact Hrun].
  - split; [done|]. split; [apply grows_refl|]. intros x c Hx.
    by apply elem_of_nil in Hx.
  - intros pre x s1 s2 Hpre (I1 & G1 & V1) Hstep.
    assert (Hx : x ∈ l).
    { destruct Hpre as [k ->]. set_solver. }
    destruct (Hbody x s1 s2 Hx I1 Hstep) as (I2 & G2 & V2).
    split; [done|]. split; [by apply (grows_trans _ s1)|].
    intros y c Hy Hc. apply elem_of_app in Hy as [Hy|Hy].
    + apply G2. eauto.
    + apply list_elem_of_singleton in Hy. subst y. auto.
Qed.

Lemma GatherInv_setGraph st g :
  GatherInv st -> sameGraph g0 g ->
  GatherInv {| gathered := gathered st;
               visitedTypeVars := visitedTypeVars st;
               visitedConstraints := visitedConstraints st;
               gatherGraph := g |}.
Proof using All. intros [[? ? ? ?] ?] Hg. split; [by split|done]. Qed.

Lemma addAdjacentConstraints_spec v st st' :
  GatherInv st -> hasNode g0 (getRepresentative cs v) ->
  (forall m c, m ∈ classOf g0 (getRepresentative cs v) ->
               c ∈ constraintsOf g0 m -> R c) ->
  addAdjacentConstraints cs fuel acceptConstraint v st = Done st' ->
  GatherInv st' /\ grows st st' /\
  (forall m c, m ∈ classOf g0 (getRepresentative cs v) ->
               c ∈ constraintsOf g0 m -> c ∈ visitedConstraints st').
Proof using All.
  intros Hinv Hn HR Hrun. unfold addAdjacentConstraints in Hrun.
  pose proof (gc_graph _ (proj1 Hinv)) as Hsame.
  apply bind_Done in Hrun as ([i g] & L & Hrun).
  apply (lookup_same _ _ _ _ Hsame Hn) in L. subst g.
  apply bind_Done in Hrun as ([ec g] & Hec & Hrun).
  apply getEquivalenceClass_same in Hec as [-> Hg].
  rewrite <- (sameGraph_classOf _ _ _ Hsame) in Hrun.
  eapply (gather_loop _ (fun m c => c ∈ constraintsOf g0 m)) in Hrun.
  - destruct Hrun as (I & G & V). split; [done|]. split; [done|]. eauto.
  - intros m s s' Hm Hs Hstep.
    eapply visitAdjacentTypeVar_spec; eauto.
    eapply closed_class; eauto.
  - apply GatherInv_setGraph; [done|]. eauto using sameGraph_trans.
Qed.

Lemma gatherConstraint_spec kind c' st st' :
  GatherInv st -> R c' ->
  (forall v, v ∈ getTypeVariables cs c' ->
             hasNode g0 (getRepresentative cs v)) ->
  (kind = GatheringKind.AllMentions ->
   forall v m c, v ∈ getTypeVariables cs c' ->
     m ∈ classOf g0 (getRepresentative cs v) -> c ∈ constraintsOf g0 m ->
     R c) ->
  gatherConstraint cs fuel acceptConstraint kind c' st = Done st' ->
  GatherInv st' /\ grows st st' /\ c' ∈ visitedConstraints st' /\
  (kind = GatheringKind.AllMentions ->
   forall v m c, v ∈ getTypeVariables cs c' ->
     m ∈ classOf g0 (getRepresentative cs v) -> c ∈ constraintsOf g0 m ->
     c ∈ visitedConstraints st').
Proof using All.
  intros [[Hg Hn Hb Hs] Hcov] HR Hnodes HRall Hrun.
  unfold gatherConstraint in Hrun.
  set (st1 := {| gathered := _ |}) in Hrun.
  assert (I1 : GatherInv st1).
  { split; [split|]; simpl.
    - done.
    - destruct (bool_decide (c' ∈ visitedConstraints st)) eqn:Hc; simpl;
        [done|].
      apply bool_decide_eq_false_1 in Hc.
      destruct (acceptConstraint c'); [|done].
      apply NoDup_app. split; [done|]. split; [|apply NoDup_singleton].
      intros x Hx Hx'. apply list_elem_of_singleton in Hx'. subst x.
      apply Hb in Hx as [? _]. done.
    - intros x.
      destruct (bool_decide (c' ∈ visitedConstraints st)) eqn:Hc; simpl.
      + apply bool_decide_eq_true_1 in Hc. rewrite Hb. set_solver.
      + apply bool_decide_eq_false_1 in Hc.
        destruct (acceptConstraint c') eqn:Ha.
        * rewrite elem_of_app, list_elem_of_singleton, Hb. set_solver.
        * rewrite Hb. split; [set_solver|]. intros [Hx Hax].
          split; [|done]. apply elem_of_union in Hx as [Hx|Hx]; [|done].
          apply elem_of_singleton in Hx. congruence.
    - intros x Hx. apply elem_of_union in Hx as [Hx|Hx]; [|auto].
      apply elem_of_singleton in Hx. by subst.
    - intros m c Hm Hc. simpl. apply elem_of_union_r. by apply (Hcov m). }
  assert (G1 : grows st st1) by (unfold grows; simpl; set_solver).
  assert (V1 : c' ∈ visitedConstraints st1) by (simpl; set_solver).
  destruct kind.
  { injection Hrun as <-. split; [done|]. split; [done|]. split; [done|].
    discriminate. }
  eapply (gather_loop _
            (fun v c => exists m, m ∈ classOf g0 (getRepresentative cs v) /\
                                  c ∈ constraintsOf g0 m)) in Hrun.
  - destruct Hrun as (I & G & V). split; [done|].
    split; [by apply (grows_trans _ st1)|]. split; [by apply G|].
    intros _ v m c Hv Hm Hc. apply (V v c Hv). eauto.
  - intros v s s' Hv Is Hstep.
    eapply addAdjacentConstraints_spec in Hstep as (I & G & V); eauto.
    split; [done|]. split; [done|]. intros c (m & Hm & Hc). eauto.
  - done.
Qed.

Lemma gatherMember_spec kind m st st' :
  GatherInv st -> hasNode g0 m ->
  (forall c', c' ∈ constraintsOf g0 m -> R c') ->
  (kind = GatheringKind.AllMentions ->
   forall c' v m' c, c' ∈ constraintsOf g0 m ->
     v ∈ getTypeVariables cs c' ->
     m' ∈ classOf g0 (getRepresentative cs v) -> c ∈ constraintsOf g0 m' ->
     R c) ->
  (forall u m' c, u ∈ fixedBindingsOf g0 m ->
     m' ∈ classOf g0 (getRepresentative cs u) -> c ∈ constraintsOf g0 m' ->
     R c) ->
  gatherMember cs fuel acceptConstraint kind m st = Done st' ->
  GatherInv st' /\ grows st st' /\
  (forall c', c' ∈ constraintsOf g0 m -> c' ∈ visitedConstraints st') /\
  (kind = GatheringKind.AllMentions ->
   forall c' v m' c, c' ∈ constraintsOf g0 m ->
     v ∈ getTypeVariables cs c' ->
     m' ∈ classOf g0 (getRepresentative cs v) -> c ∈ constraintsOf g0 m' ->
     c ∈ visitedConstraints st') /\
  (forall u m' c, u ∈ fixedBindingsOf g0 m ->
     m' ∈ classOf g0 (getRepresentative cs u) -> c ∈ constraintsOf g0 m' ->
     c ∈ visitedConstraints st').
Proof using All.
  intros Hinv Hn HR1 HR2 HR3 Hrun. unfold gatherMember in Hrun.
  pose proof (gc_graph _ (proj1 Hinv)) as Hsame.
  apply bind_Done in Hrun as ([i g] & L & Hrun).
  apply (lookup_same _ _ _ _ Hsame Hn) in L. subst g.
  apply bind_Done in Hrun as (l & Hl & Hrun).
  apply getConstraints_Done in Hl as [_ ->].
  rewrite <- (sameGraph_constraintsOf _ _ m Hsame) in Hrun.
  apply bind_Done in Hrun as (st1 & Hloop1 & Hrun).
  eapply (gather_loop _
            (fun c' c => c = c' \/
               (kind = GatheringKind.AllMentions /\
                exists v m', v ∈ getTypeVariables cs c' /\
                  m' ∈ classOf g0 (getRepresentative cs v) /\
                  c ∈ constraintsOf g0 m'))) in Hloop1.
  2:{ intros c' s s' Hc' Is Hstep.
      eapply gatherConstraint_spec in Hstep as (I & G & V & W); eauto.
      - split; [done|]. split; [done|].
        intros c [->|(Hk & v & m' & Hv & Hm' & Hc)]; eauto.
      - intros v Hv. eapply closed_constraints; eauto. }
  2:{ apply GatherInv_setGraph; [done|]. done. }
  destruct Hloop1 as (I1 & G1 & V1).
  pose proof (gc_graph _ (proj1 I1)) as Hsame1.
  apply bind_Done in Hrun as (fbs & Hfb & Hrun).
  apply getFixedBindings_Done in Hfb as [_ ->].
  rewrite <- (sameGraph_fixedBindingsOf _ _ m Hsame1) in Hrun.
  eapply (gather_loop _
            (fun u c => exists m', m' ∈ classOf g0 (getRepresentative cs u) /\
                                   c ∈ constraintsOf g0 m')) in Hrun.
  2:{ intros u s s' Hu Is Hstep.
      eapply addAdjacentConstraints_spec in Hstep as (I & G & V); eauto.
      - split; [done|]. split; [done|]. intros c (m' & Hm' & Hc). eauto.
      - eapply closed_bindings; eauto. }
  2:{ done. }
  destruct Hrun as (I2 & G2 & V2).
  assert (G : grows st st').
  { apply (grows_trans _ st1); [|done]. exact G1. }
  split; [done|]. split; [done|]. split; [|split].
  - intros c' Hc'. apply G2. apply (V1 c' c' Hc'). auto.
  - intros Hk c' v m' c Hc' Hv Hm' Hc. apply G2. apply (V1 c' c Hc').
    right. split; [done|]. eauto.
  - intros u m' c Hu Hm' Hc. apply (V2 u c Hu). eauto.
Qed.

End GatherProof.

(** What [gatherConstraints] walks over, as the code does it: the
    constraints of the members of the class of the representative, for
    [AllMentions] the constraints of the classes of the variables that any
    constraint of a member mentions, and the constraints of the classes of
    the fixed bindings of the members. *)
Definition reachedByGather (cs : ConstraintSystem) (g : ConstraintGraph)
    (kind : GatheringKind.t) (tv : TypeVariableType) (c : Constraint) : Prop :=
  exists m, m ∈ classOf g (getRepresentative cs tv) /\
    (c ∈ constraintsOf g m \/
     (kind = GatheringKind.AllMentions /\
      exists c' v m', c' ∈ constraintsOf g m /\
        v ∈ getTypeVariables cs c' /\
        m' ∈ classOf g (getRepresentative cs v) /\ c ∈ constraintsOf g m') \/
     (exists u m', u ∈ fixedBindingsOf g m /\
        m' ∈ classOf g (getRepresentative cs u) /\ c ∈ constraintsOf g m')).

(** The same following the words of the specification: for [AllMentions]
    only the constraints of a member that satisfy the predicate lead
    further. *)
Definition reachedAsSpecified (cs : ConstraintSystem) (g : ConstraintGraph)
    (acceptConstraint : Constraint -> bool)
    (kind : GatheringKind.t) (tv : TypeVariableType) (c : Constraint) : Prop :=
  exists m, m ∈ classOf g (getRepresentative cs tv) /\
    (c ∈ constraintsOf g m \/
     (kind = GatheringKind.AllMentions /\
      exists c' v m', c' ∈ constraintsOf g m /\
        acceptConstraint c' = true /\
        v ∈ getTypeVariables cs c' /\
        m' ∈ classOf g (getRepresentative cs v) /\ c ∈ constraintsOf g m') \/
     (exists u m', u ∈ fixedBindingsOf g m /\
        m' ∈ classOf g (getRepresentative cs u) /\ c ∈ constraintsOf g m')).

Lemma gatherConstraints_spec cs fuel acceptConstraint tv kind g result g' :
  Closed cs g -> hasNode g (getRepresentative cs tv) ->
  gatherConstraints cs fuel acceptConstraint tv kind g = Done (result, g') ->
  sameGraph g g' /\ NoDup result /\
  forall c, c ∈ result <->
            acceptConstraint c = true /\ reachedByGather cs g kind tv c.
Proof.
  intros Hclosed Hn Hrun. unfold gatherConstraints in Hrun.
  apply bind_Done in Hrun as ([i g1] & L & Hrun).
  destruct (lookupNode_existing_inv _ _ _ _ _ _ Hn L) as [-> _].
  apply bind_Done in Hrun as ([ec g2] & Hec & Hrun).
  apply getEquivalenceClass_same in Hec as [-> Hg2].
  apply bind_Done in Hrun as (st & Hloop & Hrun). injection Hrun as <- <-.
  set (R := reachedByGather cs g kind tv).
  eapply (gather_loop cs fuel acceptConstraint g Hclosed R
            (gatherMember cs fuel acceptConstraint kind)
            (fun m c =>
               c ∈ constraintsOf g m \/
               (kind = GatheringKind.AllMentions /\
                exists c' v m', c' ∈ constraintsOf g m /\
                  v ∈ getTypeVariables cs c' /\
                  m' ∈ classOf g (getRepresentative cs v) /\
                  c ∈ constraintsOf g m') \/
               (exists u m', u ∈ fixedBindingsOf g m /\
                  m' ∈ classOf g (getRepresentative cs u) /\
                  c ∈ constraintsOf g m'))) in Hloop.
  - destruct Hloop as ([[Hg Hnd Hb Hs] _] & _ & V).
    split; [done|]. split; [done|]. intros c. rewrite Hb. split.
    + intros [Hc Ha]. split; [done|]. by apply Hs.
    + intros [Ha (m & Hm & Hc)]. split; [|done]. by apply (V m c Hm).
  - intros m s s' Hm Is Hstep.
    eapply (gatherMember_spec cs fuel acceptConstraint g Hclosed R)
      in Hstep as (I & G & V1 & V2 & V3); [| |eapply closed_class; eauto|..];
      try done.
    + split; [done|]. split; [done|].
      intros c [Hc|[(Hk & c' & v & m' & H1 & H2 & H3 & H4)|
                    (u & m' & H1 & H2 & H3)]]; eauto.
    + intros c' Hc'. exists m. auto.
    + intros Hk c' v m' c H1 H2 H3 H4. exists m. split; [done|].
      right. left. split; [done|]. eauto 10.
    + intros u m' c H1 H2 H3. exists m. split; [done|].
      right. right. eauto.
  - split; [split|]; simpl.
    + done.
    + constructor.
    + intros c. split; [intros H; by apply elem_of_nil in H|].
      intros [H _]. set_solver.
    + intros c H. set_solver.
    + intros m c H. set_solver.
Qed.

(** A checker for [Closed], for running on concrete graphs. *)
Definition hasNodeb (g : ConstraintGraph) (tv : TypeVariableType) : bool :=
  bool_decide (is_Some (Nodes g !! tv)).

Definition closedNodeb (cs : ConstraintSystem) (g : ConstraintGraph)
    (n : ConstraintGraphNode) : bool :=
  forallb (hasNodeb g) (EquivalenceClass (materialize n)) &&
  forallb (fun c => forallb (fun v => hasNodeb g (getRepresentative cs v))
                            (getTypeVariables cs c)) (Constraints n) &&
  forallb (fun u => hasNodeb g (getRepresentative cs u)) (FixedBindings n).

Definition closedb (cs : ConstraintSystem) (g : ConstraintGraph) : bool :=
  forallb (fun p => closedNodeb cs g p.2) (map_to_list (Nodes g)).

Lemma closedb_Closed cs g : closedb cs g = true -> Closed cs g.
Proof.
  unfold closedb. rewrite forallb_forall. intros Hall.
  assert (Hnode : forall tv n, Nodes g !! tv = Some n ->
                               closedNodeb cs g n = true).
  { intros tv n Hn. apply (Hall (tv, n)).
    apply list_elem_of_In. by apply elem_of_map_to_list. }
  unfold closedNodeb in Hnode.
  split.
  - intros r m Hm. unfold classOf in Hm.
    destruct (Nodes g !! r) as [n|] eqn:Hn; [|by apply elem_of_nil in Hm].
    specialize (Hnode r n Hn). apply andb_true_iff in Hnode as [Hnode _].
    apply andb_true_iff in Hnode as [Hnode _].
    rewrite forallb_forall in Hnode. apply list_elem_of_In, Hnode in Hm.
    by apply bool_decide_eq_true_1 in Hm.
  - intros tv c v Hc Hv. unfold constraintsOf in Hc.
    destruct (Nodes g !! tv) as [n|] eqn:Hn; [|by apply elem_of_nil in Hc].
    specialize (Hnode tv n Hn). apply andb_true_iff in Hnode as [Hnode _].
    apply andb_true_iff in Hnode as [_ Hnode].
    rewrite forallb_forall in Hnode. apply list_elem_of_In, Hnode in Hc.
    rewrite forallb_forall in Hc. apply list_elem_of_In, Hc in Hv.
    by apply bool_decide_eq_true_1 in Hv.
  - intros tv u Hu. unfold fixedBindingsOf in Hu.
    destruct (Nodes g !! tv) as [n|] eqn:Hn; [|by apply elem_of_nil in Hu].
    specialize (Hnode tv n Hn). apply andb_true_iff in Hnode as [_ Hnode].
    rewrite forallb_forall in Hnode. apply list_elem_of_In, Hnode in Hu.
    by apply bool_decide_eq_true_1 in Hu.
Qed.

(** [Bind(T0, T1)] and [Equal(T1, T2)] registered. *)
Definition graphPlain : ConstraintGraph :=
  finished emptyGraph
    (applyMutations csPlain 3 [MAddConstraint 0; MAddConstraint 1] emptyGraph).

Definition acceptOnlyEqual (c : Constraint) : bool :=
  bool_decide (getKind csPlain c = Equal).

(** C7, as stated, fails: gathering all mentions of [T0] while accepting
    only [Equal] constraints returns [Equal(T1, T2)], which is reached
    through [Bind(T0, T1)], a constraint that does not satisfy the
    predicate. *)
Lemma C7_counterexample :
  exists g',
    gatherConstraints csPlain 3 acceptOnlyEqual 0 GatheringKind.AllMentions
      graphPlain = Done ([1], g') /\
    ~ reachedAsSpecified csPlain graphPlain acceptOnlyEqual
        GatheringKind.AllMentions 0 1.
Proof.
  eexists. split; [vm_compute; reflexivity|].
  assert (Hclass : classOf graphPlain 0 = [0]) by (vm_compute; reflexivity).
  assert (Hcons : constraintsOf graphPlain 0 = [0])
    by (vm_compute; reflexivity).
  assert (Hfb : fixedBindingsOf graphPlain 0 = [])
    by (vm_compute; reflexivity).
  intros (m & Hm & H). change (getRepresentative csPlain 0) with 0 in Hm.
  rewrite Hclass in Hm. apply list_elem_of_singleton in Hm. subst m.
  rewrite Hcons, Hfb in H.
  destruct H as [H|[(_ & c' & v & m' & H1 & H2 & _)|(u & m' & H1 & _)]].
  - apply list_elem_of_singleton in H. discriminate.
  - apply list_elem_of_singleton in H1. subst c'. discriminate.
  - by apply elem_of_nil in H1.
Qed.

(** C7 (amended): [gatherConstraints] returns a sequence without duplicates
    that consists exactly of the constraints that satisfy the predicate
    among those it walks over; and for [AllMentions] it walks, for every
    constraint of a member of the class, whether or not that constraint
    satisfies the predicate, and for every variable the constraint mentions,
    over the equivalence class of the variable's representative. *)
Theorem C7_gather_constraints cs fuel acceptConstraint tv kind g result g' :
  Closed cs g -> hasNode g (getRepresentative cs tv) ->
  gatherConstraints cs fuel acceptConstraint tv kind g = Done (result, g') ->
  NoDup result /\
  (forall c, c ∈ result <->
             acceptConstraint c = true /\ reachedByGather cs g kind tv c) /\
  (kind = GatheringKind.AllMentions ->
   forall m c' v m' c,
     m ∈ classOf g (getRepresentative cs tv) -> c' ∈ constraintsOf g m ->
     v ∈ getTypeVariables cs c' ->
     m' ∈ classOf g (getRepresentative cs v) -> c ∈ constraintsOf g m' ->
     acceptConstraint c = true -> c ∈ result).
Proof.
  intros Hclosed Hn Hrun.
  destruct (gatherConstraints_spec _ _ _ _ _ _ _ _ Hclosed Hn Hrun)
    as (_ & Hnd & Hres).
  split; [done|]. split; [done|].
  intros Hk m c' v m' c Hm Hc' Hv Hm' Hc Ha. apply Hres. split; [done|].
  exists m. split; [done|]. right. left. split; [done|]. eauto 10.
Qed.

Lemma C7_gather_constraints_witness :
  let result :=
    finished ([], emptyGraph)
      (gatherConstraints csPlain 3 acceptOnlyEqual 0
         GatheringKind.AllMentions graphPlain) in
  (Closed csPlain graphPlain /\
   hasNode graphPlain (getRepresentative csPlain 0) /\
   gatherConstraints csPlain 3 acceptOnlyEqual 0 GatheringKind.AllMentions
     graphPlain = Done (result.1, result.2)) /\
  result.1 = [1] /\
  NoDup result.1 /\
  (forall c, c ∈ result.1 <->
     acceptOnlyEqual c = true /\
     reachedByGather csPlain graphPlain GatheringKind.AllMentions 0 c) /\
  (GatheringKind.AllMentions = GatheringKind.AllMentions ->
   forall m c' v m' c,
     m ∈ classOf graphPlain (getRepresentative csPlain 0) ->
     c' ∈ constraintsOf graphPlain m ->
     v ∈ getTypeVariables csPlain c' ->
     m' ∈ classOf graphPlain (getRepresentative csPlain v) ->
     c ∈ constraintsOf graphPlain m' ->
     acceptOnlyEqual c = true -> c ∈ result.1).
Proof.
  intros result.
  assert (Hclosed : Closed csPlain graphPlain).
  { apply closedb_Closed. vm_compute. reflexivity. }
  assert (Hn : hasNode graphPlain (getRepresentative csPlain 0)).
  { assert (H : hasNodeb graphPlain 0 = true) by (vm_compute; reflexivity).
    by apply bool_decide_eq_true_1 in H. }
  assert (Hrun : gatherConstraints csPlain 3 acceptOnlyEqual 0
                   GatheringKind.AllMentions graphPlain
                 = Done (result.1, result.2)) by (vm_compute; reflexivity).
  split; [auto|]. split; [vm_compute; reflexivity|].
  exact (C7_gather_constraints csPlain 3 acceptOnlyEqual 0
           GatheringKind.AllMentions graphPlain result.1 result.2
           Hclosed Hn Hrun).
Defined.

(** ** The constraint list of a node and its index map *)

(** Removal by swapping with the last element. *)
Definition swapRemove {A} (i : nat) (l : list A) : list A :=
  match last l with
  | Some x => pop_back (<[i := x]> l)
  | None => l
  end.

Lemma pop_back_snoc {A} (l : list A) (x : A) : pop_back (l ++ [x]) = l.
Proof. unfold pop_back. apply removelast_last. Qed.

Lemma pop_back_take {A} (l : list A) : pop_back l = take (length l - 1) l.
Proof.
  destruct l as [|x l _] using rev_ind; [done|].
  rewrite pop_back_snoc, length_app. simpl.
  replace (length l + 1 - 1) with (length l) by lia.
  by rewrite take_app_length.
Qed.

Lemma swapRemove_middle {A} (l1 l2 : list A) (c z : A) :
  swapRemove (length l1) (l1 ++ c :: l2 ++ [z]) = l1 ++ z :: l2.
Proof.
  unfold swapRemove.
  replace (l1 ++ c :: l2 ++ [z]) with ((l1 ++ c :: l2) ++ [z])
    by (by rewrite <- app_assoc).
  rewrite last_snoc. rewrite <- app_assoc. simpl.
  rewrite (insert_app_r_alt l1) by lia.
  replace (length l1 - length l1) with 0 by lia. simpl.
  replace (l1 ++ z :: l2 ++ [z]) with ((l1 ++ z :: l2) ++ [z])
    by (by rewrite <- app_assoc).
  apply pop_back_snoc.
Qed.

Lemma swapRemove_last {A} (l1 : list A) (c : A) :
  swapRemove (length l1) (l1 ++ [c]) = l1.
Proof.
  unfold swapRemove. rewrite last_snoc.
  rewrite (insert_app_r_alt l1) by lia.
  replace (length l1 - length l1) with 0 by lia. simpl.
  apply pop_back_snoc.
Qed.

(** The list splits around the removed position. *)
Lemma swapRemove_split {A} (i : nat) (l : list A) (c : A) :
  l !! i = Some c ->
  (exists l1, l = l1 ++ [c] /\ i = length l1 /\ swapRemove i l = l1) \/
  (exists l1 l2 z, l = l1 ++ c :: l2 ++ [z] /\ i = length l1 /\
                   swapRemove i l = l1 ++ z :: l2).
Proof.
  intros Hi. apply list_elem_of_split_length in Hi as (l1 & l2 & -> & ->).
  destruct l2 as [|z l2 _] using rev_ind.
  - left. exists l1. split; [done|]. split; [done|]. apply swapRemove_last.
  - right. exists l1, l2, z. split; [done|]. split; [done|].
    apply swapRemove_middle.
Qed.

Lemma swapRemove_perm {A} (i : nat) (l : list A) (c : A) :
  l !! i = Some c -> l ≡ₚ c :: swapRemove i l.
Proof.
  intros Hi.
  destruct (swapRemove_split i l c Hi)
    as [(l1 & -> & _ & ->)|(l1 & l2 & z & -> & _ & ->)].
  - by rewrite Permutation_app_comm.
  - rewrite <- Permutation_middle. constructor.
    rewrite (Permutation_app_comm l2 [z]). simpl.
    by rewrite <- Permutation_middle.
Qed.

(** The index map is the inverse of the constraint list. *)
Definition IndexWF (n : ConstraintGraphNode) : Prop :=
  forall c i, ConstraintIndex n !! c = Some i <-> Constraints n !! i = Some c.

Lemma IndexWF_NoDup n : IndexWF n -> NoDup (Constraints n).
Proof.
  intros Hwf. apply NoDup_alt. intros i j c Hi Hj.
  apply Hwf in Hi, Hj. congruence.
Qed.

Lemma IndexWF_elem n c :
  IndexWF n -> c ∈ Constraints n <-> is_Some (ConstraintIndex n !! c).
Proof.
  intros Hwf. rewrite list_elem_of_lookup. split; intros [i Hi]; exists i;
    by apply Hwf.
Qed.

Lemma node_addConstraint_Done c n n' :
  node_addConstraint c n = Done n' ->
  ConstraintIndex n !! c = None /\
  n' = setConstraints n (Constraints n ++ [c])
         (<[c := length (Constraints n)]> (ConstraintIndex n)).
Proof.
  unfold node_addConstraint. destruct (ConstraintIndex n !! c); [done|].
  intros H. injection H as <-. done.
Qed.

Lemma node_addConstraint_wf c n n' :
  IndexWF n -> node_addConstraint c n = Done n' -> IndexWF n'.
Proof.
  intros Hwf H. apply node_addConstraint_Done in H as [Hc ->].
  intros c' i. simpl. destruct (decide (c = c')) as [<-|Hne].
  - rewrite lookup_insert_eq. split.
    + intros [= <-]. rewrite lookup_app_r by lia.
      by replace (length (Constraints n) - length (Constraints n)) with 0
        by lia.
    + intros Hi. apply lookup_app_Some in Hi as [Hi|[Hlen Hi]].
      * apply Hwf in Hi. congruence.
      * apply list_lookup_singleton_Some in Hi as [Hi _]. f_equal. lia.
  - rewrite lookup_insert_ne by done. rewrite (Hwf c' i). split.
    + intros Hi. by apply lookup_app_l_Some.
    + intros Hi. apply lookup_app_Some in Hi as [Hi|[Hlen Hi]]; [done|].
      apply list_lookup_singleton_Some in Hi as [_ Hi]. done.
Qed.

Lemma node_removeConstraint_Done c n n' :
  node_removeConstraint c n = Done n' ->
  exists i, ConstraintIndex n !! c = Some i /\
    Constraints n !! i = Some c /\
    Constraints n' = swapRemove i (Constraints n) /\
    TypeVar n' = TypeVar n /\ EquivalenceClass n' = EquivalenceClass n /\
    FixedBindings n' = FixedBindings n /\
    ConstraintIndex n' =
      if bool_decide (i = length (Constraints n) - 1)
      then delete c (ConstraintIndex n)
      else match last (Constraints n) with
           | Some lastConstraint =>
               <[lastConstraint := i]> (delete c (ConstraintIndex n))
           | None => delete c (ConstraintIndex n)
           end.
Proof.
  unfold node_removeConstraint. intros H.
  apply bind_Done in H as (i & Hi & H). apply fromOption_Done in Hi.
  apply bind_Done in H as (u & Hc & H).
  apply assert_Done, bool_decide_eq_true_1 in Hc.
  exists i. split; [done|]. split; [done|].
  assert (Hlast : last (Constraints n)
                  = Constraints n !! (length (Constraints n) - 1)).
  { rewrite last_lookup. f_equal. lia. }
  destruct (bool_decide (i = length (Constraints n) - 1)) eqn:Hil.
  - apply bool_decide_eq_true_1 in Hil. injection H as <-. simpl.
    repeat split. unfold swapRemove. rewrite Hlast, <- Hil, Hc.
    by rewrite list_insert_id.
  - apply bind_Done in H as (z & Hz & H). apply fromOption_Done in Hz.
    injection H as <-. simpl. rewrite Hlast, Hz. repeat split.
    unfold swapRemove. by rewrite Hlast, Hz.
Qed.

Lemma node_removeConstraint_wf c n n' :
  IndexWF n -> node_removeConstraint c n = Done n' -> IndexWF n'.
Proof.
  intros Hwf H.
  apply node_removeConstraint_Done in H
    as (i & Hi & Hc & Hl & _ & _ & _ & Hidx).
  pose proof (IndexWF_NoDup n Hwf) as Hnd.
  intros c' j. rewrite Hl, Hidx. clear Hl Hidx.
  destruct (swapRemove_split i _ c Hc)
    as [(l1 & Hs & Hlen & ->)|(l1 & l2 & z & Hs & Hlen & ->)].
  - rewrite Hs in *. rewrite length_app. simpl.
    rewrite bool_decide_eq_true_2 by lia.
    apply NoDup_app in Hnd as (_ & Hnot & _).
    destruct (decide (c' = c)) as [->|Hne].
    + rewrite lookup_delete_eq. split; [done|]. intros Hj.
      apply list_elem_of_lookup_2 in Hj. apply Hnot in Hj. set_solver.
    + rewrite lookup_delete_ne by done. rewrite (Hwf c' j), Hs. split.
      * intros Hj. apply lookup_app_Some in Hj as [Hj|[_ Hj]]; [done|].
        apply list_lookup_singleton_Some in Hj as [_ Hj]. congruence.
      * intros Hj. by apply lookup_app_l_Some.
  - assert (Hlast : last (Constraints n) = Some z).
    { rewrite Hs. replace (l1 ++ c :: l2 ++ [z]) with ((l1 ++ c :: l2) ++ [z])
        by (by rewrite <- app_assoc). apply last_snoc. }
    assert (Hlen' : length (Constraints n) = length l1 + S (S (length l2))).
    { rewrite Hs, length_app. simpl. rewrite length_app. simpl. lia. }
    rewrite Hlast. rewrite bool_decide_eq_false_2 by lia.
    assert (Hzc : z <> c).
    { intros ->. rewrite Hs in Hnd. apply NoDup_app in Hnd as (_ & _ & Hnd).
      apply NoDup_cons in Hnd as [Hnd _]. set_solver. }
    assert (Hzi : ConstraintIndex n !! z = Some (length l1 + S (length l2))).
    { apply Hwf. rewrite Hs. rewrite lookup_app_r by lia.
      replace (length l1 + S (length l2) - length l1) with (S (length l2))
        by lia. simpl. rewrite lookup_app_r by lia.
      by replace (length l2 - length l2) with 0 by lia. }
    destruct (decide (c' = z)) as [->|Hnz].
    + rewrite lookup_insert_eq. split.
      * intros [= <-]. subst i. rewrite lookup_app_r by lia.
        by replace (length l1 - length l1) with 0 by lia.
      * intros Hj. f_equal.
        assert (Hj' : Constraints n !! j = Some z \/ j = length l1).
        { rewrite Hs. apply lookup_app_Some in Hj as [Hj|[Hge Hj]].
          - left. by apply lookup_app_l_Some.
          - destruct (j - length l1) as [|k] eqn:Hk; [right; lia|].
            left. rewrite lookup_app_r by lia. rewrite Hk. simpl.
            simpl in Hj. by apply lookup_app_l_Some. }
        destruct Hj' as [Hj'|Hj']; [|lia].
        apply Hwf in Hj'. rewrite Hzi in Hj'. injection Hj' as <-.
        apply lookup_lt_Some in Hj. rewrite length_app in Hj. simpl in Hj.
        lia.
    + rewrite lookup_insert_ne by done.
      destruct (decide (c' = c)) as [->|Hne].
      * rewrite lookup_delete_eq. split; [done|]. intros Hj.
        exfalso. rewrite Hs in Hnd.
        apply NoDup_app in Hnd as (_ & Hnot & Hnd).
        apply NoDup_cons in Hnd as [Hnd _].
        apply lookup_app_Some in Hj as [Hj|[Hge Hj]].
        -- apply list_elem_of_lookup_2 in Hj. apply Hnot in Hj. set_solver.
        -- destruct (j - length l1) as [|k]; simpl in Hj; [congruence|].
           apply list_elem_of_lookup_2 in Hj. set_solver.
      * rewrite lookup_delete_ne by done. rewrite (Hwf c' j), Hs. split.
        -- intros Hj. apply lookup_app_Some in Hj as [Hj|[Hge Hj]].
           ++ by apply lookup_app_l_Some.
           ++ rewrite lookup_app_r by lia.
              destruct (j - length l1) as [|k]; simpl in *; [congruence|].
              apply lookup_app_Some in Hj as [Hj|[_ Hj]]; [done|].
              apply list_lookup_singleton_Some in Hj as [_ Hj]. congruence.
        -- intros Hj. apply lookup_app_Some in Hj as [Hj|[Hge Hj]].
           ++ by apply lookup_app_l_Some.
           ++ rewrite lookup_app_r by lia.
              destruct (j - length l1) as [|k]; simpl in *; [congruence|].
              by apply lookup_app_l_Some.
Qed.

Lemma node_removeConstraint_perm c n n' :
  node_removeConstraint c n = Done n' ->
  Constraints n ≡ₚ c :: Constraints n'.
Proof.
  intros H. apply node_removeConstraint_Done in H as (i & _ & Hc & -> & _).
  by apply swapRemove_perm.
Qed.

(** With a consistent index the node operations do not abort when the
    constraint is absent (for adding) or present (for removing). *)
Lemma node_addConstraint_total c n :
  IndexWF n -> c ∉ Constraints n -> exists n', node_addConstraint c n = Done n'.
Proof.
  intros Hwf Hc. unfold node_addConstraint.
  destruct (ConstraintIndex n !! c) as [i|] eqn:Hi; [|eauto].
  exfalso. apply Hc. apply (IndexWF_elem n c Hwf). eauto.
Qed.

Lemma node_removeConstraint_total c n :
  IndexWF n -> c ∈ Constraints n ->
  exists n', node_removeConstraint c n = Done n'.
Proof.
  intros Hwf Hc. apply (IndexWF_elem n c Hwf) in Hc as [i Hi].
  unfold node_removeConstraint. rewrite Hi. simpl.
  assert (Hl : Constraints n !! i = Some c) by (by apply Hwf).
  rewrite (bool_decide_eq_true_2 _ Hl). simpl.
  destruct (bool_decide (i = length (Constraints n) - 1)); [eauto|].
  destruct (Constraints n !! (length (Constraints n) - 1)) as [z|] eqn:Hz;
    simpl; [eauto|].
  apply lookup_ge_None in Hz. apply lookup_lt_Some in Hl. lia.
Qed.

(** ** Mutations keep what the constraint lists do not touch *)

Lemma withNode_constraints_Done tv op g g' :
  (forall n n', op n = Done n' ->
     TypeVar n' = TypeVar n /\ EquivalenceClass n' = EquivalenceClass n /\
     FixedBindings n' = FixedBindings n) ->
  withNode tv op g = Done g' ->
  exists n n', Nodes g !! tv = Some n /\ op n = Done n' /\
    TypeVar n' = TypeVar n /\ EquivalenceClass n' = EquivalenceClass n /\
    FixedBindings n' = FixedBindings n /\
    g' = setNodes g (<[tv := n']> (Nodes g)).
Proof.
  intros Hop H. apply withNode_Done in H as (n & n' & Hn & Ho & ->).
  destruct (Hop n n' Ho) as (A & B & C). exists n, n'. auto 10.
Qed.

Lemma node_addConstraint_frame c n n' :
  node_addConstraint c n = Done n' ->
  TypeVar n' = TypeVar n /\ EquivalenceClass n' = EquivalenceClass n /\
  FixedBindings n' = FixedBindings n.
Proof. intros H. apply node_addConstraint_Done in H as [_ ->]. done. Qed.

Lemma node_removeConstraint_frame c n n' :
  node_removeConstraint c n = Done n' ->
  TypeVar n' = TypeVar n /\ EquivalenceClass n' = EquivalenceClass n /\
  FixedBindings n' = FixedBindings n.
Proof.
  intros H.
  apply node_removeConstraint_Done in H as (i & _ & _ & _ & A & B & C & _).
  done.
Qed.

Lemma removeOrphan_Done c g g' :
  removeOrphan c g = Done g' ->
  exists k, OrphanedConstraints g !! k = Some c /\
    g' = setOrphanedConstraints g (swapRemove k (OrphanedConstraints g)).
Proof.
  unfold removeOrphan. intros H.
  apply bind_Done in H as (k & Hk & H). apply fromOption_Done in Hk.
  apply bind_Done in H as (z & Hz & H). apply fromOption_Done in Hz.
  injection H as <-. exists k. split.
  - clear Hz. revert k Hk.
    induction (OrphanedConstraints g) as [|x l IH]; intros k Hk;
      simpl in Hk; [done|].
    destruct (bool_decide (x = c)) eqn:Hx.
    + apply bool_decide_eq_true_1 in Hx. injection Hk as <-. by subst.
    + destruct (findIndex c l) as [k'|]; [|done]. injection Hk as <-.
      simpl. by apply IH.
  - unfold swapRemove. unfold back in Hz. by rewrite Hz.
Qed.

Section MutationInvariant.

Context (cs : ConstraintSystem) (P : ConstraintGraph -> Prop).
Context (StepP : StepInvariant (fun _ => P)).
Hypothesis P_constraints : forall tv n n' g,
  Nodes g !! tv = Some n -> TypeVar n' = TypeVar n ->
  EquivalenceClass n' = EquivalenceClass n ->
  FixedBindings n' = FixedBindings n ->
  P g -> P (setNodes g (<[tv := n']> (Nodes g))).
Hypothesis P_orphans : forall oc g, P g -> P (setOrphanedConstraints g oc).
Hypothesis P_journal : forall ch g, P g -> P (recordChange ch g).

Lemma lookupNode_keeps_simple fuel tv g i g' :
  P g -> lookupNode cs fuel tv g = Done (i, g') -> P g'.
Proof using StepP.
  intros HP L.
  by destruct (lookupNode_keeps cs _ StepP fuel [] _ _ _ _ HP L) as [[? _] _].
Qed.

Lemma applyMutation_keeps fuel m g g' :
  P g -> applyMutation cs fuel m g = Done g' -> P g'.
Proof using All.
  intros HP Hrun. destruct m as [tv|c|c|a b|tv fixed]; simpl in Hrun.
  - apply bind_Done in Hrun as ([i g1] & L & Hrun). injection Hrun as <-.
    by apply (lookupNode_keeps_simple _ _ _ _ _ HP L).
  - unfold addConstraint in Hrun.
    apply bind_Done in Hrun as (g1 & Hloop & Hrun). injection Hrun as <-.
    apply P_journal.
    assert (P1 : P g1).
    { eapply (forEach_invariant P); [exact HP| |exact Hloop].
      intros tv s1 s2 _ Hs1 Hstep. unfold addConstraintStep in Hstep.
      apply bind_Done in Hstep as ([i ga] & L & Hstep).
      apply (lookupNode_keeps_simple _ _ _ _ _ Hs1) in L.
      apply (withNode_constraints_Done _ _ _ _ (node_addConstraint_frame c))
        in Hstep as (n & n' & Hn & _ & A & B & C & ->).
      by apply (P_constraints tv n). }
    destruct (getTypeVariables cs c); [by apply P_orphans|done].
  - unfold removeConstraint in Hrun.
    apply bind_Done in Hrun as (g1 & Hloop & Hrun).
    apply bind_Done in Hrun as (g2 & Horph & Hrun). injection Hrun as <-.
    apply P_journal.
    assert (P1 : P g1).
    { eapply (forEach_invariant P); [exact HP| |exact Hloop].
      intros tv s1 s2 _ Hs1 Hstep. unfold removeConstraintStep in Hstep.
      apply bind_Done in Hstep as ([i ga] & L & Hstep).
      apply (lookupNode_keeps_simple _ _ _ _ _ Hs1) in L.
      apply (withNode_constraints_Done _ _ _ _
               (node_removeConstraint_frame c))
        in Hstep as (n & n' & Hn & _ & A & B & C & ->).
      by apply (P_constraints tv n). }
    destruct (getTypeVariables cs c); [|by injection Horph as <-].
    apply removeOrphan_Done in Horph as (k & _ & ->). by apply P_orphans.
  - by destruct (mergeNodes_keeps cs _ StepP _ [] _ _ _ _ HP Hrun).
  - by destruct (bindTypeVariable_keeps cs _ StepP _ [] _ _ _ _ HP Hrun).
Qed.

Lemma applyMutations_keeps fuel ms g g' :
  P g -> applyMutations cs fuel ms g = Done g' -> P g'.
Proof using All.
  intros HP Hrun. eapply (forEach_invariant P); [exact HP| |exact Hrun].
  intros m s1 s2 _. apply applyMutation_keeps.
Qed.

End MutationInvariant.

(** ** Fixed bindings are symmetric *)







Lemma fixedBindingsOf_recordChange ch g u :
  fixedBindingsOf (recordChange ch g) u = fixedBindingsOf g u.
Proof. unfold fixedBindingsOf, recordChange. by destruct (ActiveScope g). Qed.

Lemma fixedBindingsOf_createNode tv g u :
  Nodes g !! tv = None ->
  fixedBindingsOf (createNode tv g) u = fixedBindingsOf g u.
Proof.
  intros Hn. unfold createNode. rewrite fixedBindingsOf_recordChange.
  unfold fixedBindingsOf. simpl. destruct (decide (tv = u)) as [->|Hne].
  - by rewrite lookup_insert_eq, Hn.
  - by rewrite lookup_insert_ne.
Qed.

Lemma fixedBindingsOf_setNodes tv n n' g u :
  Nodes g !! tv = Some n -> FixedBindings n' = FixedBindings n ->
  fixedBindingsOf (setNodes g (<[tv := n']> (Nodes g))) u
  = fixedBindingsOf g u.
Proof.
  intros Hn Hfb. unfold fixedBindingsOf. simpl.
  destruct (decide (tv = u)) as [->|Hne].
  - by rewrite lookup_insert_eq, Hn.
  - by rewrite lookup_insert_ne.
Qed.

Lemma fixedBindingsOf_pushPair tv other n1 n2 g u :
  tv <> other -> Nodes g !! tv = Some n1 -> Nodes g !! other = Some n2 ->
  fixedBindingsOf (pushPair tv other n1 n2 g) u =
  fixedBindingsOf g u ++
    (if bool_decide (u = tv) then [other]
     else if bool_decide (u = other) then [tv] else []).
Proof.
  intros Hne H1 H2. unfold fixedBindingsOf, pushPair. simpl.
  destruct (decide (u = tv)) as [->|Hu].
  - rewrite lookup_insert_eq, H1, bool_decide_eq_true_2 by done. done.
  - rewrite lookup_insert_ne by done.
    rewrite (bool_decide_eq_false_2 _ Hu).
    destruct (decide (u = other)) as [->|Hu'].
    + rewrite lookup_insert_eq, H2, bool_decide_eq_true_2 by done. done.
    + rewrite lookup_insert_ne by done.
      rewrite (bool_decide_eq_false_2 _ Hu'). by rewrite app_nil_r.
Qed.



(** ** Incidence *)

Definition NodesWF (g : ConstraintGraph) : Prop :=
  forall tv n, Nodes g !! tv = Some n -> IndexWF n.

(** The constraint lists and the orphans are as given, and every index map
    is consistent. *)
Definition frozen (orphans : list Constraint)
    (lists : TypeVariableType -> list Constraint) (g : ConstraintGraph)
  : Prop :=
  NodesWF g /\ OrphanedConstraints g = orphans /\
  forall tv, constraintsOf g tv = lists tv.

Lemma constraintsOf_recordChange ch g u :
  constraintsOf (recordChange ch g) u = constraintsOf g u.
Proof. unfold constraintsOf, recordChange. by destruct (ActiveScope g). Qed.

Lemma OrphanedConstraints_recordChange ch g :
  OrphanedConstraints (recordChange ch g) = OrphanedConstraints g.
Proof. unfold recordChange. by destruct (ActiveScope g). Qed.

Lemma NodesWF_recordChange ch g : NodesWF (recordChange ch g) <-> NodesWF g.
Proof. unfold NodesWF, recordChange. by destruct (ActiveScope g). Qed.

Lemma constraintsOf_setNodes tv n n' g u :
  Nodes g !! tv = Some n -> Constraints n' = Constraints n ->
  constraintsOf (setNodes g (<[tv := n']> (Nodes g))) u = constraintsOf g u.
Proof.
  intros Hn Hc. unfold constraintsOf. simpl.
  destruct (decide (tv = u)) as [->|Hne].
  - by rewrite lookup_insert_eq, Hn.
  - by rewrite lookup_insert_ne.
Qed.

Lemma NodesWF_setNodes tv n' g :
  IndexWF n' -> NodesWF g -> NodesWF (setNodes g (<[tv := n']> (Nodes g))).
Proof.
  intros Hn' Hwf u n Hu. simpl in Hu.
  destruct (decide (tv = u)) as [->|Hne].
  - rewrite lookup_insert_eq in Hu. by injection Hu as <-.
  - rewrite lookup_insert_ne in Hu by done. eauto.
Qed.

Lemma frozen_steps orphans lists :
  StepInvariant (fun _ => frozen orphans lists).
Proof.
  apply simpleStepInvariant.
  - intros tv g Hn (Hwf & Ho & Hl). unfold createNode. split; [|split].
    + apply NodesWF_recordChange. intros u n Hu. simpl in Hu.
      destruct (decide (tv = u)) as [->|Hne].
      * rewrite lookup_insert_eq in Hu. injection Hu as <-.
        intros c i. simpl. rewrite lookup_empty, lookup_nil. done.
      * rewrite lookup_insert_ne in Hu by done. eauto.
    + by rewrite OrphanedConstraints_recordChange.
    + intros u. rewrite constraintsOf_recordChange, <- Hl.
      unfold constraintsOf. simpl. destruct (decide (tv = u)) as [->|Hne].
      * by rewrite lookup_insert_eq, Hn.
      * by rewrite lookup_insert_ne.
  - intros ch g _ (Hwf & Ho & Hl). split; [|split].
    + by apply NodesWF_recordChange.
    + by rewrite OrphanedConstraints_recordChange.
    + intros u. by rewrite constraintsOf_recordChange.
  - intros tv n ec g Hn (Hwf & Ho & Hl). split; [|split].
    + apply NodesWF_setNodes; [|done]. apply (Hwf tv n Hn).
    + done.
    + intros u. unfold updateClass.
      by rewrite (constraintsOf_setNodes tv n).
  - intros tv other n1 n2 g Hne H1 H2 (Hwf & Ho & Hl). split; [|split].
    + unfold pushPair. intros u n Hu. simpl in Hu.
      destruct (decide (tv = u)) as [->|Hne1].
      * rewrite lookup_insert_eq in Hu. injection Hu as <-.
        apply (Hwf _ _ H1).
      * rewrite lookup_insert_ne in Hu by done.
        destruct (decide (other = u)) as [->|Hne2].
        -- rewrite lookup_insert_eq in Hu. injection Hu as <-.
           apply (Hwf _ _ H2).
        -- rewrite lookup_insert_ne in Hu by done. eauto.
    + done.
    + intros u. rewrite <- Hl. unfold constraintsOf, pushPair. simpl.
      destruct (decide (tv = u)) as [->|Hne1].
      * by rewrite lookup_insert_eq, H1.
      * rewrite lookup_insert_ne by done.
        destruct (decide (other = u)) as [->|Hne2].
        -- by rewrite lookup_insert_eq, H2.
        -- by rewrite lookup_insert_ne.
Qed.

Lemma frozen_lookup cs fuel orphans lists tv g i g' :
  frozen orphans lists g -> lookupNode cs fuel tv g = Done (i, g') ->
  frozen orphans lists g' /\ hasNode g' tv.
Proof.
  intros Hf L.
  destruct (lookupNode_keeps cs _ (frozen_steps orphans lists) fuel []
              _ _ _ _ Hf L) as [[? _] ?]. done.
Qed.

Lemma constraintsOf_insert tv n' g u :
  constraintsOf (setNodes g (<[tv := n']> (Nodes g))) u =
  if bool_decide (u = tv) then Constraints n' else constraintsOf g u.
Proof.
  unfold constraintsOf. simpl. case_bool_decide as Hu.
  - subst. by rewrite lookup_insert_eq.
  - by rewrite lookup_insert_ne.
Qed.

(** What [addConstraint] does to the constraint lists. *)
Lemma addConstraint_lists cs fuel c g g' :
  NodesWF g -> addConstraint cs fuel c g = Done g' ->
  NodesWF g' /\ NoDup (getTypeVariables cs c) /\
  (forall tv, constraintsOf g' tv =
     constraintsOf g tv ++
     (if bool_decide (tv ∈ getTypeVariables cs c) then [c] else [])) /\
  OrphanedConstraints g' =
    OrphanedConstraints g ++
    (if bool_decide (getTypeVariables cs c = []) then [c] else []).
Proof.
  intros Hwf Hrun. unfold addConstraint in Hrun.
  apply bind_Done in Hrun as (g1 & Hloop & Hrun). injection Hrun as <-.
  pose (Q := fun (pre : list TypeVariableType) (s : ConstraintGraph) =>
     NoDup pre /\
     frozen (OrphanedConstraints g)
       (fun tv => constraintsOf g tv ++
                  (if bool_decide (tv ∈ pre) then [c] else [])) s).
  assert (HQ : Q (getTypeVariables cs c) g1).
  { eapply (forEach_prefix_invariant Q); [| |exact Hloop].
    - split; [constructor|]. split; [done|]. split; [done|].
      intros tv. rewrite bool_decide_eq_false_2 by set_solver.
      by rewrite app_nil_r.
    - intros pre x s1 s2 _ [Hnd Hfr] Hstep. unfold addConstraintStep in Hstep.
      apply bind_Done in Hstep as ([i ga] & L & Hstep).
      apply (frozen_lookup _ _ _ _ _ _ _ _ Hfr) in L as [(W & O & F) _].
      apply withNode_Done in Hstep as (n & n' & Hn & Hadd & ->).
      pose proof (node_addConstraint_wf _ _ _ (W _ _ Hn) Hadd) as Wn'.
      apply node_addConstraint_Done in Hadd as [Hnone ->].
      assert (Hx : x ∉ pre).
      { intros Hx. specialize (F x). unfold constraintsOf in F.
        rewrite Hn, bool_decide_eq_true_2 in F by done.
        assert (Hc : c ∈ Constraints n) by (rewrite F; set_solver).
        apply (IndexWF_elem n c (W _ _ Hn)) in Hc as [? Hc]. congruence. }
      split; [|split; [|split]].
      + apply NoDup_app. split; [done|]. split; [|apply NoDup_singleton].
        intros y Hy Hy'. apply list_elem_of_singleton in Hy'. by subst.
      + by apply NodesWF_setNodes.
      + done.
      + intros tv. rewrite constraintsOf_insert. simpl.
        case_bool_decide as Htv.
        * subst tv. specialize (F x). unfold constraintsOf in F.
          rewrite Hn in F. rewrite F.
          rewrite (bool_decide_eq_false_2 _ Hx), app_nil_r.
          rewrite bool_decide_eq_true_2 by set_solver. done.
        * rewrite F. f_equal.
          rewrite (bool_decide_ext (tv ∈ pre ++ [x]) (tv ∈ pre)); [done|].
          set_solver. }
  destruct HQ as (Hnd & W & O & F).
  split; [|split; [done|split]].
  - apply NodesWF_recordChange. by destruct (getTypeVariables cs c).
  - intros tv. rewrite constraintsOf_recordChange, <- F.
    by destruct (getTypeVariables cs c).
  - rewrite OrphanedConstraints_recordChange.
    destruct (getTypeVariables cs c); simpl; [by rewrite O|].
    by rewrite O, app_nil_r.
Qed.

(** What [removeConstraint] does to the constraint lists. *)
Lemma removeConstraint_lists cs fuel c g g' :
  NodesWF g -> removeConstraint cs fuel c g = Done g' ->
  NodesWF g' /\ NoDup (getTypeVariables cs c) /\
  (forall tv, tv ∈ getTypeVariables cs c ->
     constraintsOf g tv ≡ₚ c :: constraintsOf g' tv) /\
  (forall tv, tv ∉ getTypeVariables cs c ->
     constraintsOf g' tv = constraintsOf g tv) /\
  (getTypeVariables cs c = [] ->
     OrphanedConstraints g ≡ₚ c :: OrphanedConstraints g') /\
  (getTypeVariables cs c <> [] ->
     OrphanedConstraints g' = OrphanedConstraints g).
Proof.
  intros Hwf Hrun. unfold removeConstraint in Hrun.
  apply bind_Done in Hrun as (g1 & Hloop & Hrun).
  apply bind_Done in Hrun as (g2 & Horph & Hrun). injection Hrun as <-.
  pose (Q := fun (pre : list TypeVariableType) (s : ConstraintGraph) =>
     NoDup pre /\ NodesWF s /\
     OrphanedConstraints s = OrphanedConstraints g /\
     (forall tv, tv ∈ pre -> constraintsOf g tv ≡ₚ c :: constraintsOf s tv) /\
     (forall tv, tv ∉ pre -> constraintsOf s tv = constraintsOf g tv)).
  assert (HQ : Q (getTypeVariables cs c) g1).
  { eapply (forEach_prefix_invariant Q); [| |exact Hloop].
    - split; [constructor|]. split; [done|]. split; [done|].
      split; [|done]. intros tv Htv. by apply elem_of_nil in Htv.
    - intros pre x s1 s2 _ (Hnd & W & O & A & B) Hstep.
      unfold removeConstraintStep in Hstep.
      apply bind_Done in Hstep as ([i ga] & L & Hstep).
      assert (Hfr : frozen (OrphanedConstraints g) (constraintsOf s1) s1)
        by done.
      apply (frozen_lookup _ _ _ _ _ _ _ _ Hfr) in L as [(W' & O' & F) _].
      apply withNode_Done in Hstep as (n & n' & Hn & Hrem & ->).
      pose proof (node_removeConstraint_wf _ _ _ (W' _ _ Hn) Hrem) as Wn'.
      pose proof (node_removeConstraint_perm _ _ _ Hrem) as Hperm.
      assert (Hcx : constraintsOf s1 x = Constraints n).
      { rewrite <- F. unfold constraintsOf. by rewrite Hn. }
      assert (Hx : x ∉ pre).
      { intros Hx. specialize (A x Hx). rewrite Hcx in A.
        assert (Hdup : NoDup (constraintsOf g x)).
        { unfold constraintsOf. destruct (Nodes g !! x) as [m|] eqn:Hm;
            [|constructor]. apply IndexWF_NoDup. eauto. }
        rewrite A, Hperm in Hdup. apply NoDup_cons in Hdup as [Hdup _].
        set_solver. }
      split; [|split; [|split; [|split]]].
      + apply NoDup_app. split; [done|]. split; [|apply NoDup_singleton].
        intros y Hy Hy'. apply list_elem_of_singleton in Hy'. by subst.
      + by apply NodesWF_setNodes.
      + done.
      + intros tv Htv. rewrite constraintsOf_insert.
        case_bool_decide as Hq.
        * subst tv. rewrite <- (B x Hx), Hcx. done.
        * rewrite F. apply A. set_solver.
      + intros tv Htv. rewrite constraintsOf_insert.
        rewrite bool_decide_eq_false_2 by set_solver.
        rewrite F. apply B. set_solver. }
  destruct HQ as (Hnd & W & O & A & B).
  assert (H2 : NodesWF g2 /\ (forall tv, constraintsOf g2 tv = constraintsOf g1 tv)
               /\ (getTypeVariables cs c = [] ->
                   OrphanedConstraints g1 ≡ₚ c :: OrphanedConstraints g2)
               /\ (getTypeVariables cs c <> [] ->
                   OrphanedConstraints g2 = OrphanedConstraints g1)).
  { destruct (getTypeVariables cs c) as [|y l] eqn:Hv.
    - apply removeOrphan_Done in Horph as (k & Hk & ->).
      split; [done|]. split; [done|]. split; [|done]. intros _. simpl.
      by apply swapRemove_perm.
    - injection Horph as <-. split; [done|]. split; [done|]. split; done. }
  destruct H2 as (W2 & C2 & O2a & O2b).
  split; [by apply NodesWF_recordChange|]. split; [done|].
  split; [|split; [|split]].
  - intros tv Htv. rewrite constraintsOf_recordChange, C2. by apply A.
  - intros tv Htv. rewrite constraintsOf_recordChange, C2. by apply B.
  - intros Hv. rewrite OrphanedConstraints_recordChange, <- O. by apply O2a.
  - intros Hv. rewrite OrphanedConstraints_recordChange, <- O. by apply O2b.
Qed.

(** The constraints registered after a sequence of calls: those added and
    not removed since (with multiplicity). *)
Definition register (reg : list Constraint) (m : Mutation) : list Constraint :=
  match m with
  | MAddConstraint c => reg ++ [c]
  | MRemoveConstraint c => eraseFirst c reg
  | _ => reg
  end.

Definition registeredAfter (ms : list Mutation) : list Constraint :=
  foldl register [] ms.

Record Incidence (cs : ConstraintSystem) (reg : list Constraint)
    (g : ConstraintGraph) : Prop := {
  inc_wf : NodesWF g;
  inc_nodes : forall tv,
    constraintsOf g tv ≡ₚ filter (fun c => tv ∈ getTypeVariables cs c) reg;
  inc_orphans :
    OrphanedConstraints g ≡ₚ filter (fun c => getTypeVariables cs c = []) reg;
}.

Lemma eraseFirst_perm c l : c ∈ l -> l ≡ₚ c :: eraseFirst c l.
Proof.
  induction l as [|x l IH]; intros Hc; [by apply elem_of_nil in Hc|].
  simpl. case_bool_decide as Hx; [by subst|].
  apply elem_of_cons in Hc as [->|Hc]; [done|].
  rewrite (IH Hc) at 1. apply Permutation_swap.
Qed.

Lemma Incidence_other cs fuel reg m g g' :
  (forall c, m <> MAddConstraint c) -> (forall c, m <> MRemoveConstraint c) ->
  Incidence cs reg g -> applyMutation cs fuel m g = Done g' ->
  Incidence cs reg g'.
Proof.
  intros Hna Hnr [W N O] Hrun.
  assert (Hfr : frozen (OrphanedConstraints g) (constraintsOf g) g) by done.
  assert (Hfr' : frozen (OrphanedConstraints g) (constraintsOf g) g').
  { pose proof (frozen_steps (OrphanedConstraints g) (constraintsOf g)) as St.
    destruct m as [tv|c|c|a b|tv fixed]; simpl in Hrun.
    - apply bind_Done in Hrun as ([i g1] & L & Hrun). injection Hrun as <-.
      by destruct (frozen_lookup _ _ _ _ _ _ _ _ Hfr L).
    - by destruct (Hna c).
    - by destruct (Hnr c).
    - by destruct (mergeNodes_keeps cs _ St _ [] _ _ _ _ Hfr Hrun).
    - by destruct (bindTypeVariable_keeps cs _ St _ [] _ _ _ _ Hfr Hrun). }
  destruct Hfr' as (W' & O' & N'). split; [done| |].
  - intros tv. by rewrite N'.
  - by rewrite O'.
Qed.

Lemma Incidence_step cs fuel reg m g g' :
  Incidence cs reg g -> applyMutation cs fuel m g = Done g' ->
  Incidence cs (register reg m) g'.
Proof.
  intros Hinc Hrun.
  destruct m as [tv|c|c|a b|tv fixed];
    try (by eapply Incidence_other; [| |exact Hinc|exact Hrun]).
  - destruct Hinc as [W N O]. simpl in *.
    apply addConstraint_lists in Hrun as (W' & _ & N' & O'); [|done].
    split; [done| |].
    + intros tv. rewrite N', filter_app, (N tv). apply Permutation_app; [done|].
      rewrite filter_cons, filter_nil, bool_decide_decide.
      by destruct (decide _).
    + rewrite O', filter_app, O. apply Permutation_app; [done|].
      rewrite filter_cons, filter_nil, bool_decide_decide.
      by destruct (decide _).
  - destruct Hinc as [W N O]. simpl in *.
    apply removeConstraint_lists in Hrun as (W' & _ & A & B & Oa & Ob);
      [|done].
    assert (Hreg : c ∈ reg).
    { destruct (getTypeVariables cs c) as [|tv l] eqn:Hv.
      - specialize (Oa eq_refl).
        assert (Hc : c ∈ OrphanedConstraints g) by (rewrite Oa; left).
        rewrite O in Hc. by apply list_elem_of_filter in Hc as [_ Hc].
      - assert (Htv : tv ∈ tv :: l) by left. specialize (A tv Htv).
        assert (Hc : c ∈ constraintsOf g tv) by (rewrite A; left).
        rewrite (N tv) in Hc. by apply list_elem_of_filter in Hc as [_ Hc]. }
    pose proof (eraseFirst_perm c reg Hreg) as Hperm.
    split; [done| |].
    + intros tv. destruct (decide (tv ∈ getTypeVariables cs c)) as [Htv|Htv].
      * apply (Permutation_cons_inv (a := c)).
        rewrite <- (A tv Htv), (N tv). rewrite Hperm at 1.
        rewrite filter_cons. by destruct (decide _).
      * rewrite (B tv Htv), (N tv). rewrite Hperm at 1.
        rewrite filter_cons. by destruct (decide _).
    + destruct (decide (getTypeVariables cs c = [])) as [Hv|Hv].
      * apply (Permutation_cons_inv (a := c)).
        rewrite <- (Oa Hv), O. rewrite Hperm at 1.
        rewrite filter_cons. by destruct (decide _).
      * rewrite (Ob Hv), O. rewrite Hperm at 1.
        rewrite filter_cons. by destruct (decide _).
Qed.

Lemma Incidence_steps cs fuel ms reg g g' :
  Incidence cs reg g -> applyMutations cs fuel ms g = Done g' ->
  Incidence cs (foldl register reg ms) g'.
Proof.
  revert reg g. induction ms as [|m ms IH]; intros reg g Hinc Hrun;
    simpl in *.
  - by injection Hrun as <-.
  - apply bind_Done in Hrun as (g1 & Hm & Hrun).
    apply (IH _ g1); [|done]. eapply Incidence_step; eauto.
Qed.

Lemma Incidence_empty cs : Incidence cs [] emptyGraph.
Proof.
  split.
  - intros tv n Hn. simpl in Hn. by rewrite lookup_empty in Hn.
  - intros tv. unfold constraintsOf. simpl. by rewrite lookup_empty.
  - done.
Qed.

(** C2: after any sequence of calls starting from the empty graph, every
    registered constraint is in the constraint list of each type variable it
    mentions, every constraint in the list of a type variable mentions that
    variable (and is registered), and the orphaned constraints are exactly
    the registered constraints that mention no type variable. *)
Theorem C2_incidence cs fuel ms g :
  applyMutations cs fuel ms emptyGraph = Done g ->
  (forall c tv, c ∈ registeredAfter ms -> tv ∈ getTypeVariables cs c ->
                c ∈ constraintsOf g tv) /\
  (forall c tv, c ∈ constraintsOf g tv ->
                tv ∈ getTypeVariables cs c /\ c ∈ registeredAfter ms) /\
  (forall c, c ∈ OrphanedConstraints g <->
             c ∈ registeredAfter ms /\ getTypeVariables cs c = []).
Proof.
  intros Hrun.
  destruct (Incidence_steps cs fuel ms [] emptyGraph g (Incidence_empty cs)
              Hrun) as [_ N O].
  fold (registeredAfter ms) in N, O. split; [|split].
  - intros c tv Hc Htv. rewrite (N tv). by apply list_elem_of_filter.
  - intros c tv Hc. rewrite (N tv) in Hc.
    by apply list_elem_of_filter in Hc.
  - intros c. rewrite O, list_elem_of_filter. tauto.
Qed.

Lemma C2_incidence_witness :
  let ms := [MAddConstraint 0; MAddConstraint 5; MAddConstraint 1;
             MRemoveConstraint 0] in
  let g := finished emptyGraph (applyMutations csPlain 3 ms emptyGraph) in
  applyMutations csPlain 3 ms emptyGraph = Done g /\
  (registeredAfter ms = [5; 1] /\ constraintsOf g 1 = [1] /\
   constraintsOf g 0 = [] /\ OrphanedConstraints g = [5]) /\
  (forall c tv, c ∈ registeredAfter ms -> tv ∈ getTypeVariables csPlain c ->
                c ∈ constraintsOf g tv) /\
  (forall c tv, c ∈ constraintsOf g tv ->
                tv ∈ getTypeVariables csPlain c /\ c ∈ registeredAfter ms) /\
  (forall c, c ∈ OrphanedConstraints g <->
             c ∈ registeredAfter ms /\ getTypeVariables csPlain c = []).
Proof.
  intros ms g.
  assert (Hrun : applyMutations csPlain 3 ms emptyGraph = Done g)
    by (vm_compute; reflexivity).
  split; [exact Hrun|]. split; [repeat split|].
  exact (C2_incidence csPlain 3 ms g Hrun).
Defined.

(** ** The journal of a scope

    Everything below is relative to [g0], the graph at the opening of the
    scope; the journal of the scope is what has been appended to [Changes]
    since. *)

Definition journalSince (g0 g : ConstraintGraph) : list Change :=
  drop (length (Changes g0)) (Changes g).

Definition addedTypeVar (ch : Change) : option TypeVariableType :=
  match ch with
  | AddedTypeVariable tv => Some tv
  | _ => None
  end.

Definition addedTypeVars (j : list Change) : list TypeVariableType :=
  omap addedTypeVar j.

(** The type variables whose nodes the undo of a change goes to. *)
Definition mentions (cs : ConstraintSystem) (ch : Change)
  : list TypeVariableType :=
  match ch with
  | AddedTypeVariable _ => []
  | AddedConstraint c => getTypeVariables cs c
  | RemovedConstraint c => getTypeVariables cs c
  | ExtendedEquivalenceClass tv _ => [tv]
  | BoundTypeVariable tv fixed => tv :: typeVariablesIn fixed
  end.

Lemma journalSince_self g : journalSince g g = [].
Proof. unfold journalSince. by rewrite drop_all. Qed.

Lemma journalSince_prefix g0 g :
  Changes g0 `prefix_of` Changes g ->
  Changes g = Changes g0 ++ journalSince g0 g.
Proof.
  intros [k Hk]. unfold journalSince. rewrite Hk.
  by rewrite drop_app_length.
Qed.

Lemma journalSince_app g0 g g' k :
  Changes g0 `prefix_of` Changes g -> Changes g' = Changes g ++ k ->
  journalSince g0 g' = journalSince g0 g ++ k.
Proof.
  intros Hp Hk. unfold journalSince. rewrite Hk.
  rewrite (journalSince_prefix g0 g Hp) at 1.
  rewrite <- app_assoc, drop_app_length.
  unfold journalSince. done.
Qed.

Lemma journalSince_same g0 g g' :
  Changes g' = Changes g -> journalSince g0 g' = journalSince g0 g.
Proof. unfold journalSince. by intros ->. Qed.

Lemma journalSince_recordChange g0 ch g :
  is_Some (ActiveScope g) -> Changes g0 `prefix_of` Changes g ->
  journalSince g0 (recordChange ch g) = journalSince g0 g ++ [ch].
Proof.
  intros Hs Hp. apply journalSince_app; [done|]. by apply recordChange_active.
Qed.

Lemma addedTypeVars_app j k :
  addedTypeVars (j ++ k) = addedTypeVars j ++ addedTypeVars k.
Proof. unfold addedTypeVars. apply omap_app. Qed.

(** *** The scope is active and the journal extends that of [g0] *)

Definition scoped (g0 g : ConstraintGraph) : Prop :=
  is_Some (ActiveScope g) /\ Changes g0 `prefix_of` Changes g.

Lemma scoped_record g0 ch g : scoped g0 g -> scoped g0 (recordChange ch g).
Proof.
  intros [Hs Hp]. split; [by rewrite recordChange_ActiveScope|].
  etrans; [exact Hp|]. apply recordChange_prefix.
Qed.

Lemma scoped_createNode g0 tv g : scoped g0 g -> scoped g0 (createNode tv g).
Proof. intros H. unfold createNode. by apply scoped_record. Qed.

Lemma journalSince_createNode g0 tv g :
  scoped g0 g ->
  journalSince g0 (createNode tv g)
  = journalSince g0 g ++ [AddedTypeVariable tv].
Proof.
  intros [Hs Hp]. unfold createNode.
  by rewrite journalSince_recordChange.
Qed.

(** *** Type variables: the vector is the old one followed by the additions
    journalled, in order *)

Record TrackedTypeVars (cs : ConstraintSystem) (g0 g : ConstraintGraph)
  : Prop := {
  tv_scoped : scoped g0 g;
  tv_vector :
    TypeVariables g = TypeVariables g0 ++ addedTypeVars (journalSince g0 g);
  tv_wf : GraphWF g;
  tv_mentions : forall j1 e j2,
    journalSince g0 g = j1 ++ e :: j2 ->
    forall v, v ∈ mentions cs e ->
              v ∈ TypeVariables g0 ++ addedTypeVars j1;
}.

Lemma GraphWF_nodes_only g ns :
  (forall tv, is_Some (ns !! tv) <-> is_Some (Nodes g !! tv)) ->
  GraphWF g -> GraphWF (setNodes g ns).
Proof.
  intros Hns [Hnd Hidx Hn]. split; simpl; [done|done|].
  intros tv. by rewrite Hns.
Qed.

Lemma GraphWF_recordChange ch g : GraphWF g -> GraphWF (recordChange ch g).
Proof.
  intros H. unfold recordChange. destruct (ActiveScope g); [|done].
  destruct H. by split.
Qed.

Lemma GraphWF_updateClass tv n ec g :
  Nodes g !! tv = Some n -> GraphWF g -> GraphWF (updateClass tv n ec g).
Proof.
  intros Hn. apply GraphWF_nodes_only. intros u.
  apply (hasNode_updateClass tv n ec g u Hn).
Qed.

Lemma GraphWF_pushPair tv other n1 n2 g :
  Nodes g !! tv = Some n1 -> Nodes g !! other = Some n2 ->
  GraphWF g -> GraphWF (pushPair tv other n1 n2 g).
Proof.
  intros H1 H2. apply GraphWF_nodes_only. intros u.
  apply (hasNode_pushPair tv other n1 n2 g u H1 H2).
Qed.

Lemma GraphWF_createNode tv g :
  Nodes g !! tv = None -> GraphWF g -> GraphWF (createNode tv g).
Proof.
  intros Hn [Hnd Hidx Hnodes]. unfold createNode.
  apply GraphWF_recordChange.
  assert (Hfresh : tv ∉ TypeVariables g).
  { intros Hin. apply Hnodes in Hin as [? Hin]. congruence. }
  split; simpl.
  - apply NoDup_app. split; [done|]. split; [|apply NoDup_singleton].
    intros x Hx Hx'. apply list_elem_of_singleton in Hx'. by subst.
  - intros i u Hi. apply lookup_app_Some in Hi as [Hi|[Hlen Hi]].
    + rewrite lookup_insert_ne; [by apply Hidx|].
      intros <-. apply Hfresh. by apply list_elem_of_lookup_2 in Hi.
    + apply list_lookup_singleton_Some in Hi as [Hi <-].
      rewrite lookup_insert_eq. f_equal. lia.
  - intros u. rewrite elem_of_app, list_elem_of_singleton, <- Hnodes.
    destruct (decide (tv = u)) as [->|Hne].
    + rewrite lookup_insert_eq. split; eauto.
    + rewrite lookup_insert_ne by done. split; [auto|].
      intros [H|H]; [done|congruence].
Qed.

Lemma mentions_snoc cs (base : list TypeVariableType) j e :
  (forall j1 e1 j2, j = j1 ++ e1 :: j2 ->
     forall v, v ∈ mentions cs e1 -> v ∈ base ++ addedTypeVars j1) ->
  (forall v, v ∈ mentions cs e -> v ∈ base ++ addedTypeVars j) ->
  forall j1 e1 j2, j ++ [e] = j1 ++ e1 :: j2 ->
    forall v, v ∈ mentions cs e1 -> v ∈ base ++ addedTypeVars j1.
Proof.
  intros Hold Hnew j1 e1 j2 Heq v Hv.
  destruct j2 as [|e2 j2 _] using rev_ind.
  - apply app_inj_tail in Heq as [-> ->]. auto.
  - rewrite app_comm_cons, app_assoc in Heq.
    apply app_inj_tail in Heq as [-> _]. eauto.
Qed.

Lemma TrackedTypeVars_quiet cs g0 g g' :
  Changes g' = Changes g -> ActiveScope g' = ActiveScope g ->
  TypeVariables g' = TypeVariables g -> GraphWF g' ->
  TrackedTypeVars cs g0 g -> TrackedTypeVars cs g0 g'.
Proof.
  intros HC HS HT HW [[Hs Hp] Hv _ Hm]. split.
  - split; [by rewrite HS|by rewrite HC].
  - by rewrite HT, (journalSince_same g0 g g' HC).
  - done.
  - by rewrite (journalSince_same g0 g g' HC).
Qed.

Lemma TrackedTypeVars_record cs g0 ch g :
  addedTypeVar ch = None ->
  (forall v, v ∈ mentions cs ch -> hasNode g v) ->
  TrackedTypeVars cs g0 g -> TrackedTypeVars cs g0 (recordChange ch g).
Proof.
  intros Hch Hmen [[Hs Hp] Hv Hw Hm].
  pose proof (journalSince_recordChange g0 ch g Hs Hp) as Hj.
  split.
  - by apply scoped_record.
  - rewrite Hj, addedTypeVars_app. unfold addedTypeVars at 2. simpl.
    rewrite Hch. simpl. rewrite app_nil_r.
    unfold recordChange. by destruct (ActiveScope g).
  - by apply GraphWF_recordChange.
  - rewrite Hj. apply mentions_snoc; [done|].
    intros v Hv'. apply Hmen in Hv'. apply (wf_nodes g Hw) in Hv'.
    by rewrite <- Hv.
Qed.

Lemma TrackedTypeVars_steps cs g0 :
  StepInvariant (fun _ => TrackedTypeVars cs g0).
Proof.
  apply simpleStepInvariant.
  - intros tv g Hn [[Hs Hp] Hv Hw Hm].
    pose proof (journalSince_createNode g0 tv g (conj Hs Hp)) as Hj.
    split.
    + by apply scoped_createNode.
    + rewrite Hj, addedTypeVars_app, app_assoc, <- Hv.
      unfold createNode, recordChange. by destruct (ActiveScope g).
    + by apply GraphWF_createNode.
    + rewrite Hj. apply mentions_snoc; [done|].
      intros v Hv'. by apply elem_of_nil in Hv'.
  - intros ch g Hrec. apply TrackedTypeVars_record.
    + by destruct ch.
    + destruct ch as [| | |tv k|tv fixed]; simpl in Hrec; try done.
      * destruct Hrec as (n & Hn & _). intros v Hv.
        apply list_elem_of_singleton in Hv. subst. by eexists.
      * destruct Hrec as (Hn & _ & Hall). intros v Hv. simpl in Hv.
        apply elem_of_cons in Hv as [->|Hv]; auto.
  - intros tv n ec g Hn H. eapply TrackedTypeVars_quiet; [..|exact H]; try done.
    apply GraphWF_updateClass; [done|]. apply H.
  - intros tv other n1 n2 g Hne H1 H2 H.
    eapply TrackedTypeVars_quiet; [..|exact H]; try done.
    apply GraphWF_pushPair; [done|done|]. apply H.
Qed.

(** *** Fixed bindings: each list is the old one followed by as many
    entries as the journal (and the pending pushes) account for *)

Definition pushCount (tv : TypeVariableType)
    (l : list (TypeVariableType * TypeVariableType)) : nat :=
  length (filter (fun p => p.1 = tv) l).

Definition pushesOfChange (ch : Change)
  : list (TypeVariableType * TypeVariableType) :=
  match ch with
  | BoundTypeVariable tv fixed => pushesOf tv fixed
  | _ => []
  end.

Definition journalPushes (j : list Change)
  : list (TypeVariableType * TypeVariableType) :=
  flat_map pushesOfChange j.

Lemma pushCount_app tv l1 l2 :
  pushCount tv (l1 ++ l2) = pushCount tv l1 + pushCount tv l2.
Proof. unfold pushCount. by rewrite filter_app, length_app. Qed.

Lemma journalPushes_app j k :
  journalPushes (j ++ k) = journalPushes j ++ journalPushes k.
Proof. unfold journalPushes. apply flat_map_app. Qed.

Lemma journalPushes_snoc j ch :
  journalPushes (j ++ [ch]) = journalPushes j ++ pushesOfChange ch.
Proof. rewrite journalPushes_app. simpl. by rewrite app_nil_r. Qed.

Record TrackedBindings (g0 : ConstraintGraph)
    (pend : list (TypeVariableType * TypeVariableType))
    (g : ConstraintGraph) : Prop := {
  tb_scoped : scoped g0 g;
  tb_lengths : forall tv, exists extra,
    fixedBindingsOf g tv = fixedBindingsOf g0 tv ++ extra /\
    length extra = pushCount tv (journalPushes (journalSince g0 g) ++ pend);
}.

Lemma TrackedBindings_quiet g0 pend g g' :
  Changes g' = Changes g -> ActiveScope g' = ActiveScope g ->
  (forall tv, fixedBindingsOf g' tv = fixedBindingsOf g tv) ->
  TrackedBindings g0 pend g -> TrackedBindings g0 pend g'.
Proof.
  intros HC HS HF [[Hs Hp] Hl]. split.
  - split; [by rewrite HS|by rewrite HC].
  - intros tv. rewrite HF, (journalSince_same g0 g g' HC). apply Hl.
Qed.

Lemma TrackedBindings_record g0 pend ch g :
  pushesOfChange ch = [] ->
  TrackedBindings g0 pend g -> TrackedBindings g0 pend (recordChange ch g).
Proof.
  intros Hch [[Hs Hp] Hl]. split; [by apply scoped_record|].
  intros tv. rewrite fixedBindingsOf_recordChange.
  rewrite (journalSince_recordChange g0 ch g Hs Hp), journalPushes_snoc, Hch.
  rewrite app_nil_r. apply Hl.
Qed.

Lemma TrackedBindings_steps g0 : StepInvariant (TrackedBindings g0).
Proof.
  split.
  - intros pend tv g Hn H. unfold createNode.
    apply TrackedBindings_record; [done|].
    eapply TrackedBindings_quiet; [..|exact H]; try done.
    intros u. rewrite <- (fixedBindingsOf_createNode tv g u Hn).
    unfold createNode. by rewrite fixedBindingsOf_recordChange.
  - intros pend tv n g Hn H.
    eapply TrackedBindings_quiet; [..|exact H]; try done.
    intros u. by apply (fixedBindingsOf_setNodes tv n).
  - intros pend tv n g Hn Hlen H. by apply TrackedBindings_record.
  - intros pend tv n ec g Hn _ H.
    eapply TrackedBindings_quiet; [..|exact H]; try done.
    intros u. by apply (fixedBindingsOf_setNodes tv n).
  - intros pend tv other n1 n2 g Hne H1 H2 [[Hs Hp] Hl]. split; [done|].
    intros u. destruct (Hl u) as (extra & He & Hlen).
    rewrite (fixedBindingsOf_pushPair _ _ _ _ _ _ Hne H1 H2), He.
    rewrite <- app_assoc. eexists. split; [done|].
    rewrite length_app, Hlen.
    change (journalSince g0 (pushPair tv other n1 n2 g))
      with (journalSince g0 g).
    rewrite !pushCount_app. unfold pairPushes, pushCount. simpl.
    rewrite !filter_cons, filter_nil. simpl.
    repeat case_bool_decide; repeat destruct (decide _); subst;
      simpl; try lia; congruence.
  - intros pend tv fixed g Hn Hhas Hall [[Hs Hp] Hl].
    split; [by apply scoped_record|].
    intros u. rewrite fixedBindingsOf_recordChange.
    rewrite (journalSince_recordChange g0 _ g Hs Hp), journalPushes_snoc.
    simpl. destruct (Hl u) as (extra & He & Hlen). exists extra.
    split; [done|]. rewrite Hlen, !pushCount_app. lia.
Qed.

(** *** Equivalence classes: truncating to the journalled sizes, latest
    first, leads back to the old class *)

Definition rawClass (g : ConstraintGraph) (r : TypeVariableType)
  : list TypeVariableType :=
  match Nodes g !! r with
  | Some n => EquivalenceClass n
  | None => []
  end.

(** What [getEquivalenceClassUnsafe] makes of a stored class. *)
Definition matList (r : TypeVariableType) (raw : list TypeVariableType)
  : list TypeVariableType :=
  match raw with
  | [] => [r]
  | _ :: _ => raw
  end.

Fixpoint classAfterUndo (sizes : list nat) (raw : list TypeVariableType)
  : option (list TypeVariableType) :=
  match sizes with
  | [] => Some raw
  | m :: sizes' =>
      if bool_decide (m <= length raw) then classAfterUndo sizes' (take m raw)
      else None
  end.

Definition extensionOf (r : TypeVariableType) (ch : Change) : option nat :=
  match ch with
  | ExtendedEquivalenceClass tv prevSize =>
      if bool_decide (tv = r) then Some prevSize else None
  | _ => None
  end.

Definition sizesFor (r : TypeVariableType) (j : list Change) : list nat :=
  omap (extensionOf r) j.

Definition keyed (g : ConstraintGraph) : Prop :=
  forall tv n, Nodes g !! tv = Some n -> TypeVar n = tv.

Definition classTracked (g0 : ConstraintGraph) (j : list Change)
    (g : ConstraintGraph) (r : TypeVariableType) : Prop :=
  exists raw, classAfterUndo (reverse (sizesFor r j)) (rawClass g r) = Some raw
              /\ matList r raw = matList r (rawClass g0 r).

Record TrackedClasses (g0 g : ConstraintGraph) : Prop := {
  tc_scoped : scoped g0 g;
  tc_keyed : keyed g;
  tc_classes : forall r, classTracked g0 (journalSince g0 g) g r;
}.

Lemma sizesFor_snoc r j ch :
  sizesFor r (j ++ [ch]) = sizesFor r j ++ option_list (extensionOf r ch).
Proof.
  unfold sizesFor. rewrite omap_app. simpl.
  by destruct (extensionOf r ch).
Qed.

Lemma classAfterUndo_materialize r sizes raw out :
  classAfterUndo sizes raw = Some out ->
  exists out', classAfterUndo sizes (matList r raw) = Some out' /\
               matList r out' = matList r out.
Proof.
  destruct raw as [|x raw]; [|eauto]. simpl.
  destruct sizes as [|m sizes]; simpl.
  - intros [= <-]. eauto.
  - case_bool_decide as Hm; [|done].
    assert (m = 0) as -> by (simpl in Hm; lia).
    rewrite bool_decide_eq_true_2 by (simpl; lia). simpl. eauto.
Qed.

Lemma classAfterUndo_append sizes raw ec out :
  sizes <> [] -> classAfterUndo sizes raw = Some out ->
  classAfterUndo sizes (raw ++ ec) = Some out.
Proof.
  destruct sizes as [|m sizes]; [done|]. intros _. simpl.
  case_bool_decide as Hm; [|done].
  rewrite bool_decide_eq_true_2 by (rewrite length_app; lia).
  by rewrite take_app_le.
Qed.

Lemma rawClass_recordChange ch g r :
  rawClass (recordChange ch g) r = rawClass g r.
Proof. unfold rawClass, recordChange. by destruct (ActiveScope g). Qed.

Lemma rawClass_insert tv n' g r :
  rawClass (setNodes g (<[tv := n']> (Nodes g))) r =
  if bool_decide (r = tv) then EquivalenceClass n' else rawClass g r.
Proof.
  unfold rawClass. simpl. case_bool_decide as Hr.
  - subst. by rewrite lookup_insert_eq.
  - by rewrite lookup_insert_ne.
Qed.

Lemma rawClass_setNodes tv n n' g r :
  Nodes g !! tv = Some n -> EquivalenceClass n' = EquivalenceClass n ->
  rawClass (setNodes g (<[tv := n']> (Nodes g))) r = rawClass g r.
Proof.
  intros Hn He. rewrite rawClass_insert. case_bool_decide as Hr; [|done].
  subst. unfold rawClass. by rewrite Hn.
Qed.

Lemma keyed_recordChange ch g : keyed (recordChange ch g) <-> keyed g.
Proof. unfold keyed, recordChange. by destruct (ActiveScope g). Qed.

Lemma keyed_insert tv n n' g :
  Nodes g !! tv = Some n -> TypeVar n' = TypeVar n ->
  keyed g -> keyed (setNodes g (<[tv := n']> (Nodes g))).
Proof.
  intros Hn Ht Hk u m Hu. simpl in Hu.
  destruct (decide (tv = u)) as [->|Hne].
  - rewrite lookup_insert_eq in Hu. injection Hu as <-. rewrite Ht. eauto.
  - rewrite lookup_insert_ne in Hu by done. eauto.
Qed.

Lemma TrackedClasses_quiet g0 g g' :
  Changes g' = Changes g -> ActiveScope g' = ActiveScope g ->
  keyed g' -> (forall r, rawClass g' r = rawClass g r) ->
  TrackedClasses g0 g -> TrackedClasses g0 g'.
Proof.
  intros HC HS HK HR [[Hs Hp] _ Hc]. split.
  - split; [by rewrite HS|by rewrite HC].
  - done.
  - intros r. unfold classTracked.
    rewrite HR, (journalSince_same g0 g g' HC). apply Hc.
Qed.

Lemma TrackedClasses_record g0 ch g :
  (forall r, extensionOf r ch = None) ->
  TrackedClasses g0 g -> TrackedClasses g0 (recordChange ch g).
Proof.
  intros Hch [[Hs Hp] Hk Hc]. split.
  - by apply scoped_record.
  - by apply keyed_recordChange.
  - intros r. unfold classTracked.
    rewrite rawClass_recordChange, (journalSince_recordChange g0 ch g Hs Hp).
    rewrite sizesFor_snoc, Hch. simpl. rewrite app_nil_r. apply Hc.
Qed.

Lemma rawClass_materialize g tv n :
  keyed g -> Nodes g !! tv = Some n ->
  EquivalenceClass (materialize n) = matList tv (rawClass g tv).
Proof.
  intros Hk Hn. unfold rawClass, materialize. rewrite Hn.
  rewrite <- (Hk tv n Hn). by destruct n as [t c i [|x ec] fb].
Qed.

Lemma sizesFor_app r j k : sizesFor r (j ++ k) = sizesFor r j ++ sizesFor r k.
Proof. unfold sizesFor. apply omap_app. Qed.

Lemma TrackedClasses_updateClass g0 tv n ec g :
  Nodes g !! tv = Some n ->
  (forall out,
     classAfterUndo (reverse (sizesFor tv (journalSince g0 g)))
       (rawClass g tv) = Some out ->
     exists out',
       classAfterUndo (reverse (sizesFor tv (journalSince g0 g))) ec
         = Some out' /\ matList tv out' = matList tv out) ->
  TrackedClasses g0 g -> TrackedClasses g0 (updateClass tv n ec g).
Proof.
  intros Hn Hec [[Hs Hp] Hk Hc]. split; [done| |].
  - by apply (keyed_insert tv n).
  - intros r. unfold classTracked, updateClass.
    rewrite rawClass_insert.
    change (journalSince g0 (setNodes g _)) with (journalSince g0 g).
    case_bool_decide as Hr; [subst r|apply Hc].
    destruct (Hc tv) as (out & Hout & Hbase).
    destruct (Hec out Hout) as (out' & Hout' & Hm).
    exists out'. split; [done|congruence].
Qed.

Lemma pushPair_twice tv other n1 n2 g :
  pushPair tv other n1 n2 g =
  let g1 := setNodes g
              (<[other := setFixedBindings n2 (FixedBindings n2 ++ [tv])]>
                 (Nodes g)) in
  setNodes g1
    (<[tv := setFixedBindings n1 (FixedBindings n1 ++ [other])]> (Nodes g1)).
Proof. reflexivity. Qed.

Lemma TrackedClasses_steps g0 : StepInvariant (fun _ => TrackedClasses g0).
Proof.
  split.
  - intros _ tv g Hn H. unfold createNode.
    apply TrackedClasses_record; [done|].
    eapply TrackedClasses_quiet; [..|exact H]; try done.
    + intros u m Hu. simpl in Hu. destruct (decide (tv = u)) as [->|Hne].
      * rewrite lookup_insert_eq in Hu. by injection Hu as <-.
      * rewrite lookup_insert_ne in Hu by done. by apply (tc_keyed g0 g H).
    + intros r. unfold rawClass. simpl.
      destruct (decide (tv = r)) as [->|Hne].
      * by rewrite lookup_insert_eq, Hn.
      * by rewrite lookup_insert_ne.
  - intros _ tv n g Hn H. apply TrackedClasses_updateClass; [done| |done].
    intros out Hout.
    rewrite (rawClass_materialize g tv n (tc_keyed g0 g H) Hn).
    by apply classAfterUndo_materialize.
  - intros _ tv n g Hn Hlen [[Hs Hp] Hk Hc]. split.
    + by apply scoped_record.
    + by apply keyed_recordChange.
    + intros r. unfold classTracked.
      rewrite rawClass_recordChange, (journalSince_recordChange g0 _ g Hs Hp).
      rewrite sizesFor_snoc. simpl.
      case_bool_decide as Hr; simpl; [subst r|rewrite app_nil_r; apply Hc].
      rewrite reverse_snoc. simpl.
      assert (Hraw : rawClass g tv = EquivalenceClass n)
        by (unfold rawClass; by rewrite Hn).
      rewrite Hraw, bool_decide_eq_true_2 by done.
      rewrite take_ge by done. rewrite <- Hraw. apply Hc.
  - intros _ tv n ec g Hn Hpast H.
    apply TrackedClasses_updateClass; [done| |done].
    intros out Hout.
    destruct (Hpast (proj1 (tc_scoped g0 g H)))
      as (_ & gpast & m & jpost & Hgp & HC).
    assert (Hne : reverse (sizesFor tv (journalSince g0 g)) <> []).
    { destruct (tc_scoped g0 gpast Hgp) as [_ Hpp].
      assert (Hj : journalSince g0 g =
                   journalSince g0 gpast ++ ExtendedEquivalenceClass tv m :: jpost)
        by (by apply journalSince_app).
      rewrite Hj, sizesFor_app. simpl.
      rewrite bool_decide_eq_true_2 by done.
      intros Heq. apply (f_equal length) in Heq.
      rewrite length_reverse, length_app in Heq. simpl in Heq. lia. }
    rewrite (rawClass_materialize g tv n (tc_keyed g0 g H) Hn).
    destruct (classAfterUndo_materialize tv _ _ _ Hout) as (out' & Ho & Hm).
    exists out'. split; [|done]. by apply classAfterUndo_append.
  - intros _ tv other n1 n2 g Hne H1 H2 H.
    eapply TrackedClasses_quiet; [..|exact H]; try done.
    + rewrite pushPair_twice. simpl. apply (keyed_insert tv n1); simpl.
      * by rewrite lookup_insert_ne.
      * done.
      * apply (keyed_insert other n2 _ g H2); [done|].
        apply (tc_keyed g0 g H).
    + intros r. rewrite pushPair_twice. simpl.
      rewrite (rawClass_setNodes tv n1); simpl;
        [|by rewrite lookup_insert_ne|done].
      by rewrite (rawClass_setNodes other n2).
  - intros _ tv fixed g Hn Hhas Hall H. by apply TrackedClasses_record.
Qed.

(** *** Constraints: replaying the journalled additions and removals on the
    old lists gives the present ones, up to order *)

Definition constraintEntry (ch : Change) : option (bool * Constraint) :=
  match ch with
  | AddedConstraint c => Some (true, c)
  | RemovedConstraint c => Some (false, c)
  | _ => None
  end.

Definition constraintEntries (j : list Change) : list (bool * Constraint) :=
  omap constraintEntry j.

(** One entry applied to a list: an addition appends, a removal erases one
    occurrence.  A [strict] list has no duplicates (a node's list); the
    orphans may have them. *)
Definition replayStep (strict : bool) (relevant : Constraint -> bool)
    (e : bool * Constraint) (l : list Constraint)
  : option (list Constraint) :=
  let '(added, c) := e in
  if relevant c then
    if added then
      if strict && bool_decide (c ∈ l) then None else Some (l ++ [c])
    else
      if bool_decide (c ∈ l) then Some (eraseFirst c l) else None
  else Some l.

Definition replay (strict : bool) (relevant : Constraint -> bool)
    (es : list (bool * Constraint)) (l : list Constraint)
  : option (list Constraint) :=
  foldl (fun acc e => acc ≫= replayStep strict relevant e) (Some l) es.

Lemma replay_snoc strict relevant es e l :
  replay strict relevant (es ++ [e]) l =
  replay strict relevant es l ≫= replayStep strict relevant e.
Proof. unfold replay. by rewrite foldl_app. Qed.

Lemma constraintEntries_snoc j ch :
  constraintEntries (j ++ [ch]) =
  constraintEntries j ++ option_list (constraintEntry ch).
Proof.
  unfold constraintEntries. rewrite omap_app. simpl.
  by destruct (constraintEntry ch).
Qed.

Lemma eraseFirst_notin c l : c ∉ l -> eraseFirst c l = l.
Proof.
  induction l as [|x l IH]; simpl; [done|]. intros Hc.
  rewrite bool_decide_eq_false_2 by set_solver. f_equal. apply IH. set_solver.
Qed.

Lemma eraseFirst_subseteq c l : eraseFirst c l ⊆ l.
Proof.
  induction l as [|x l IH]; simpl; [done|].
  case_bool_decide; set_solver.
Qed.

Lemma eraseFirst_NoDup c l : NoDup l -> NoDup (eraseFirst c l) /\ c ∉ eraseFirst c l.
Proof.
  induction 1 as [|x l Hx Hnd [IH1 IH2]]; simpl.
  - split; [constructor|set_solver].
  - case_bool_decide as Hc.
    + subst. done.
    + split.
      * constructor; [|done]. intros Hin. apply Hx.
        by apply (eraseFirst_subseteq c l).
      * set_solver.
Qed.

Lemma replayStep_NoDup relevant e l l' :
  NoDup l -> replayStep true relevant e l = Some l' -> NoDup l'.
Proof.
  intros Hnd. destruct e as [[|] c]; simpl.
  - destruct (relevant c); [|by intros [= <-]].
    case_bool_decide as Hc; simpl; [done|]. intros [= <-].
    apply NoDup_app. split; [done|]. split; [|apply NoDup_singleton].
    intros x Hx Hx'. apply list_elem_of_singleton in Hx'. by subst.
  - destruct (relevant c); [|by intros [= <-]].
    case_bool_decide as Hc; [|done]. intros [= <-].
    by apply eraseFirst_NoDup.
Qed.

Lemma replay_NoDup relevant es l l' :
  NoDup l -> replay true relevant es l = Some l' -> NoDup l'.
Proof.
  revert l'. induction es as [|e es IH] using rev_ind; intros l' Hnd.
  - by intros [= <-].
  - rewrite replay_snoc.
    destruct (replay true relevant es l) as [l1|] eqn:E; [|done]. simpl.
    apply replayStep_NoDup. by apply IH.
Qed.

Definition mentionedBy (cs : ConstraintSystem) (tv : TypeVariableType)
    (c : Constraint) : bool :=
  bool_decide (tv ∈ getTypeVariables cs c).

Definition orphaned (cs : ConstraintSystem) (c : Constraint) : bool :=
  bool_decide (getTypeVariables cs c = []).

Record TrackedConstraints (cs : ConstraintSystem) (g0 : ConstraintGraph)
    (es : list (bool * Constraint)) (g : ConstraintGraph) : Prop := {
  tk_wf : NodesWF g;
  tk_nodup : forall e, e ∈ es -> NoDup (getTypeVariables cs e.2);
  tk_lists : forall tv, exists l,
    replay true (mentionedBy cs tv) es (constraintsOf g0 tv) = Some l /\
    constraintsOf g tv ≡ₚ l;
  tk_orphans : exists l,
    replay false (orphaned cs) es (OrphanedConstraints g0) = Some l /\
    OrphanedConstraints g ≡ₚ l;
}.

Definition TrackedEntries (g0 : ConstraintGraph)
    (es : list (bool * Constraint)) (g : ConstraintGraph) : Prop :=
  scoped g0 g /\ constraintEntries (journalSince g0 g) = es.

Lemma TrackedEntries_record g0 es ch g :
  constraintEntry ch = None ->
  TrackedEntries g0 es g -> TrackedEntries g0 es (recordChange ch g).
Proof.
  intros Hch [[Hs Hp] He]. split; [by apply scoped_record|].
  rewrite (journalSince_recordChange g0 ch g Hs Hp), constraintEntries_snoc.
  rewrite Hch. simpl. by rewrite app_nil_r.
Qed.

Lemma TrackedEntries_steps g0 es : StepInvariant (fun _ => TrackedEntries g0 es).
Proof.
  apply simpleStepInvariant.
  - intros tv g Hn H. unfold createNode.
    by apply (TrackedEntries_record g0 es (AddedTypeVariable tv)).
  - intros ch g Hrec H. apply TrackedEntries_record; [|done].
    by destruct ch.
  - by intros tv n ec g Hn H.
  - by intros tv other n1 n2 g Hne H1 H2 H.
Qed.

Lemma frozen_TrackedConstraints cs g0 es g g' :
  frozen (OrphanedConstraints g) (constraintsOf g) g' ->
  TrackedConstraints cs g0 es g -> TrackedConstraints cs g0 es g'.
Proof.
  intros (Hwf & Ho & Hl) [_ Hnd Hlists Horph]. split; [done|done| |].
  - intros tv. rewrite Hl. apply Hlists.
  - rewrite Ho. apply Horph.
Qed.

(** *** All of it together *)

Lemma StepInvariant_and
    (P Q : list (TypeVariableType * TypeVariableType) ->
           ConstraintGraph -> Prop) :
  StepInvariant P -> StepInvariant Q ->
  StepInvariant (fun pend g => P pend g /\ Q pend g).
Proof.
  intros HP HQ. split.
  - intros pend tv g Hn [H1 H2].
    split; [by apply (inv_create P HP)|by apply (inv_create Q HQ)].
  - intros pend tv n g Hn [H1 H2].
    split; [by apply (inv_materialize P HP)|by apply (inv_materialize Q HQ)].
  - intros pend tv n g Hn Hlen [H1 H2].
    split; [by apply (inv_extend P HP)|by apply (inv_extend Q HQ)].
  - intros pend tv n ec g Hn Hpast [H1 H2]. split.
    + apply (inv_append P HP); [done| |done]. intros Hs.
      destruct (Hpast Hs) as (pp & gp & m & jp & [Hgp _] & HC). eauto 10.
    + apply (inv_append Q HQ); [done| |done]. intros Hs.
      destruct (Hpast Hs) as (pp & gp & m & jp & [_ Hgp] & HC). eauto 10.
  - intros pend tv other n1 n2 g Hne Hn1 Hn2 [H1 H2].
    split; [by apply (inv_pair P HP)|by apply (inv_pair Q HQ)].
  - intros pend tv fixed g Hn Hhas Hall [H1 H2].
    split; [by apply (inv_bound P HP)|by apply (inv_bound Q HQ)].
Qed.

(** What a run under a scope keeps, apart from the constraint lists. *)
Definition TrackedRest (cs : ConstraintSystem) (g0 : ConstraintGraph)
    (es : list (bool * Constraint))
    (pend : list (TypeVariableType * TypeVariableType))
    (g : ConstraintGraph) : Prop :=
  (TrackedTypeVars cs g0 g /\ TrackedBindings g0 pend g) /\
  (TrackedClasses g0 g /\ TrackedEntries g0 es g).

Lemma TrackedRest_steps cs g0 es : StepInvariant (TrackedRest cs g0 es).
Proof.
  apply StepInvariant_and; apply StepInvariant_and.
  - apply TrackedTypeVars_steps.
  - apply TrackedBindings_steps.
  - apply TrackedClasses_steps.
  - apply TrackedEntries_steps.
Qed.

Lemma TrackedRest_constraints cs g0 es tv n n' g :
  Nodes g !! tv = Some n -> TypeVar n' = TypeVar n ->
  EquivalenceClass n' = EquivalenceClass n ->
  FixedBindings n' = FixedBindings n ->
  TrackedRest cs g0 es [] g ->
  TrackedRest cs g0 es [] (setNodes g (<[tv := n']> (Nodes g))).
Proof.
  intros Hn Ht He Hf [[H1 H2] [H3 H4]]. split; split.
  - eapply TrackedTypeVars_quiet; [..|exact H1]; try done.
    apply GraphWF_nodes_only; [|apply (tv_wf cs g0 g H1)].
    intros u. apply (hasNode_setNodes_insert tv n n' g u Hn).
  - eapply TrackedBindings_quiet; [..|exact H2]; try done.
    intros u. by apply (fixedBindingsOf_setNodes tv n).
  - eapply TrackedClasses_quiet; [..|exact H3]; try done.
    + apply (keyed_insert tv n n' g Hn Ht), (tc_keyed g0 g H3).
    + intros r. by apply (rawClass_setNodes tv n).
  - done.
Qed.

Lemma TrackedRest_orphans cs g0 es oc g :
  TrackedRest cs g0 es [] g ->
  TrackedRest cs g0 es [] (setOrphanedConstraints g oc).
Proof.
  intros [[H1 H2] [H3 H4]]. split; split.
  - eapply TrackedTypeVars_quiet; [..|exact H1]; try done.
    destruct (tv_wf cs g0 g H1). by split.
  - eapply TrackedBindings_quiet; [..|exact H2]; done.
  - eapply TrackedClasses_quiet; [..|exact H3]; try done.
    apply (tc_keyed g0 g H3).
  - done.
Qed.

Lemma TrackedRest_record cs g0 es ch g :
  addedTypeVar ch = None -> pushesOfChange ch = [] ->
  (forall r, extensionOf r ch = None) ->
  (forall v, v ∈ mentions cs ch -> hasNode g v) ->
  TrackedRest cs g0 es [] g ->
  TrackedRest cs g0 (es ++ option_list (constraintEntry ch)) []
    (recordChange ch g).
Proof.
  intros Ha Hp He Hm [[H1 H2] [H3 [H4 H5]]]. split; split.
  - by apply TrackedTypeVars_record.
  - by apply TrackedBindings_record.
  - by apply TrackedClasses_record.
  - split; [by apply scoped_record|].
    destruct H4 as [Hs Hpre].
    rewrite (journalSince_recordChange g0 ch g Hs Hpre).
    by rewrite constraintEntries_snoc, H5.
Qed.

(** The effect of [addConstraint] and of [removeConstraint] on the lists. *)
Definition listsAdded (cs : ConstraintSystem) (c : Constraint)
    (g g' : ConstraintGraph) : Prop :=
  NodesWF g' /\ NoDup (getTypeVariables cs c) /\
  (forall tv, constraintsOf g' tv =
     constraintsOf g tv ++
     (if bool_decide (tv ∈ getTypeVariables cs c) then [c] else [])) /\
  OrphanedConstraints g' =
    OrphanedConstraints g ++
    (if bool_decide (getTypeVariables cs c = []) then [c] else []).

Definition listsRemoved (cs : ConstraintSystem) (c : Constraint)
    (g g' : ConstraintGraph) : Prop :=
  NodesWF g' /\ NoDup (getTypeVariables cs c) /\
  (forall tv, tv ∈ getTypeVariables cs c ->
     constraintsOf g tv ≡ₚ c :: constraintsOf g' tv) /\
  (forall tv, tv ∉ getTypeVariables cs c ->
     constraintsOf g' tv = constraintsOf g tv) /\
  (getTypeVariables cs c = [] ->
     OrphanedConstraints g ≡ₚ c :: OrphanedConstraints g') /\
  (getTypeVariables cs c <> [] ->
     OrphanedConstraints g' = OrphanedConstraints g).

Lemma constraintsOf_NoDup g tv : NodesWF g -> NoDup (constraintsOf g tv).
Proof.
  intros Hwf. unfold constraintsOf.
  destruct (Nodes g !! tv) as [n|] eqn:Hn; [|constructor].
  apply IndexWF_NoDup. eauto.
Qed.

Lemma TrackedConstraints_added cs g0 es c g g' :
  listsAdded cs c g g' ->
  TrackedConstraints cs g0 es g ->
  TrackedConstraints cs g0 (es ++ [(true, c)]) g'.
Proof.
  intros (Hwf' & Hnd & Hl & Ho) [Hwf Hes Hlists Horph]. split; [done| | |].
  - intros e He. apply elem_of_app in He as [He|He]; [auto|].
    apply list_elem_of_singleton in He. by subst.
  - intros tv. destruct (Hlists tv) as (l & Hrep & Hperm).
    rewrite replay_snoc, Hrep. simpl. unfold mentionedBy.
    pose proof (constraintsOf_NoDup g' tv Hwf') as Hnd'.
    rewrite Hl in *. case_bool_decide as Htv.
    + apply NoDup_app in Hnd' as (_ & Hnot & _).
      rewrite bool_decide_eq_false_2.
      * eexists. split; [done|]. by rewrite Hperm.
      * rewrite <- Hperm. intros Hin. apply (Hnot c Hin). set_solver.
    + exists l. by rewrite app_nil_r.
  - destruct Horph as (l & Hrep & Hperm).
    rewrite replay_snoc, Hrep. simpl. unfold orphaned. rewrite Ho.
    case_bool_decide.
    + eexists. split; [done|]. by rewrite Hperm.
    + exists l. by rewrite app_nil_r.
Qed.

Lemma TrackedConstraints_removed cs g0 es c g g' :
  listsRemoved cs c g g' ->
  TrackedConstraints cs g0 es g ->
  TrackedConstraints cs g0 (es ++ [(false, c)]) g'.
Proof.
  intros (Hwf' & Hnd & Hin & Hout & Ho1 & Ho2) [Hwf Hes Hlists Horph].
  split; [done| | |].
  - intros e He. apply elem_of_app in He as [He|He]; [auto|].
    apply list_elem_of_singleton in He. by subst.
  - intros tv. destruct (Hlists tv) as (l & Hrep & Hperm).
    rewrite replay_snoc, Hrep. simpl. unfold mentionedBy.
    case_bool_decide as Htv.
    + specialize (Hin tv Htv).
      assert (Hc : c ∈ l) by (rewrite <- Hperm, Hin; set_solver).
      rewrite bool_decide_eq_true_2 by done.
      eexists. split; [done|].
      apply (Permutation_cons_inv (a := c)).
      by rewrite <- Hin, Hperm, <- eraseFirst_perm.
    + exists l. by rewrite Hout.
  - destruct Horph as (l & Hrep & Hperm).
    rewrite replay_snoc, Hrep. simpl. unfold orphaned.
    case_bool_decide as Hv.
    + specialize (Ho1 Hv).
      assert (Hc : c ∈ l) by (rewrite <- Hperm, Ho1; set_solver).
      rewrite bool_decide_eq_true_2 by done.
      eexists. split; [done|].
      apply (Permutation_cons_inv (a := c)).
      by rewrite <- Ho1, Hperm, <- eraseFirst_perm.
    + exists l. by rewrite Ho2.
Qed.

(** Undoing an entry: the lists go back one step of the replay. *)
Lemma TrackedConstraints_unremoved cs g0 es c g g' :
  listsAdded cs c g g' ->
  TrackedConstraints cs g0 (es ++ [(false, c)]) g ->
  TrackedConstraints cs g0 es g'.
Proof.
  intros (Hwf' & Hnd & Hl & Ho) [Hwf Hes Hlists Horph].
  split; [done| | |].
  - intros e He. apply Hes. set_solver.
  - intros tv. destruct (Hlists tv) as (l & Hrep & Hperm).
    rewrite replay_snoc in Hrep.
    destruct (replay true (mentionedBy cs tv) es (constraintsOf g0 tv))
      as [l1|] eqn:E; [|done].
    exists l1. split; [done|]. simpl in Hrep. rewrite Hl.
    unfold mentionedBy in Hrep. destruct (bool_decide (tv ∈ _)).
    + case_bool_decide as Hc; [|done]. injection Hrep as <-.
      rewrite Hperm, Permutation_app_comm. simpl.
      symmetry. by apply eraseFirst_perm.
    + injection Hrep as <-. by rewrite app_nil_r.
  - destruct Horph as (l & Hrep & Hperm).
    rewrite replay_snoc in Hrep.
    destruct (replay false (orphaned cs) es (OrphanedConstraints g0))
      as [l1|] eqn:E; [|done].
    exists l1. split; [done|]. simpl in Hrep. rewrite Ho.
    unfold orphaned in Hrep. destruct (bool_decide (_ = [])).
    + case_bool_decide as Hc; [|done]. injection Hrep as <-.
      rewrite Hperm, Permutation_app_comm. simpl.
      symmetry. by apply eraseFirst_perm.
    + injection Hrep as <-. by rewrite app_nil_r.
Qed.

Lemma TrackedConstraints_unadded cs g0 es c g g' :
  listsRemoved cs c g g' ->
  TrackedConstraints cs g0 (es ++ [(true, c)]) g ->
  TrackedConstraints cs g0 es g'.
Proof.
  intros (Hwf' & Hnd & Hin & Hout & Ho1 & Ho2) [Hwf Hes Hlists Horph].
  split; [done| | |].
  - intros e He. apply Hes. set_solver.
  - intros tv. destruct (Hlists tv) as (l & Hrep & Hperm).
    rewrite replay_snoc in Hrep.
    destruct (replay true (mentionedBy cs tv) es (constraintsOf g0 tv))
      as [l1|] eqn:E; [|done].
    exists l1. split; [done|]. simpl in Hrep.
    unfold mentionedBy in Hrep. case_bool_decide as Htv.
    + destruct (bool_decide (c ∈ l1)); [done|]. injection Hrep as <-.
      apply (Permutation_cons_inv (a := c)).
      rewrite <- (Hin tv Htv), Hperm. by rewrite Permutation_app_comm.
    + injection Hrep as <-. by rewrite (Hout tv Htv).
  - destruct Horph as (l & Hrep & Hperm).
    rewrite replay_snoc in Hrep.
    destruct (replay false (orphaned cs) es (OrphanedConstraints g0))
      as [l1|] eqn:E; [|done].
    exists l1. split; [done|]. simpl in Hrep.
    unfold orphaned in Hrep. case_bool_decide as Hv.
    + injection Hrep as <-.
      apply (Permutation_cons_inv (a := c)).
      rewrite <- (Ho1 Hv), Hperm. by rewrite Permutation_app_comm.
    + injection Hrep as <-. by rewrite (Ho2 Hv).
Qed.

(** The state of a graph relative to the graph [g0] at the opening of the
    scope. *)
Definition Tracked (cs : ConstraintSystem) (g0 g : ConstraintGraph) : Prop :=
  exists es, TrackedRest cs g0 es [] g /\ TrackedConstraints cs g0 es g.

Lemma Tracked_steps cs g0 es orphans lists :
  StepInvariant (fun pend g => TrackedRest cs g0 es pend g /\
                               frozen orphans lists g).
Proof.
  apply StepInvariant_and; [apply TrackedRest_steps|apply frozen_steps].
Qed.

Lemma Tracked_kept cs g0 es g g' :
  TrackedRest cs g0 es [] g -> TrackedConstraints cs g0 es g ->
  kept (fun pend s => TrackedRest cs g0 es pend s /\
          frozen (OrphanedConstraints g) (constraintsOf g) s) [] g g' ->
  Tracked cs g0 g'.
Proof.
  intros HR HK [[HR' HF] _]. exists es. split; [done|].
  by apply (frozen_TrackedConstraints cs g0 es g g').
Qed.

Lemma hasNode_constraintsOf g tv c : c ∈ constraintsOf g tv -> hasNode g tv.
Proof.
  unfold constraintsOf, hasNode. destruct (Nodes g !! tv); [eauto|].
  intros H. by apply elem_of_nil in H.
Qed.

Lemma Tracked_applyMutation cs fuel g0 m g g' :
  Tracked cs g0 g -> applyMutation cs fuel m g = Done g' -> Tracked cs g0 g'.
Proof.
  intros (es & HR & HK) Hrun.
  assert (HF : frozen (OrphanedConstraints g) (constraintsOf g) g)
    by (split; [apply (tk_wf cs g0 es g HK)|done]).
  pose proof (Tracked_steps cs g0 es (OrphanedConstraints g) (constraintsOf g))
    as Hsteps.
  destruct m as [tv|c|c|a b|tv fixed]; simpl in Hrun.
  - apply bind_Done in Hrun as ([i g1] & L & Hrun). injection Hrun as <-.
    apply (Tracked_kept cs g0 es g g1 HR HK).
    by destruct (lookupNode_keeps cs _ Hsteps fuel [] tv g i g1
                   (conj HR HF) L).
  - pose proof (addConstraint_lists cs fuel c g g' (tk_wf cs g0 es g HK) Hrun)
      as Hlists.
    exists (es ++ [(true, c)]).
    split; [|exact (TrackedConstraints_added cs g0 es c g g' Hlists HK)].
    unfold addConstraint in Hrun.
    apply bind_Done in Hrun as (g1 & Hloop & Hrun). injection Hrun as Hg'.
    assert (R1 : TrackedRest cs g0 es [] g1).
    { eapply (forEach_invariant (TrackedRest cs g0 es [])); [exact HR| |exact Hloop].
      intros tv s1 s2 _ Hs1 Hstep. unfold addConstraintStep in Hstep.
      apply bind_Done in Hstep as ([i ga] & L & Hstep).
      destruct (lookupNode_keeps cs _ (TrackedRest_steps cs g0 es) fuel []
                  _ _ _ _ Hs1 L) as [[Ha _] _].
      apply (withNode_constraints_Done _ _ _ _ (node_addConstraint_frame c))
        in Hstep as (n & n' & Hn & _ & A & B & C & ->).
      by apply (TrackedRest_constraints cs g0 es tv n). }
    rewrite <- Hg'.
    apply (TrackedRest_record cs g0 es (AddedConstraint c)); try done.
    + simpl. intros v Hv. destruct Hlists as (_ & _ & Hl & _).
      apply (hasNode_recordChange (AddedConstraint c)). rewrite Hg'.
      apply (hasNode_constraintsOf g' v c). rewrite Hl.
      rewrite bool_decide_eq_true_2 by done. set_solver.
    + destruct (getTypeVariables cs c); [|done].
      by apply TrackedRest_orphans.
  - pose proof (removeConstraint_lists cs fuel c g g'
                  (tk_wf cs g0 es g HK) Hrun) as Hlists.
    exists (es ++ [(false, c)]).
    split; [|exact (TrackedConstraints_removed cs g0 es c g g' Hlists HK)].
    unfold removeConstraint in Hrun.
    apply bind_Done in Hrun as (g1 & Hloop & Hrun).
    apply bind_Done in Hrun as (g2 & Horph & Hrun). injection Hrun as Hg'.
    assert (N1 : forall v, v ∈ getTypeVariables cs c -> hasNode g v).
    { intros v Hv. destruct Hlists as (_ & _ & Hl & _).
      apply (hasNode_constraintsOf g v c). rewrite (Hl v Hv). set_solver. }
    assert (R1 : TrackedRest cs g0 es [] g1 /\ forall v, hasNode g v -> hasNode g1 v).
    { eapply (forEach_invariant
                (fun s => TrackedRest cs g0 es [] s /\
                          forall v, hasNode g v -> hasNode s v));
        [by split| |exact Hloop].
      intros tv s1 s2 _ [Hs1 Hmono] Hstep. unfold removeConstraintStep in Hstep.
      apply bind_Done in Hstep as ([i ga] & L & Hstep).
      destruct (lookupNode_keeps cs _ (TrackedRest_steps cs g0 es) fuel []
                  _ _ _ _ Hs1 L) as [(Ha & Hm & _) _].
      apply (withNode_constraints_Done _ _ _ _ (node_removeConstraint_frame c))
        in Hstep as (n & n' & Hn & _ & A & B & C & ->).
      split; [by apply (TrackedRest_constraints cs g0 es tv n)|].
      intros v Hv. apply (hasNode_setNodes_insert tv n n' ga v Hn). auto. }
    destruct R1 as [R1 Hmono].
    rewrite <- Hg'.
    apply (TrackedRest_record cs g0 es (RemovedConstraint c)); try done.
    + simpl. intros v Hv. pose proof (Hmono v (N1 v Hv)) as Hv1.
      destruct (getTypeVariables cs c) eqn:E; [by apply elem_of_nil in Hv|].
      by injection Horph as <-.
    + destruct (getTypeVariables cs c).
      * apply removeOrphan_Done in Horph as (k & _ & ->).
        by apply TrackedRest_orphans.
      * by injection Horph as <-.
  - apply (Tracked_kept cs g0 es g g' HR HK).
    apply (mergeNodes_keeps cs _ Hsteps fuel [] a b g g' (conj HR HF) Hrun).
  - apply (Tracked_kept cs g0 es g g' HR HK).
    apply (bindTypeVariable_keeps cs _ Hsteps fuel [] tv fixed g g'
             (conj HR HF) Hrun).
Qed.

Lemma Tracked_applyMutations cs fuel g0 ms g g' :
  Tracked cs g0 g -> applyMutations cs fuel ms g = Done g' -> Tracked cs g0 g'.
Proof.
  intros HT Hrun. eapply (forEach_invariant (Tracked cs g0)); [exact HT| |exact Hrun].
  intros m s1 s2 _. apply Tracked_applyMutation.
Qed.

(** ** Undoing under a scope

    The operations that [undo] calls run with no active scope on nodes that
    exist: they journal nothing and touch only one part of the nodes. *)

Definition sameFrame (g g' : ConstraintGraph) : Prop :=
  TypeVariables g' = TypeVariables g /\ GraphIndex g' = GraphIndex g /\
  Changes g' = Changes g /\ ActiveScope g' = ActiveScope g.

Definition nodesRelated (R : relation ConstraintGraphNode)
    (g g' : ConstraintGraph) : Prop :=
  forall tv, option_Forall2 R (Nodes g !! tv) (Nodes g' !! tv).

(** The nodes agree on what [f] reads off them. *)
Definition agree {A} (f : ConstraintGraphNode -> A)
  : relation ConstraintGraphNode :=
  fun n n' => f n' = f n.

Definition exceptConstraints (n : ConstraintGraphNode) :=
  (TypeVar n, EquivalenceClass n, FixedBindings n).
Definition exceptClass (n : ConstraintGraphNode) :=
  (TypeVar n, Constraints n, ConstraintIndex n, FixedBindings n).
Definition exceptBindings (n : ConstraintGraphNode) :=
  (TypeVar n, Constraints n, ConstraintIndex n, EquivalenceClass n).

Lemma sameFrame_refl g : sameFrame g g.
Proof. by repeat split. Qed.

Lemma sameFrame_trans g1 g2 g3 :
  sameFrame g1 g2 -> sameFrame g2 g3 -> sameFrame g1 g3.
Proof.
  intros (A1 & B1 & C1 & D1) (A2 & B2 & C2 & D2).
  repeat split; congruence.
Qed.

Lemma nodesRelated_refl {A} (f : ConstraintGraphNode -> A) g :
  nodesRelated (agree f) g g.
Proof. intros tv. destruct (Nodes g !! tv); by constructor. Qed.

Lemma nodesRelated_trans {A} (f : ConstraintGraphNode -> A) g1 g2 g3 :
  nodesRelated (agree f) g1 g2 -> nodesRelated (agree f) g2 g3 ->
  nodesRelated (agree f) g1 g3.
Proof.
  intros H1 H2 tv. specialize (H1 tv). specialize (H2 tv).
  destruct H1 as [n1 n2 Hn|]; inversion H2; subst; constructor.
  unfold agree in *. congruence.
Qed.

Lemma nodesRelated_insert {A} (f : ConstraintGraphNode -> A) tv n n' g :
  Nodes g !! tv = Some n -> f n' = f n ->
  nodesRelated (agree f) g (setNodes g (<[tv := n']> (Nodes g))).
Proof.
  intros Hn Hf u. simpl. destruct (decide (tv = u)) as [->|Hne].
  - rewrite lookup_insert_eq, Hn. by constructor.
  - rewrite lookup_insert_ne by done. destruct (Nodes g !! u); by constructor.
Qed.

Lemma nodesRelated_hasNode R g g' u :
  nodesRelated R g g' -> hasNode g' u <-> hasNode g u.
Proof.
  intros H. specialize (H u). unfold hasNode.
  destruct H; split; intros [? ?]; eauto; done.
Qed.

Lemma nodesRelated_keyed R g g' :
  (forall n n', R n n' -> TypeVar n' = TypeVar n) ->
  nodesRelated R g g' -> keyed g -> keyed g'.
Proof.
  intros HR H Hk u n' Hu. specialize (H u). rewrite Hu in H.
  inversion H as [n ? Hr Hn|]; subst. rewrite (HR n n' Hr). eauto.
Qed.

Lemma nodesRelated_rawClass R g g' u :
  (forall n n', R n n' -> EquivalenceClass n' = EquivalenceClass n) ->
  nodesRelated R g g' -> rawClass g' u = rawClass g u.
Proof.
  intros HR H. specialize (H u). unfold rawClass. destruct H; auto.
Qed.

Lemma nodesRelated_fixedBindingsOf R g g' u :
  (forall n n', R n n' -> FixedBindings n' = FixedBindings n) ->
  nodesRelated R g g' -> fixedBindingsOf g' u = fixedBindingsOf g u.
Proof.
  intros HR H. specialize (H u). unfold fixedBindingsOf. destruct H; auto.
Qed.

Lemma nodesRelated_constraintsOf R g g' u :
  (forall n n', R n n' -> Constraints n' = Constraints n) ->
  nodesRelated R g g' -> constraintsOf g' u = constraintsOf g u.
Proof.
  intros HR H. specialize (H u). unfold constraintsOf. destruct H; auto.
Qed.

Lemma nodesRelated_NodesWF R g g' :
  (forall n n', R n n' -> Constraints n' = Constraints n /\
                          ConstraintIndex n' = ConstraintIndex n) ->
  nodesRelated R g g' -> NodesWF g -> NodesWF g'.
Proof.
  intros HR H Hwf u n' Hu. specialize (H u). rewrite Hu in H.
  inversion H as [n ? Hr Hn|]; subst. destruct (HR n n' Hr) as [Hc Hi].
  intros c i. rewrite Hc, Hi. symmetry in Hn. apply (Hwf u n Hn).
Qed.

Lemma GraphWF_frame g g' :
  TypeVariables g' = TypeVariables g -> GraphIndex g' = GraphIndex g ->
  (forall u, hasNode g' u <-> hasNode g u) ->
  GraphWF g -> GraphWF g'.
Proof.
  intros HT HI HN [Hnd Hidx Hn]. split.
  - by rewrite HT.
  - intros i tv. rewrite HT, HI. apply Hidx.
  - intros tv. rewrite HT, <- (Hn tv). apply HN.
Qed.

Lemma withNode_agree {A} (f : ConstraintGraphNode -> A) tv op g g' :
  (forall n n', op n = Done n' -> f n' = f n) ->
  withNode tv op g = Done g' ->
  sameFrame g g' /\ nodesRelated (agree f) g g' /\
  OrphanedConstraints g' = OrphanedConstraints g.
Proof.
  intros Hop H. apply withNode_Done in H as (n & n' & Hn & Ho & ->).
  split; [by repeat split|]. split; [|done].
  apply (nodesRelated_insert f tv n n' g Hn). eauto.
Qed.

(** The frame and the part of the nodes that [f] reads are kept. *)
Definition keeps {A} (f : ConstraintGraphNode -> A)
    (g g' : ConstraintGraph) : Prop :=
  sameFrame g g' /\ nodesRelated (agree f) g g'.

Lemma keeps_refl {A} (f : ConstraintGraphNode -> A) g : keeps f g g.
Proof. split; [apply sameFrame_refl|apply nodesRelated_refl]. Qed.

Lemma keeps_trans {A} (f : ConstraintGraphNode -> A) g1 g2 g3 :
  keeps f g1 g2 -> keeps f g2 g3 -> keeps f g1 g3.
Proof.
  intros [F1 N1] [F2 N2].
  split; [by apply (sameFrame_trans g1 g2)|by apply (nodesRelated_trans f g1 g2)].
Qed.

Lemma keeps_hasNode {A} (f : ConstraintGraphNode -> A) g g' u :
  keeps f g g' -> hasNode g' u <-> hasNode g u.
Proof. intros [_ H]. by apply (nodesRelated_hasNode (agree f)). Qed.

Lemma keeps_withNode {A} (f : ConstraintGraphNode -> A) tv op g g' :
  (forall n n', op n = Done n' -> f n' = f n) ->
  withNode tv op g = Done g' ->
  keeps f g g' /\ OrphanedConstraints g' = OrphanedConstraints g.
Proof.
  intros Hop H. destruct (withNode_agree f tv op g g' Hop H) as (F & N & O).
  by split.
Qed.

Lemma keeps_orphans {A} (f : ConstraintGraphNode -> A) g oc :
  keeps f g (setOrphanedConstraints g oc).
Proof. split; [by repeat split|exact (nodesRelated_refl f g)]. Qed.

Lemma recordChange_inactive ch g : ActiveScope g = None -> recordChange ch g = g.
Proof. unfold recordChange. by intros ->. Qed.

Lemma node_addConstraint_except c n n' :
  node_addConstraint c n = Done n' ->
  exceptConstraints n' = exceptConstraints n.
Proof.
  intros H. destruct (node_addConstraint_frame c n n' H) as (A & B & C).
  unfold exceptConstraints. congruence.
Qed.

Lemma node_removeConstraint_except c n n' :
  node_removeConstraint c n = Done n' ->
  exceptConstraints n' = exceptConstraints n.
Proof.
  intros H. destruct (node_removeConstraint_frame c n n' H) as (A & B & C).
  unfold exceptConstraints. congruence.
Qed.

Lemma constraintLoop_keeps cs fuel
    (op : Constraint -> ConstraintGraphNode -> Res ConstraintGraphNode)
    (c : Constraint) (l : list TypeVariableType) g g' :
  (forall n n', op c n = Done n' ->
     exceptConstraints n' = exceptConstraints n) ->
  (forall v, v ∈ l -> hasNode g v) ->
  forEach (fun typeVar g =>
             '(_, g) ← lookupNode cs fuel typeVar g;
             withNode typeVar (op c) g) l g = Done g' ->
  keeps exceptConstraints g g' /\
  OrphanedConstraints g' = OrphanedConstraints g.
Proof.
  intros Hop Hl Hrun.
  eapply (forEach_invariant
            (fun s => keeps exceptConstraints g s /\
                      OrphanedConstraints s = OrphanedConstraints g));
    [split; [apply keeps_refl|done]| |exact Hrun].
  intros v s1 s2 Hv [K O] Hstep.
  apply bind_Done in Hstep as ([i ga] & L & Hstep).
  apply lookupNode_existing_inv in L as [-> _];
    [|apply (keeps_hasNode exceptConstraints g s1 v K); auto].
  destruct (keeps_withNode exceptConstraints v (op c) s1 s2 Hop Hstep)
    as [K' O'].
  split; [by apply (keeps_trans _ g s1)|congruence].
Qed.

Lemma addConstraint_keeps cs fuel c g g' :
  ActiveScope g = None ->
  (forall v, v ∈ getTypeVariables cs c -> hasNode g v) ->
  addConstraint cs fuel c g = Done g' -> keeps exceptConstraints g g'.
Proof.
  intros Hs Hn Hrun. unfold addConstraint in Hrun.
  apply bind_Done in Hrun as (g1 & Hloop & Hrun). injection Hrun as <-.
  destruct (constraintLoop_keeps cs fuel node_addConstraint c _ g g1
              (node_addConstraint_except c) Hn Hloop) as [K _].
  assert (Hs1 : ActiveScope g1 = None).
  { destruct K as [(_ & _ & _ & HS) _]. congruence. }
  destruct (getTypeVariables cs c).
  - rewrite recordChange_inactive by done.
    apply (keeps_trans _ g g1); [done|apply keeps_orphans].
  - by rewrite recordChange_inactive.
Qed.

Lemma removeConstraint_keeps cs fuel c g g' :
  ActiveScope g = None ->
  (forall v, v ∈ getTypeVariables cs c -> hasNode g v) ->
  removeConstraint cs fuel c g = Done g' -> keeps exceptConstraints g g'.
Proof.
  intros Hs Hn Hrun. unfold removeConstraint in Hrun.
  apply bind_Done in Hrun as (g1 & Hloop & Hrun).
  apply bind_Done in Hrun as (g2 & Horph & Hrun). injection Hrun as <-.
  destruct (constraintLoop_keeps cs fuel node_removeConstraint c _ g g1
              (node_removeConstraint_except c) Hn Hloop) as [K _].
  assert (Hs1 : ActiveScope g1 = None).
  { destruct K as [(_ & _ & _ & HS) _]. congruence. }
  destruct (getTypeVariables cs c).
  - apply removeOrphan_Done in Horph as (k & _ & ->).
    rewrite recordChange_inactive by done.
    apply (keeps_trans _ g g1); [done|apply keeps_orphans].
  - injection Horph as <-. by rewrite recordChange_inactive.
Qed.

Lemma node_removeFixedBinding_Done tv n n' :
  node_removeFixedBinding tv n = Done n' ->
  FixedBindings n <> [] /\
  n' = setFixedBindings n (pop_back (FixedBindings n)).
Proof.
  unfold node_removeFixedBinding.
  destruct (FixedBindings n); [done|]. intros [= <-]. done.
Qed.

Lemma node_removeFixedBinding_except tv n n' :
  node_removeFixedBinding tv n = Done n' ->
  exceptBindings n' = exceptBindings n.
Proof. intros H. by apply node_removeFixedBinding_Done in H as [_ ->]. Qed.

Lemma unbindTypeVariable_keeps cs fuel tv fixed g g' :
  hasNode g tv -> (forall v, v ∈ typeVariablesIn fixed -> hasNode g v) ->
  unbindTypeVariable cs fuel tv fixed g = Done g' ->
  keeps exceptBindings g g' /\
  OrphanedConstraints g' = OrphanedConstraints g.
Proof.
  intros Htv Hn Hrun. unfold unbindTypeVariable in Hrun.
  destruct (hasTypeVariable fixed); simpl in Hrun.
  2:{ injection Hrun as <-. split; [apply keeps_refl|done]. }
  apply bind_Done in Hrun as ([i g1] & L & Hrun).
  apply lookupNode_existing_inv in L as [-> _]; [|done].
  apply bind_Done in Hrun as ([known g2] & Hloop & Hrun).
  injection Hrun as <-.
  pose (Q := fun st : gset nat * ConstraintGraph =>
               keeps exceptBindings g st.2 /\
               OrphanedConstraints st.2 = OrphanedConstraints g).
  assert (Q0 : Q (∅, g)) by (split; [apply keeps_refl|done]).
  apply (forEach_invariant Q _ _ _ _ Q0) in Hloop; [exact Hloop|].
  intros v [k1 s1] [k2 s2] Hv [K O] Hstep. unfold Q in *. simpl in *.
  destruct (bool_decide (v ∈ k1)); [by injection Hstep as <- <-|].
  apply bind_Done in Hstep as ([j ga] & L & Hstep).
  apply lookupNode_existing_inv in L as [-> _];
    [|apply (keeps_hasNode exceptBindings g s1 v K); auto].
  apply bind_Done in Hstep as (gb & W1 & Hstep).
  apply bind_Done in Hstep as (gc & W2 & Hstep). injection Hstep as <- <-.
  destruct (keeps_withNode exceptBindings _ _ _ _
              (node_removeFixedBinding_except tv) W1) as [K1 O1].
  destruct (keeps_withNode exceptBindings _ _ _ _
              (node_removeFixedBinding_except v) W2) as [K2 O2].
  split; [|congruence].
  apply (keeps_trans _ g s1); [done|]. by apply (keeps_trans _ s1 gb).
Qed.

Lemma truncate_Done cs fuel tv prevSize g g' :
  hasNode g tv ->
  ('(_, g) ← lookupNode cs fuel tv g;
   withNode tv (truncateEquivalenceClass prevSize) g) = Done g' ->
  exists n, Nodes g !! tv = Some n /\ prevSize <= length (EquivalenceClass n) /\
    g' = setNodes g
           (<[tv := setEquivalenceClass n (take prevSize (EquivalenceClass n))]>
              (Nodes g)).
Proof.
  intros Hn Hrun. apply bind_Done in Hrun as ([i ga] & L & Hrun).
  apply lookupNode_existing_inv in L as [-> _]; [|done].
  apply withNode_Done in Hrun as (n & n' & Hn' & Hop & ->).
  unfold truncateEquivalenceClass in Hop.
  apply bind_Done in Hop as (u & Ha & Hop). injection Hop as <-.
  apply assert_Done, bool_decide_eq_true_1 in Ha. eauto.
Qed.

Lemma truncate_keeps cs fuel tv prevSize g g' :
  hasNode g tv ->
  ('(_, g) ← lookupNode cs fuel tv g;
   withNode tv (truncateEquivalenceClass prevSize) g) = Done g' ->
  keeps exceptClass g g' /\ OrphanedConstraints g' = OrphanedConstraints g.
Proof.
  intros Hn Hrun.
  apply truncate_Done in Hrun as (n & Hn' & _ & ->); [|done].
  split; [|done]. split; [by repeat split|].
  by apply (nodesRelated_insert exceptClass tv n).
Qed.

(** [removeNode] on the variable in the last slot. *)
Lemma removeNode_last tv g l :
  GraphWF g -> TypeVariables g = l ++ [tv] ->
  removeNode tv g =
    Done {| Nodes := delete tv (Nodes g); GraphIndex := GraphIndex g;
            TypeVariables := l;
            OrphanedConstraints := OrphanedConstraints g;
            ActiveScope := ActiveScope g; Changes := Changes g |}.
Proof.
  intros Hwf Hl. unfold removeNode.
  assert (Hi : GraphIndex g !! tv = Some (length l)).
  { apply (wf_index g Hwf). rewrite Hl, lookup_app_r by lia.
    by replace (length l - length l) with 0 by lia. }
  rewrite Hi, Hl. simpl.
  assert (Hne : l ++ [tv] <> []) by (destruct l; intros E; discriminate E).
  rewrite (bool_decide_eq_false_2 _ Hne). simpl. rewrite length_app. simpl.
  rewrite bool_decide_eq_false_2 by lia. simpl.
  by rewrite pop_back_snoc.
Qed.

Lemma removeNode_last_wf tv g l g' :
  GraphWF g -> TypeVariables g = l ++ [tv] ->
  Nodes g' = delete tv (Nodes g) -> GraphIndex g' = GraphIndex g ->
  TypeVariables g' = l ->
  GraphWF g'.
Proof.
  intros [Hnd Hidx Hn] Hl HN' HI' HT'. rewrite Hl in Hnd.
  apply NoDup_app in Hnd as (Hndl & Hnot & _).
  split.
  - by rewrite HT'.
  - intros i u Hu. rewrite HT' in Hu. rewrite HI'. apply Hidx.
    rewrite Hl. by apply lookup_app_l_Some.
  - intros u. rewrite HN', HT'. rewrite lookup_delete_is_Some, Hn, Hl.
    split.
    + intros [Hne Hin]. apply elem_of_app in Hin as [Hin|Hin]; [done|].
      apply list_elem_of_singleton in Hin. congruence.
    + intros Hin. split; [|set_solver]. intros <-.
      apply (Hnot tv Hin). set_solver.
Qed.

Lemma scoped_pop g0 g g' j e :
  scoped g0 g -> journalSince g0 g = j ++ [e] ->
  Changes g' = pop_back (Changes g) -> ActiveScope g' = ActiveScope g ->
  scoped g0 g' /\ journalSince g0 g' = j.
Proof.
  intros [Hs Hp] Hj HC HS.
  assert (HC' : Changes g' = Changes g0 ++ j).
  { rewrite HC, (journalSince_prefix g0 g Hp), Hj, app_assoc.
    by rewrite pop_back_snoc. }
  split.
  - split; [by rewrite HS|]. rewrite HC'. by apply prefix_app_r.
  - unfold journalSince. by rewrite HC', drop_app_length.
Qed.

(** The variables an entry mentions have nodes. *)
Lemma TrackedTypeVars_mentioned cs g0 g j e v :
  TrackedTypeVars cs g0 g -> journalSince g0 g = j ++ [e] ->
  v ∈ mentions cs e ->
  v ∈ TypeVariables g0 ++ addedTypeVars j /\ hasNode g v.
Proof.
  intros [Hsc Hv Hwf Hm] Hj Hin.
  assert (Hb : v ∈ TypeVariables g0 ++ addedTypeVars j)
    by (apply (Hm j e [] Hj v Hin)).
  split; [done|]. apply (wf_nodes g Hwf).
  rewrite Hv, Hj, addedTypeVars_app. set_solver.
Qed.

(** The graph once an entry has been undone and popped. *)
Definition popped (g gop : ConstraintGraph) : ConstraintGraph :=
  let g' := setActiveScope gop (ActiveScope g) in
  setChanges g' (pop_back (Changes g')).

Lemma TrackedTypeVars_popped cs g0 g gop j e :
  TrackedTypeVars cs g0 g -> journalSince g0 g = j ++ [e] ->
  addedTypeVar e = None ->
  sameFrame (setActiveScope g None) gop ->
  (forall u, hasNode gop u <-> hasNode g u) ->
  TrackedTypeVars cs g0 (popped g gop).
Proof.
  intros HT Hj He (FT & FI & FC & FS) Hn.
  destruct HT as [Hsc Hv Hwf Hm]. simpl in *.
  destruct (scoped_pop g0 g (popped g gop) j e Hsc Hj) as [Hsc' Hj'];
    [simpl; by rewrite FC|done|].
  split; [done| | |].
  - rewrite Hj'. simpl. rewrite FT, Hv, Hj, addedTypeVars_app.
    unfold addedTypeVars at 2. simpl. rewrite He. simpl.
    by rewrite app_nil_r.
  - by apply (GraphWF_frame g).
  - rewrite Hj'. intros j1 e1 j2 Heq. apply (Hm j1 e1 (j2 ++ [e])).
    rewrite Hj, Heq. by rewrite <- app_assoc.
Qed.

(** *** The type variables alone: kept by the mutations and by every undo *)

Lemma TrackedTypeVars_constraintLoop cs fuel g0
    (op : Constraint -> ConstraintGraphNode -> Res ConstraintGraphNode)
    (c : Constraint) (l : list TypeVariableType) g g' :
  (forall n n', op c n = Done n' ->
     exceptConstraints n' = exceptConstraints n) ->
  TrackedTypeVars cs g0 g ->
  forEach (fun typeVar g =>
             '(_, g) ← lookupNode cs fuel typeVar g;
             withNode typeVar (op c) g) l g = Done g' ->
  TrackedTypeVars cs g0 g' /\ forall v, v ∈ l -> hasNode g' v.
Proof.
  intros Hop HT Hrun.
  eapply (forEach_prefix_invariant
            (fun pre s => TrackedTypeVars cs g0 s /\
                          forall v, v ∈ pre -> hasNode s v));
    [split; [done|intros v Hv; by apply elem_of_nil in Hv]| |exact Hrun].
  intros pre v s1 s2 _ [H1 Hpre] Hstep.
  apply bind_Done in Hstep as ([i ga] & L & Hstep).
  destruct (lookupNode_keeps cs _ (TrackedTypeVars_steps cs g0) fuel []
              _ _ _ _ H1 L) as [(Ha & Hmono & _) Hv].
  destruct (keeps_withNode exceptConstraints v (op c) ga s2 Hop Hstep)
    as [[(FT & FI & FC & FS) N] _].
  assert (Hn : forall u, hasNode s2 u <-> hasNode ga u)
    by (intros u; by apply (nodesRelated_hasNode (agree exceptConstraints))).
  split.
  - apply (TrackedTypeVars_quiet cs g0 ga s2); try done.
    apply (GraphWF_frame ga); try done. apply (tv_wf cs g0 ga Ha).
  - intros u Hu. apply Hn. apply elem_of_app in Hu as [Hu|Hu]; [auto|].
    apply list_elem_of_singleton in Hu. by subst.
Qed.

Lemma TrackedTypeVars_orphans cs g0 oc g :
  TrackedTypeVars cs g0 g -> TrackedTypeVars cs g0 (setOrphanedConstraints g oc).
Proof.
  intros H. eapply TrackedTypeVars_quiet; [..|exact H]; try done.
  destruct (tv_wf cs g0 g H). by split.
Qed.

Lemma TrackedTypeVars_applyMutation cs fuel g0 m g g' :
  TrackedTypeVars cs g0 g -> applyMutation cs fuel m g = Done g' ->
  TrackedTypeVars cs g0 g'.
Proof.
  intros HT Hrun. pose proof (TrackedTypeVars_steps cs g0) as Hsteps.
  destruct m as [tv|c|c|a b|tv fixed]; simpl in Hrun.
  - apply bind_Done in Hrun as ([i g1] & L & Hrun). injection Hrun as <-.
    by destruct (lookupNode_keeps cs _ Hsteps fuel [] tv g i g1 HT L)
      as [[? _] _].
  - unfold addConstraint in Hrun.
    apply bind_Done in Hrun as (g1 & Hloop & Hrun). injection Hrun as <-.
    destruct (TrackedTypeVars_constraintLoop cs fuel g0 node_addConstraint c
                _ g g1 (node_addConstraint_except c) HT Hloop) as [H1 Hn].
    apply TrackedTypeVars_record; [done| |].
    + simpl. intros v Hv. specialize (Hn v Hv).
      by destruct (getTypeVariables cs c).
    + destruct (getTypeVariables cs c); [|done].
      by apply TrackedTypeVars_orphans.
  - unfold removeConstraint in Hrun.
    apply bind_Done in Hrun as (g1 & Hloop & Hrun).
    apply bind_Done in Hrun as (g2 & Horph & Hrun). injection Hrun as <-.
    destruct (TrackedTypeVars_constraintLoop cs fuel g0 node_removeConstraint
                c _ g g1 (node_removeConstraint_except c) HT Hloop) as [H1 Hn].
    destruct (getTypeVariables cs c) eqn:E.
    + apply removeOrphan_Done in Horph as (k & _ & ->).
      apply TrackedTypeVars_record; [done| |by apply TrackedTypeVars_orphans].
      simpl. rewrite E. intros v Hv. by apply elem_of_nil in Hv.
    + injection Horph as <-.
      apply TrackedTypeVars_record; [done| |done].
      simpl. by rewrite E.
  - by destruct (mergeNodes_keeps cs _ Hsteps fuel [] a b g g' HT Hrun).
  - by destruct (bindTypeVariable_keeps cs _ Hsteps fuel [] tv fixed g g'
                   HT Hrun).
Qed.

Lemma TrackedTypeVars_open cs g0 :
  GraphWF g0 -> TrackedTypeVars cs g0 (openScope g0).2.
Proof.
  intros Hwf. split; simpl.
  - split; [by eexists|done].
  - unfold journalSince. simpl. rewrite drop_all. by rewrite app_nil_r.
  - destruct Hwf. by split.
  - unfold journalSince. simpl. rewrite drop_all.
    intros j1 e j2 Heq. by destruct j1.
Qed.

Lemma TrackedTypeVars_last cs g0 g j tv :
  TrackedTypeVars cs g0 g ->
  journalSince g0 g = j ++ [AddedTypeVariable tv] ->
  TypeVariables g = (TypeVariables g0 ++ addedTypeVars j) ++ [tv].
Proof.
  intros HT Hj. rewrite (tv_vector cs g0 g HT), Hj, addedTypeVars_app.
  by rewrite app_assoc.
Qed.

Lemma undo_TrackedTypeVars cs fuel g0 g j e g' :
  TrackedTypeVars cs g0 g -> journalSince g0 g = j ++ [e] ->
  undo cs fuel e g = Done g' ->
  TrackedTypeVars cs g0 (setChanges g' (pop_back (Changes g'))).
Proof.
  intros HT Hj Hrun. unfold undo in Hrun.
  apply bind_Done in Hrun as (gop & Hop & Hrun). injection Hrun as <-.
  change (TrackedTypeVars cs g0 (popped g gop)).
  assert (Hmen : forall v, v ∈ mentions cs e ->
                           hasNode (setActiveScope g None) v).
  { intros v Hv. by destruct (TrackedTypeVars_mentioned cs g0 g j e v HT Hj Hv). }
  assert (Hwf : GraphWF (setActiveScope g None)).
  { destruct (tv_wf cs g0 g HT). by split. }
  destruct e as [tv|c|c|tv m|tv fixed]; simpl in Hmen.
  - pose proof (TrackedTypeVars_last cs g0 g j tv HT Hj) as Hl.
    rewrite (removeNode_last tv _ _ Hwf Hl) in Hop. injection Hop as <-.
    destruct HT as [Hsc Hv _ Hm].
    destruct (scoped_pop g0 g (popped g
                {| Nodes := delete tv (Nodes g); GraphIndex := GraphIndex g;
                   TypeVariables := TypeVariables g0 ++ addedTypeVars j;
                   OrphanedConstraints := OrphanedConstraints g;
                   ActiveScope := None; Changes := Changes g |}) j _ Hsc Hj)
      as [Hsc' Hj']; [done|done|].
    split; [done| | |].
    + by rewrite Hj'.
    + by apply (removeNode_last_wf tv (setActiveScope g None)
                  (TypeVariables g0 ++ addedTypeVars j)).
    + rewrite Hj'. intros j1 e1 j2 Heq.
      apply (Hm j1 e1 (j2 ++ [AddedTypeVariable tv])).
      rewrite Hj, Heq. by rewrite <- app_assoc.
  - pose proof (removeConstraint_keeps cs fuel c (setActiveScope g None) gop
                  eq_refl Hmen Hop) as K.
    apply (TrackedTypeVars_popped cs g0 g gop j _ HT Hj eq_refl (proj1 K)).
    intros u. apply (keeps_hasNode _ _ _ u K).
  - pose proof (addConstraint_keeps cs fuel c (setActiveScope g None) gop
                  eq_refl Hmen Hop) as K.
    apply (TrackedTypeVars_popped cs g0 g gop j _ HT Hj eq_refl (proj1 K)).
    intros u. apply (keeps_hasNode _ _ _ u K).
  - destruct (truncate_keeps cs fuel tv m _ gop
                (Hmen tv ltac:(set_solver)) Hop) as [K _].
    apply (TrackedTypeVars_popped cs g0 g gop j _ HT Hj eq_refl (proj1 K)).
    intros u. apply (keeps_hasNode _ _ _ u K).
  - destruct (unbindTypeVariable_keeps cs fuel tv fixed _ gop
                (Hmen tv ltac:(set_solver))
                (fun v Hv => Hmen v ltac:(set_solver)) Hop) as [K _].
    apply (TrackedTypeVars_popped cs g0 g gop j _ HT Hj eq_refl (proj1 K)).
    intros u. apply (keeps_hasNode _ _ _ u K).
Qed.

(** The states the loop of the scope's destructor goes through: while the
    journal is longer than at the opening, the last change is undone and
    popped. *)
Inductive unwinding (cs : ConstraintSystem) (fuel numChanges : nat)
  : ConstraintGraph -> ConstraintGraph -> Prop :=
| unwinding_here g : unwinding cs fuel numChanges g g
| unwinding_undo g ch g1 g' :
    numChanges < length (Changes g) ->
    back (Changes g) = Some ch ->
    undo cs fuel ch g = Done g1 ->
    unwinding cs fuel numChanges (setChanges g1 (pop_back (Changes g1))) g' ->
    unwinding cs fuel numChanges g g'.

Lemma journalSince_back g0 g ch :
  Changes g0 `prefix_of` Changes g ->
  length (Changes g0) < length (Changes g) ->
  back (Changes g) = Some ch ->
  exists j, journalSince g0 g = j ++ [ch].
Proof.
  intros Hp Hlen Hb. pose proof (journalSince_prefix g0 g Hp) as HC.
  destruct (journalSince g0 g) as [|e j _] using rev_ind.
  - rewrite app_nil_r in HC. rewrite HC in Hlen. lia.
  - exists j. rewrite HC, app_assoc in Hb. unfold back in Hb.
    rewrite last_snoc in Hb. by injection Hb as ->.
Qed.

Lemma unwinding_TrackedTypeVars cs fuel g0 g g' :
  TrackedTypeVars cs g0 g ->
  unwinding cs fuel (length (Changes g0)) g g' ->
  TrackedTypeVars cs g0 g'.
Proof.
  intros HT Hu. induction Hu as [g|g ch g1 g' Hlen Hb Hundo _ IH]; [done|].
  apply IH.
  destruct (journalSince_back g0 g ch (proj2 (tv_scoped cs g0 g HT)) Hlen Hb)
    as [j Hj].
  by apply (undo_TrackedTypeVars cs fuel g0 g j ch).
Qed.

(** *** The operations of [undo] do not fail *)

Lemma constraintLoop_total cs fuel
    (op : Constraint -> ConstraintGraphNode -> Res ConstraintGraphNode)
    (c : Constraint) (ready : list Constraint -> Prop) :
  (forall n, IndexWF n -> ready (Constraints n) ->
             exists n', op c n = Done n' /\ IndexWF n') ->
  forall l g, NoDup l -> GraphWF g -> NodesWF g ->
    (forall v, v ∈ l -> hasNode g v /\ ready (constraintsOf g v)) ->
    exists g',
      forEach (fun typeVar g =>
                 '(_, g) ← lookupNode cs fuel typeVar g;
                 withNode typeVar (op c) g) l g = Done g'.
Proof.
  intros Hop. induction l as [|v l IH]; intros g Hnd Hwf Hnwf Hready.
  { simpl. eauto. }
  apply NoDup_cons in Hnd as [Hv Hnd].
  destruct (Hready v ltac:(set_solver)) as [[n Hn] Hr].
  destruct (lookupNode_existing cs fuel g v Hwf ltac:(by exists n))
    as (i & L & _).
  unfold constraintsOf in Hr. rewrite Hn in Hr.
  destruct (Hop n (Hnwf v n Hn) Hr) as (n' & Hn' & Hwf').
  simpl. rewrite L. simpl. unfold withNode. rewrite Hn. simpl.
  rewrite Hn'. simpl.
  apply IH; [done| | |].
  - apply GraphWF_nodes_only; [|done]. intros u.
    apply (hasNode_setNodes_insert v n n' g u Hn).
  - by apply NodesWF_setNodes.
  - intros u Hu. destruct (Hready u ltac:(set_solver)) as [Hnu Hru].
    split; [by apply (hasNode_setNodes_insert v n n' g u Hn)|].
    rewrite constraintsOf_insert.
    rewrite bool_decide_eq_false_2; [done|]. intros ->. done.
Qed.

Lemma findIndex_elem c l : c ∈ l -> is_Some (findIndex c l).
Proof.
  induction l as [|x l IH]; intros Hc; [by apply elem_of_nil in Hc|].
  simpl. case_bool_decide as Hx; [by eexists|].
  apply elem_of_cons in Hc as [->|Hc]; [done|].
  destruct (IH Hc) as [k ->]. by eexists.
Qed.

Lemma removeOrphan_total c g :
  c ∈ OrphanedConstraints g -> exists g', removeOrphan c g = Done g'.
Proof.
  intros Hc. unfold removeOrphan.
  destruct (findIndex_elem c _ Hc) as [k ->]. simpl.
  destruct (OrphanedConstraints g) as [|x l] eqn:E using rev_ind;
    [by apply elem_of_nil in Hc|].
  unfold back. rewrite last_snoc. simpl. eauto.
Qed.

Lemma removeConstraint_total cs fuel c g :
  GraphWF g -> NodesWF g -> NoDup (getTypeVariables cs c) ->
  (forall v, v ∈ getTypeVariables cs c -> c ∈ constraintsOf g v) ->
  (getTypeVariables cs c = [] -> c ∈ OrphanedConstraints g) ->
  exists g', removeConstraint cs fuel c g = Done g'.
Proof.
  intros Hwf Hnwf Hnd Hin Horph. unfold removeConstraint.
  destruct (constraintLoop_total cs fuel node_removeConstraint c
              (fun l => c ∈ l)) with (l := getTypeVariables cs c) (g := g)
    as [g1 Hloop]; try done.
  - intros n Hi Hc. destruct (node_removeConstraint_total c n Hi Hc) as [n' Hn'].
    exists n'. split; [done|]. by apply (node_removeConstraint_wf c n).
  - intros v Hv. split; [|auto]. by apply (hasNode_constraintsOf g v c), Hin.
  - change (forEach (removeConstraintStep cs fuel c) (getTypeVariables cs c) g
            = Done g1) in Hloop.
    assert (Ho : OrphanedConstraints g1 = OrphanedConstraints g).
    { apply (constraintLoop_keeps cs fuel node_removeConstraint c
               (getTypeVariables cs c) g g1
               (node_removeConstraint_except c)); [|done].
      intros v Hv. by apply (hasNode_constraintsOf g v c), Hin. }
    rewrite Hloop. simpl. destruct (getTypeVariables cs c); [|simpl; eauto].
    destruct (removeOrphan_total c g1) as [g2 ->]; [|simpl; eauto].
    rewrite Ho. auto.
Qed.

Lemma addConstraint_total cs fuel c g :
  GraphWF g -> NodesWF g -> NoDup (getTypeVariables cs c) ->
  (forall v, v ∈ getTypeVariables cs c ->
             hasNode g v /\ c ∉ constraintsOf g v) ->
  exists g', addConstraint cs fuel c g = Done g'.
Proof.
  intros Hwf Hnwf Hnd Hin. unfold addConstraint.
  destruct (constraintLoop_total cs fuel node_addConstraint c
              (fun l => c ∉ l)) with (l := getTypeVariables cs c) (g := g)
    as [g1 Hloop]; try done.
  - intros n Hi Hc. destruct (node_addConstraint_total c n Hi Hc) as [n' Hn'].
    exists n'. split; [done|]. by apply (node_addConstraint_wf c n).
  - change (forEach (addConstraintStep cs fuel c) (getTypeVariables cs c) g
            = Done g1) in Hloop.
    rewrite Hloop. simpl. eauto.
Qed.

Lemma fixedBindingsOf_insert tv n' g u :
  fixedBindingsOf (setNodes g (<[tv := n']> (Nodes g))) u =
  if bool_decide (u = tv) then FixedBindings n' else fixedBindingsOf g u.
Proof.
  unfold fixedBindingsOf. simpl. case_bool_decide as Hu.
  - subst. by rewrite lookup_insert_eq.
  - by rewrite lookup_insert_ne.
Qed.

Lemma pushCount_pair u tv other :
  pushCount u (pairPushes tv other) =
  (if bool_decide (u = other) then 1 else 0) +
  (if bool_decide (u = tv) then 1 else 0).
Proof.
  unfold pushCount, pairPushes. rewrite !filter_cons, filter_nil. simpl.
  repeat case_bool_decide; repeat destruct (decide _); simpl; congruence.
Qed.

Lemma withNode_removeFixedBinding tv arg n g :
  Nodes g !! tv = Some n -> FixedBindings n <> [] ->
  withNode tv (node_removeFixedBinding arg) g =
  Done (setNodes g
          (<[tv := setFixedBindings n (pop_back (FixedBindings n))]> (Nodes g))).
Proof.
  intros Hn Hne. unfold withNode, node_removeFixedBinding. rewrite Hn. simpl.
  by destruct (FixedBindings n).
Qed.

Lemma unbindLoop_total cs fuel tv l :
  forall known g,
    GraphWF g -> hasNode g tv -> (forall v, v ∈ l -> hasNode g v) ->
    tv ∉ l ->
    (forall u, pushCount u (bindPushes tv l known)
               <= length (fixedBindingsOf g u)) ->
    exists known' g',
      forEach (unbindStep cs fuel tv) l (known, g) = Done (known', g') /\
      forall u, fixedBindingsOf g' u =
        take (length (fixedBindingsOf g u)
              - pushCount u (bindPushes tv l known)) (fixedBindingsOf g u).
Proof.
  induction l as [|x l IH]; intros known g Hwf Htv Hl Hself Hlen.
  { exists known, g. split; [done|]. intros u. simpl.
    rewrite take_ge; [done|]. unfold pushCount. simpl. lia. }
  assert (Hx : tv <> x) by set_solver.
  simpl in Hlen. simpl bindPushes.
  destruct (bool_decide (x ∈ known)) eqn:Hk.
  { simpl. unfold unbindStep at 1. rewrite Hk. simpl.
    apply IH; auto. - intros v Hv. apply Hl. set_solver.
    - set_solver. }
  rewrite (bool_decide_eq_false_2 _ Hx) in Hlen |- *.
  destruct (Hl x ltac:(set_solver)) as [nx Hnx].
  destruct Htv as [nt Hnt].
  destruct (lookupNode_existing cs fuel g x Hwf ltac:(by exists nx))
    as (i & L & _).
  assert (Hfx : FixedBindings nx <> []).
  { specialize (Hlen x). rewrite pushCount_app, pushCount_pair in Hlen.
    rewrite bool_decide_eq_true_2 in Hlen by done.
    unfold fixedBindingsOf in Hlen. rewrite Hnx in Hlen.
    intros E. rewrite E in Hlen. simpl in Hlen. lia. }
  assert (Hft : FixedBindings nt <> []).
  { specialize (Hlen tv). rewrite pushCount_app, pushCount_pair in Hlen.
    rewrite (bool_decide_eq_true_2 (tv = tv)) in Hlen by done.
    unfold fixedBindingsOf in Hlen. rewrite Hnt in Hlen.
    intros E. rewrite E in Hlen. simpl in Hlen. lia. }
  pose (g1 := setNodes g
         (<[x := setFixedBindings nx (pop_back (FixedBindings nx))]> (Nodes g))).
  assert (Hnt1 : Nodes g1 !! tv = Some nt)
    by (unfold g1; simpl; by rewrite lookup_insert_ne).
  pose (g2 := setNodes g1
         (<[tv := setFixedBindings nt (pop_back (FixedBindings nt))]>
            (Nodes g1))).
  assert (Hstep : unbindStep cs fuel tv x (known, g)
                  = Done ({[x]} ∪ known, g2)).
  { unfold unbindStep. rewrite Hk. cbv beta iota zeta.
    apply bind_Done. exists (i, g). split; [exact L|].
    apply bind_Done. exists g1.
    split; [exact (withNode_removeFixedBinding x tv nx g Hnx Hfx)|].
    apply bind_Done. exists g2.
    split; [exact (withNode_removeFixedBinding tv x nt g1 Hnt1 Hft)|done]. }
  assert (Hn2 : forall u, hasNode g2 u <-> hasNode g u).
  { intros u. etrans.
    - apply (hasNode_setNodes_insert tv nt
               (setFixedBindings nt (pop_back (FixedBindings nt))) g1 u Hnt1).
    - apply (hasNode_setNodes_insert x nx _ g u Hnx). }
  assert (Hfb2 : forall u, fixedBindingsOf g2 u =
            take (length (fixedBindingsOf g u)
                  - pushCount u (pairPushes tv x)) (fixedBindingsOf g u)).
  { intros u. unfold g2. rewrite fixedBindingsOf_insert. unfold g1.
    rewrite fixedBindingsOf_insert, pushCount_pair. simpl.
    unfold fixedBindingsOf.
    repeat case_bool_decide; subst; try congruence;
      rewrite ?Hnt, ?Hnx, ?pop_back_take; try done.
    rewrite take_ge; [done|lia]. }
  destruct (IH ({[x]} ∪ known) g2) as (known' & g' & Hrun & Hfb).
  - apply (GraphWF_frame g); try done.
  - apply Hn2. by exists nt.
  - intros v Hv. apply Hn2, Hl. set_solver.
  - set_solver.
  - intros u. rewrite Hfb2, length_take. specialize (Hlen u).
    rewrite pushCount_app in Hlen. lia.
  - exists known', g'. split; [cbn [forEach]; by rewrite Hstep|]. intros u.
    rewrite Hfb, Hfb2, length_take, take_take, pushCount_app. f_equal.
    specialize (Hlen u). rewrite pushCount_app in Hlen. lia.
Qed.

Lemma unbindTypeVariable_total cs fuel tv fixed g :
  GraphWF g -> hasNode g tv ->
  (forall v, v ∈ typeVariablesIn fixed -> hasNode g v) ->
  tv ∉ typeVariablesIn fixed ->
  (forall u, pushCount u (pushesOf tv fixed) <= length (fixedBindingsOf g u)) ->
  exists g', unbindTypeVariable cs fuel tv fixed g = Done g' /\
    forall u, fixedBindingsOf g' u =
      take (length (fixedBindingsOf g u) - pushCount u (pushesOf tv fixed))
           (fixedBindingsOf g u).
Proof.
  intros Hwf Htv Hl Hself Hlen. unfold unbindTypeVariable.
  destruct (hasTypeVariable fixed) eqn:Hhas; simpl.
  - destruct (lookupNode_existing cs fuel g tv Hwf Htv) as (i & L & _).
    rewrite L. simpl.
    destruct (unbindLoop_total cs fuel tv (typeVariablesIn fixed) ∅ g
                Hwf Htv Hl Hself Hlen) as (known' & g' & Hrun & Hfb).
    rewrite Hrun. simpl. eauto.
  - exists g. split; [done|]. intros u.
    assert (Hnil : typeVariablesIn fixed = []).
    { unfold hasTypeVariable in Hhas.
      by destruct (typeVariablesIn fixed). }
    unfold pushesOf. rewrite Hnil. simpl.
    rewrite take_ge; [done|]. unfold pushCount. simpl. lia.
Qed.

(** *** A variable added under the scope is not mentioned by the entries
    journalled before its addition *)

Lemma fresh_unmentioned cs g0 g j tv :
  TrackedTypeVars cs g0 g ->
  journalSince g0 g = j ++ [AddedTypeVariable tv] ->
  tv ∉ TypeVariables g0 ++ addedTypeVars j /\
  forall e, e ∈ j -> tv ∉ mentions cs e.
Proof.
  intros HT Hj. pose proof (TrackedTypeVars_last cs g0 g j tv HT Hj) as Hl.
  pose proof (wf_nodup g (tv_wf cs g0 g HT)) as Hnd. rewrite Hl in Hnd.
  apply NoDup_app in Hnd as (_ & Hnot & _).
  assert (Hfresh : tv ∉ TypeVariables g0 ++ addedTypeVars j).
  { intros Hin. apply (Hnot tv Hin). set_solver. }
  split; [done|]. intros e He Hm.
  apply list_elem_of_split in He as (j1 & j2 & ->).
  apply Hfresh.
  assert (Hin : tv ∈ TypeVariables g0 ++ addedTypeVars j1).
  { apply (tv_mentions cs g0 g HT j1 e (j2 ++ [AddedTypeVariable tv])); [|done].
    rewrite Hj. by rewrite <- app_assoc. }
  rewrite addedTypeVars_app. set_solver.
Qed.

Lemma bindPushes_owner t l known o p :
  (o, p) ∈ bindPushes t l known -> o = t \/ o ∈ l.
Proof.
  revert known. induction l as [|x l IH]; intros known; simpl.
  { intros Hq. by apply elem_of_nil in Hq. }
  case_bool_decide as Hk.
  - intros Hq. destruct (IH _ Hq); set_solver.
  - intros Hq. apply elem_of_app in Hq as [Hq|Hq].
    + case_bool_decide as Hx; [by apply elem_of_nil in Hq|].
      unfold pairPushes in Hq. set_solver.
    + destruct (IH _ Hq); set_solver.
Qed.

Lemma pushCount_zero tv l : (forall q, q ∈ l -> q.1 <> tv) -> pushCount tv l = 0.
Proof.
  intros H. unfold pushCount.
  induction l as [|q l IH]; [done|].
  rewrite filter_cons. destruct (decide (q.1 = tv)) as [E|E].
  - exfalso. apply (H q); [set_solver|done].
  - apply IH. intros q' Hq'. apply H. set_solver.
Qed.

Lemma unmentioned_pushCount cs j tv :
  (forall e, e ∈ j -> tv ∉ mentions cs e) -> pushCount tv (journalPushes j) = 0.
Proof.
  intros H. apply pushCount_zero. intros [o p] Hq. simpl. intros ->.
  unfold journalPushes in Hq. apply list_elem_of_In, in_flat_map in Hq
    as (e & He & Hq).
  apply list_elem_of_In in He, Hq. apply (H e He).
  destruct e as [| | | |t T]; simpl in *; try by apply elem_of_nil in Hq.
  apply bindPushes_owner in Hq. set_solver.
Qed.

Lemma omap_none {A B} (f : A -> option B) (l : list A) :
  (forall x, x ∈ l -> f x = None) -> omap f l = [].
Proof.
  induction l as [|x l IH]; intros H; [done|]. simpl.
  rewrite (H x) by set_solver. apply IH. intros y Hy. apply H. set_solver.
Qed.

Lemma unmentioned_sizesFor cs j tv :
  (forall e, e ∈ j -> tv ∉ mentions cs e) -> sizesFor tv j = [].
Proof.
  intros H. apply omap_none. intros e He. specialize (H e He).
  destruct e as [| | |t m|]; simpl in *; try done.
  case_bool_decide; [|done]. subst. set_solver.
Qed.

Lemma unmentioned_entries cs j tv :
  (forall e, e ∈ j -> tv ∉ mentions cs e) ->
  forall e, e ∈ constraintEntries j -> mentionedBy cs tv e.2 = false.
Proof.
  intros H e He. unfold constraintEntries in He.
  apply list_elem_of_omap in He as (ch & Hch & He).
  specialize (H ch Hch). unfold mentionedBy.
  destruct ch; simpl in *; try done; injection He as <-; simpl;
    by apply bool_decide_eq_false_2.
Qed.

Lemma replay_irrelevant strict relevant es l :
  (forall e, e ∈ es -> relevant e.2 = false) ->
  replay strict relevant es l = Some l.
Proof.
  induction es as [|e es IH] using rev_ind; intros H; [done|].
  rewrite replay_snoc, IH by (intros e' He'; apply H; set_solver). simpl.
  specialize (H e ltac:(set_solver)). destruct e as [b c]. simpl in *.
  by rewrite H.
Qed.

(** *** Each part after an undo that leaves its observations alone *)

Lemma TrackedBindings_popped g0 g gop j e :
  TrackedBindings g0 [] g -> journalSince g0 g = j ++ [e] ->
  Changes gop = Changes g ->
  (forall u, exists extra,
     fixedBindingsOf gop u = fixedBindingsOf g0 u ++ extra /\
     length extra = pushCount u (journalPushes j)) ->
  TrackedBindings g0 [] (popped g gop).
Proof.
  intros [Hsc Hl] Hj FC Hfb.
  destruct (scoped_pop g0 g (popped g gop) j e Hsc Hj) as [Hsc' Hj'];
    [simpl; by rewrite FC|done|].
  split; [done|]. intros u. rewrite Hj', app_nil_r. apply Hfb.
Qed.

Lemma TrackedBindings_popped_same g0 g gop j e :
  TrackedBindings g0 [] g -> journalSince g0 g = j ++ [e] ->
  pushesOfChange e = [] ->
  Changes gop = Changes g ->
  (forall u, fixedBindingsOf gop u = fixedBindingsOf g u) ->
  TrackedBindings g0 [] (popped g gop).
Proof.
  intros HT Hj He HF Hfb.
  apply (TrackedBindings_popped g0 g gop j e HT Hj HF).
  intros u. destruct (tb_lengths g0 [] g HT u) as (extra & Hx & Hlen).
  exists extra. rewrite Hfb. split; [done|].
  rewrite Hlen, Hj, journalPushes_snoc, He. by rewrite !app_nil_r.
Qed.

Lemma TrackedClasses_popped g0 g gop j e :
  TrackedClasses g0 g -> journalSince g0 g = j ++ [e] ->
  Changes gop = Changes g -> keyed gop ->
  (forall r, classTracked g0 j gop r) ->
  TrackedClasses g0 (popped g gop).
Proof.
  intros [Hsc Hk Hc] Hj FC Hk' Hc'.
  destruct (scoped_pop g0 g (popped g gop) j e Hsc Hj) as [Hsc' Hj'];
    [simpl; by rewrite FC|done|].
  split; [done|done|]. intros r. rewrite Hj'. apply Hc'.
Qed.

Lemma TrackedClasses_popped_same g0 g gop j e :
  TrackedClasses g0 g -> journalSince g0 g = j ++ [e] ->
  (forall r, extensionOf r e = None) ->
  Changes gop = Changes g -> keyed gop ->
  (forall r, rawClass gop r = rawClass g r) ->
  TrackedClasses g0 (popped g gop).
Proof.
  intros HT Hj He HF Hk Hraw.
  apply (TrackedClasses_popped g0 g gop j e HT Hj HF Hk).
  intros r. pose proof (tc_classes g0 g HT r) as Hc.
  unfold classTracked in *. rewrite Hraw.
  rewrite Hj, sizesFor_snoc, He in Hc. simpl in Hc.
  by rewrite app_nil_r in Hc.
Qed.

Lemma TrackedEntries_popped g0 es g gop j e :
  TrackedEntries g0 es g -> journalSince g0 g = j ++ [e] ->
  Changes gop = Changes g ->
  TrackedEntries g0 (constraintEntries j) (popped g gop).
Proof.
  intros [Hsc He] Hj FC.
  destruct (scoped_pop g0 g (popped g gop) j e Hsc Hj) as [Hsc' Hj'];
    [simpl; by rewrite FC|done|].
  split; [done|by rewrite Hj'].
Qed.

Lemma TrackedConstraints_popped cs g0 es g gop :
  TrackedConstraints cs g0 es gop -> TrackedConstraints cs g0 es (popped g gop).
Proof. intros [H1 H2 H3 H4]. by split. Qed.

Lemma TrackedConstraints_inactive cs g0 es g :
  TrackedConstraints cs g0 es g ->
  TrackedConstraints cs g0 es (setActiveScope g None).
Proof. intros [H1 H2 H3 H4]. by split. Qed.

(** The graph at the opening of the scope is consistent. *)
Record Consistent (g : ConstraintGraph) : Prop := {
  co_wf : GraphWF g;
  co_nodes : NodesWF g;
  co_keyed : keyed g;
}.

Lemma exceptConstraints_inv n n' :
  agree exceptConstraints n n' ->
  TypeVar n' = TypeVar n /\ EquivalenceClass n' = EquivalenceClass n /\
  FixedBindings n' = FixedBindings n.
Proof. unfold agree, exceptConstraints. intros [= -> -> ->]. done. Qed.

Lemma exceptClass_inv n n' :
  agree exceptClass n n' ->
  TypeVar n' = TypeVar n /\ Constraints n' = Constraints n /\
  ConstraintIndex n' = ConstraintIndex n /\ FixedBindings n' = FixedBindings n.
Proof. unfold agree, exceptClass. intros [= -> -> -> ->]. done. Qed.

Lemma exceptBindings_inv n n' :
  agree exceptBindings n n' ->
  TypeVar n' = TypeVar n /\ Constraints n' = Constraints n /\
  ConstraintIndex n' = ConstraintIndex n /\
  EquivalenceClass n' = EquivalenceClass n.
Proof. unfold agree, exceptBindings. intros [= -> -> -> ->]. done. Qed.

(** When the nodes keep their constraint lists, so does the replay. *)
Lemma TrackedConstraints_keeps cs g0 es
    (R : relation ConstraintGraphNode) g g' :
  (forall n n', R n n' -> Constraints n' = Constraints n /\
                          ConstraintIndex n' = ConstraintIndex n) ->
  nodesRelated R g g' -> OrphanedConstraints g' = OrphanedConstraints g ->
  TrackedConstraints cs g0 es g -> TrackedConstraints cs g0 es g'.
Proof.
  intros HR HN HO HK. apply (frozen_TrackedConstraints cs g0 es g g'); [|done].
  split; [|split; [done|]].
  - apply (nodesRelated_NodesWF R g g' HR HN), (tk_wf cs g0 es g HK).
  - intros tv. apply (nodesRelated_constraintsOf R g g' tv); [|done].
    intros n n' Hr. by destruct (HR n n' Hr).
Qed.

Lemma TrackedConstraints_last_added cs g0 es c g :
  TrackedConstraints cs g0 (es ++ [(true, c)]) g ->
  NoDup (getTypeVariables cs c) /\
  (forall v, v ∈ getTypeVariables cs c -> c ∈ constraintsOf g v) /\
  (getTypeVariables cs c = [] -> c ∈ OrphanedConstraints g).
Proof.
  intros [Hwf Hnd Hl Ho]. split; [apply (Hnd (true, c)); set_solver|]. split.
  - intros v Hv. destruct (Hl v) as (l & Hrep & Hperm).
    rewrite replay_snoc in Hrep.
    destruct (replay true (mentionedBy cs v) es (constraintsOf g0 v))
      as [l1|]; [|done].
    simpl in Hrep. unfold mentionedBy in Hrep.
    rewrite (bool_decide_eq_true_2 _ Hv) in Hrep.
    destruct (bool_decide (c ∈ l1)); [done|]. injection Hrep as <-.
    rewrite Hperm. set_solver.
  - intros Hv. destruct Ho as (l & Hrep & Hperm).
    rewrite replay_snoc in Hrep.
    destruct (replay false (orphaned cs) es (OrphanedConstraints g0))
      as [l1|]; [|done].
    simpl in Hrep. unfold orphaned in Hrep.
    rewrite (bool_decide_eq_true_2 _ Hv) in Hrep. injection Hrep as <-.
    rewrite Hperm. set_solver.
Qed.

Lemma TrackedConstraints_last_removed cs g0 es c g :
  NodesWF g0 ->
  TrackedConstraints cs g0 (es ++ [(false, c)]) g ->
  NoDup (getTypeVariables cs c) /\
  (forall v, v ∈ getTypeVariables cs c -> c ∉ constraintsOf g v).
Proof.
  intros Hwf0 [Hwf Hnd Hl Ho].
  split; [apply (Hnd (false, c)); set_solver|].
  intros v Hv. destruct (Hl v) as (l & Hrep & Hperm).
  rewrite replay_snoc in Hrep.
  destruct (replay true (mentionedBy cs v) es (constraintsOf g0 v))
    as [l1|] eqn:E; [|done].
  simpl in Hrep. unfold mentionedBy in Hrep.
  rewrite (bool_decide_eq_true_2 _ Hv) in Hrep.
  destruct (bool_decide (c ∈ l1)); [|done]. injection Hrep as <-.
  rewrite Hperm. apply eraseFirst_NoDup.
  apply (replay_NoDup _ _ _ _ (constraintsOf_NoDup g0 v Hwf0) E).
Qed.

Lemma undo_Done cs fuel e g gop :
  match e with
  | AddedTypeVariable typeVar => removeNode typeVar (setActiveScope g None)
  | AddedConstraint constraint =>
      removeConstraint cs fuel constraint (setActiveScope g None)
  | RemovedConstraint constraint =>
      addConstraint cs fuel constraint (setActiveScope g None)
  | ExtendedEquivalenceClass typeVar prevSize =>
      '(_, g) ← lookupNode cs fuel typeVar (setActiveScope g None);
      withNode typeVar (truncateEquivalenceClass prevSize) g
  | BoundTypeVariable typeVar fixed =>
      unbindTypeVariable cs fuel typeVar fixed (setActiveScope g None)
  end = Done gop ->
  exists g', undo cs fuel e g = Done g' /\
             setChanges g' (pop_back (Changes g')) = popped g gop.
Proof.
  intros H. exists (setActiveScope gop (ActiveScope g)). split; [|done].
  unfold undo. by rewrite H.
Qed.

(** The parts that an undo of a constraint entry leaves alone. *)
Lemma TrackedRest_popped_constraints cs g0 es g gop j e :
  TrackedRest cs g0 es [] g -> journalSince g0 g = j ++ [e] ->
  addedTypeVar e = None -> pushesOfChange e = [] ->
  (forall r, extensionOf r e = None) ->
  keeps exceptConstraints (setActiveScope g None) gop ->
  TrackedRest cs g0 (constraintEntries j) [] (popped g gop).
Proof.
  intros [[TT TB] [TC TE]] Hj Ha Hp He [HF HN].
  assert (FC : Changes gop = Changes g) by apply HF.
  assert (HR : forall n n', agree exceptConstraints n n' ->
            TypeVar n' = TypeVar n /\ EquivalenceClass n' = EquivalenceClass n
            /\ FixedBindings n' = FixedBindings n)
    by apply exceptConstraints_inv.
  split; split.
  - apply (TrackedTypeVars_popped cs g0 g gop j e TT Hj Ha HF).
    intros u. apply (nodesRelated_hasNode _ _ _ u HN).
  - apply (TrackedBindings_popped_same g0 g gop j e TB Hj Hp FC).
    intros u. apply (nodesRelated_fixedBindingsOf _ _ _ u
                       (fun n n' H => proj2 (proj2 (HR n n' H))) HN).
  - apply (TrackedClasses_popped_same g0 g gop j e TC Hj He FC).
    + apply (nodesRelated_keyed _ _ _ (fun n n' H => proj1 (HR n n' H)) HN).
      apply (tc_keyed g0 g TC).
    + intros r. apply (nodesRelated_rawClass _ _ _ r
                         (fun n n' H => proj1 (proj2 (HR n n' H))) HN).
  - by apply (TrackedEntries_popped g0 es g gop j e).
Qed.

Lemma undo_AddedConstraint cs fuel g0 g j c :
  Tracked cs g0 g -> journalSince g0 g = j ++ [AddedConstraint c] ->
  exists g', undo cs fuel (AddedConstraint c) g = Done g' /\
             Tracked cs g0 (setChanges g' (pop_back (Changes g'))).
Proof.
  intros (es & HR & HK) Hj.
  assert (Hes : es = constraintEntries j ++ [(true, c)]).
  { destruct HR as [_ [_ [_ <-]]]. by rewrite Hj, constraintEntries_snoc. }
  subst es. apply TrackedConstraints_inactive in HK.
  destruct (TrackedConstraints_last_added cs g0 _ c _ HK) as (Hnd & Hin & Ho).
  pose proof (tv_wf cs g0 g (proj1 (proj1 HR))) as Hwf.
  assert (HwfN : GraphWF (setActiveScope g None)) by (destruct Hwf; by split).
  destruct (removeConstraint_total cs fuel c (setActiveScope g None)
              HwfN (tk_wf _ _ _ _ HK) Hnd Hin Ho) as [gop Hop].
  destruct (undo_Done cs fuel (AddedConstraint c) g gop Hop)
    as (g' & Hu & Hpop).
  exists g'. split; [done|]. rewrite Hpop.
  exists (constraintEntries j). split.
  - apply (TrackedRest_popped_constraints cs g0 _ g gop j _ HR Hj);
      try done.
    apply (removeConstraint_keeps cs fuel c (setActiveScope g None) gop);
      [done| |done].
    intros v Hv. apply (hasNode_constraintsOf _ v c). auto.
  - apply TrackedConstraints_popped.
    apply (TrackedConstraints_unadded cs g0 _ c (setActiveScope g None) gop);
      [|done].
    apply (removeConstraint_lists cs fuel c _ gop (tk_wf _ _ _ _ HK) Hop).
Qed.

Lemma undo_RemovedConstraint cs fuel g0 g j c :
  NodesWF g0 ->
  Tracked cs g0 g -> journalSince g0 g = j ++ [RemovedConstraint c] ->
  exists g', undo cs fuel (RemovedConstraint c) g = Done g' /\
             Tracked cs g0 (setChanges g' (pop_back (Changes g'))).
Proof.
  intros Hwf0 (es & HR & HK) Hj.
  assert (Hes : es = constraintEntries j ++ [(false, c)]).
  { destruct HR as [_ [_ [_ <-]]]. by rewrite Hj, constraintEntries_snoc. }
  subst es. apply TrackedConstraints_inactive in HK.
  destruct (TrackedConstraints_last_removed cs g0 _ c _ Hwf0 HK) as (Hnd & Hin).
  pose proof (tv_wf cs g0 g (proj1 (proj1 HR))) as Hwf.
  assert (HwfN : GraphWF (setActiveScope g None)) by (destruct Hwf; by split).
  assert (Hn : forall v, v ∈ getTypeVariables cs c ->
                         hasNode (setActiveScope g None) v).
  { intros v Hv.
    by destruct (TrackedTypeVars_mentioned cs g0 g j _ v
                   (proj1 (proj1 HR)) Hj Hv). }
  destruct (addConstraint_total cs fuel c (setActiveScope g None)
              HwfN (tk_wf _ _ _ _ HK) Hnd) as [gop Hop]; [by auto|].
  destruct (undo_Done cs fuel (RemovedConstraint c) g gop Hop)
    as (g' & Hu & Hpop).
  exists g'. split; [done|]. rewrite Hpop.
  exists (constraintEntries j). split.
  - apply (TrackedRest_popped_constraints cs g0 _ g gop j _ HR Hj);
      try done.
    by apply (addConstraint_keeps cs fuel c (setActiveScope g None) gop).
  - apply TrackedConstraints_popped.
    apply (TrackedConstraints_unremoved cs g0 _ c (setActiveScope g None) gop);
      [|done].
    apply (addConstraint_lists cs fuel c _ gop (tk_wf _ _ _ _ HK) Hop).
Qed.

Lemma undo_ExtendedEquivalenceClass cs fuel g0 g j tv m :
  Tracked cs g0 g ->
  journalSince g0 g = j ++ [ExtendedEquivalenceClass tv m] ->
  exists g', undo cs fuel (ExtendedEquivalenceClass tv m) g = Done g' /\
             Tracked cs g0 (setChanges g' (pop_back (Changes g'))).
Proof.
  intros (es & HR & HK) Hj. destruct HR as [[TT TB] [TC TE]].
  assert (Hes : es = constraintEntries j).
  { destruct TE as [_ <-]. rewrite Hj, constraintEntries_snoc. simpl.
    by rewrite app_nil_r. }
  destruct (TrackedTypeVars_mentioned cs g0 g j _ tv TT Hj)
    as [_ [n Hn]]; [simpl; set_solver|].
  pose proof (tv_wf cs g0 g TT) as Hwf.
  assert (HwfN : GraphWF (setActiveScope g None)) by (destruct Hwf; by split).
  destruct (tc_classes g0 g TC tv) as (out & Hout & Hbase).
  rewrite Hj, sizesFor_snoc in Hout. cbn [extensionOf] in Hout.
  rewrite (bool_decide_eq_true_2 (tv = tv)) in Hout by done.
  change (option_list (Some m)) with [m] in Hout.
  rewrite reverse_snoc in Hout.
  simpl in Hout. unfold rawClass in Hout. rewrite Hn in Hout.
  case_bool_decide as Hm; [|done].
  destruct (lookupNode_existing cs fuel (setActiveScope g None) tv HwfN
              ltac:(by exists n)) as (i & L & _).
  pose (gop := setNodes (setActiveScope g None)
          (<[tv := setEquivalenceClass n (take m (EquivalenceClass n))]>
             (Nodes (setActiveScope g None)))).
  assert (Hop : ('(_, g1) ← lookupNode cs fuel tv (setActiveScope g None);
                 withNode tv (truncateEquivalenceClass m) g1) = Done gop).
  { apply bind_Done. exists (i, setActiveScope g None). split; [done|].
    unfold withNode, truncateEquivalenceClass. simpl. rewrite Hn. simpl.
    by rewrite (bool_decide_eq_true_2 _ Hm). }
  destruct (undo_Done cs fuel (ExtendedEquivalenceClass tv m) g gop Hop)
    as (g' & Hu & Hpop).
  exists g'. split; [done|].
  pose proof (undo_TrackedTypeVars cs fuel g0 g j _ g' TT Hj Hu) as TT'.
  rewrite Hpop in *. exists es.
  destruct (truncate_keeps cs fuel tv m (setActiveScope g None) gop
              ltac:(by exists n) Hop) as [[HF HN] HO].
  assert (FC : Changes gop = Changes g) by done.
  assert (Hk' : keyed gop).
  { apply (nodesRelated_keyed _ _ _
             (fun n n' H => proj1 (exceptClass_inv n n' H)) HN).
    apply (tc_keyed g0 g TC). }
  split; [split; split|].
  - done.
  - apply (TrackedBindings_popped_same g0 g gop j _ TB Hj eq_refl FC).
    intros u. apply (nodesRelated_fixedBindingsOf _ _ _ u
      (fun n n' H => proj2 (proj2 (proj2 (exceptClass_inv n n' H)))) HN).
  - apply (TrackedClasses_popped g0 g gop j _ TC Hj FC Hk').
    intros r. unfold classTracked, gop. rewrite rawClass_insert.
    case_bool_decide as Hr.
    + subst r. simpl. exists out. done.
    + pose proof (tc_classes g0 g TC r) as Hc. unfold classTracked in Hc.
      rewrite Hj, sizesFor_snoc in Hc. simpl in Hc.
      rewrite bool_decide_eq_false_2 in Hc by congruence.
      simpl in Hc. by rewrite app_nil_r in Hc.
  - subst es. by apply (TrackedEntries_popped g0 _ g gop j _ TE Hj).
  - apply TrackedConstraints_popped.
    apply (TrackedConstraints_keeps cs g0 es (agree exceptClass)
             (setActiveScope g None) gop); [|done|done|].
    + intros n1 n2 H. destruct (exceptClass_inv n1 n2 H) as (_ & A & B & _).
      done.
    + by apply TrackedConstraints_inactive.
Qed.

Lemma undo_BoundTypeVariable cs fuel g0 g j tv fixed :
  tv ∉ typeVariablesIn fixed ->
  Tracked cs g0 g ->
  journalSince g0 g = j ++ [BoundTypeVariable tv fixed] ->
  exists g', undo cs fuel (BoundTypeVariable tv fixed) g = Done g' /\
             Tracked cs g0 (setChanges g' (pop_back (Changes g'))).
Proof.
  intros Hself (es & HR & HK) Hj. destruct HR as [[TT TB] [TC TE]].
  assert (Hes : es = constraintEntries j).
  { destruct TE as [_ <-]. rewrite Hj, constraintEntries_snoc. simpl.
    by rewrite app_nil_r. }
  assert (Hmen : forall v, v ∈ tv :: typeVariablesIn fixed ->
                           hasNode (setActiveScope g None) v).
  { intros v Hv.
    by destruct (TrackedTypeVars_mentioned cs g0 g j _ v TT Hj Hv). }
  pose proof (tv_wf cs g0 g TT) as Hwf.
  assert (HwfN : GraphWF (setActiveScope g None)) by (destruct Hwf; by split).
  assert (Hfb : forall u, exists extra,
            fixedBindingsOf g u = fixedBindingsOf g0 u ++ extra /\
            length extra = pushCount u (journalPushes j)
                           + pushCount u (pushesOf tv fixed)).
  { intros u. destruct (tb_lengths g0 [] g TB u) as (extra & Hx & Hlen).
    exists extra. split; [done|].
    rewrite Hlen, Hj, journalPushes_snoc, app_nil_r, pushCount_app. done. }
  destruct (unbindTypeVariable_total cs fuel tv fixed (setActiveScope g None)
              HwfN) as (gop & Hop & Hpopfb); [set_solver|set_solver|done| |].
  { intros u. destruct (Hfb u) as (extra & Hx & Hlen).
    change (fixedBindingsOf (setActiveScope g None) u)
      with (fixedBindingsOf g u). rewrite Hx, length_app. lia. }
  destruct (undo_Done cs fuel (BoundTypeVariable tv fixed) g gop Hop)
    as (g' & Hu & Hpop).
  exists g'. split; [done|].
  pose proof (undo_TrackedTypeVars cs fuel g0 g j _ g' TT Hj Hu) as TT'.
  rewrite Hpop in *. exists es.
  destruct (unbindTypeVariable_keeps cs fuel tv fixed (setActiveScope g None)
              gop) as [[HF HN] HO]; [set_solver|set_solver|done|].
  assert (FC : Changes gop = Changes g) by apply HF.
  split; [split; split|].
  - done.
  - apply (TrackedBindings_popped g0 g gop j _ TB Hj FC).
    intros u. destruct (Hfb u) as (extra & Hx & Hlen).
    exists (take (length extra - pushCount u (pushesOf tv fixed)) extra).
    rewrite Hpopfb.
    change (fixedBindingsOf (setActiveScope g None) u)
      with (fixedBindingsOf g u).
    rewrite Hx, length_app, length_take. split; [|lia].
    rewrite take_app_ge by lia. f_equal. f_equal. lia.
  - apply (TrackedClasses_popped_same g0 g gop j _ TC Hj); [done|done| |].
    + apply (nodesRelated_keyed _ _ _
               (fun n n' H => proj1 (exceptBindings_inv n n' H)) HN).
      apply (tc_keyed g0 g TC).
    + intros r. apply (nodesRelated_rawClass _ _ _ r
        (fun n n' H => proj2 (proj2 (proj2 (exceptBindings_inv n n' H)))) HN).
  - subst es. by apply (TrackedEntries_popped g0 _ g gop j _ TE Hj).
  - apply TrackedConstraints_popped.
    apply (TrackedConstraints_keeps cs g0 es (agree exceptBindings)
             (setActiveScope g None) gop); [|done|done|].
    + intros n1 n2 H. destruct (exceptBindings_inv n1 n2 H) as (_ & A & B & _).
      done.
    + by apply TrackedConstraints_inactive.
Qed.

Lemma undo_AddedTypeVariable cs fuel g0 g j tv :
  GraphWF g0 ->
  Tracked cs g0 g ->
  journalSince g0 g = j ++ [AddedTypeVariable tv] ->
  exists g', undo cs fuel (AddedTypeVariable tv) g = Done g' /\
             Tracked cs g0 (setChanges g' (pop_back (Changes g'))).
Proof.
  intros Hwf0 (es & HR & HK) Hj. destruct HR as [[TT TB] [TC TE]].
  assert (Hes : es = constraintEntries j).
  { destruct TE as [_ <-]. rewrite Hj, constraintEntries_snoc. simpl.
    by rewrite app_nil_r. }
  pose proof (tv_wf cs g0 g TT) as Hwf.
  assert (HwfN : GraphWF (setActiveScope g None)) by (destruct Hwf; by split).
  pose proof (TrackedTypeVars_last cs g0 g j tv TT Hj) as Hl.
  destruct (fresh_unmentioned cs g0 g j tv TT Hj) as [Hfresh Hun].
  assert (Hn0 : Nodes g0 !! tv = None).
  { destruct (Nodes g0 !! tv) as [n|] eqn:E; [|done]. exfalso.
    apply Hfresh, elem_of_app. left. apply (wf_nodes g0 Hwf0). eauto. }
  pose proof (removeNode_last tv (setActiveScope g None) _ HwfN Hl) as Hop.
  set (gop := {| Nodes := delete tv (Nodes (setActiveScope g None)) |}) in Hop.
  destruct (undo_Done cs fuel (AddedTypeVariable tv) g gop Hop)
    as (g' & Hu & Hpop).
  exists g'. split; [done|].
  pose proof (undo_TrackedTypeVars cs fuel g0 g j _ g' TT Hj Hu) as TT'.
  rewrite Hpop in *. exists es.
  assert (FC : Changes gop = Changes g) by done.
  split; [split; split|].
  - done.
  - apply (TrackedBindings_popped g0 g gop j _ TB Hj FC).
    intros u. unfold fixedBindingsOf at 1. simpl.
    destruct (decide (u = tv)) as [->|Hne].
    + rewrite lookup_delete_eq. exists []. unfold fixedBindingsOf.
      rewrite Hn0. split; [done|].
      by rewrite (unmentioned_pushCount cs j tv Hun).
    + rewrite lookup_delete_ne by done.
      destruct (tb_lengths g0 [] g TB u) as (extra & Hx & Hlen).
      exists extra. split; [done|].
      rewrite Hlen, Hj, journalPushes_snoc. simpl. by rewrite !app_nil_r.
  - apply (TrackedClasses_popped g0 g gop j _ TC Hj FC).
    + intros u n Hu'. simpl in Hu'.
      apply lookup_delete_Some in Hu' as [_ Hu']. by apply (tc_keyed g0 g TC).
    + intros r. unfold classTracked, rawClass at 1. simpl.
      destruct (decide (r = tv)) as [->|Hne].
      * rewrite lookup_delete_eq, (unmentioned_sizesFor cs j tv Hun).
        exists []. split; [done|]. unfold rawClass. by rewrite Hn0.
      * rewrite lookup_delete_ne by done.
        pose proof (tc_classes g0 g TC r) as Hc. unfold classTracked in Hc.
        rewrite Hj, sizesFor_snoc in Hc. simpl in Hc.
        by rewrite app_nil_r in Hc.
  - subst es. by apply (TrackedEntries_popped g0 _ g gop j _ TE Hj).
  - apply TrackedConstraints_popped. destruct HK as [Hnwf Hnd Hlists Horph].
    split; [| done | | done].
    + intros u n Hu'. simpl in Hu'.
      apply lookup_delete_Some in Hu' as [_ Hu']. eauto.
    + intros v. unfold constraintsOf at 2. simpl.
      destruct (decide (v = tv)) as [->|Hne].
      * rewrite lookup_delete_eq. exists []. split; [|done].
        rewrite Hes.
        rewrite (replay_irrelevant true _ _ _ (unmentioned_entries cs j tv Hun)).
        unfold constraintsOf. by rewrite Hn0.
      * rewrite lookup_delete_ne by done. apply Hlists.
Qed.

(** Undoing the last entry of the scope's journal returns, and the graph is
    as the rest of the journal says. *)
Lemma undo_Tracked cs fuel g0 g j e :
  Consistent g0 ->
  (forall tv fixed, e = BoundTypeVariable tv fixed ->
                    tv ∉ typeVariablesIn fixed) ->
  Tracked cs g0 g -> journalSince g0 g = j ++ [e] ->
  exists g', undo cs fuel e g = Done g' /\
             Tracked cs g0 (setChanges g' (pop_back (Changes g'))).
Proof.
  intros [Hwf0 Hnwf0 _] Hself HT Hj. destruct e as [tv|c|c|tv m|tv fixed].
  - by apply (undo_AddedTypeVariable cs fuel g0 g j).
  - by apply (undo_AddedConstraint cs fuel g0 g j).
  - by apply (undo_RemovedConstraint cs fuel g0 g j).
  - by apply (undo_ExtendedEquivalenceClass cs fuel g0 g j).
  - apply (undo_BoundTypeVariable cs fuel g0 g j); auto.
Qed.

Lemma undo_Changes cs fuel g0 g j e g' :
  TrackedTypeVars cs g0 g -> journalSince g0 g = j ++ [e] ->
  undo cs fuel e g = Done g' ->
  Changes g' = Changes g /\ ActiveScope g' = ActiveScope g.
Proof.
  intros HT Hj Hrun. unfold undo in Hrun.
  apply bind_Done in Hrun as (gop & Hop & Hrun). injection Hrun as <-.
  split; [|done]. simpl.
  assert (Hmen : forall v, v ∈ mentions cs e ->
                           hasNode (setActiveScope g None) v).
  { intros v Hv. by destruct (TrackedTypeVars_mentioned cs g0 g j e v HT Hj Hv). }
  assert (Hwf : GraphWF (setActiveScope g None)).
  { destruct (tv_wf cs g0 g HT). by split. }
  destruct e as [tv|c|c|tv m|tv fixed]; simpl in Hmen.
  - pose proof (TrackedTypeVars_last cs g0 g j tv HT Hj) as Hl.
    rewrite (removeNode_last tv _ _ Hwf Hl) in Hop. by injection Hop as <-.
  - apply (removeConstraint_keeps cs fuel c (setActiveScope g None) gop
             eq_refl Hmen Hop).
  - apply (addConstraint_keeps cs fuel c (setActiveScope g None) gop
             eq_refl Hmen Hop).
  - apply (truncate_keeps cs fuel tv m _ gop (Hmen tv ltac:(set_solver)) Hop).
  - apply (unbindTypeVariable_keeps cs fuel tv fixed _ gop
             (Hmen tv ltac:(set_solver))
             (fun v Hv => Hmen v ltac:(set_solver)) Hop).
Qed.

(** Every self-mentioning binding is excluded: [unbindTypeVariable] pops the
    wrong number of entries for those. *)
Definition noSelfBinding (j : list Change) : Prop :=
  forall tv fixed, BoundTypeVariable tv fixed ∈ j -> tv ∉ typeVariablesIn fixed.

Lemma Tracked_scoped cs g0 g : Tracked cs g0 g -> scoped g0 g.
Proof. intros (es & [[TT _] _] & _). apply (tv_scoped cs g0 g TT). Qed.

Lemma unwind_Tracked cs fuel g0 iters :
  Consistent g0 ->
  forall g, Tracked cs g0 g -> noSelfBinding (journalSince g0 g) ->
    length (journalSince g0 g) <= iters ->
    exists g', unwind cs iters fuel (length (Changes g0)) g = Done g' /\
               Tracked cs g0 g' /\ journalSince g0 g' = [].
Proof.
  intros Hco. induction iters as [|iters IH]; intros g HT Hself Hlen.
  - assert (Hj : journalSince g0 g = []).
    { destruct (journalSince g0 g); [done|simpl in Hlen; lia]. }
    exists g. split; [|done]. simpl.
    rewrite (journalSince_prefix g0 g (proj2 (Tracked_scoped cs g0 g HT))), Hj.
    rewrite app_nil_r. by rewrite bool_decide_eq_false_2 by lia.
  - pose proof (journalSince_prefix g0 g (proj2 (Tracked_scoped cs g0 g HT)))
      as HC.
    destruct (journalSince g0 g) as [|e j _] eqn:Hj using rev_ind.
    + exists g. split; [|done]. simpl. rewrite HC, app_nil_r.
      by rewrite bool_decide_eq_false_2 by lia.
    + destruct (undo_Tracked cs fuel g0 g j e Hco) as (g1 & Hundo & HT1);
        [|done|done|].
      { intros tv fixed ->. apply Hself. set_solver. }
      assert (TT : TrackedTypeVars cs g0 g)
        by (destruct HT as (es & [[TT _] _] & _); exact TT).
      destruct (undo_Changes cs fuel g0 g j e g1 TT Hj Hundo) as [HC1 HS1].
      destruct (scoped_pop g0 g (setChanges g1 (pop_back (Changes g1))) j e
                  (Tracked_scoped cs g0 g HT) Hj) as [_ Hj1];
        [simpl; by rewrite HC1|done|].
      destruct (IH _ HT1) as (g' & Hrun & HT' & Hj').
      * rewrite Hj1. intros tv fixed Hin. apply Hself. set_solver.
      * rewrite Hj1. rewrite length_app in Hlen. simpl in Hlen. lia.
      * exists g'. split; [|done]. simpl.
        rewrite bool_decide_eq_true_2
          by (rewrite HC, !length_app; simpl; lia).
        assert (Hb : back (Changes g) = Some e).
        { rewrite HC, app_assoc. unfold back. by rewrite last_snoc. }
        rewrite Hb. simpl. rewrite Hundo. simpl. exact Hrun.
Qed.

(** The loop of the destructor goes through the states of [unwinding]. *)
Lemma unwind_unwinding cs iters fuel numChanges g g' :
  unwind cs iters fuel numChanges g = Done g' ->
  unwinding cs fuel numChanges g g'.
Proof.
  revert g. induction iters as [|iters IH]; intros g Hrun; simpl in Hrun.
  - destruct (bool_decide (numChanges < length (Changes g))); [done|].
    injection Hrun as <-. constructor.
  - case_bool_decide as Hlen; [|injection Hrun as <-; constructor].
    apply bind_Done in Hrun as (ch & Hb & Hrun). apply fromOption_Done in Hb.
    apply bind_Done in Hrun as (g1 & Hundo & Hrun).
    by apply (unwinding_undo cs fuel numChanges g ch g1 g'); [| | |apply IH].
Qed.

(** ** Closing a scope restores the graph *)

(** The graph [g] is the graph [g0] again: the same vector of type
    variables, the same nodes with the same fixed bindings and the same
    equivalence classes as [getEquivalenceClassUnsafe] returns them, the same
    constraints in each node and among the orphans up to their order, the
    same journal and the same active scope. *)
Record restored (g0 g : ConstraintGraph) : Prop := {
  re_typeVariables : TypeVariables g = TypeVariables g0;
  re_nodes : forall tv, hasNode g tv <-> hasNode g0 tv;
  re_constraints : forall tv, constraintsOf g tv ≡ₚ constraintsOf g0 tv;
  re_classes : forall tv, classOf g tv = classOf g0 tv;
  re_bindings : forall tv, fixedBindingsOf g tv = fixedBindingsOf g0 tv;
  re_orphans : OrphanedConstraints g ≡ₚ OrphanedConstraints g0;
  re_changes : Changes g = Changes g0;
  re_scope : ActiveScope g = ActiveScope g0;
}.

Lemma classOf_rawClass g tv :
  keyed g ->
  classOf g tv = match Nodes g !! tv with
                 | Some _ => matList tv (rawClass g tv)
                 | None => []
                 end.
Proof.
  intros Hk. unfold classOf.
  destruct (Nodes g !! tv) as [n|] eqn:Hn; [|done].
  by apply rawClass_materialize.
Qed.

Lemma Tracked_open cs g0 : Consistent g0 -> Tracked cs g0 (openScope g0).2.
Proof.
  intros [Hwf Hnwf Hk].
  assert (Hsc : scoped g0 (openScope g0).2) by (split; [by eexists|done]).
  assert (Hj : journalSince g0 (openScope g0).2 = [])
    by exact (journalSince_self g0).
  exists []. split; [split; split|].
  - by apply TrackedTypeVars_open.
  - split; [done|]. intros tv. exists []. rewrite Hj. split; [|done].
    by rewrite app_nil_r.
  - split; [done|done|]. intros r. unfold classTracked. rewrite Hj.
    by exists (rawClass g0 r).
  - split; [done|by rewrite Hj].
  - split; [done| | |].
    + intros e He. by apply elem_of_nil in He.
    + intros tv. by exists (constraintsOf g0 tv).
    + by exists (OrphanedConstraints g0).
Qed.

Lemma Tracked_Consistent cs g0 g : Tracked cs g0 g -> Consistent g.
Proof.
  intros (es & [[TT _] [TC _]] & TK). split.
  - apply (tv_wf cs g0 g TT).
  - apply (tk_wf cs g0 es g TK).
  - apply (tc_keyed g0 g TC).
Qed.

Lemma emptyGraph_Consistent : Consistent emptyGraph.
Proof.
  split; [apply emptyGraph_wf| |]; intros tv n Hn; simpl in Hn;
    by rewrite lookup_empty in Hn.
Qed.

(** The graphs that mutations build from the empty graph under a scope are
    consistent. *)
Lemma Consistent_reached cs fuel ms g :
  applyMutations cs fuel ms (openScope emptyGraph).2 = Done g ->
  Consistent g.
Proof.
  intros Hrun. apply (Tracked_Consistent cs emptyGraph).
  apply (Tracked_applyMutations cs fuel emptyGraph ms
           (openScope emptyGraph).2 g); [|done].
  apply Tracked_open, emptyGraph_Consistent.
Qed.

Lemma Tracked_restored cs g0 g :
  Consistent g0 -> Tracked cs g0 g -> journalSince g0 g = [] ->
  restored g0 (setActiveScope g (ActiveScope g0)).
Proof.
  intros [Hwf0 Hnwf0 Hk0] (es & [[TT TB] [TC TE]] & TK) Hj.
  assert (Hes : es = []) by (destruct TE as [_ <-]; by rewrite Hj).
  subst es.
  assert (HT : TypeVariables g = TypeVariables g0).
  { rewrite (tv_vector cs g0 g TT), Hj. by rewrite app_nil_r. }
  assert (HN : forall tv, hasNode g tv <-> hasNode g0 tv).
  { intros tv. unfold hasNode.
    rewrite (wf_nodes g (tv_wf cs g0 g TT)), (wf_nodes g0 Hwf0).
    by rewrite HT. }
  assert (HK : forall tv, constraintsOf g tv ≡ₚ constraintsOf g0 tv).
  { intros tv. destruct (tk_lists cs g0 [] g TK tv) as (l & Hl & Hp).
    injection Hl as <-. done. }
  assert (HC : forall tv, classOf g tv = classOf g0 tv).
  { intros tv.
    rewrite (classOf_rawClass g tv (tc_keyed g0 g TC)).
    rewrite (classOf_rawClass g0 tv Hk0).
    destruct (tc_classes g0 g TC tv) as (raw & Hraw & Hbase).
    rewrite Hj in Hraw. injection Hraw as <-.
    specialize (HN tv). unfold hasNode in HN.
    destruct (Nodes g !! tv), (Nodes g0 !! tv); try done.
    - exfalso. by apply (is_Some_None (A := ConstraintGraphNode)), HN.
    - exfalso. by apply (is_Some_None (A := ConstraintGraphNode)), HN. }
  assert (HB : forall tv, fixedBindingsOf g tv = fixedBindingsOf g0 tv).
  { intros tv. destruct (tb_lengths g0 [] g TB tv) as (extra & Hx & Hlen).
    rewrite Hj in Hlen. destruct extra; [|done].
    by rewrite app_nil_r in Hx. }
  assert (HO : OrphanedConstraints g ≡ₚ OrphanedConstraints g0).
  { destruct (tk_orphans cs g0 [] g TK) as (l & Hl & Hp).
    injection Hl as <-. done. }
  assert (HJ : Changes g = Changes g0).
  { rewrite (journalSince_prefix g0 g (proj2 (tv_scoped cs g0 g TT))), Hj.
    by rewrite app_nil_r. }
  by split.
Qed.

(** C1, as stated, fails: a constraint removed under the scope is put back
    at the end of its nodes' lists when the scope is closed, so the list of
    [T1] is [[1; 0]] where it was [[0; 1]]. *)
Lemma C1_counterexample :
  let g0 := finished emptyGraph
              (applyMutations csPlain 3 [MAddConstraint 0; MAddConstraint 1]
                 emptyGraph) in
  let g2 := finished emptyGraph
              (applyMutations csPlain 0 [MRemoveConstraint 0]
                 (openScope g0).2) in
  exists g3,
    applyMutations csPlain 0 [MRemoveConstraint 0] (openScope g0).2 = Done g2 /\
    closeScope csPlain 0 (openScope g0).1 g2 = Done g3 /\
    constraintsOf g0 1 = [0; 1] /\ constraintsOf g3 1 = [1; 0] /\
    g3 <> g0.
Proof.
  intros g0 g2. eexists. split; [vm_compute; reflexivity|].
  split; [vm_compute; reflexivity|]. split; [reflexivity|].
  split; [reflexivity|]. intros H.
  apply (f_equal (fun g => constraintsOf g 1)) in H. vm_compute in H.
  discriminate H.
Qed.

(** A constraint system in which [T3] has the representative [T2]. *)
Definition csMerged : ConstraintSystem :=
  tableCS [(Bind, TyVar 0, TyVar 1); (Equal, TyVar 1, TyVar 2)]
          (fun tv => if bool_decide (tv = 3) then 2 else tv) (fun _ => None).

(** ** The union-find of the connected-components engine

    [representatives] maps a type variable to its parent; a variable without
    an entry is the representative of its set.  [unionSets] always reparents
    the representative with the higher ID, so parents have lower IDs than
    their children. *)

Definition descending (reps : gmap TypeVariableType TypeVariableType) : Prop :=
  forall v p, reps !! v = Some p -> getID p < getID v.

(** [r] is the representative that the parent links lead to from [x]. *)
Inductive rootsTo (reps : gmap TypeVariableType TypeVariableType)
  : TypeVariableType -> TypeVariableType -> Prop :=
| rootsTo_here r : reps !! r = None -> rootsTo reps r r
| rootsTo_step x p r :
    reps !! x = Some p -> rootsTo reps p r -> rootsTo reps x r.

Definition sameSet (reps : gmap TypeVariableType TypeVariableType)
    (a b : TypeVariableType) : Prop :=
  exists r, rootsTo reps a r /\ rootsTo reps b r.

Lemma rootsTo_unfold reps x r :
  rootsTo reps x r <->
  match reps !! x with
  | None => r = x
  | Some p => rootsTo reps p r
  end.
Proof.
  split.
  - intros H. destruct H as [r Hr|x p r Hx Hp]; [by rewrite Hr|by rewrite Hx].
  - destruct (reps !! x) as [p|] eqn:Hx.
    + intros Hp. by apply (rootsTo_step reps x p r).
    + intros ->. by apply rootsTo_here.
Qed.

Lemma rootsTo_root reps x r : rootsTo reps x r -> reps !! r = None.
Proof. induction 1; auto. Qed.

Lemma rootsTo_functional reps x r r' :
  rootsTo reps x r -> rootsTo reps x r' -> r = r'.
Proof.
  intros H. revert r'. induction H as [r Hr|x p r Hx Hp IH]; intros r' H'.
  - apply rootsTo_unfold in H'. by rewrite Hr in H'.
  - apply rootsTo_unfold in H'. rewrite Hx in H'. auto.
Qed.

Lemma rootsTo_le reps x r : descending reps -> rootsTo reps x r -> getID r <= getID x.
Proof.
  intros Hd. induction 1 as [r Hr|x p r Hx Hp IH]; [done|].
  specialize (Hd x p Hx). unfold getID in *. lia.
Qed.

Lemma rootsTo_exists reps x : descending reps -> exists r, rootsTo reps x r.
Proof.
  intros Hd. induction (lt_wf x) as [x _ IH].
  destruct (reps !! x) as [p|] eqn:Hx.
  - destruct (IH p (Hd x p Hx)) as [r Hr]. exists r.
    by apply (rootsTo_step reps x p r).
  - exists x. by apply rootsTo_here.
Qed.

Lemma sameSet_refl reps x : descending reps -> sameSet reps x x.
Proof. intros Hd. destruct (rootsTo_exists reps x Hd) as [r Hr]. by exists r. Qed.

Lemma sameSet_sym reps x y : sameSet reps x y -> sameSet reps y x.
Proof. intros (r & H1 & H2). by exists r. Qed.

Lemma sameSet_trans reps x y z :
  sameSet reps x y -> sameSet reps y z -> sameSet reps x z.
Proof.
  intros (r & H1 & H2) (r' & H3 & H4).
  rewrite <- (rootsTo_functional reps y r r' H2 H3) in H4. by exists r.
Qed.

Lemma sameSet_root reps x r : rootsTo reps x r -> sameSet reps x r.
Proof.
  intros H. exists r. split; [done|].
  apply rootsTo_here. by apply (rootsTo_root reps x).
Qed.

(** Path compression: pointing a variable at its representative changes
    nobody's representative. *)
Lemma rootsTo_compress reps x r :
  descending reps -> rootsTo reps x r -> x <> r ->
  descending (<[x := r]> reps) /\
  forall y s, rootsTo (<[x := r]> reps) y s <-> rootsTo reps y s.
Proof.
  intros Hd Hx Hne.
  assert (Hlt : getID r < getID x).
  { pose proof (rootsTo_le reps x r Hd Hx). unfold getID in *. lia. }
  split.
  - intros v p Hv. destruct (decide (x = v)) as [->|Hxv].
    + rewrite lookup_insert_eq in Hv. by injection Hv as <-.
    + rewrite lookup_insert_ne in Hv by done. eauto.
  - intros y. induction (lt_wf y) as [y _ IH]. intros s.
    rewrite (rootsTo_unfold (<[x:=r]> reps)), (rootsTo_unfold reps y).
    destruct (decide (x = y)) as [->|Hxy].
    + rewrite lookup_insert_eq.
      pose proof (rootsTo_root reps y r Hx) as Hr.
      assert (Hr' : rootsTo (<[y:=r]> reps) r s <-> s = r).
      { rewrite rootsTo_unfold, lookup_insert_ne, Hr by done. done. }
      rewrite Hr'. apply rootsTo_unfold in Hx.
      destruct (reps !! y) as [p|]; [|done].
      split; [by intros ->|]. intros Hs.
      by apply (rootsTo_functional reps p).
    + rewrite lookup_insert_ne by done.
      destruct (reps !! y) as [p|] eqn:Hy; [|done].
      apply IH, (Hd y p Hy).
Qed.

(** Linking the representative [r2] below the representative [r1] moves the
    set of [r2] to [r1] and changes nothing else. *)
Lemma rootsTo_link reps r1 r2 :
  descending reps -> reps !! r1 = None -> reps !! r2 = None ->
  getID r1 < getID r2 ->
  descending (<[r2 := r1]> reps) /\
  forall y s, rootsTo (<[r2 := r1]> reps) y s <->
              (rootsTo reps y s /\ s <> r2) \/ (rootsTo reps y r2 /\ s = r1).
Proof.
  intros Hd H1 H2 Hlt.
  assert (Hne : r1 <> r2) by (intros ->; unfold getID in Hlt; lia).
  split.
  - intros v p Hv. destruct (decide (r2 = v)) as [->|Hxv].
    + rewrite lookup_insert_eq in Hv. by injection Hv as <-.
    + rewrite lookup_insert_ne in Hv by done. eauto.
  - intros y. induction (lt_wf y) as [y _ IH]. intros s.
    rewrite (rootsTo_unfold (<[r2:=r1]> reps)), !(rootsTo_unfold reps y).
    destruct (decide (r2 = y)) as [->|Hxy].
    + rewrite lookup_insert_eq, H2.
      rewrite rootsTo_unfold, lookup_insert_ne, H1 by done.
      split; [intros ->; by right|]. intros [[-> ?]|[_ ->]]; done.
    + rewrite lookup_insert_ne by done.
      destruct (reps !! y) as [p|] eqn:Hy.
      * apply IH, (Hd y p Hy).
      * split; [intros ->; left; split; [done|congruence]|].
        intros [[-> _]|[-> _]]; done.
Qed.

Lemma findRepresentative_spec fuel x reps r reps' :
  descending reps ->
  findRepresentative fuel x reps = Done (r, reps') ->
  descending reps' /\ rootsTo reps x r /\
  (forall y s, rootsTo reps' y s <-> rootsTo reps y s) /\
  (forall y, is_Some (reps' !! y) <-> is_Some (reps !! y)).
Proof.
  revert x reps r reps'.
  induction fuel as [|fuel IH]; intros x reps r reps' Hd Hrun; simpl in Hrun.
  - destruct (reps !! x) as [p|] eqn:Hx; [done|]. injection Hrun as <- <-.
    split; [done|]. split; [by apply rootsTo_here|]. done.
  - destruct (reps !! x) as [p|] eqn:Hx.
    2:{ injection Hrun as <- <-.
        split; [done|]. split; [by apply rootsTo_here|]. done. }
    apply bind_Done in Hrun as ([r1 reps1] & Hfind & Hrun).
    injection Hrun as <- <-.
    destruct (IH p reps r1 reps1 Hd Hfind) as (Hd1 & Hp & Hsame & Hdom).
    assert (Hxr : rootsTo reps x r1) by (by apply (rootsTo_step reps x p)).
    case_bool_decide as Hne; [|done].
    assert (Hxne : x <> r1).
    { intros ->. apply rootsTo_root in Hxr. congruence. }
    destruct (rootsTo_compress reps1 x r1 Hd1) as [Hd2 Hsame2];
      [by apply Hsame|done|].
    split; [done|]. split; [done|]. split.
    + intros y s. by rewrite Hsame2.
    + intros y. rewrite <- Hdom. destruct (decide (x = y)) as [->|Hxy].
      * rewrite lookup_insert_eq. split; [|by eexists].
        intros _. apply Hdom. by rewrite Hx.
      * by rewrite lookup_insert_ne.
Qed.

Lemma findRepresentative_total fuel x reps :
  descending reps -> getID x < fuel ->
  exists r reps', findRepresentative fuel x reps = Done (r, reps').
Proof.
  revert x. induction fuel as [|fuel IH]; intros x Hd Hlt;
    [unfold getID in Hlt; lia|].
  simpl. destruct (reps !! x) as [p|] eqn:Hx; [|eauto].
  destruct (IH p Hd) as (r & reps' & ->).
  - specialize (Hd x p Hx). unfold getID in *. lia.
  - simpl. eauto.
Qed.

Lemma unionSets_Done fuel a b reps flag reps' :
  descending reps ->
  unionSets fuel a b reps = Done (flag, reps') ->
  exists r1 r2 reps2,
    descending reps2 /\
    (forall y s, rootsTo reps2 y s <-> rootsTo reps y s) /\
    rootsTo reps a r1 /\ rootsTo reps b r2 /\
    ((r1 = r2 /\ flag = false /\ reps' = reps2) \/
     (r1 <> r2 /\ flag = true /\
      reps' = <[Nat.max r1 r2 := Nat.min r1 r2]> reps2)).
Proof.
  intros Hd Hrun. unfold unionSets in Hrun.
  apply bind_Done in Hrun as ([r1 reps1] & F1 & Hrun).
  apply bind_Done in Hrun as ([r2 reps2] & F2 & Hrun).
  destruct (findRepresentative_spec _ _ _ _ _ Hd F1) as (Hd1 & Ha & S1 & _).
  destruct (findRepresentative_spec _ _ _ _ _ Hd1 F2) as (Hd2 & Hb & S2 & _).
  exists r1, r2, reps2. split; [done|]. split.
  { intros y s. by rewrite S2, S1. }
  split; [done|]. split; [by apply S1|].
  case_bool_decide as Heq.
  - injection Hrun as <- <-. by left.
  - right. split; [done|]. unfold getID in Hrun.
    case_bool_decide as Hlt; injection Hrun as <- <-; split; try done.
    + by rewrite Nat.max_r, Nat.min_l by lia.
    + by rewrite Nat.max_l, Nat.min_r by lia.
Qed.

Lemma unionSets_spec fuel a b reps flag reps' :
  descending reps ->
  unionSets fuel a b reps = Done (flag, reps') ->
  descending reps' /\
  (flag = false <-> sameSet reps a b) /\
  (forall x y, sameSet reps' x y <->
     sameSet reps x y \/ (sameSet reps x a /\ sameSet reps b y) \/
     (sameSet reps x b /\ sameSet reps a y)).
Proof.
  intros Hd Hrun.
  destruct (unionSets_Done fuel a b reps flag reps' Hd Hrun)
    as (r1 & r2 & reps2 & Hd2 & Hsame & Ha & Hb & Hcase).
  assert (Hset : forall x y, sameSet reps2 x y <-> sameSet reps x y).
  { intros x y. unfold sameSet. by setoid_rewrite Hsame. }
  destruct Hcase as [(-> & -> & ->)|(Hne & -> & ->)].
  - split; [done|]. split; [split; [intros _; by exists r2|done]|].
    intros x y. rewrite Hset. split; [auto|].
    assert (Hab : sameSet reps a b) by (by exists r2).
    intros [H|[[H1 H2]|[H1 H2]]]; [done| |].
    + apply (sameSet_trans reps x a); [done|].
      by apply (sameSet_trans reps a b).
    + apply (sameSet_trans reps x b); [done|].
      apply (sameSet_trans reps b a); [by apply sameSet_sym|done].
  - set (lo := Nat.min r1 r2). set (hi := Nat.max r1 r2).
    assert (Hlo : reps2 !! lo = None).
    { apply (rootsTo_root reps2 lo). apply Hsame.
      apply rootsTo_here. unfold lo.
      destruct (Nat.min_spec r1 r2) as [[_ ->]|[_ ->]];
        [apply (rootsTo_root reps a)|apply (rootsTo_root reps b)]; done. }
    assert (Hhi : reps2 !! hi = None).
    { apply (rootsTo_root reps2 hi). apply Hsame.
      apply rootsTo_here. unfold hi.
      destruct (Nat.max_spec r1 r2) as [[_ ->]|[_ ->]];
        [apply (rootsTo_root reps b)|apply (rootsTo_root reps a)]; done. }
    destruct (rootsTo_link reps2 lo hi Hd2 Hlo Hhi) as [Hd' Hlink];
      [unfold getID, lo, hi; lia|].
    split; [done|]. split.
    { split; [done|]. intros (r & Ha' & Hb'). exfalso. apply Hne.
      rewrite (rootsTo_functional reps a r1 r Ha Ha').
      by rewrite (rootsTo_functional reps b r2 r Hb Hb'). }
    assert (Hroots : forall x s, rootsTo (<[hi:=lo]> reps2) x s <->
              (rootsTo reps x s /\ s <> hi) \/ (rootsTo reps x hi /\ s = lo)).
    { intros x s. rewrite Hlink. by rewrite !Hsame. }
    assert (Hends : (lo = r1 /\ hi = r2) \/ (lo = r2 /\ hi = r1)).
    { unfold lo, hi. lia. }
    assert (Hlohi : lo <> hi) by (unfold lo, hi; lia).
    assert (Hto : forall x r, rootsTo reps x r ->
              forall s, rootsTo reps x s <-> s = r).
    { intros x r Hx s. split; [|by intros ->].
      intros Hs. by apply (rootsTo_functional reps x). }
    assert (Hin : forall x y rx ry, rootsTo reps x rx -> rootsTo reps y ry ->
              (sameSet reps x y <-> rx = ry)).
    { intros x y rx ry Hx Hy. split.
      - intros (s & H1 & H2).
        rewrite (rootsTo_functional reps x rx s Hx H1).
        by rewrite (rootsTo_functional reps y ry s Hy H2).
      - intros ->. by exists ry. }
    intros x y. unfold sameSet at 1. setoid_rewrite Hroots.
    destruct (rootsTo_exists reps x Hd) as [rx Hx].
    destruct (rootsTo_exists reps y Hd) as [ry Hy].
    rewrite (Hin x y rx ry Hx Hy), (Hin x a rx r1 Hx Ha),
      (Hin b y r2 ry Hb Hy), (Hin x b rx r2 Hx Hb), (Hin a y r1 ry Ha Hy).
    setoid_rewrite (Hto x rx Hx). setoid_rewrite (Hto y ry Hy).
    split.
    + intros (s & Hs1 & Hs2). lia.
    + intros Hcases.
      destruct (decide (rx = hi)) as [Hrx|Hrx];
        destruct (decide (ry = hi)) as [Hry|Hry].
      * exists lo. lia.
      * exists lo. lia.
      * exists lo. lia.
      * exists rx. lia.
Qed.

(** The sets only join variables that the relation [E] connects. *)
Definition sound (E : relation TypeVariableType)
    (reps : gmap TypeVariableType TypeVariableType) : Prop :=
  descending reps /\ forall x y, sameSet reps x y -> rtsc E x y.

(** The sets of [reps'] contain those of [reps]. *)
Definition coarser (reps reps' : gmap TypeVariableType TypeVariableType)
  : Prop :=
  forall x y, sameSet reps x y -> sameSet reps' x y.

Lemma coarser_refl reps : coarser reps reps.
Proof. by intros x y. Qed.

Lemma coarser_trans r1 r2 r3 : coarser r1 r2 -> coarser r2 r3 -> coarser r1 r3.
Proof. intros H1 H2 x y H. auto. Qed.

Lemma rtsc_trans' {A} (R : relation A) x y z :
  rtsc R x y -> rtsc R y z -> rtsc R x z.
Proof. intros H1 H2. by etrans. Qed.

Lemma rtsc_sym' {A} (R : relation A) x y : rtsc R x y -> rtsc R y x.
Proof. intros H. by symmetry. Qed.

Lemma sound_find E fuel x reps r reps' :
  sound E reps -> findRepresentative fuel x reps = Done (r, reps') ->
  sound E reps' /\ rootsTo reps' x r /\
  (forall y s, rootsTo reps' y s <-> rootsTo reps y s).
Proof.
  intros [Hd Hs] Hrun.
  destruct (findRepresentative_spec fuel x reps r reps' Hd Hrun)
    as (Hd' & Hx & Hsame & _).
  split; [|split; [by apply Hsame|done]].
  split; [done|]. intros a b (s & Ha & Hb). apply Hs. exists s.
  split; by apply Hsame.
Qed.

Lemma sameSet_find reps reps' :
  (forall y s, rootsTo reps' y s <-> rootsTo reps y s) ->
  forall x y, sameSet reps' x y <-> sameSet reps x y.
Proof. intros H x y. unfold sameSet. by setoid_rewrite H. Qed.

Lemma sound_union E fuel a b reps flag reps' :
  sound E reps -> rtsc E a b ->
  unionSets fuel a b reps = Done (flag, reps') ->
  sound E reps' /\ coarser reps reps' /\ sameSet reps' a b.
Proof.
  intros [Hd Hs] Hab Hrun.
  destruct (unionSets_spec fuel a b reps flag reps' Hd Hrun)
    as (Hd' & _ & Hset).
  split; [split; [done|]|split].
  - intros x y Hxy. apply Hset in Hxy as [H|[[H1 H2]|[H1 H2]]]; [auto| |].
    + apply (rtsc_trans' E x a); [auto|].
      apply (rtsc_trans' E a b); auto.
    + apply (rtsc_trans' E x b); [auto|].
      apply (rtsc_trans' E b a); [by apply rtsc_sym'|auto].
  - intros x y H. apply Hset. by left.
  - apply Hset. right. left. split; by apply sameSet_refl.
Qed.

Lemma unionLoop_spec E fuel tv l :
  forall flag reps flag' reps',
    sound E reps -> (forall o, o ∈ l -> rtsc E tv o) ->
    forEach (unionStep fuel tv) l (flag, reps) = Done (flag', reps') ->
    sound E reps' /\ coarser reps reps' /\
    forall o, o ∈ l -> sameSet reps' tv o.
Proof.
  induction l as [|o l IH]; intros flag reps flag' reps' Hs HE Hrun;
    simpl in Hrun.
  { injection Hrun as <- <-. split; [done|]. split; [apply coarser_refl|].
    intros o Ho. by apply elem_of_nil in Ho. }
  apply bind_Done in Hrun as ([f1 reps1] & Hstep & Hrun).
  unfold unionStep in Hstep. simpl in Hstep.
  apply bind_Done in Hstep as ([u reps1'] & Hu & Hstep).
  injection Hstep as <- <-.
  destruct (sound_union E fuel tv o reps u reps1' Hs) as (Hs1 & Hc1 & Ho);
    [apply HE; set_solver|done|].
  destruct (IH _ _ _ _ Hs1 (fun o' Ho' => HE o' ltac:(set_solver)) Hrun)
    as (Hs' & Hc' & Hall).
  split; [done|]. split; [by apply (coarser_trans reps reps1')|].
  intros o' Ho'. apply elem_of_cons in Ho' as [->|Ho']; auto.
Qed.

Lemma unionSetsViaConstraint_spec E cs fuel c reps flag reps' :
  sound E reps ->
  (forall a b, a ∈ getTypeVariables cs c -> b ∈ getTypeVariables cs c ->
               rtsc E a b) ->
  unionSetsViaConstraint cs fuel c reps = Done (flag, reps') ->
  sound E reps' /\ coarser reps reps' /\
  forall a b, a ∈ getTypeVariables cs c -> b ∈ getTypeVariables cs c ->
              sameSet reps' a b.
Proof.
  intros Hs HE Hrun. unfold unionSetsViaConstraint in Hrun.
  destruct (getTypeVariables cs c) as [|tv [|o rest]] eqn:Hv.
  - injection Hrun as <- <-. split; [done|]. split; [apply coarser_refl|].
    intros a b Ha. by apply elem_of_nil in Ha.
  - injection Hrun as <- <-. split; [done|]. split; [apply coarser_refl|].
    intros a b Ha Hb. apply list_elem_of_singleton in Ha, Hb. subst.
    apply sameSet_refl, Hs.
  - assert (Hto : forall o', o' ∈ o :: rest -> rtsc E tv o').
    { intros o' Ho'. apply HE; set_solver. }
    destruct (unionLoop_spec E fuel tv (o :: rest) _ _ _ _ Hs Hto Hrun)
      as (Hs' & Hc' & Hall).
    split; [done|]. split; [done|].
    assert (Htv : forall a, a ∈ tv :: o :: rest -> sameSet reps' tv a).
    { intros a Ha. apply elem_of_cons in Ha as [->|Ha]; [|auto].
      apply sameSet_refl, Hs'. }
    intros a b Ha Hb. apply (sameSet_trans reps' a tv b); [|auto].
    apply sameSet_sym. auto.
Qed.

(** ** The sets of [connectedComponents]

    The graph [g] has a node for every input variable and for the
    representative of each; the lookups of the engine then leave the graph
    alone, up to the filling-in of equivalence classes. *)

(** The edges that the engine unions along: from an input variable to the
    members of its representative's equivalence class and to its fixed
    bindings, and between the variables that a constraint of an input
    variable mentions. *)
Definition adjacent (cs : ConstraintSystem) (g : ConstraintGraph)
    (inputTypeVars : list TypeVariableType) : relation TypeVariableType :=
  fun a b => exists v, v ∈ inputTypeVars /\
    ((a = v /\ b ∈ classOf g (getRepresentative cs v)) \/
     (a = v /\ b ∈ fixedBindingsOf g v) \/
     (exists c, c ∈ constraintsOf g v /\ a ∈ getTypeVariables cs c /\
                b ∈ getTypeVariables cs c)).

Section ComponentsProof.

Context (cs : ConstraintSystem) (fuel : nat).
Context (V : list TypeVariableType) (g : ConstraintGraph).
Hypothesis nodesOfV : forall v, v ∈ V ->
  hasNode g v /\ hasNode g (getRepresentative cs v).

Local Notation E := (adjacent cs g V).

Lemma ccUnionLoop_spec tv l :
  forall cc cc',
    sound E (representatives cc) -> (forall o, o ∈ l -> rtsc E tv o) ->
    forEach (ccUnion fuel tv) l cc = Done cc' ->
    cg cc' = cg cc /\ oneWayDigraph cc' = oneWayDigraph cc /\
    sound E (representatives cc') /\
    coarser (representatives cc) (representatives cc') /\
    forall o, o ∈ l -> sameSet (representatives cc') tv o.
Proof using All.
  induction l as [|o l IH]; intros cc cc' Hs HE Hrun; simpl in Hrun.
  { injection Hrun as <-. split; [done|]. split; [done|]. split; [done|].
    split; [apply coarser_refl|]. intros o Ho. by apply elem_of_nil in Ho. }
  apply bind_Done in Hrun as (cc1 & Hstep & Hrun).
  unfold ccUnion in Hstep.
  apply bind_Done in Hstep as ([u reps1] & Hu & Hstep). injection Hstep as <-.
  destruct (sound_union E fuel tv o _ u reps1 Hs) as (Hs1 & Hc1 & Ho);
    [apply HE; set_solver|done|].
  destruct (IH (setRepresentatives cc reps1) cc' Hs1
              (fun o' Ho' => HE o' ltac:(set_solver)) Hrun)
    as (Hg & Hdg & Hs' & Hc' & Hall).
  split; [done|]. split; [done|]. split; [done|].
  split; [by apply (coarser_trans _ reps1)|].
  intros o' Ho'. apply elem_of_cons in Ho' as [->|Ho']; auto.
Qed.

(** What the loops of [connectedComponents] keep. *)
Record CCInv (st : CCLoop) : Prop := {
  cc_graph : sameGraph g (cg (ccState st));
  cc_sound : sound E (representatives (ccState st));
  cc_visited : forall c, c ∈ ccVisited st ->
    (exists v, v ∈ V /\ c ∈ constraintsOf g v) /\
    if isOneWay (getKind cs c) then c ∈ oneWayConstraints st
    else forall a b, a ∈ getTypeVariables cs c -> b ∈ getTypeVariables cs c ->
                     sameSet (representatives (ccState st)) a b;
  cc_oneWay : forall c, c ∈ oneWayConstraints st ->
    c ∈ ccVisited st /\ isOneWay (getKind cs c) = true;
}.

Definition ccExtends (st st' : CCLoop) : Prop :=
  coarser (representatives (ccState st)) (representatives (ccState st')) /\
  ccVisited st ⊆ ccVisited st'.

Lemma ccExtends_refl st : ccExtends st st.
Proof using All. split; [apply coarser_refl|done]. Qed.

Lemma ccExtends_trans s1 s2 s3 :
  ccExtends s1 s2 -> ccExtends s2 s3 -> ccExtends s1 s3.
Proof using All.
  intros [C1 V1] [C2 V2]. split; [by apply (coarser_trans _ _ _ C1)|set_solver].
Qed.

(** The input variable [v] has been dealt with. *)
Definition ccProcessed (v : TypeVariableType) (st : CCLoop) : Prop :=
  (forall m, m ∈ classOf g (getRepresentative cs v) ->
             sameSet (representatives (ccState st)) v m) /\
  (forall b, b ∈ fixedBindingsOf g v ->
             sameSet (representatives (ccState st)) v b) /\
  (forall c, c ∈ constraintsOf g v -> c ∈ ccVisited st).

Lemma ccProcessed_extends v st st' :
  ccExtends st st' -> ccProcessed v st -> ccProcessed v st'.
Proof using All.
  intros [C HV] (H1 & H2 & H3). split; [|split]; auto.
Qed.

Lemma adjacent_constraint v c a b :
  v ∈ V -> c ∈ constraintsOf g v ->
  a ∈ getTypeVariables cs c -> b ∈ getTypeVariables cs c -> rtsc E a b.
Proof using All.
  intros Hv Hc Ha Hb. apply rtsc_lr. exists v. split; [done|].
  right. right. by exists c.
Qed.

Lemma ccConstraint_spec c st st' :
  CCInv st -> (exists v, v ∈ V /\ c ∈ constraintsOf g v) ->
  ccConstraint cs fuel c st = Done st' ->
  CCInv st' /\ ccExtends st st' /\ c ∈ ccVisited st'.
Proof using All.
  intros [Hg Hs Hvis Hone] (v & Hv & Hc) Hrun. unfold ccConstraint in Hrun.
  case_bool_decide as Hin.
  { injection Hrun as <-. split; [by split|]. split; [apply ccExtends_refl|done]. }
  destruct (isOneWay (getKind cs c)) eqn:Hk.
  - injection Hrun as <-. split; [split; simpl; try done|].
    + intros c' Hc'. apply elem_of_union in Hc' as [Hc'|Hc'].
      * apply elem_of_singleton in Hc'. subst c'. split; [eauto|].
        rewrite Hk. set_solver.
      * destruct (Hvis c' Hc') as [H1 H2]. split; [done|].
        destruct (isOneWay (getKind cs c')); [set_solver|done].
    + intros c' Hc'. apply elem_of_app in Hc' as [Hc'|Hc'].
      * destruct (Hone c' Hc'). split; [set_solver|done].
      * apply list_elem_of_singleton in Hc'. subst c'. split; [set_solver|done].
    + split; [split; [apply coarser_refl|simpl; set_solver]|simpl; set_solver].
  - apply bind_Done in Hrun as ([f reps1] & Hu & Hrun). injection Hrun as <-.
    destruct (unionSetsViaConstraint_spec E cs fuel c _ f reps1 Hs)
      as (Hs1 & Hc1 & Hall); [|done|].
    { intros a b Ha Hb. by apply (adjacent_constraint v c). }
    split; [split; simpl; try done|].
    + intros c' Hc'. apply elem_of_union in Hc' as [Hc'|Hc'].
      * apply elem_of_singleton in Hc'. subst c'. split; [eauto|].
        by rewrite Hk.
      * destruct (Hvis c' Hc') as [H1 H2]. split; [done|].
        destruct (isOneWay (getKind cs c')); [done|]. auto.
    + intros c' Hc'. destruct (Hone c' Hc'). split; [set_solver|done].
    + split; [split; [done|simpl; set_solver]|simpl; set_solver].
Qed.

Lemma ccConstraintLoop_spec l :
  forall st st',
    CCInv st -> (forall c, c ∈ l -> exists v, v ∈ V /\ c ∈ constraintsOf g v) ->
    forEach (ccConstraint cs fuel) l st = Done st' ->
    CCInv st' /\ ccExtends st st' /\ forall c, c ∈ l -> c ∈ ccVisited st'.
Proof using All.
  induction l as [|c l IH]; intros st st' Hinv Hl Hrun; simpl in Hrun.
  { injection Hrun as <-. split; [done|]. split; [apply ccExtends_refl|].
    intros c Hc. by apply elem_of_nil in Hc. }
  apply bind_Done in Hrun as (st1 & Hstep & Hrun).
  destruct (ccConstraint_spec c st st1 Hinv (Hl c ltac:(set_solver)) Hstep)
    as (I1 & X1 & Hc).
  destruct (IH st1 st' I1 (fun c' Hc' => Hl c' ltac:(set_solver)) Hrun)
    as (I' & X' & Hall).
  split; [done|]. split; [by apply (ccExtends_trans st st1)|].
  intros c' Hc'. apply elem_of_cons in Hc' as [->|Hc']; [|auto].
  by apply X'.
Qed.

Lemma ccTypeVar_spec v st st' :
  CCInv st -> v ∈ V -> ccTypeVar cs fuel v st = Done st' ->
  CCInv st' /\ ccExtends st st' /\ ccProcessed v st'.
Proof using All.
  intros [Hg Hs Hvis Hone] Hv Hrun. unfold ccTypeVar in Hrun.
  destruct (nodesOfV v Hv) as [Hnv Hnr].
  apply bind_Done in Hrun as ([i1 g1] & L1 & Hrun).
  assert (Hnr' : hasNode (cg (ccState st)) (getRepresentative cs v))
    by (by apply (sameGraph_hasNode g _ _ Hg)).
  apply (lookupNode_existing_inv _ _ _ _ _ _ Hnr') in L1 as [-> _].
  apply bind_Done in Hrun as ([ec g2] & Hec & Hrun).
  apply getEquivalenceClass_same in Hec as [-> Hg2].
  rewrite <- (sameGraph_classOf g _ _ Hg) in Hrun.
  assert (Hg2' : sameGraph g g2)
    by (by apply (sameGraph_trans g (cg (ccState st)) g2)).
  apply bind_Done in Hrun as (cc1 & U1 & Hrun).
  assert (HE1 : forall m, m ∈ classOf g (getRepresentative cs v) ->
                          rtsc E v m).
  { intros m Hm. apply rtsc_lr. exists v. split; [done|]. by left. }
  destruct (ccUnionLoop_spec v _ (setCg (ccState st) g2) cc1 Hs HE1 U1)
    as (Hcg1 & _ & Hs1 & Hc1 & Hall1).
  simpl in Hcg1.
  apply bind_Done in Hrun as ([i3 g3] & L3 & Hrun).
  rewrite Hcg1 in L3.
  assert (Hnv' : hasNode g2 v) by (by apply (sameGraph_hasNode g _ _ Hg2')).
  apply (lookupNode_existing_inv _ _ _ _ _ _ Hnv') in L3 as [-> _].
  apply bind_Done in Hrun as (fb & Hfb & Hrun).
  apply getFixedBindings_Done in Hfb as [_ ->].
  rewrite <- (sameGraph_fixedBindingsOf g _ _ Hg2') in Hrun.
  apply bind_Done in Hrun as (cc2 & U2 & Hrun).
  assert (HE2 : forall b, b ∈ fixedBindingsOf g v -> rtsc E v b).
  { intros b Hb. apply rtsc_lr. exists v. split; [done|]. right. by left. }
  destruct (ccUnionLoop_spec v _ (setCg cc1 g2) cc2 Hs1 HE2 U2)
    as (Hcg2 & _ & Hs2 & Hc2 & Hall2).
  simpl in Hcg2, Hc2.
  apply bind_Done in Hrun as (ncs & Hncs & Hrun).
  apply getConstraints_Done in Hncs as [_ ->].
  rewrite <- (sameGraph_constraintsOf g _ _ Hg2') in Hrun.
  assert (Hc12 : coarser (representatives (ccState st)) (representatives cc2))
    by (by apply (coarser_trans _ (representatives cc1))).
  set (st2 := {| oneWayConstraints := oneWayConstraints st;
                 ccVisited := ccVisited st; ccState := cc2 |}) in Hrun.
  assert (I2 : CCInv st2).
  { split; simpl; try done.
    - by rewrite Hcg2.
    - intros c Hc. destruct (Hvis c Hc) as [H1 H2]. split; [done|].
      destruct (isOneWay (getKind cs c)); [done|]. auto. }
  assert (Hfrom : forall c, c ∈ constraintsOf g v ->
                            exists u, u ∈ V /\ c ∈ constraintsOf g u)
    by eauto.
  destruct (ccConstraintLoop_spec _ st2 st' I2 Hfrom Hrun)
    as (I' & [X1 X2] & Hall).
  split; [done|]. split.
  - split; [by apply (coarser_trans _ (representatives cc2))|done].
  - split; [|split; [|done]].
    + intros m Hm. apply X1. simpl. apply Hc2. auto.
    + intros b Hb. apply X1. simpl. auto.
Qed.

Lemma connectedComponents_spec cc oneWay cc' :
  sameGraph g (cg cc) -> representatives cc = ∅ ->
  connectedComponents cs fuel V cc = Done (oneWay, cc') ->
  exists st, oneWay = oneWayConstraints st /\ cc' = ccState st /\
    CCInv st /\ forall v, v ∈ V -> ccProcessed v st.
Proof using All.
  intros Hg Hempty Hrun. unfold connectedComponents in Hrun.
  apply bind_Done in Hrun as (st & Hloop & Hrun). injection Hrun as <- <-.
  exists st. split; [done|]. split; [done|].
  set (st0 := {| oneWayConstraints := []; ccVisited := ∅; ccState := cc |})
    in Hloop.
  assert (I0 : CCInv st0).
  { split; simpl; try done.
    - rewrite Hempty. split.
      + intros v p Hp. by rewrite lookup_empty in Hp.
      + intros x y (r & Hx & Hy).
        apply rootsTo_unfold in Hx, Hy. rewrite lookup_empty in Hx, Hy.
        by subst.
    - intros c Hc. by apply elem_of_nil in Hc. }
  cut (CCInv st /\ forall v, v ∈ V -> ccProcessed v st); [done|].
  eapply (forEach_prefix_invariant
            (fun pre s => CCInv s /\
               (forall v, v ∈ pre -> v ∈ V /\ ccProcessed v s) /\
               (pre `prefix_of` V))) in Hloop.
  - destruct Hloop as (I & HP & _). split; [done|]. intros v Hv.
    by apply HP.
  - split; [done|]. split; [|apply prefix_nil].
    intros v Hv. by apply elem_of_nil in Hv.
  - intros pre v s1 s2 Hpre (I1 & HP & _) Hstep.
    assert (Hv : v ∈ V).
    { destruct Hpre as [k ->]. set_solver. }
    destruct (ccTypeVar_spec v s1 s2 I1 Hv Hstep) as (I2 & X & P).
    split; [done|]. split; [|done].
    intros u Hu. apply elem_of_app in Hu as [Hu|Hu].
    + destruct (HP u Hu). split; [done|].
      by apply (ccProcessed_extends u s1 s2).
    + apply list_elem_of_singleton in Hu. by subst.
Qed.

(** [reps'] is [reps] with some paths compressed. *)
Definition compressed (reps reps' : gmap TypeVariableType TypeVariableType)
  : Prop :=
  descending reps' /\ forall y s, rootsTo reps' y s <-> rootsTo reps y s.

Lemma compressed_refl reps : descending reps -> compressed reps reps.
Proof using Type. by split. Qed.

Lemma compressed_trans r1 r2 r3 :
  compressed r1 r2 -> compressed r2 r3 -> compressed r1 r3.
Proof using Type.
  intros [D1 S1] [D2 S2]. split; [done|]. intros y s. by rewrite S2, S1.
Qed.

Lemma compressed_find fuel' x reps r reps' :
  descending reps -> findRepresentative fuel' x reps = Done (r, reps') ->
  compressed reps reps' /\ rootsTo reps x r.
Proof using Type.
  intros Hd Hrun.
  destruct (findRepresentative_spec fuel' x reps r reps' Hd Hrun)
    as (Hd' & Hx & Hsame & _). by split.
Qed.

Lemma compressed_sameSet reps reps' x y :
  compressed reps reps' -> sameSet reps' x y <-> sameSet reps x y.
Proof using Type. intros [_ H]. by apply sameSet_find. Qed.

Lemma compressed_sound R reps reps' :
  sound R reps -> compressed reps reps' -> sound R reps'.
Proof using Type.
  intros [Hd Hs] Hc. split; [apply Hc|]. intros x y Hxy. apply Hs.
  by apply (compressed_sameSet reps reps').
Qed.

Lemma getRepresentativesInType_compressed type reps l reps' :
  descending reps ->
  getRepresentativesInType fuel type reps = Done (l, reps') ->
  compressed reps reps'.
Proof using Type.
  intros Hd Hrun. unfold getRepresentativesInType in Hrun.
  apply (forEach_invariant (fun st => compressed reps st.2)) in Hrun;
    [done|by apply compressed_refl|].
  intros x [l1 r1] [l2 r2] _ Hc Hstep. unfold repInTypeStep in Hstep.
  simpl in *. apply bind_Done in Hstep as ([r r2'] & Hf & Hstep).
  injection Hstep as <- <-.
  apply (compressed_trans reps r1); [done|].
  by destruct (compressed_find fuel x r1 r r2' (proj1 Hc) Hf).
Qed.

Lemma buildOneWayConstraintGraph_compressed oneWay cc cc' :
  descending (representatives cc) ->
  buildOneWayConstraintGraph cs fuel V oneWay cc = Done cc' ->
  cg cc' = cg cc /\ compressed (representatives cc) (representatives cc').
Proof using Type.
  intros Hd Hrun. unfold buildOneWayConstraintGraph in Hrun.
  apply bind_Done in Hrun as (cc1 & H1 & H2).
  pose (Q := fun s : ConnectedComponents =>
               cg s = cg cc /\
               compressed (representatives cc) (representatives s)).
  assert (Q0 : Q cc) by (split; [done|by apply compressed_refl]).
  assert (Q1 : Q cc1).
  { apply (forEach_invariant Q _ _ _ _ Q0) in H1; [done|].
    intros c s1 s2 _ [Hg Hc] Hstep. unfold oneWayEdgesStep in Hstep.
    apply bind_Done in Hstep as ([l1 r1] & G1 & Hstep).
    apply bind_Done in Hstep as ([l2 r2] & G2 & Hstep).
    injection Hstep as <-. split; [done|]. simpl.
    apply getRepresentativesInType_compressed in G1; [|apply Hc].
    apply getRepresentativesInType_compressed in G2; [|apply G1].
    apply (compressed_trans _ (representatives s1)); [done|].
    by apply (compressed_trans _ r1). }
  apply (forEach_invariant Q _ _ _ _ Q1) in H2; [done|].
  intros v s1 s2 _ [Hg Hc] Hstep. unfold placeTypeVarStep in Hstep.
  apply bind_Done in Hstep as ([r r1] & F & Hstep).
  apply compressed_find in F as [F _]; [|apply Hc].
  assert (Hc' : compressed (representatives cc) r1)
    by (by apply (compressed_trans _ (representatives s1))).
  destruct (oneWayDigraph s1 !! r); injection Hstep as <-; by split.
Qed.

(** The sets that the constructor of [ConnectedComponents] leaves are the
    classes of the closure of [adjacent]. *)
Lemma sameSet_adjacent reps :
  descending reps -> (forall a b, E a b -> sameSet reps a b) ->
  forall x y, rtsc E x y -> sameSet reps x y.
Proof using Type.
  intros Hd HE x y Hxy. induction Hxy as [x|x y z Hxy _ IH].
  - by apply sameSet_refl.
  - apply (sameSet_trans reps x y z); [|done].
    destruct Hxy as [Hxy|Hxy]; [auto|]. apply sameSet_sym. auto.
Qed.

Lemma makeConnectedComponents_spec cc :
  makeConnectedComponents cs fuel V g = Done cc ->
  sameGraph g (cg cc) /\ descending (representatives cc) /\
  forall x y, sameSet (representatives cc) x y <-> rtsc E x y.
Proof using All.
  intros Hrun. unfold makeConnectedComponents in Hrun.
  apply bind_Done in Hrun as ([oneWay cc1] & Hcc & Hrun).
  apply connectedComponents_spec in Hcc
    as (st & -> & -> & [Hg Hs Hvis Hone] & HP); [|apply sameGraph_refl|done].
  assert (Hcomplete : forall reps',
            coarser (representatives (ccState st)) reps' ->
            (forall c, c ∈ oneWayConstraints st ->
               forall a b, a ∈ getTypeVariables cs c ->
                           b ∈ getTypeVariables cs c -> sameSet reps' a b) ->
            forall a b, E a b -> sameSet reps' a b).
  { intros reps' Hc Hw a b (v & Hv & Hab). destruct (HP v Hv) as (P1 & P2 & P3).
    destruct Hab as [[-> Hb]|[[-> Hb]|(c & Hc' & Ha & Hb)]]; [auto|auto|].
    destruct (Hvis c (P3 c Hc')) as [_ Hk].
    destruct (isOneWay (getKind cs c)); [by apply (Hw c)|auto]. }
  destruct (oneWayConstraints st) as [|c0 rest] eqn:Hone'.
  - injection Hrun as <-. split; [done|]. split; [apply Hs|].
    intros x y. split; [apply Hs|].
    apply sameSet_adjacent; [apply Hs|].
    apply Hcomplete; [apply coarser_refl|].
    intros c Hc. by apply elem_of_nil in Hc.
  - apply bind_Done in Hrun as (cc2 & Hbuild & Hrun).
    apply buildOneWayConstraintGraph_compressed in Hbuild as [Hg2 Hc2];
      [|apply Hs].
    pose (Q := fun (pre : list Constraint) (s : ConnectedComponents) =>
       cg s = cg cc2 /\ sound E (representatives s) /\
       coarser (representatives cc2) (representatives s) /\
       forall c, c ∈ pre -> forall a b, a ∈ getTypeVariables cs c ->
         b ∈ getTypeVariables cs c -> sameSet (representatives s) a b).
    apply (forEach_prefix_invariant Q) in Hrun.
    + destruct Hrun as (Hg' & Hs' & Hc' & Hall).
      split; [by rewrite Hg', Hg2|]. split; [apply Hs'|].
      intros x y. split; [apply Hs'|].
      apply sameSet_adjacent; [apply Hs'|].
      apply Hcomplete; [|done].
      intros a b Hab. apply Hc'.
      by apply (compressed_sameSet (representatives (ccState st))).
    + split; [done|]. split; [by apply (compressed_sound E _ _ Hs)|].
      split; [apply coarser_refl|]. intros c Hc. by apply elem_of_nil in Hc.
    + intros pre c s1 s2 Hpre (Hg1 & Hs1 & Hc1 & Hall) Hstep.
      unfold unionViaConstraintStep in Hstep.
      apply bind_Done in Hstep as ([f r1] & Hu & Hstep). injection Hstep as <-.
      assert (Hc' : c ∈ c0 :: rest) by (destruct Hpre as [k ->]; set_solver).
      destruct (Hone c Hc') as [Hcv _].
      destruct (Hvis c Hcv) as [(v & Hv & Hcn) _].
      destruct (unionSetsViaConstraint_spec E cs fuel c _ f r1 Hs1)
        as (Hs2 & Hco & Hnew); [|done|].
      { intros a b Ha Hb. by apply (adjacent_constraint v c). }
      split; [done|]. split; [done|].
      split; [by apply (coarser_trans _ (representatives s1))|].
      intros c' Hc'' a b Ha Hb. apply elem_of_app in Hc'' as [Hc''|Hc''].
      * apply Hco. by apply (Hall c').
      * apply list_elem_of_singleton in Hc''. subst c'. auto.
Qed.

(** *** [getComponents] *)

Lemma unboundLoop_spec reps0 unbound reps1 :
  descending reps0 ->
  forEach (unboundStep cs fuel) V (∅, reps0) = Done (unbound, reps1) ->
  compressed reps0 reps1 /\
  forall r, r ∈ unbound <->
    exists v, v ∈ V /\ getFixedType cs v = None /\ rootsTo reps0 v r.
Proof using All.
  intros Hd Hrun.
  apply (forEach_prefix_invariant
           (fun pre (st : gset nat * gmap nat nat) =>
              compressed reps0 st.2 /\
              forall r, r ∈ st.1 <->
                exists v, v ∈ pre /\ getFixedType cs v = None /\
                          rootsTo reps0 v r)) in Hrun; [done| |].
  - split; [by apply compressed_refl|]. intros r. simpl. split; [set_solver|].
    intros (v & Hv & _). by apply elem_of_nil in Hv.
  - intros pre v [U1 r1] [U2 r2] _ [Hc HU] Hstep. simpl in *.
    unfold unboundStep in Hstep.
    destruct (getFixedType cs v) as [t|] eqn:Hfix.
    + injection Hstep as <- <-. split; [done|]. intros r. rewrite HU.
      split; intros (u & Hu & Hf & Hr); exists u; (split; [|done]).
      * set_solver.
      * apply elem_of_app in Hu as [Hu|Hu]; [done|].
        apply list_elem_of_singleton in Hu. congruence.
    + apply bind_Done in Hstep as ([rep r1'] & F & Hstep).
      injection Hstep as <- <-.
      destruct (compressed_find fuel v r1 rep r1' (proj1 Hc) F) as [Hc' Hrep].
      apply Hc in Hrep.
      split; [by apply (compressed_trans reps0 r1)|]. intros r.
      rewrite elem_of_union, elem_of_singleton, HU. split.
      * intros [->|(u & Hu & Hf & Hr)]; [exists v|exists u]; set_solver.
      * intros (u & Hu & Hf & Hr). apply elem_of_app in Hu as [Hu|Hu].
        -- right. by exists u.
        -- apply list_elem_of_singleton in Hu. subst u. left.
           by apply (rootsTo_functional reps0 v).
Qed.

Lemma assignConstraintLoop_typeVars l known comp known' comp' :
  forEach assignConstraintStep l (known, comp) = Done (known', comp') ->
  typeVars comp' = typeVars comp.
Proof using Type.
  intros Hrun.
  apply (forEach_invariant
           (fun st : gset nat * Component => typeVars st.2 = typeVars comp))
    in Hrun; [done|done|].
  intros c [k1 c1] [k2 c2] _ H1 Hstep. unfold assignConstraintStep in Hstep.
  simpl in *. destruct (bool_decide (c ∈ k1)); by injection Hstep as _ <-.
Qed.

(** What the second loop of [getComponents] keeps, when the variables of
    [pre] have been assigned.  [reps0] is the union-find map and [g1] the
    graph that the constructor left. *)
Record AssignInv (reps0 : gmap TypeVariableType TypeVariableType)
    (g1 : ConstraintGraph) (unbound : gset TypeVariableType)
    (pre : list TypeVariableType) (st : AssignLoop) : Prop := {
  as_graph : cg (assignState st) = g1;
  as_reps : compressed reps0 (representatives (assignState st));
  as_size : size (componentIdxMap st) = length (components st);
  as_range : forall r i,
    componentIdxMap st !! r = Some i -> i < length (components st) /\ r ∈ unbound;
  as_inj : forall r r' i,
    componentIdxMap st !! r = Some i -> componentIdxMap st !! r' = Some i ->
    r = r';
  as_members : forall i comp tv,
    components st !! i = Some comp -> tv ∈ typeVars comp ->
    tv ∈ pre /\ exists r, componentIdxMap st !! r = Some i /\ rootsTo reps0 tv r;
  as_placed : forall v r,
    v ∈ pre -> rootsTo reps0 v r -> r ∈ unbound ->
    exists i comp, componentIdxMap st !! r = Some i /\
                   components st !! i = Some comp /\ v ∈ typeVars comp;
  as_nonempty : forall i comp,
    components st !! i = Some comp -> typeVars comp <> [];
}.

Lemma assignStep_spec reps0 g1 unbound pre v st st' :
  descending reps0 -> hasNode g1 v ->
  AssignInv reps0 g1 unbound pre st ->
  assignStep cs fuel unbound v st = Done st' ->
  AssignInv reps0 g1 unbound (pre ++ [v]) st'.
Proof using All.
  intros Hd0 Hnv [Hg Hc Hsz Hrange Hinj Hmem Hpl Hne] Hrun.
  unfold assignStep in Hrun.
  apply bind_Done in Hrun as ([rep reps] & F & Hrun).
  destruct (compressed_find fuel v _ rep reps (proj1 Hc) F) as [Hc' Hrep].
  apply Hc in Hrep.
  assert (Hcr : compressed reps0 reps)
    by (by apply (compressed_trans reps0 (representatives (assignState st)))).
  case_bool_decide as HU; simpl in Hrun.
  2:{ injection Hrun as <-. split; simpl; try done.
      - intros i comp tv Hi Htv. destruct (Hmem i comp tv Hi Htv) as [H1 H2].
        split; [set_solver|done].
      - intros u r Hu Hr Hin. apply elem_of_app in Hu as [Hu|Hu]; [eauto|].
        apply list_elem_of_singleton in Hu. subst u.
        by rewrite (rootsTo_functional reps0 v r rep Hr Hrep) in Hin. }
  (* The component of [rep], allocated now if need be. *)
  set (sel := match componentIdxMap st !! rep with
              | Some idx => _ | None => _ end) in Hrun.
  assert (Hsel : exists comp0,
            sel.2 !! sel.1.1 = Some comp0 /\
            sel.1.2 !! rep = Some sel.1.1 /\
            size sel.1.2 = length sel.2 /\
            (forall r i, sel.1.2 !! r = Some i ->
                         i < length sel.2 /\ r ∈ unbound) /\
            (forall r r' i, sel.1.2 !! r = Some i -> sel.1.2 !! r' = Some i ->
                            r = r') /\
            (forall i comp tv, sel.2 !! i = Some comp -> tv ∈ typeVars comp ->
               tv ∈ pre /\ exists r, sel.1.2 !! r = Some i /\
                                     rootsTo reps0 tv r) /\
            (forall u r, u ∈ pre -> rootsTo reps0 u r -> r ∈ unbound ->
               exists i comp, sel.1.2 !! r = Some i /\
                              sel.2 !! i = Some comp /\ u ∈ typeVars comp) /\
            (forall i comp, sel.2 !! i = Some comp -> i <> sel.1.1 ->
                            typeVars comp <> [])).
  { unfold sel. destruct (componentIdxMap st !! rep) as [idx|] eqn:Hidx; simpl.
    - destruct (Hrange rep idx Hidx) as [Hlt _].
      destruct (lookup_lt_is_Some_2 _ _ Hlt) as [comp0 Hcomp0].
      exists comp0. split; [done|]. split; [done|]. split; [done|].
      split; [done|]. split; [done|]. split; [done|]. split; [done|].
      intros i comp Hi _. eauto.
    - exists emptyComponent.
      rewrite Hsz. split; [by apply list_lookup_middle|].
      split; [by rewrite lookup_insert_eq|].
      split; [rewrite map_size_insert_None, length_app by done; simpl; lia|].
      assert (Hold : forall r i, componentIdxMap st !! r = Some i ->
                                 i < length (components st) /\ r <> rep).
      { intros r i Hr. split; [by apply (Hrange r i)|]. congruence. }
      split; [|split; [|split; [|split]]].
      + intros r i Hr. rewrite length_app. simpl.
        destruct (decide (rep = r)) as [<-|Hne'].
        * rewrite lookup_insert_eq in Hr. injection Hr as <-. split; [lia|done].
        * rewrite lookup_insert_ne in Hr by done.
          destruct (Hrange r i Hr). split; [lia|done].
      + intros r r' i Hr Hr'.
        destruct (decide (rep = r)) as [<-|Hne1];
          destruct (decide (rep = r')) as [<-|Hne2]; try done.
        * rewrite lookup_insert_eq in Hr. injection Hr as <-.
          rewrite lookup_insert_ne in Hr' by done.
          destruct (Hold r' _ Hr'). lia.
        * rewrite lookup_insert_eq in Hr'. injection Hr' as <-.
          rewrite lookup_insert_ne in Hr by done.
          destruct (Hold r _ Hr). lia.
        * rewrite lookup_insert_ne in Hr, Hr' by done. eauto.
      + intros i comp tv Hi Htv.
        apply lookup_app_Some in Hi as [Hi|[Hlen Hi]].
        * destruct (Hmem i comp tv Hi Htv) as (H1 & r & Hr & Hroot).
          split; [done|]. exists r. split; [|done].
          rewrite lookup_insert_ne; [done|]. congruence.
        * apply list_lookup_singleton_Some in Hi as [_ <-].
          by apply elem_of_nil in Htv.
      + intros u r Hu Hr Hin.
        destruct (Hpl u r Hu Hr Hin) as (i & comp & Hi & Hcomp & Hmem').
        exists i, comp. split; [|split; [by apply lookup_app_l_Some|done]].
        rewrite lookup_insert_ne; [done|]. congruence.
      + intros i comp Hi Hne'.
        apply lookup_app_Some in Hi as [Hi|[Hlen Hi]]; [eauto|].
        apply list_lookup_singleton_Some in Hi as [Hi _]. lia. }
  destruct sel as [[componentIdx idxMap] comps]. simpl in Hsel.
  destruct Hsel as (comp0 & Hc0 & Hrepidx & Hsz' & Hrange' & Hinj' & Hmem'
                    & Hpl' & Hne').
  apply bind_Done in Hrun as (component & Hcomp & Hrun).
  apply fromOption_Done in Hcomp.
  assert (component = comp0) as -> by congruence.
  apply bind_Done in Hrun as ([i g2] & L & Hrun).
  simpl in L. rewrite Hg in L.
  apply (lookupNode_existing_inv _ _ _ _ _ _ Hnv) in L as [-> _].
  apply bind_Done in Hrun as (ncs & _ & Hrun).
  apply bind_Done in Hrun as ([known component'] & Hloop & Hrun).
  injection Hrun as <-.
  apply assignConstraintLoop_typeVars in Hloop. simpl in Hloop.
  assert (Hlt : componentIdx < length comps)
    by (by apply lookup_lt_Some in Hc0).
  split; simpl; try done.
  - by rewrite length_insert.
  - intros r j Hr. rewrite length_insert. by apply Hrange'.
  - intros j comp tv Hj Htv.
    destruct (decide (componentIdx = j)) as [<-|Hnej].
    + rewrite list_lookup_insert_eq in Hj by done. injection Hj as <-.
      rewrite Hloop in Htv. apply elem_of_app in Htv as [Htv|Htv].
      * destruct (Hmem' componentIdx comp0 tv Hc0 Htv) as [H1 H2].
        split; [set_solver|done].
      * apply list_elem_of_singleton in Htv. subst tv.
        split; [set_solver|]. by exists rep.
    + rewrite list_lookup_insert_ne in Hj by done.
      destruct (Hmem' j comp tv Hj Htv) as [H1 H2]. split; [set_solver|done].
  - intros u r Hu Hr Hin. apply elem_of_app in Hu as [Hu|Hu].
    + destruct (Hpl' u r Hu Hr Hin) as (j & comp & Hj & Hcomp' & Hmem'').
      destruct (decide (componentIdx = j)) as [<-|Hnej].
      * exists componentIdx, component'. split; [done|].
        rewrite list_lookup_insert_eq by done. split; [done|].
        rewrite Hloop. assert (comp = comp0) as -> by congruence. set_solver.
      * exists j, comp. split; [done|].
        by rewrite list_lookup_insert_ne.
    + apply list_elem_of_singleton in Hu. subst u.
      rewrite (rootsTo_functional reps0 v r rep Hr Hrep).
      exists componentIdx, component'. split; [done|].
      rewrite list_lookup_insert_eq by done. split; [done|].
      rewrite Hloop. set_solver.
  - intros j comp Hj.
    destruct (decide (componentIdx = j)) as [<-|Hnej].
    + rewrite list_lookup_insert_eq in Hj by done. injection Hj as <-.
      rewrite Hloop. intros E'. by apply app_eq_nil in E' as [_ ?].
    + rewrite list_lookup_insert_ne in Hj by done. eauto.
Qed.

Lemma forEach2_typeVars {A} (body : A -> Component -> Res Component)
    (l : list A) (k k' : list Component) :
  (forall x y y', body x y = Done y' -> typeVars y' = typeVars y) ->
  forEach2 body l k = Done k' -> map typeVars k' = map typeVars k.
Proof using Type.
  intros Hbody. revert k k'.
  induction l as [|x l IH]; intros [|y k] k' Hrun; simpl in Hrun;
    try (by injection Hrun as <-); try discriminate.
  apply bind_Done in Hrun as (y' & Hy & Hrun).
  apply bind_Done in Hrun as (k'' & Hk & Hrun). injection Hrun as <-.
  simpl. by rewrite (Hbody x y y' Hy), (IH k k'' Hk).
Qed.

Lemma populateComponent_typeVars digraph order comp comp' :
  populateComponent fuel digraph order comp = Done comp' ->
  typeVars comp' = typeVars comp.
Proof using Type.
  unfold populateComponent. destruct order; [by intros [= <-]|].
  intros Hrun. apply bind_Done in Hrun as ([idxs owcs] & _ & Hrun).
  by injection Hrun as <-.
Qed.

Lemma getComponents_spec cc comps cc' :
  descending (representatives cc) ->
  (forall v, v ∈ V -> hasNode (cg cc) v) ->
  getComponents cs fuel V cc = Done (comps, cc') ->
  cg cc' = cg cc /\
  exists unbound st,
    (forall r, r ∈ unbound <->
       exists v, v ∈ V /\ getFixedType cs v = None /\
                 rootsTo (representatives cc) v r) /\
    AssignInv (representatives cc) (cg cc) unbound V st /\
    map typeVars comps = map typeVars (components st).
Proof using All.
  intros Hd Hn Hrun. unfold getComponents in Hrun.
  apply bind_Done in Hrun as ([unbound reps1] & HU & Hrun).
  destruct (unboundLoop_spec _ _ _ Hd HU) as [Hc1 Hunbound].
  apply bind_Done in Hrun as (st & Hloop & Hrun).
  assert (Hinv : AssignInv (representatives cc) (cg cc) unbound V st).
  { apply (forEach_prefix_invariant
             (fun pre s => AssignInv (representatives cc) (cg cc) unbound pre s
                           /\ pre `prefix_of` V)) in Hloop; [apply Hloop| |].
    - split; [|apply prefix_nil]. split; simpl.
      + done.
      + done.
      + by rewrite map_size_empty.
      + intros r i Hr. by rewrite lookup_empty in Hr.
      + intros r r' i Hr. by rewrite lookup_empty in Hr.
      + intros i comp tv Hi. by rewrite lookup_nil in Hi.
      + intros v r Hv. by apply elem_of_nil in Hv.
      + intros i comp Hi. by rewrite lookup_nil in Hi.
    - intros pre v s1 s2 Hpre [I1 _] Hstep. split; [|done].
      apply (assignStep_spec _ _ _ pre v s1 s2 Hd); [|done|done].
      apply Hn. destruct Hpre as [k ->]. set_solver. }
  case_bool_decide as Hdg.
  - injection Hrun as <- <-. split; [apply (as_graph _ _ _ _ _ Hinv)|].
    exists unbound, st. done.
  - unfold populateOneWayComponentDependencies in Hrun.
    apply bind_Done in Hrun as ([reps2 orders] & _ & Hrun).
    apply bind_Done in Hrun as (comps2 & Hpop & Hrun).
    injection Hrun as <- <-. simpl.
    split; [apply (as_graph _ _ _ _ _ Hinv)|].
    exists unbound, st. split; [done|]. split; [done|].
    apply (forEach2_typeVars _ _ _ _ (populateComponent_typeVars _) Hpop).
Qed.

(** Two variables are reported in the same component. *)
Definition sameComponent (comps : list Component)
    (u v : TypeVariableType) : Prop :=
  exists comp, comp ∈ comps /\ u ∈ typeVars comp /\ v ∈ typeVars comp.

Definition reported (comps : list Component) (v : TypeVariableType) : Prop :=
  exists comp, comp ∈ comps /\ v ∈ typeVars comp.

Lemma computeConnectedComponents_spec comps g' :
  computeConnectedComponents cs fuel V g = Done (comps, g') ->
  sameGraph g g' /\
  (forall comp, comp ∈ comps -> typeVars comp <> []) /\
  (forall v, reported comps v <->
     v ∈ V /\ exists w, w ∈ V /\ getFixedType cs w = None /\ rtsc E v w) /\
  (forall u v, reported comps u -> reported comps v ->
     sameComponent comps u v <-> rtsc E u v).
Proof using All.
  intros Hrun. unfold computeConnectedComponents in Hrun.
  apply bind_Done in Hrun as (cc & Hmake & Hrun).
  apply bind_Done in Hrun as ([comps1 cc1] & Hget & Hrun).
  injection Hrun as -> <-.
  destruct (makeConnectedComponents_spec cc Hmake) as (Hg & Hd & Hsets).
  assert (Hn1 : forall v, v ∈ V -> hasNode (cg cc) v).
  { intros v Hv. apply (sameGraph_hasNode g _ _ Hg). by apply nodesOfV. }
  destruct (getComponents_spec cc comps cc1 Hd Hn1 Hget)
    as (Hg1 & unbound & st & HU & Hinv & Hmap).
  destruct Hinv as [_ _ _ Hrange Hinj Hmem Hpl Hne].
  (* Membership in the components, through their lists of variables. *)
  assert (Hin : forall (P : list TypeVariableType -> Prop),
            (exists comp, comp ∈ comps /\ P (typeVars comp)) <->
            (exists i comp, components st !! i = Some comp /\
                            P (typeVars comp))).
  { intros P. split.
    - intros (comp & Hc & HP). apply list_elem_of_lookup in Hc as [i Hi].
      assert (Hi' : map typeVars comps !! i = Some (typeVars comp))
        by (by rewrite list_lookup_fmap, Hi).
      rewrite Hmap, list_lookup_fmap in Hi'.
      destruct (components st !! i) as [comp'|] eqn:E'; [|done].
      injection Hi' as Hi'. exists i, comp'. by rewrite Hi'.
    - intros (i & comp & Hi & HP).
      assert (Hi' : map typeVars (components st) !! i = Some (typeVars comp))
        by (by rewrite list_lookup_fmap, Hi).
      rewrite <- Hmap, list_lookup_fmap in Hi'.
      destruct (comps !! i) as [comp'|] eqn:E'; [|done].
      injection Hi' as Hi'. exists comp'. rewrite Hi'.
      split; [by apply list_elem_of_lookup_2 in E'|done]. }
  assert (Hroot : forall v r, rootsTo (representatives cc) v r ->
            (r ∈ unbound <->
             exists w, w ∈ V /\ getFixedType cs w = None /\ rtsc E v w)).
  { intros v r Hr. rewrite HU. split.
    - intros (w & Hw & Hf & Hwr). exists w. split; [done|]. split; [done|].
      apply Hsets. by exists r.
    - intros (w & Hw & Hf & Hvw). exists w. split; [done|]. split; [done|].
      apply Hsets in Hvw as (s & H1 & H2).
      by rewrite (rootsTo_functional _ v r s Hr H1). }
  assert (Hrep : forall v, reported comps v <->
            v ∈ V /\ exists r, rootsTo (representatives cc) v r /\ r ∈ unbound).
  { intros v. unfold reported. rewrite (Hin (fun l => v ∈ l)). split.
    - intros (i & comp & Hi & Hv).
      destruct (Hmem i comp v Hi Hv) as (HvV & r & Hr & Hroot').
      split; [done|]. exists r. split; [done|]. by apply (Hrange r i).
    - intros (HvV & r & Hr & HrU).
      destruct (Hpl v r HvV Hr HrU) as (i & comp & _ & Hi & Hv). eauto. }
  split; [by rewrite Hg1|]. split; [|split].
  - intros comp Hc.
    destruct (proj1 (Hin (fun l => l = typeVars comp))) as (i & comp' & Hi & Heq);
      [by exists comp|].
    rewrite <- Heq. eauto.
  - intros v. rewrite Hrep. split.
    + intros (HvV & r & Hr & HrU). split; [done|]. by apply (Hroot v r).
    + intros (HvV & Hw). split; [done|].
      destruct (rootsTo_exists (representatives cc) v Hd) as [r Hr].
      exists r. split; [done|]. by apply (Hroot v r).
  - intros u v Hu Hv. apply Hrep in Hu as (HuV & ru & Hru & HruU).
    apply Hrep in Hv as (HvV & rv & Hrv & HrvU).
    rewrite <- Hsets. unfold sameComponent.
    rewrite (Hin (fun l => u ∈ l /\ v ∈ l)). split.
    + intros (i & comp & Hi & Hu & Hv).
      destruct (Hmem i comp u Hi Hu) as (_ & r1 & Hr1 & Hroot1).
      destruct (Hmem i comp v Hi Hv) as (_ & r2 & Hr2 & Hroot2).
      rewrite (Hinj r1 r2 i Hr1 Hr2) in Hroot1. by exists r2.
    + intros (r & H1 & H2).
      rewrite (rootsTo_functional _ u ru r Hru H1) in HruU.
      destruct (Hpl u r HuV H1 HruU) as (i & comp & Hi & Hc & Hu).
      destruct (Hpl v r HvV H2 HruU) as (i' & comp' & Hi' & Hc' & Hv).
      assert (i' = i) as -> by congruence.
      assert (comp' = comp) as -> by congruence. eauto.
Qed.

End ComponentsProof.

(** ** Properties of the union-find *)

(** X1: when parents have lower IDs than their children,
    [findRepresentative] returns as soon as the budget exceeds the
    variable's ID; it returns the representative that the parent links lead
    to, whose ID is at most the variable's, and its path compression keeps
    the parents below their children and changes nobody's representative. *)
Theorem findRepresentative_correct fuel x reps :
  descending reps -> getID x < fuel ->
  exists r reps',
    findRepresentative fuel x reps = Done (r, reps') /\
    rootsTo reps x r /\ getID r <= getID x /\ descending reps' /\
    forall y s, rootsTo reps' y s <-> rootsTo reps y s.
Proof.
  intros Hd Hlt.
  destruct (findRepresentative_total fuel x reps Hd Hlt) as (r & reps' & Hrun).
  destruct (findRepresentative_spec fuel x reps r reps' Hd Hrun)
    as (Hd' & Hx & Hsame & _).
  exists r, reps'. split; [done|]. split; [done|].
  split; [by apply (rootsTo_le reps)|]. done.
Qed.

Lemma findRepresentative_correct_witness :
  let reps : gmap nat nat := {[3 := 2; 2 := 0; 5 := 3]} in
  exists r reps',
    findRepresentative 6 5 reps = Done (r, reps') /\
    rootsTo reps 5 r /\ getID r <= getID 5 /\ descending reps' /\
    forall y s, rootsTo reps' y s <-> rootsTo reps y s.
Proof.
  intros reps. apply findRepresentative_correct.
  - apply (bool_decide_unpack (map_Forall (fun v p => p < v) reps)).
    vm_compute. exact I.
  - unfold getID. lia.
Defined.

(** X2: [unionSets] returns when the budget exceeds both IDs; it answers
    [false] exactly when the two variables were in the same set already, and
    afterwards two variables are in the same set exactly when they were
    before or when one was with the first argument and the other with the
    second.  Parents still have lower IDs than their children. *)
Theorem unionSets_correct fuel a b reps :
  descending reps -> getID a < fuel -> getID b < fuel ->
  exists flag reps',
    unionSets fuel a b reps = Done (flag, reps') /\
    descending reps' /\
    (flag = false <-> sameSet reps a b) /\
    forall x y, sameSet reps' x y <->
      sameSet reps x y \/ (sameSet reps x a /\ sameSet reps b y) \/
      (sameSet reps x b /\ sameSet reps a y).
Proof.
  intros Hd Ha Hb.
  destruct (findRepresentative_total fuel a reps Hd Ha) as (r1 & reps1 & F1).
  destruct (findRepresentative_spec fuel a reps r1 reps1 Hd F1)
    as (Hd1 & _ & _ & _).
  destruct (findRepresentative_total fuel b reps1 Hd1 Hb) as (r2 & reps2 & F2).
  assert (Hrun : exists flag reps',
            unionSets fuel a b reps = Done (flag, reps')).
  { unfold unionSets. rewrite F1. simpl. rewrite F2. simpl.
    destruct (bool_decide (r1 = r2)); [eauto|].
    destruct (bool_decide (getID r1 < getID r2)); eauto. }
  destruct Hrun as (flag & reps' & Hrun). exists flag, reps'.
  split; [done|]. by apply (unionSets_spec fuel a b reps).
Qed.

Lemma unionSets_correct_witness :
  let reps : gmap nat nat := {[3 := 2; 2 := 0; 5 := 4]} in
  exists flag reps',
    unionSets 6 3 5 reps = Done (flag, reps') /\
    descending reps' /\
    (flag = false <-> sameSet reps 3 5) /\
    forall x y, sameSet reps' x y <->
      sameSet reps x y \/ (sameSet reps x 3 /\ sameSet reps 5 y) \/
      (sameSet reps x 5 /\ sameSet reps 3 y).
Proof.
  intros reps. apply unionSets_correct.
  - apply (bool_decide_unpack (map_Forall (fun v p => p < v) reps)).
    vm_compute. exact I.
  - unfold getID. lia.
  - unfold getID. lia.
Defined.

(** X3: after [unionSetsViaConstraint] the variables of the constraint are
    all in one set, and two variables are in the same set exactly when a
    chain of old sets and of pairs of variables of the constraint connects
    them. *)
Theorem unionSetsViaConstraint_correct cs fuel c reps flag reps' :
  descending reps ->
  unionSetsViaConstraint cs fuel c reps = Done (flag, reps') ->
  descending reps' /\
  (forall a b, a ∈ getTypeVariables cs c -> b ∈ getTypeVariables cs c ->
               sameSet reps' a b) /\
  forall x y, sameSet reps' x y <->
    rtsc (fun a b => sameSet reps a b \/
                     (a ∈ getTypeVariables cs c /\ b ∈ getTypeVariables cs c))
         x y.
Proof.
  intros Hd Hrun.
  set (E := fun a b => sameSet reps a b \/
                       (a ∈ getTypeVariables cs c /\ b ∈ getTypeVariables cs c)).
  assert (Hs : sound E reps).
  { split; [done|]. intros x y Hxy. apply rtsc_lr. by left. }
  destruct (unionSetsViaConstraint_spec E cs fuel c reps flag reps' Hs)
    as ([Hd' Hs'] & Hco & Hall); [|done|].
  { intros a b Ha Hb. apply rtsc_lr. by right. }
  split; [done|]. split; [done|]. intros x y. split; [apply Hs'|].
  intros Hxy. induction Hxy as [x|x y z Hxy _ IH].
  - by apply sameSet_refl.
  - apply (sameSet_trans reps' x y z); [|done].
    destruct Hxy as [[H|[H1 H2]]|[H|[H1 H2]]]; auto using sameSet_sym.
Qed.

Lemma unionSetsViaConstraint_correct_witness :
  let result := finished (false, ∅) (unionSetsViaConstraint csPlain 3 1 ∅) in
  result = (true, {[2 := 1]}) /\
  descending result.2 /\
  (forall a b, a ∈ getTypeVariables csPlain 1 ->
               b ∈ getTypeVariables csPlain 1 -> sameSet result.2 a b) /\
  forall x y, sameSet result.2 x y <->
    rtsc (fun a b => sameSet ∅ a b \/
                     (a ∈ getTypeVariables csPlain 1 /\
                      b ∈ getTypeVariables csPlain 1)) x y.
Proof.
  intros result. split; [vm_compute; reflexivity|].
  apply (unionSetsViaConstraint_correct csPlain 3 1 ∅ result.1 result.2).
  - intros v p Hv. by rewrite lookup_empty in Hv.
  - vm_compute. reflexivity.
Defined.

(** ** Properties of [computeConnectedComponents] *)

(** X4: two input variables without a fixed type are reported in the same
    component exactly when a chain of edges connects them, where an edge
    joins an input variable with a member of its representative's
    equivalence class or with one of its fixed bindings, or two variables
    that a constraint of an input variable mentions; the chain may pass
    through variables that are not in the input. *)
Theorem computeConnectedComponents_same_component cs fuel V g comps g' :
  (forall v, v ∈ V -> hasNode g v /\ hasNode g (getRepresentative cs v)) ->
  computeConnectedComponents cs fuel V g = Done (comps, g') ->
  forall u v, u ∈ V -> v ∈ V ->
    getFixedType cs u = None -> getFixedType cs v = None ->
    (sameComponent comps u v <-> rtsc (adjacent cs g V) u v).
Proof.
  intros Hn Hrun u v Hu Hv Hfu Hfv.
  destruct (computeConnectedComponents_spec cs fuel V g Hn comps g' Hrun)
    as (_ & _ & Hrep & Hsame).
  apply Hsame; apply Hrep; (split; [done|]).
  - exists u. split; [done|]. split; [done|]. reflexivity.
  - exists v. split; [done|]. split; [done|]. reflexivity.
Qed.

Lemma nodesOf_checked cs g (V : list TypeVariableType) :
  forallb (fun v => hasNodeb g v && hasNodeb g (getRepresentative cs v)) V
    = true ->
  forall v, v ∈ V -> hasNode g v /\ hasNode g (getRepresentative cs v).
Proof.
  intros Hb v Hv. rewrite forallb_forall in Hb.
  apply list_elem_of_In, Hb, andb_true_iff in Hv as [H1 H2].
  unfold hasNodeb in *.
  apply bool_decide_eq_true in H1. apply bool_decide_eq_true in H2. by split.
Qed.

Lemma computeConnectedComponents_same_component_witness :
  let result :=
    finished ([], emptyGraph)
      (computeConnectedComponents csPlain 4 [0; 2] graphPlain) in
  result.1 = [{| typeVars := [0; 2]; constraints := [0; 1];
                 oneWayComponents := [] |}] /\
  forall u v, u ∈ [0; 2] -> v ∈ [0; 2] ->
    getFixedType csPlain u = None -> getFixedType csPlain v = None ->
    (sameComponent result.1 u v <-> rtsc (adjacent csPlain graphPlain [0; 2]) u v).
Proof.
  intros result. split; [vm_compute; reflexivity|].
  assert (Hrun : computeConnectedComponents csPlain 4 [0; 2] graphPlain
                 = Done (result.1, result.2)) by (vm_compute; reflexivity).
  assert (Hn : forallb (fun v => hasNodeb graphPlain v &&
                          hasNodeb graphPlain (getRepresentative csPlain v))
                 [0; 2] = true) by (vm_compute; reflexivity).
  exact (computeConnectedComponents_same_component csPlain 4 [0; 2] graphPlain
           result.1 result.2 (nodesOf_checked csPlain graphPlain [0; 2] Hn)
           Hrun).
Defined.

(** X5: an input variable is reported in a component exactly when a chain
    of edges connects it to an input variable without a fixed type; only
    input variables are reported, and no reported component is empty. *)
Theorem computeConnectedComponents_reported cs fuel V g comps g' :
  (forall v, v ∈ V -> hasNode g v /\ hasNode g (getRepresentative cs v)) ->
  computeConnectedComponents cs fuel V g = Done (comps, g') ->
  (forall comp, comp ∈ comps -> typeVars comp <> []) /\
  forall v, reported comps v <->
    v ∈ V /\ exists w, w ∈ V /\ getFixedType cs w = None /\
                       rtsc (adjacent cs g V) v w.
Proof.
  intros Hn Hrun.
  destruct (computeConnectedComponents_spec cs fuel V g Hn comps g' Hrun)
    as (_ & Hne & Hrep & _). by split.
Qed.

(** A system in which [T2] has a fixed type: [Equal(T0, T1)] and a
    constraint that mentions [T2] alone. *)
Definition csFixed : ConstraintSystem :=
  tableCS [(Equal, TyVar 0, TyVar 1); (Equal, TyVar 2, TyNominal 1)]
          (fun tv => tv)
          (fun tv => if bool_decide (tv = 2) then Some (TyNominal 1) else None).

Definition graphFixed : ConstraintGraph :=
  finished emptyGraph
    (applyMutations csFixed 4 [MAddConstraint 0; MAddConstraint 1] emptyGraph).

Lemma computeConnectedComponents_reported_witness :
  let result :=
    finished ([], emptyGraph)
      (computeConnectedComponents csFixed 4 [0; 1; 2] graphFixed) in
  result.1 = [{| typeVars := [0; 1]; constraints := [0];
                 oneWayComponents := [] |}] /\
  (forall comp, comp ∈ result.1 -> typeVars comp <> []) /\
  forall v, reported result.1 v <->
    v ∈ [0; 1; 2] /\
    exists w, w ∈ [0; 1; 2] /\ getFixedType csFixed w = None /\
              rtsc (adjacent csFixed graphFixed [0; 1; 2]) v w.
Proof.
  intros result. split; [vm_compute; reflexivity|].
  assert (Hrun : computeConnectedComponents csFixed 4 [0; 1; 2] graphFixed
                 = Done (result.1, result.2)) by (vm_compute; reflexivity).
  assert (Hn : forallb (fun v => hasNodeb graphFixed v &&
                          hasNodeb graphFixed (getRepresentative csFixed v))
                 [0; 1; 2] = true) by (vm_compute; reflexivity).
  exact (computeConnectedComponents_reported csFixed 4 [0; 1; 2] graphFixed
           result.1 result.2 (nodesOf_checked csFixed graphFixed [0; 1; 2] Hn)
           Hrun).
Defined.

(** ** Properties of the node operations *)

Lemma forEach_checks {A} (check : A -> unit -> Res unit) (l : list A) :
  forEach check l tt = Done tt <-> forall x, x ∈ l -> check x tt = Done tt.
Proof.
  induction l as [|x l IH]; simpl.
  - split; [|done]. intros _ x Hx. by apply elem_of_nil in Hx.
  - split.
    + intros H. apply bind_Done in H as ([] & Hx & H).
      pose proof (proj1 IH H) as Hl.
      intros y Hy. apply elem_of_cons in Hy as [->|Hy]; auto.
    + intros H. rewrite (H x) by set_solver. simpl. apply IH.
      intros y Hy. apply H. set_solver.
Qed.

Lemma assert_Done_iff b : assert b = Done tt <-> b = true.
Proof. by destruct b. Qed.

Lemma node_verifyEntry_Done n info :
  node_verifyEntry n info tt = Done tt <->
  Constraints n !! info.2 = Some info.1.
Proof.
  unfold node_verifyEntry. split.
  - intros H. apply bind_Done in H as ([] & _ & H).
    by apply assert_Done_iff, bool_decide_eq_true in H.
  - intros H. pose proof (lookup_lt_Some _ _ _ H) as Hlt.
    rewrite (bool_decide_eq_true_2 _ Hlt). simpl.
    by rewrite (bool_decide_eq_true_2 _ H).
Qed.

(** The positions that a map into the list names are distinct. *)
Lemma indexed_positions_NoDup n :
  (forall c i, ConstraintIndex n !! c = Some i ->
               Constraints n !! i = Some c) ->
  NoDup (map_to_list (ConstraintIndex n)).*2.
Proof.
  intros Hto. apply NoDup_fmap_2_strong; [|apply NoDup_map_to_list].
  intros [c i] [c' i'] H1 H2 Heq. simpl in Heq. subst i'.
  apply elem_of_map_to_list, Hto in H1.
  apply elem_of_map_to_list, Hto in H2. congruence.
Qed.

Lemma indexed_positions_bound n :
  (forall c i, ConstraintIndex n !! c = Some i ->
               Constraints n !! i = Some c) ->
  size (ConstraintIndex n) <= length (Constraints n).
Proof.
  intros Hto.
  assert (H : length (map_to_list (ConstraintIndex n)).*2
              <= length (seq 0 (length (Constraints n)))).
  { apply submseteq_length, NoDup_submseteq;
      [by apply indexed_positions_NoDup|].
    intros i Hi. apply list_elem_of_fmap in Hi as ([c i'] & -> & Hi).
    apply elem_of_map_to_list, Hto, lookup_lt_Some in Hi. simpl.
    apply elem_of_seq. lia. }
  by rewrite length_seq, length_fmap, length_map_to_list in H.
Qed.

Lemma node_verify_sound n : node_verify n = Done tt -> IndexWF n.
Proof.
  unfold node_verify.
  - intros H. apply bind_Done in H as ([] & Hsize & H).
    apply assert_Done_iff, bool_decide_eq_true in Hsize.
    rewrite forEach_checks in H.
    assert (Hto : forall c i, ConstraintIndex n !! c = Some i ->
                              Constraints n !! i = Some c).
    { intros c i Hi. apply elem_of_map_to_list, H in Hi.
      by apply node_verifyEntry_Done in Hi. }
    intros c i. split; [apply Hto|]. intros Hi.
    assert (Hperm : (map_to_list (ConstraintIndex n)).*2
                    ≡ₚ seq 0 (length (Constraints n))).
    { apply submseteq_length_Permutation.
      - apply NoDup_submseteq; [by apply indexed_positions_NoDup|].
        intros j Hj. apply list_elem_of_fmap in Hj as ([c' j'] & -> & Hj).
        apply elem_of_map_to_list, Hto, lookup_lt_Some in Hj. simpl.
        apply elem_of_seq. lia.
      - by rewrite length_seq, length_fmap, length_map_to_list, Hsize. }
    assert (Hin : i ∈ (map_to_list (ConstraintIndex n)).*2).
    { rewrite Hperm. apply elem_of_seq. apply lookup_lt_Some in Hi. lia. }
    apply list_elem_of_fmap in Hin as ([c' i'] & Heq & Hin). simpl in Heq.
    subst i'. apply elem_of_map_to_list in Hin.
    pose proof (Hto c' i Hin) as Hc'. congruence.
Qed.

Lemma node_verify_complete n : IndexWF n -> node_verify n = Done tt.
Proof.
  unfold node_verify.
  - intros Hwf.
    assert (Hto : forall c i, ConstraintIndex n !! c = Some i ->
                              Constraints n !! i = Some c)
      by (intros c i; apply Hwf).
    assert (Hsize : length (Constraints n) = size (ConstraintIndex n)).
    { apply Nat.le_antisymm; [|by apply indexed_positions_bound].
      assert (H : length (Constraints n)
                  <= length (map_to_list (ConstraintIndex n)).*1).
      { apply submseteq_length, NoDup_submseteq; [by apply IndexWF_NoDup|].
        intros c Hc. apply (IndexWF_elem n c Hwf) in Hc as [i Hi].
        apply list_elem_of_fmap. exists (c, i). split; [done|].
        by apply elem_of_map_to_list. }
      by rewrite length_fmap, length_map_to_list in H. }
    rewrite (bool_decide_eq_true_2 _ Hsize). simpl.
    apply forEach_checks. intros [c i] Hi.
    apply node_verifyEntry_Done. simpl. by apply elem_of_map_to_list, Hto in Hi.
Qed.

(** X6: [ConstraintGraphNode::verify] accepts exactly the nodes whose map
    is the inverse of the constraint vector: every position of the vector
    is the one the map gives for the constraint stored there, and the map
    has no other entries. *)
Theorem node_verify_accepts n : node_verify n = Done tt <-> IndexWF n.
Proof. split; [apply node_verify_sound|apply node_verify_complete]. Qed.

(** X7: on a node that passes verification, [removeConstraint] aborts when
    the constraint is absent; when it is present the call returns, the
    vector then holds the other constraints and no longer the removed one
    (the last constraint having taken its slot), the node still passes
    verification, and the rest of the node is untouched. *)
Theorem node_removeConstraint_removes c n :
  IndexWF n ->
  (c ∉ Constraints n -> node_removeConstraint c n = Abort) /\
  (c ∈ Constraints n ->
   exists n', node_removeConstraint c n = Done n' /\
     IndexWF n' /\ Constraints n ≡ₚ c :: Constraints n' /\
     c ∉ Constraints n' /\
     (forall i, ConstraintIndex n !! c = Some i ->
        Constraints n' = swapRemove i (Constraints n)) /\
     TypeVar n' = TypeVar n /\ EquivalenceClass n' = EquivalenceClass n /\
     FixedBindings n' = FixedBindings n).
Proof.
  intros Hwf. split.
  - intros Hc. unfold node_removeConstraint.
    destruct (ConstraintIndex n !! c) as [i|] eqn:Hi; [|done].
    exfalso. apply Hc. apply (IndexWF_elem n c Hwf). eauto.
  - intros Hc. destruct (node_removeConstraint_total c n Hwf Hc) as [n' Hrun].
    exists n'. split; [done|].
    pose proof (node_removeConstraint_wf c n n' Hwf Hrun) as Hwf'.
    pose proof (node_removeConstraint_perm c n n' Hrun) as Hperm.
    split; [done|]. split; [done|]. split.
    { intros Hc'. pose proof (IndexWF_NoDup n Hwf) as Hnd.
      rewrite Hperm in Hnd. by apply NoDup_cons in Hnd as [Hnd _]. }
    apply node_removeConstraint_Done in Hrun
      as (i & Hi & _ & Hl & HT & HE & HF & _).
    split; [|done]. intros j Hj. congruence.
Qed.

Lemma node_removeConstraint_removes_witness :
  let n := finished (newNode 0)
             (n ← node_addConstraint 5 (newNode 0);
              n ← node_addConstraint 6 n; node_addConstraint 7 n) in
  Constraints n = [5; 6; 7] /\
  (8 ∉ Constraints n -> node_removeConstraint 8 n = Abort) /\
  (5 ∈ Constraints n ->
   exists n', node_removeConstraint 5 n = Done n' /\
     IndexWF n' /\ Constraints n ≡ₚ 5 :: Constraints n' /\
     5 ∉ Constraints n' /\
     (forall i, ConstraintIndex n !! 5 = Some i ->
        Constraints n' = swapRemove i (Constraints n)) /\
     TypeVar n' = TypeVar n /\ EquivalenceClass n' = EquivalenceClass n /\
     FixedBindings n' = FixedBindings n).
Proof.
  intros n. split; [reflexivity|].
  assert (Hwf : IndexWF n).
  { apply node_verify_sound. vm_compute. reflexivity. }
  split.
  - exact (proj1 (node_removeConstraint_removes 8 n Hwf)).
  - exact (proj2 (node_removeConstraint_removes 5 n Hwf)).
Defined.

(** X8: on a node that passes verification, [addConstraint] aborts on a
    constraint the node already has; for a new constraint it returns a node
    that passes verification with the constraint appended, and removing the
    constraint again gives back exactly the node one started from. *)
Theorem node_addConstraint_then_remove c n :
  IndexWF n ->
  (c ∈ Constraints n -> node_addConstraint c n = Abort) /\
  (c ∉ Constraints n ->
   exists n1, node_addConstraint c n = Done n1 /\ IndexWF n1 /\
     Constraints n1 = Constraints n ++ [c] /\
     node_removeConstraint c n1 = Done n).
Proof.
  intros Hwf. split.
  - intros Hc. apply (IndexWF_elem n c Hwf) in Hc as [i Hi].
    unfold node_addConstraint. by rewrite Hi.
  - intros Hc. destruct (node_addConstraint_total c n Hwf Hc) as [n1 Hadd].
    exists n1. split; [done|].
    split; [by apply (node_addConstraint_wf c n n1)|].
    apply node_addConstraint_Done in Hadd as [Hnone ->]. split; [done|].
    unfold node_removeConstraint. simpl. rewrite lookup_insert_eq. simpl.
    assert (Hlast : (Constraints n ++ [c]) !! length (Constraints n) = Some c)
      by apply list_lookup_middle, eq_refl.
    rewrite (bool_decide_eq_true_2 _ Hlast). simpl.
    rewrite bool_decide_eq_true_2 by (rewrite length_app; simpl; lia).
    rewrite pop_back_snoc, delete_insert_id by done.
    by destruct n.
Qed.

Lemma node_addConstraint_then_remove_witness :
  let n := finished (newNode 0)
             (n ← node_addConstraint 5 (newNode 0); node_addConstraint 6 n) in
  Constraints n = [5; 6] /\
  (5 ∈ Constraints n -> node_addConstraint 5 n = Abort) /\
  (7 ∉ Constraints n ->
   exists n1, node_addConstraint 7 n = Done n1 /\ IndexWF n1 /\
     Constraints n1 = Constraints n ++ [7] /\
     node_removeConstraint 7 n1 = Done n).
Proof.
  intros n. split; [reflexivity|].
  assert (Hwf : IndexWF n).
  { apply node_verify_sound. vm_compute. reflexivity. }
  split.
  - exact (proj1 (node_addConstraint_then_remove 5 n Hwf)).
  - exact (proj2 (node_addConstraint_then_remove 7 n Hwf)).
Defined.

(** ** Every public mutation keeps the graph consistent *)

Lemma keyed_createNode tv g : keyed g -> keyed (createNode tv g).
Proof.
  intros Hk. unfold createNode. apply keyed_recordChange.
  intros u m Hu. simpl in Hu. destruct (decide (tv = u)) as [->|Hne].
  - rewrite lookup_insert_eq in Hu. by injection Hu as <-.
  - rewrite lookup_insert_ne in Hu by done. eauto.
Qed.

Definition shaped (g : ConstraintGraph) : Prop := GraphWF g /\ keyed g.

Lemma shaped_steps : StepInvariant (fun _ => shaped).
Proof.
  apply simpleStepInvariant.
  - intros tv g Hn [Hwf Hk].
    split; [by apply GraphWF_createNode|by apply keyed_createNode].
  - intros ch g _ [Hwf Hk].
    split; [by apply GraphWF_recordChange|by apply keyed_recordChange].
  - intros tv n ec g Hn [Hwf Hk].
    split; [by apply GraphWF_updateClass|by apply (keyed_insert tv n)].
  - intros tv other n1 n2 g Hne H1 H2 [Hwf Hk].
    split; [by apply GraphWF_pushPair|].
    rewrite pushPair_twice. apply (keyed_insert tv n1); simpl.
    + by rewrite lookup_insert_ne.
    + done.
    + by apply (keyed_insert other n2).
Qed.

Lemma shaped_applyMutation cs fuel m g g' :
  shaped g -> applyMutation cs fuel m g = Done g' -> shaped g'.
Proof.
  apply (applyMutation_keeps cs shaped shaped_steps).
  - intros tv n n' s Hn Ht _ _ [Hwf Hk]. split.
    + apply GraphWF_nodes_only; [|done]. intros u.
      destruct (decide (tv = u)) as [->|Hne].
      * rewrite lookup_insert_eq, Hn. split; eauto.
      * by rewrite lookup_insert_ne.
    + by apply (keyed_insert tv n).
  - intros oc s [[Hnd Hidx Hn] Hk]. by split.
  - intros ch s [Hwf Hk].
    split; [by apply GraphWF_recordChange|by apply keyed_recordChange].
Qed.

Lemma NodesWF_applyMutation cs fuel m g g' :
  NodesWF g -> applyMutation cs fuel m g = Done g' -> NodesWF g'.
Proof.
  intros Hwf Hrun.
  assert (Hf : frozen (OrphanedConstraints g) (constraintsOf g) g) by done.
  pose proof (frozen_steps (OrphanedConstraints g) (constraintsOf g)) as St.
  destruct m as [tv|c|c|a b|tv fixed]; simpl in Hrun.
  - apply bind_Done in Hrun as ([i g1] & L & Hrun). injection Hrun as <-.
    by destruct (frozen_lookup cs fuel _ _ tv g i g1 Hf L) as [[? _] _].
  - by destruct (addConstraint_lists cs fuel c g g' Hwf Hrun).
  - by destruct (removeConstraint_lists cs fuel c g g' Hwf Hrun).
  - by destruct (mergeNodes_keeps cs _ St _ [] _ _ _ _ Hf Hrun) as [[? _] _].
  - by destruct (bindTypeVariable_keeps cs _ St _ [] _ _ _ _ Hf Hrun)
      as [[? _] _].
Qed.

Lemma Consistent_applyMutation cs fuel m g g' :
  Consistent g -> applyMutation cs fuel m g = Done g' -> Consistent g'.
Proof.
  intros [Hwf Hn Hk] Hrun.
  destruct (shaped_applyMutation cs fuel m g g' (conj Hwf Hk) Hrun).
  split; [done| |done]. by apply (NodesWF_applyMutation cs fuel m g).
Qed.

Lemma Consistent_applyMutations cs fuel ms g g' :
  Consistent g -> applyMutations cs fuel ms g = Done g' -> Consistent g'.
Proof.
  intros HP Hrun.
  eapply (forEach_invariant Consistent); [exact HP| |exact Hrun].
  intros m s1 s2 _. apply Consistent_applyMutation.
Qed.

Lemma Consistent_openScope g : Consistent g -> Consistent (openScope g).2.
Proof. intros [[Hnd Hidx Hn] Hnwf Hk]. by split. Qed.

Lemma Consistent_verifies g :
  Consistent g ->
  forEach (verifyIndex g) (imap pair (TypeVariables g)) tt = Done tt /\
  forEach (verifyNode g) (TypeVariables g) tt = Done tt.
Proof.
  intros [[Hnd Hidx Hn] Hnwf Hk]. split; apply forEach_checks.
  - intros [i tv] Hi. apply elem_of_lookup_imap in Hi as (j & u & Heq & Hj).
    injection Heq as -> ->. unfold verifyIndex. simpl.
    rewrite (bool_decide_eq_true_2 _ (Hidx j u Hj)). simpl.
    apply assert_Done_iff, bool_decide_eq_true_2, Hn.
    by apply list_elem_of_lookup_2 in Hj.
  - intros tv Htv. apply Hn in Htv as [n Hnode].
    unfold verifyNode. rewrite Hnode. simpl.
    apply node_verify_complete. by apply (Hnwf tv).
Qed.

(** X9: the public mutations (node lookup, [addConstraint],
    [removeConstraint], [mergeNodes], [bindTypeVariable]) keep the graph
    consistent, with or without an active scope: starting from a graph in
    which the vector of type variables has no duplicates, every stored
    graph-index is the slot of its variable, exactly the variables of the
    vector have nodes, each node is the node of its variable and each
    constraint map is the inverse of its constraint vector, every run of
    mutations that returns ends in such a graph again, and on it the two
    loops of [verify] that check the type-variable vector and the nodes
    succeed. *)
Theorem mutations_keep_consistent cs fuel ms g g' :
  Consistent g -> applyMutations cs fuel ms g = Done g' ->
  Consistent g' /\
  forEach (verifyIndex g') (imap pair (TypeVariables g')) tt = Done tt /\
  forEach (verifyNode g') (TypeVariables g') tt = Done tt.
Proof.
  intros Hc Hrun.
  pose proof (Consistent_applyMutations cs fuel ms g g' Hc Hrun) as Hc'.
  split; [done|]. by apply Consistent_verifies.
Qed.

Lemma mutations_keep_consistent_witness :
  let ms := [MAddConstraint 0; MAddConstraint 1; MMergeNodes 3 2;
             MBindTypeVariable 2 (TyVar 0); MRemoveConstraint 0] in
  let g' := finished emptyGraph
              (applyMutations csMerged 4 ms (openScope emptyGraph).2) in
  TypeVariables g' = [0; 1; 2; 3] /\
  Consistent g' /\
  forEach (verifyIndex g') (imap pair (TypeVariables g')) tt = Done tt /\
  forEach (verifyNode g') (TypeVariables g') tt = Done tt.
Proof.
  intros ms g'. split; [vm_compute; reflexivity|].
  assert (Hrun : applyMutations csMerged 4 ms (openScope emptyGraph).2
                 = Done g') by (vm_compute; reflexivity).
  exact (mutations_keep_consistent csMerged 4 ms (openScope emptyGraph).2 g'
           (Consistent_openScope emptyGraph emptyGraph_Consistent) Hrun).
Defined.

(** ** Removing a node that is not the last one *)

(** X10: [removeNode] on a variable that is not in the last slot moves the
    last variable into the freed slot without updating that variable's
    stored graph-index, which then lies outside the shortened vector: the
    moved variable still has its node, but every later [lookupNode] of it
    fails the bounds assertion. *)
Theorem removeNode_middle_strands_last cs fuel g tv z l1 l2 :
  GraphWF g -> TypeVariables g = l1 ++ tv :: l2 ++ [z] ->
  exists g', removeNode tv g = Done g' /\
    TypeVariables g' = l1 ++ z :: l2 /\
    hasNode g' z /\ ~ hasNode g' tv /\
    GraphIndex g' !! z = Some (length (TypeVariables g')) /\
    lookupNode cs fuel z g' = Abort.
Proof.
  intros [Hnd Hidx Hn] Hl.
  assert (Hlen : length (TypeVariables g) = length l1 + S (S (length l2))).
  { rewrite Hl, length_app. simpl. rewrite length_app. simpl. lia. }
  assert (Htv : TypeVariables g !! length l1 = Some tv).
  { rewrite Hl. by apply list_lookup_middle. }
  assert (Hz : TypeVariables g !! (length l1 + S (length l2)) = Some z).
  { rewrite Hl, lookup_app_r by lia.
    replace (length l1 + S (length l2) - length l1) with (S (length l2))
      by lia. simpl. by apply list_lookup_middle. }
  assert (Hne : z <> tv).
  { intros ->. pose proof (NoDup_lookup _ _ _ _ Hnd Htv Hz). lia. }
  assert (Hnil : TypeVariables g <> []).
  { intros E. rewrite E in Hlen. simpl in Hlen. lia. }
  unfold removeNode. rewrite (Hidx _ _ Htv). simpl.
  rewrite (bool_decide_eq_false_2 _ Hnil). simpl.
  rewrite bool_decide_eq_true_2 by lia.
  replace (length (TypeVariables g) - 1) with (length l1 + S (length l2))
    by lia.
  rewrite Hz. simpl. eexists. split; [done|]. simpl.
  assert (Hvec : pop_back (<[length l1 := z]> (TypeVariables g))
                 = l1 ++ z :: l2).
  { rewrite Hl. rewrite (insert_app_r_alt l1) by lia.
    replace (length l1 - length l1) with 0 by lia. simpl.
    replace (l1 ++ z :: l2 ++ [z]) with ((l1 ++ z :: l2) ++ [z])
      by (by rewrite <- app_assoc).
    apply pop_back_snoc. }
  rewrite Hvec.
  assert (Hnode : is_Some (Nodes g !! z))
    by (apply Hn; by apply list_elem_of_lookup_2 in Hz).
  assert (Hlen' : length (l1 ++ z :: l2) = length l1 + S (length l2))
    by (rewrite length_app; simpl; lia).
  split; [done|]. split; [|split; [|split]].
  - unfold hasNode. simpl. by rewrite lookup_delete_ne.
  - unfold hasNode. simpl. rewrite lookup_delete_eq. by intros [? ?].
  - rewrite Hlen'. by apply Hidx.
  - destruct Hnode as [n Hnode].
    destruct fuel; simpl; rewrite lookup_delete_ne, Hnode by done;
      rewrite (Hidx _ _ Hz); simpl; rewrite Hlen';
      by rewrite (bool_decide_eq_false_2 (_ < _)) by lia.
Qed.

Lemma removeNode_middle_strands_last_witness :
  exists g', removeNode 0 graphPlain = Done g' /\
    TypeVariables g' = [] ++ 2 :: [1] /\
    hasNode g' 2 /\ ~ hasNode g' 0 /\
    GraphIndex g' !! 2 = Some (length (TypeVariables g')) /\
    lookupNode csPlain 3 2 g' = Abort.
Proof.
  assert (Hwf : GraphWF graphPlain).
  { apply (co_wf graphPlain).
    apply (Consistent_applyMutations csPlain 3
             [MAddConstraint 0; MAddConstraint 1] emptyGraph);
      [apply emptyGraph_Consistent|vm_compute; reflexivity]. }
  exact (removeNode_middle_strands_last csPlain 3 graphPlain 0 2 [] [1] Hwf
           eq_refl).
Defined.

(** ** Looking a node up twice *)

Lemma GraphWF_steps : StepInvariant (fun _ => GraphWF).
Proof.
  apply simpleStepInvariant.
  - intros tv g Hn. by apply GraphWF_createNode.
  - intros ch g _. apply GraphWF_recordChange.
  - intros tv n ec g Hn. by apply GraphWF_updateClass.
  - intros tv other n1 n2 g _ H1 H2. by apply GraphWF_pushPair.
Qed.

(** The vector of type variables extends [l]. *)
Definition grown (l : list TypeVariableType) (g : ConstraintGraph) : Prop :=
  l `prefix_of` TypeVariables g.

Lemma grown_steps l : StepInvariant (fun _ => grown l).
Proof.
  apply simpleStepInvariant; unfold grown.
  - intros tv g _ H. unfold createNode, recordChange.
    destruct (ActiveScope _); simpl; by apply prefix_app_r.
  - intros ch g _ H. unfold recordChange. by destruct (ActiveScope g).
  - by intros tv n ec g _ H.
  - by intros tv other n1 n2 g _ _ _ H.
Qed.

Lemma lookupNode_grows cs fuel tv g i g' :
  GraphWF g -> lookupNode cs fuel tv g = Done (i, g') ->
  GraphWF g' /\ TypeVariables g `prefix_of` TypeVariables g' /\
  TypeVariables g' !! i = Some tv.
Proof.
  intros Hwf Hrun.
  pose proof (StepInvariant_and _ _ GraphWF_steps
                (grown_steps (TypeVariables g))) as St.
  assert (H0 : GraphWF g /\ grown (TypeVariables g) g)
    by (split; [done|unfold grown; reflexivity]).
  destruct (lookupNode_keeps cs _ St fuel [] tv g i g' H0 Hrun)
    as [[[Hwf' Hpre] _] _].
  split; [done|]. split; [done|].
  apply lookupNode_Done in Hrun
    as [(_ & -> & Hi)|(Hn & -> & fuel' & -> & Hrun)]; [done|].
  pose proof (grown_steps (TypeVariables g ++ [tv])) as St1.
  assert (H1 : grown (TypeVariables g ++ [tv]) (createNode tv g)).
  { unfold grown, createNode, recordChange.
    by destruct (ActiveScope _). }
  assert (Hg : grown (TypeVariables g ++ [tv]) g').
  { simpl in Hrun.
    destruct (bool_decide (tv ≠ getRepresentative cs tv)).
    - by destruct (mergeNodesWith_keeps cs _ St1 _ [] _ _ _ _
                     (lookupNode_keeps cs _ St1 fuel') H1 Hrun) as [? _].
    - destruct (getFixedType cs (getRepresentative cs tv)) as [fixed|].
      + by destruct (bindTypeVariableWith_keeps cs _ St1 _ [] _ _ _ _
                       (lookupNode_keeps cs _ St1 fuel') H1 Hrun) as [? _].
      + by subst g'. }
  destruct Hg as [k Hk]. rewrite Hk, <- app_assoc. by apply list_lookup_middle.
Qed.

(** X11: [lookupNode] only ever appends to the vector of type variables,
    and it returns the slot of the variable; once it has returned, looking
    the same variable up again is a pure read: it returns the same slot and
    leaves the graph, journal included, exactly as it is, whatever the
    recursion budget. *)
Theorem lookupNode_again cs fuel fuel' tv g i g' :
  GraphWF g -> lookupNode cs fuel tv g = Done (i, g') ->
  TypeVariables g `prefix_of` TypeVariables g' /\
  TypeVariables g' !! i = Some tv /\
  lookupNode cs fuel' tv g' = Done (i, g').
Proof.
  intros Hwf Hrun.
  destruct (lookupNode_grows cs fuel tv g i g' Hwf Hrun) as (Hwf' & Hpre & Hi).
  split; [done|]. split; [done|].
  assert (Hn : hasNode g' tv).
  { apply (wf_nodes g' Hwf'). by apply list_elem_of_lookup_2 in Hi. }
  destruct (lookupNode_existing cs fuel' g' tv Hwf' Hn) as (j & -> & Hj).
  by rewrite (NoDup_lookup _ _ _ _ (wf_nodup g' Hwf') Hi Hj).
Qed.

Lemma lookupNode_again_witness :
  let r := finished (0, emptyGraph) (lookupNode csMerged 2 3 graphPlain) in
  r.1 = 3 /\ TypeVariables r.2 = [0; 1; 2; 3] /\
  TypeVariables graphPlain `prefix_of` TypeVariables r.2 /\
  TypeVariables r.2 !! r.1 = Some 3 /\
  lookupNode csMerged 0 3 r.2 = Done (r.1, r.2).
Proof.
  intros r. split; [vm_compute; reflexivity|].
  split; [vm_compute; reflexivity|].
  assert (Hwf : GraphWF graphPlain).
  { apply (co_wf graphPlain).
    apply (Consistent_applyMutations csPlain 3
             [MAddConstraint 0; MAddConstraint 1] emptyGraph);
      [apply emptyGraph_Consistent|vm_compute; reflexivity]. }
  assert (Hrun : lookupNode csMerged 2 3 graphPlain = Done (r.1, r.2))
    by (vm_compute; reflexivity).
  exact (lookupNode_again csMerged 2 0 3 graphPlain r.1 r.2 Hwf Hrun).
Defined.

(** ** Binding and unbinding a type variable *)

Lemma keeps_pushPair tv other n1 n2 g :
  tv <> other -> Nodes g !! tv = Some n1 -> Nodes g !! other = Some n2 ->
  keeps exceptBindings g (pushPair tv other n1 n2 g).
Proof.
  intros Hne H1 H2. rewrite pushPair_twice. cbv zeta.
  split; [by repeat split|].
  eapply (nodesRelated_trans exceptBindings).
  - by apply (nodesRelated_insert exceptBindings other n2
                (setFixedBindings n2 (FixedBindings n2 ++ [tv])) g).
  - apply (nodesRelated_insert exceptBindings tv n1
             (setFixedBindings n1 (FixedBindings n1 ++ [other]))); [|done].
    simpl. by rewrite lookup_insert_ne.
Qed.

(** The loop of [bindTypeVariable] on nodes that exist: every list of
    fixed bindings grows by as many entries as are pushed on it. *)
Lemma bindLoop_existing cs fuel tv l :
  forall known g known' g',
    GraphWF g -> hasNode g tv -> (forall v, v ∈ l -> hasNode g v) ->
    forEach (bindStep (lookupNode cs fuel) tv) l (known, g)
      = Done (known', g') ->
    keeps exceptBindings g g' /\
    OrphanedConstraints g' = OrphanedConstraints g /\
    forall u, exists added,
      fixedBindingsOf g' u = fixedBindingsOf g u ++ added /\
      length added = pushCount u (bindPushes tv l known).
Proof.
  induction l as [|x l IH]; intros known g known' g' Hwf Htv Hl Hrun.
  { injection Hrun as <- <-. split; [apply keeps_refl|]. split; [done|].
    intros u. exists []. by rewrite app_nil_r. }
  simpl in Hrun. apply bind_Done in Hrun as ([k1 g1] & Hstep & Hrun).
  assert (Hl' : forall v, v ∈ l -> hasNode g v)
    by (intros v Hv; apply Hl; set_solver).
  apply bindStep_Done in Hstep
    as [(Hk & -> & ->)|(Hk & -> & [[Hx ->]|(Hx & i1 & gl & n1 & n2 & L & H1
                                           & H2 & ->)])].
  - simpl. rewrite (bool_decide_eq_true_2 _ Hk).
    by apply (IH known g known' g').
  - simpl. rewrite (bool_decide_eq_false_2 _ Hk).
    rewrite (bool_decide_eq_true_2 _ Hx). simpl.
    by apply (IH ({[x]} ∪ known) g known' g').
  - apply lookupNode_existing_inv in L as [-> _];
      [|apply Hl; set_solver].
    pose proof (keeps_pushPair tv x n1 n2 g Hx H1 H2) as K1.
    destruct (IH ({[x]} ∪ known) (pushPair tv x n1 n2 g) known' g')
      as (K & O & F); [| | |done|].
    + by apply GraphWF_pushPair.
    + by apply (keeps_hasNode exceptBindings g).
    + intros v Hv. apply (keeps_hasNode exceptBindings g); auto.
    + split; [by apply (keeps_trans _ g (pushPair tv x n1 n2 g))|].
      split; [done|]. intros u. destruct (F u) as (added & Ha & Hlen).
      rewrite (fixedBindingsOf_pushPair tv x n1 n2 g u Hx H1 H2) in Ha.
      eexists. split; [by rewrite Ha, <- app_assoc|].
      simpl bindPushes. rewrite (bool_decide_eq_false_2 _ Hk).
      rewrite (bool_decide_eq_false_2 _ Hx).
      rewrite length_app, pushCount_app, pushCount_pair, Hlen.
      repeat case_bool_decide; subst; simpl; try done; lia.
Qed.

Lemma node_fields_eq n n' :
  exceptBindings n' = exceptBindings n -> FixedBindings n' = FixedBindings n ->
  n' = n.
Proof.
  destruct n, n'. unfold exceptBindings. simpl. intros [= -> -> -> ->] ->.
  done.
Qed.

(** X12: when the fixed type does not mention the bound variable and the
    variables involved have nodes, [unbindTypeVariable] exactly reverses
    [bindTypeVariable]: called on the graph that the bind left, with the
    same arguments, it returns the graph as it was before the bind, apart
    from the journal entry that the bind recorded under an active scope. *)
Theorem bindTypeVariable_then_unbind cs fuel fuel' tv fixed g g1 :
  GraphWF g -> hasNode g tv ->
  (forall v, v ∈ typeVariablesIn fixed -> hasNode g v) ->
  tv ∉ typeVariablesIn fixed ->
  bindTypeVariable cs fuel tv fixed g = Done g1 ->
  unbindTypeVariable cs fuel' tv fixed g1 = Done (setChanges g (Changes g1)).
Proof.
  intros Hwf Htv Hl Hself Hrun.
  apply bindTypeVariableWith_Done in Hrun
    as [[Hhas ->]|(Hhas & i1 & ga & known & g2 & L & Hloop & ->)].
  { unfold unbindTypeVariable. rewrite Hhas. simpl. by destruct g. }
  apply lookupNode_existing_inv in L as [-> _]; [|done].
  destruct (bindLoop_existing cs fuel tv _ _ _ _ _ Hwf Htv Hl Hloop)
    as (K & O & F).
  set (g1 := recordChange (BoundTypeVariable tv fixed) g2).
  assert (HN1 : Nodes g1 = Nodes g2)
    by (unfold g1, recordChange; by destruct (ActiveScope g2)).
  assert (Hfb1 : forall u, fixedBindingsOf g1 u = fixedBindingsOf g2 u)
    by (intros u; unfold fixedBindingsOf; by rewrite HN1).
  assert (Hn1 : forall u, hasNode g1 u <-> hasNode g u).
  { intros u. unfold hasNode at 1. rewrite HN1.
    apply (keeps_hasNode exceptBindings g g2 u K). }
  destruct K as [(KT & KI & KC & KS) KN].
  assert (HT1 : TypeVariables g1 = TypeVariables g).
  { rewrite <- KT. unfold g1, recordChange. by destruct (ActiveScope g2). }
  assert (HI1 : GraphIndex g1 = GraphIndex g).
  { rewrite <- KI. unfold g1, recordChange. by destruct (ActiveScope g2). }
  assert (HS1 : ActiveScope g1 = ActiveScope g)
    by (unfold g1; by rewrite recordChange_ActiveScope).
  assert (HO1 : OrphanedConstraints g1 = OrphanedConstraints g).
  { rewrite <- O. unfold g1, recordChange. by destruct (ActiveScope g2). }
  assert (Hwf1 : GraphWF g1) by (by apply (GraphWF_frame g)).
  destruct (unbindTypeVariable_total cs fuel' tv fixed g1 Hwf1)
    as (g3 & Hun & Hfb3).
  { by apply Hn1. }
  { intros v Hv. by apply Hn1, Hl. }
  { done. }
  { intros u. destruct (F u) as (added & Ha & Hlen).
    rewrite Hfb1, Ha, length_app. unfold pushesOf. lia. }
  rewrite Hun. f_equal.
  destruct (unbindTypeVariable_keeps cs fuel' tv fixed g1 g3)
    as ([(UT & UI & UC & US) UN] & UO); [by apply Hn1| |done|].
  { intros v Hv. by apply Hn1, Hl. }
  assert (HN3 : Nodes g3 = Nodes g).
  { apply map_eq. intros u.
    pose proof (Hfb3 u) as Hu. destruct (F u) as (added & Ha & Hlen).
    rewrite Hfb1, Ha, length_app in Hu. unfold pushesOf in Hu.
    rewrite <- Hlen in Hu.
    replace (length (fixedBindingsOf g u) + length added - length added)
      with (length (fixedBindingsOf g u)) in Hu by lia.
    rewrite take_app_length in Hu.
    specialize (KN u). specialize (UN u). rewrite HN1 in UN.
    unfold fixedBindingsOf in Hu.
    destruct KN as [n n2 Hn2|]; inversion UN as [? n3 Hn3 E2 E3|];
      subst; [|done].
    rewrite <- E3 in Hu. f_equal. apply node_fields_eq; [|done].
    unfold agree in *. congruence. }
  destruct g3 as [N3 I3 T3 O3 S3 C3]. simpl in *. unfold setChanges.
  simpl. congruence.
Qed.

Lemma hasNodes_checked g (l : list TypeVariableType) :
  forallb (hasNodeb g) l = true -> forall v, v ∈ l -> hasNode g v.
Proof.
  intros Hb v Hv. rewrite forallb_forall in Hb.
  apply list_elem_of_In, Hb in Hv. unfold hasNodeb in Hv.
  by apply bool_decide_eq_true in Hv.
Qed.

Lemma graphPlain_Consistent : Consistent graphPlain.
Proof.
  apply (Consistent_applyMutations csPlain 3
           [MAddConstraint 0; MAddConstraint 1] emptyGraph);
    [apply emptyGraph_Consistent|vm_compute; reflexivity].
Qed.

Lemma bindTypeVariable_then_unbind_witness :
  let fixed := TyFunction (TyVar 1) (TyFunction (TyVar 2) (TyVar 1)) in
  let g := (openScope graphPlain).2 in
  let g1 := finished emptyGraph (bindTypeVariable csPlain 3 0 fixed g) in
  (fixedBindingsOf g1 0 = [1; 2] /\ fixedBindingsOf g1 1 = [0] /\
   Changes g1 = [BoundTypeVariable 0 fixed]) /\
  unbindTypeVariable csPlain 0 0 fixed g1 = Done (setChanges g (Changes g1)).
Proof.
  intros fixed g g1. split; [vm_compute; auto|].
  assert (Hwf : GraphWF g).
  { apply (co_wf g), Consistent_openScope, graphPlain_Consistent. }
  assert (Hall : forallb (hasNodeb g) (0 :: typeVariablesIn fixed) = true)
    by (vm_compute; reflexivity).
  pose proof (hasNodes_checked g _ Hall) as Hn.
  assert (Hself : 0 ∉ typeVariablesIn fixed).
  { apply (bool_decide_unpack _). vm_compute. exact I. }
  assert (Hrun : bindTypeVariable csPlain 3 0 fixed g = Done g1)
    by (vm_compute; reflexivity).
  apply (bindTypeVariable_then_unbind csPlain 3 0 0 fixed g g1 Hwf);
    [apply Hn; apply list_elem_of_here
    |intros v Hv; apply Hn; by apply list_elem_of_further
    |exact Hself|exact Hrun].
Defined.

(** ** The layout of the reported components *)

Lemma filter_ext_in {A} (P Q : A -> Prop) `{!forall x, Decision (P x)}
    `{!forall x, Decision (Q x)} (l : list A) :
  (forall x, x ∈ l -> P x <-> Q x) -> filter P l = filter Q l.
Proof.
  induction l as [|x l IH]; intros Hext; [done|].
  rewrite !filter_cons.
  rewrite IH by (intros y Hy; apply Hext; by apply list_elem_of_further).
  pose proof (Hext x (list_elem_of_here x l)) as Hx.
  destruct (decide (P x)) as [HP|HP], (decide (Q x)) as [HQ|HQ]; try done;
    exfalso; tauto.
Qed.

Lemma filter_none {A} (P : A -> Prop) `{!forall x, Decision (P x)}
    (l : list A) :
  (forall x, x ∈ l -> ~ P x) -> filter P l = [].
Proof.
  induction l as [|x l IH]; intros Hno; [done|].
  rewrite filter_cons_False by (apply Hno; apply list_elem_of_here).
  apply IH. intros y Hy. apply Hno. by apply list_elem_of_further.
Qed.

(** What the second loop of [getComponents] keeps of the components built
    so far, [pre] being the input variables already seen and [g1] the
    graph. *)
Record layout (g1 : ConstraintGraph) (pre : list TypeVariableType)
    (comps : list Component) (known : gset Constraint) : Prop := {
  la_vars : forall i comp, comps !! i = Some comp ->
    typeVars comp = filter (fun v => v ∈ typeVars comp) pre;
  la_known : forall c, c ∈ known <->
    exists i comp, comps !! i = Some comp /\ c ∈ constraints comp;
  la_nodup : forall i comp, comps !! i = Some comp -> NoDup (constraints comp);
  la_apart : forall i j ci cj c,
    comps !! i = Some ci -> comps !! j = Some cj ->
    c ∈ constraints ci -> c ∈ constraints cj -> i = j;
  la_from : forall i comp c,
    comps !! i = Some comp -> c ∈ constraints comp ->
    exists v, v ∈ typeVars comp /\ c ∈ constraintsOf g1 v;
  la_all : forall i comp v c,
    comps !! i = Some comp -> v ∈ typeVars comp -> c ∈ constraintsOf g1 v ->
    c ∈ known;
}.

Lemma layout_nil g1 : layout g1 [] [] ∅.
Proof.
  split; try (intros i comp; by rewrite lookup_nil).
  intros c. split; [set_solver|]. intros (i & comp & Hi & _).
  by rewrite lookup_nil in Hi.
Qed.

Lemma lookup_snoc_empty (comps : list Component) i comp :
  (comps ++ [emptyComponent]) !! i = Some comp ->
  comps !! i = Some comp \/ (i = length comps /\ comp = emptyComponent).
Proof.
  intros Hi. apply lookup_app_Some in Hi as [Hi|[Hlen Hi]]; [by left|].
  apply list_lookup_singleton_Some in Hi as [Hi <-]. right. split; [lia|done].
Qed.

Lemma layout_snoc_empty g1 pre comps known :
  layout g1 pre comps known ->
  layout g1 pre (comps ++ [emptyComponent]) known.
Proof.
  intros [Hv Hk Hnd Hap Hfrom Hall]. split.
  - intros i comp Hi. apply lookup_snoc_empty in Hi as [Hi|[_ ->]]; [eauto|].
    simpl. symmetry. apply filter_none. intros x _ Hx.
    by apply elem_of_nil in Hx.
  - intros c. rewrite Hk. split; intros (i & comp & Hi & Hc).
    + exists i, comp. split; [by apply lookup_app_l_Some|done].
    + apply lookup_snoc_empty in Hi as [Hi|[_ ->]]; [eauto|].
      by apply elem_of_nil in Hc.
  - intros i comp Hi. apply lookup_snoc_empty in Hi as [Hi|[_ ->]]; [eauto|].
    apply NoDup_nil_2.
  - intros i j ci cj c Hi Hj Hci Hcj.
    apply lookup_snoc_empty in Hi as [Hi|[_ ->]];
      [|by apply elem_of_nil in Hci].
    apply lookup_snoc_empty in Hj as [Hj|[_ ->]];
      [|by apply elem_of_nil in Hcj].
    eauto.
  - intros i comp c Hi Hc.
    apply lookup_snoc_empty in Hi as [Hi|[_ ->]]; [eauto|].
    by apply elem_of_nil in Hc.
  - intros i comp v c Hi Hv'.
    apply lookup_snoc_empty in Hi as [Hi|[_ ->]]; [eauto|].
    by apply elem_of_nil in Hv'.
Qed.

Lemma layout_skip g1 pre v comps known :
  (forall i comp, comps !! i = Some comp -> v ∉ typeVars comp) ->
  layout g1 pre comps known -> layout g1 (pre ++ [v]) comps known.
Proof.
  intros Hout [Hv Hk Hnd Hap Hfrom Hall]. split; try done.
  intros i comp Hi. rewrite filter_app, <- (Hv i comp Hi).
  rewrite filter_cons_False by eauto. by rewrite filter_nil, app_nil_r.
Qed.

Lemma layout_place g1 pre v comps known idx comp0 new :
  layout g1 pre comps known ->
  comps !! idx = Some comp0 ->
  (forall j comp, comps !! j = Some comp -> j <> idx -> v ∉ typeVars comp) ->
  (v ∈ pre -> v ∈ typeVars comp0) ->
  NoDup new ->
  (forall c, c ∈ new <-> c ∈ constraintsOf g1 v /\ c ∉ known) ->
  layout g1 (pre ++ [v])
    (<[idx := {| typeVars := typeVars comp0 ++ [v];
                 constraints := constraints comp0 ++ new;
                 oneWayComponents := oneWayComponents comp0 |}]> comps)
    (known ∪ list_to_set (constraintsOf g1 v)).
Proof.
  intros [Hv Hk Hnd Hap Hfrom Hall] H0 Hout Hseen Hnew Hin.
  assert (Hlt : idx < length comps) by (by apply lookup_lt_Some in H0).
  assert (Hold : forall c, c ∈ constraints comp0 -> c ∈ known)
    by (intros c Hc; apply Hk; eauto).
  split.
  - intros i comp Hi. destruct (decide (idx = i)) as [<-|Hne].
    + rewrite list_lookup_insert_eq in Hi by done. injection Hi as <-. simpl.
      rewrite filter_app, filter_cons_True by set_solver.
      rewrite filter_nil. f_equal.
      rewrite (Hv idx comp0 H0) at 1. apply filter_ext_in.
      intros x Hx. rewrite elem_of_app, list_elem_of_singleton.
      split; [auto|]. intros [Hx0| ->]; auto.
    + rewrite list_lookup_insert_ne in Hi by done.
      rewrite filter_app, <- (Hv i comp Hi).
      rewrite filter_cons_False by eauto. by rewrite filter_nil, app_nil_r.
  - intros c. rewrite elem_of_union, elem_of_list_to_set. split.
    + intros Hc. destruct (decide (c ∈ known)) as [Hck|Hck].
      * apply Hk in Hck as (i & comp & Hi & Hci).
        destruct (decide (idx = i)) as [<-|Hne].
        -- eexists idx, _. rewrite list_lookup_insert_eq by done.
           split; [done|]. simpl. assert (comp = comp0) as -> by congruence.
           set_solver.
        -- exists i, comp. by rewrite list_lookup_insert_ne.
      * destruct Hc as [Hc|Hc]; [done|].
        eexists idx, _. rewrite list_lookup_insert_eq by done.
        split; [done|]. simpl. apply elem_of_app. right. by apply Hin.
    + intros (i & comp & Hi & Hci).
      destruct (decide (idx = i)) as [<-|Hne].
      * rewrite list_lookup_insert_eq in Hi by done. injection Hi as <-.
        simpl in Hci. apply elem_of_app in Hci as [Hci|Hci]; [auto|].
        right. by apply Hin in Hci as [? _].
      * rewrite list_lookup_insert_ne in Hi by done. left. apply Hk. eauto.
  - intros i comp Hi. destruct (decide (idx = i)) as [<-|Hne].
    + rewrite list_lookup_insert_eq in Hi by done. injection Hi as <-. simpl.
      apply NoDup_app. split; [eauto|]. split; [|done].
      intros c Hc Hc'. apply Hin in Hc' as [_ Hc']. auto.
    + rewrite list_lookup_insert_ne in Hi by done. eauto.
  - intros i j ci cj c Hi Hj Hci Hcj.
    destruct (decide (idx = i)) as [<-|Hni];
      destruct (decide (idx = j)) as [<-|Hnj]; [done| | |].
    + rewrite list_lookup_insert_eq in Hi by done. injection Hi as <-.
      rewrite list_lookup_insert_ne in Hj by done. simpl in Hci.
      apply elem_of_app in Hci as [Hci|Hci]; [eauto|].
      apply Hin in Hci as [_ Hci]. exfalso. apply Hci, Hk. eauto.
    + rewrite list_lookup_insert_eq in Hj by done. injection Hj as <-.
      rewrite list_lookup_insert_ne in Hi by done. simpl in Hcj.
      apply elem_of_app in Hcj as [Hcj|Hcj]; [eauto|].
      apply Hin in Hcj as [_ Hcj]. exfalso. apply Hcj, Hk. eauto.
    + rewrite list_lookup_insert_ne in Hi, Hj by done. eauto.
  - intros i comp c Hi Hc. destruct (decide (idx = i)) as [<-|Hne].
    + rewrite list_lookup_insert_eq in Hi by done. injection Hi as <-.
      simpl in *. apply elem_of_app in Hc as [Hc|Hc].
      * destruct (Hfrom idx comp0 c H0 Hc) as (u & Hu & Hcu).
        exists u. split; [set_solver|done].
      * exists v. split; [set_solver|]. by apply Hin in Hc as [? _].
    + rewrite list_lookup_insert_ne in Hi by done. eauto.
  - intros i comp u c Hi Hu Hc. rewrite elem_of_union, elem_of_list_to_set.
    destruct (decide (idx = i)) as [<-|Hne].
    + rewrite list_lookup_insert_eq in Hi by done. injection Hi as <-.
      simpl in Hu. apply elem_of_app in Hu as [Hu|Hu]; [left; eauto|].
      apply list_elem_of_singleton in Hu. subst u. by right.
    + rewrite list_lookup_insert_ne in Hi by done. left. eauto.
Qed.

(** The constraints that the inner loop of [getComponents] appends. *)
Lemma assignConstraintLoop_Done l :
  forall known comp known' comp',
    forEach assignConstraintStep l (known, comp) = Done (known', comp') ->
    exists new,
      comp' = {| typeVars := typeVars comp;
                 constraints := constraints comp ++ new;
                 oneWayComponents := oneWayComponents comp |} /\
      known' = known ∪ list_to_set l /\ NoDup new /\
      forall c, c ∈ new <-> c ∈ l /\ c ∉ known.
Proof.
  induction l as [|x l IH]; intros known comp known' comp' Hrun.
  { injection Hrun as <- <-. exists []. rewrite app_nil_r.
    split; [by destruct comp|]. split; [set_solver|].
    split; [apply NoDup_nil_2|]. set_solver. }
  simpl in Hrun. apply bind_Done in Hrun as ([k1 c1] & Hstep & Hrun).
  unfold assignConstraintStep in Hstep. simpl in Hstep.
  destruct (IH k1 c1 known' comp' Hrun) as (new & -> & -> & Hnd & Hnew).
  case_bool_decide as Hx; injection Hstep as <- <-.
  - exists new. split; [done|]. split; [set_solver|]. split; [done|].
    intros c. rewrite Hnew. set_solver.
  - exists (x :: new). simpl. rewrite <- app_assoc. split; [done|].
    split; [set_solver|]. split.
    + apply NoDup_cons. split; [|done]. rewrite Hnew. set_solver.
    + intros c. rewrite elem_of_cons, Hnew.
      destruct (decide (c = x)) as [->|Hne]; set_solver.
Qed.

Lemma assignStep_layout cs fuel reps0 g1 unbound pre v st st' :
  descending reps0 -> hasNode g1 v ->
  AssignInv reps0 g1 unbound pre st ->
  layout g1 pre (components st) (knownConstraints st) ->
  assignStep cs fuel unbound v st = Done st' ->
  layout g1 (pre ++ [v]) (components st') (knownConstraints st').
Proof.
  intros Hd0 Hnv [Hg Hc Hsz Hrange Hinj Hmem Hpl Hne] Hlay Hrun.
  unfold assignStep in Hrun.
  apply bind_Done in Hrun as ([rep reps] & F & Hrun).
  destruct (compressed_find fuel v _ rep reps (proj1 Hc) F) as [_ Hrep].
  apply Hc in Hrep.
  assert (Hidx : forall i comp, components st !! i = Some comp ->
            v ∈ typeVars comp ->
            componentIdxMap st !! rep = Some i /\ rep ∈ unbound).
  { intros i comp Hi Hv. destruct (Hmem i comp v Hi Hv) as (_ & r & Hr & Hroot).
    rewrite (rootsTo_functional reps0 v rep r Hrep Hroot).
    split; [done|]. by apply (Hrange r i). }
  case_bool_decide as HU; simpl in Hrun.
  2:{ injection Hrun as <-. simpl. apply layout_skip; [|done].
      intros i comp Hi Hv. by destruct (Hidx i comp Hi Hv). }
  destruct (componentIdxMap st !! rep) as [idx|] eqn:Hlook; simpl in Hrun.
  - apply bind_Done in Hrun as (comp0 & H0 & Hrun).
    apply fromOption_Done in H0.
    apply bind_Done in Hrun as ([i g2] & L & Hrun). simpl in L.
    rewrite Hg in L. apply (lookupNode_existing_inv _ _ _ _ _ _ Hnv) in L
      as [-> _].
    apply bind_Done in Hrun as (ncs & Hncs & Hrun).
    apply getConstraints_Done in Hncs as [_ ->].
    apply bind_Done in Hrun as ([known comp'] & Hloop & Hrun).
    apply assignConstraintLoop_Done in Hloop as (new & -> & -> & Hnd & Hnew).
    injection Hrun as <-. simpl.
    apply (layout_place g1 pre v _ _ idx comp0 new); try done.
    + intros j comp Hj Hnj Hv. destruct (Hidx j comp Hj Hv). congruence.
    + intros Hv. destruct (Hpl v rep Hv Hrep HU) as (i' & comp & Hi' & Hci & Hvi).
      congruence.
  - rewrite Hsz in Hrun.
    rewrite (list_lookup_middle (components st) [] emptyComponent _ eq_refl)
      in Hrun. simpl in Hrun.
    apply bind_Done in Hrun as ([i g2] & L & Hrun). simpl in L.
    rewrite Hg in L. apply (lookupNode_existing_inv _ _ _ _ _ _ Hnv) in L
      as [-> _].
    apply bind_Done in Hrun as (ncs & Hncs & Hrun).
    apply getConstraints_Done in Hncs as [_ ->].
    apply bind_Done in Hrun as ([known comp'] & Hloop & Hrun).
    apply assignConstraintLoop_Done in Hloop as (new & -> & -> & Hnd & Hnew).
    injection Hrun as <-. simpl.
    apply (layout_place g1 pre v _ _ (length (components st)) emptyComponent
             new); try done.
    + by apply layout_snoc_empty.
    + by apply list_lookup_middle.
    + intros j comp Hj Hnj Hv.
      apply lookup_snoc_empty in Hj as [Hj|[Hj _]]; [|done].
      destruct (Hidx j comp Hj Hv). congruence.
    + intros Hv. destruct (Hpl v rep Hv Hrep HU) as (i' & comp & Hi' & _).
      congruence.
Qed.

Lemma forEach2_preserves {A B X} (f : B -> X) (body : A -> B -> Res B)
    (l : list A) (k k' : list B) :
  (forall x y y', body x y = Done y' -> f y' = f y) ->
  forEach2 body l k = Done k' -> map f k' = map f k.
Proof.
  intros Hbody. revert k k'.
  induction l as [|x l IH]; intros [|y k] k' Hrun; simpl in Hrun;
    try (by injection Hrun as <-); try discriminate.
  apply bind_Done in Hrun as (y' & Hy & Hrun).
  apply bind_Done in Hrun as (k'' & Hk & Hrun). injection Hrun as <-.
  simpl. by rewrite (Hbody x y y' Hy), (IH k k'' Hk).
Qed.

Lemma populateComponent_lists fuel digraph order comp comp' :
  populateComponent fuel digraph order comp = Done comp' ->
  (typeVars comp', constraints comp') = (typeVars comp, constraints comp).
Proof.
  unfold populateComponent. destruct order; [by intros [= <-]|].
  intros Hrun. apply bind_Done in Hrun as ([idxs owcs] & _ & Hrun).
  by injection Hrun as <-.
Qed.

Section ComponentsLayout.

Context (cs : ConstraintSystem) (fuel : nat).
Context (V : list TypeVariableType) (g : ConstraintGraph).
Hypothesis nodesOfV :
  forall v, v ∈ V -> hasNode g v /\ hasNode g (getRepresentative cs v).

Lemma getComponents_layout cc comps cc' :
  descending (representatives cc) ->
  (forall v, v ∈ V -> hasNode (cg cc) v) ->
  getComponents cs fuel V cc = Done (comps, cc') ->
  exists unbound st,
    AssignInv (representatives cc) (cg cc) unbound V st /\
    layout (cg cc) V (components st) (knownConstraints st) /\
    map (fun comp => (typeVars comp, constraints comp)) comps =
    map (fun comp => (typeVars comp, constraints comp)) (components st).
Proof using All.
  intros Hd Hn Hrun. unfold getComponents in Hrun.
  apply bind_Done in Hrun as ([unbound reps1] & HU & Hrun).
  destruct (unboundLoop_spec cs fuel V g nodesOfV _ _ _ Hd HU) as [Hc1 _].
  apply bind_Done in Hrun as (st & Hloop & Hrun).
  assert (Hinv : AssignInv (representatives cc) (cg cc) unbound V st /\
                 layout (cg cc) V (components st) (knownConstraints st)).
  { apply (forEach_prefix_invariant
             (fun pre s =>
                (AssignInv (representatives cc) (cg cc) unbound pre s /\
                 layout (cg cc) pre (components s) (knownConstraints s))
                /\ pre `prefix_of` V)) in Hloop; [apply Hloop| |].
    - split; [|apply prefix_nil]. split; [|apply layout_nil]. split; simpl.
      + done.
      + done.
      + by rewrite map_size_empty.
      + intros r i Hr. by rewrite lookup_empty in Hr.
      + intros r r' i Hr. by rewrite lookup_empty in Hr.
      + intros i comp tv Hi. by rewrite lookup_nil in Hi.
      + intros v r Hv. by apply elem_of_nil in Hv.
      + intros i comp Hi. by rewrite lookup_nil in Hi.
    - intros pre v s1 s2 Hpre [[I1 L1] _] Hstep. split; [|done].
      assert (Hnv : hasNode (cg cc) v).
      { apply Hn. destruct Hpre as [k ->]. set_solver. }
      split.
      + by apply (assignStep_spec cs fuel V g nodesOfV _ _ _ pre v s1 s2 Hd).
      + by apply (assignStep_layout cs fuel (representatives cc) (cg cc)
                    unbound pre v s1 s2 Hd). }
  destruct Hinv as [Hinv Hlay]. exists unbound, st.
  split; [done|]. split; [done|].
  case_bool_decide as Hdg.
  - by injection Hrun as <- <-.
  - unfold populateOneWayComponentDependencies in Hrun.
    apply bind_Done in Hrun as ([reps2 orders] & _ & Hrun).
    apply bind_Done in Hrun as (comps2 & Hpop & Hrun).
    injection Hrun as <- <-.
    apply (forEach2_preserves _ _ _ _ _ (populateComponent_lists fuel _) Hpop).
Qed.

End ComponentsLayout.

Lemma lookup_map_pair (comps comps' : list Component) i comp :
  map (fun comp => (typeVars comp, constraints comp)) comps =
  map (fun comp => (typeVars comp, constraints comp)) comps' ->
  comps !! i = Some comp ->
  exists comp', comps' !! i = Some comp' /\
    typeVars comp' = typeVars comp /\ constraints comp' = constraints comp.
Proof.
  intros Hmap Hi.
  assert (Hi' : map (fun comp => (typeVars comp, constraints comp)) comps !! i
                = Some (typeVars comp, constraints comp))
    by (by rewrite list_lookup_fmap, Hi).
  rewrite Hmap, list_lookup_fmap in Hi'.
  destruct (comps' !! i) as [comp'|]; [|done].
  injection Hi' as H1 H2. eauto.
Qed.

Lemma computeConnectedComponents_layout cs fuel V g comps g' :
  (forall v, v ∈ V -> hasNode g v /\ hasNode g (getRepresentative cs v)) ->
  computeConnectedComponents cs fuel V g = Done (comps, g') ->
  (forall i comp, comps !! i = Some comp ->
     typeVars comp = filter (fun v => v ∈ typeVars comp) V) /\
  (forall i j ci cj v, comps !! i = Some ci -> comps !! j = Some cj ->
     v ∈ typeVars ci -> v ∈ typeVars cj -> i = j) /\
  (forall i comp, comps !! i = Some comp -> NoDup (constraints comp)) /\
  (forall i j ci cj c, comps !! i = Some ci -> comps !! j = Some cj ->
     c ∈ constraints ci -> c ∈ constraints cj -> i = j) /\
  (forall i comp c, comps !! i = Some comp -> c ∈ constraints comp ->
     exists v, v ∈ typeVars comp /\ c ∈ constraintsOf g v) /\
  (forall i comp v c, comps !! i = Some comp -> v ∈ typeVars comp ->
     c ∈ constraintsOf g v ->
     exists j cj, comps !! j = Some cj /\ c ∈ constraints cj /\
       ((forall u, u ∈ V -> c ∈ constraintsOf g u ->
                   u ∈ getTypeVariables cs c) -> j = i)).
Proof.
  intros nodesOfV Hrun. unfold computeConnectedComponents in Hrun.
  apply bind_Done in Hrun as (cc & Hmake & Hrun).
  apply bind_Done in Hrun as ([comps1 cc1] & Hget & Hrun).
  injection Hrun as -> <-.
  destruct (makeConnectedComponents_spec cs fuel V g nodesOfV cc Hmake)
    as (Hg & Hd & Hsets).
  assert (Hn1 : forall v, v ∈ V -> hasNode (cg cc) v).
  { intros v Hv. apply (sameGraph_hasNode g _ _ Hg). by apply nodesOfV. }
  destruct (getComponents_layout cs fuel V g nodesOfV cc comps cc1 Hd Hn1 Hget)
    as (unbound & st & [_ _ _ Hrange Hinj Hmem Hpl _]
        & [Lv Lk Lnd Lap Lfrom Lall] & Hmap).
  assert (Hsym : map (fun comp => (typeVars comp, constraints comp))
                   (components st) =
                 map (fun comp => (typeVars comp, constraints comp)) comps)
    by done.
  assert (Hco : forall v, constraintsOf (cg cc) v = constraintsOf g v)
    by (intros v; symmetry; by apply sameGraph_constraintsOf).
  assert (Hslot : forall i comp v, components st !! i = Some comp ->
            v ∈ typeVars comp ->
            v ∈ V /\ exists r, componentIdxMap st !! r = Some i /\
                               rootsTo (representatives cc) v r)
    by (intros i comp v; apply Hmem).
  split; [|split; [|split; [|split; [|split]]]].
  - intros i comp Hi.
    destruct (lookup_map_pair _ _ i comp Hmap Hi) as (comp' & Hi' & <- & _).
    eauto.
  - intros i j ci cj v Hi Hj Hvi Hvj.
    destruct (lookup_map_pair _ _ i ci Hmap Hi) as (ci' & Hi' & Ei & _).
    destruct (lookup_map_pair _ _ j cj Hmap Hj) as (cj' & Hj' & Ej & _).
    rewrite <- Ei in Hvi. rewrite <- Ej in Hvj.
    destruct (Hslot i ci' v Hi' Hvi) as (_ & r & Hr & Hroot).
    destruct (Hslot j cj' v Hj' Hvj) as (_ & r' & Hr' & Hroot').
    rewrite (rootsTo_functional _ v r r' Hroot Hroot') in Hr. congruence.
  - intros i comp Hi.
    destruct (lookup_map_pair _ _ i comp Hmap Hi) as (comp' & Hi' & _ & <-).
    eauto.
  - intros i j ci cj c Hi Hj Hci Hcj.
    destruct (lookup_map_pair _ _ i ci Hmap Hi) as (ci' & Hi' & _ & Ei).
    destruct (lookup_map_pair _ _ j cj Hmap Hj) as (cj' & Hj' & _ & Ej).
    rewrite <- Ei in Hci. rewrite <- Ej in Hcj. eauto.
  - intros i comp c Hi Hc.
    destruct (lookup_map_pair _ _ i comp Hmap Hi) as (comp' & Hi' & Ev & Ec).
    rewrite <- Ec in Hc. destruct (Lfrom i comp' c Hi' Hc) as (v & Hv & Hcv).
    exists v. by rewrite <- Ev, <- Hco.
  - intros i comp v c Hi Hv Hc.
    destruct (lookup_map_pair _ _ i comp Hmap Hi) as (comp' & Hi' & Ev & Ec).
    rewrite <- Ev in Hv. rewrite <- Hco in Hc.
    pose proof (Lall i comp' v c Hi' Hv Hc) as Hknown.
    apply Lk in Hknown as (j & cj' & Hj' & Hcj').
    destruct (lookup_map_pair _ _ j cj' Hsym Hj') as (cj & Hj & Ejv & Ejc).
    exists j, cj. split; [done|]. split; [by rewrite Ejc|].
    intros Hinc.
    destruct (Lfrom j cj' c Hj' Hcj') as (w & Hw & Hcw).
    destruct (Hslot i comp' v Hi' Hv) as (HvV & r & Hr & Hroot).
    destruct (Hslot j cj' w Hj' Hw) as (HwV & r' & Hr' & Hroot').
    rewrite Hco in Hc, Hcw.
    assert (Hsame : sameSet (representatives cc) v w).
    { apply Hsets. apply rtsc_lr. exists v. split; [done|].
      right. right. exists c. auto. }
    destruct Hsame as (s & Hs & Hs').
    rewrite (rootsTo_functional _ v r s Hroot Hs) in Hr.
    rewrite (rootsTo_functional _ w r' s Hroot' Hs') in Hr'. congruence.
Qed.

(** X13: each reported component lists the input variables that belong to
    it in the order of the input, as often as the input names them, and no
    variable belongs to two components. *)
Theorem computeConnectedComponents_variables cs fuel V g comps g' :
  (forall v, v ∈ V -> hasNode g v /\ hasNode g (getRepresentative cs v)) ->
  computeConnectedComponents cs fuel V g = Done (comps, g') ->
  (forall i comp, comps !! i = Some comp ->
     typeVars comp = filter (fun v => v ∈ typeVars comp) V) /\
  (forall i j ci cj v, comps !! i = Some ci -> comps !! j = Some cj ->
     v ∈ typeVars ci -> v ∈ typeVars cj -> i = j).
Proof.
  intros Hn Hrun.
  destruct (computeConnectedComponents_layout cs fuel V g comps g' Hn Hrun)
    as (H1 & H2 & _). by split.
Qed.

(** Two pairs of variables, the first pair sharing two constraints. *)
Definition csPairs : ConstraintSystem :=
  tableCS [(Equal, TyVar 0, TyVar 2); (Equal, TyVar 1, TyVar 3);
           (Bind, TyVar 2, TyVar 0)]
          (fun tv => tv) (fun _ => None).

Definition graphPairs : ConstraintGraph :=
  finished emptyGraph
    (applyMutations csPairs 4
       [MAddConstraint 0; MAddConstraint 1; MAddConstraint 2] emptyGraph).

Lemma computeConnectedComponents_variables_witness :
  let V := [3; 2; 1; 0; 2] in
  let result :=
    finished ([], emptyGraph)
      (computeConnectedComponents csPairs 4 V graphPairs) in
  map typeVars result.1 = [[3; 1]; [2; 0; 2]] /\
  (forall i comp, result.1 !! i = Some comp ->
     typeVars comp = filter (fun v => v ∈ typeVars comp) V) /\
  (forall i j ci cj v, result.1 !! i = Some ci -> result.1 !! j = Some cj ->
     v ∈ typeVars ci -> v ∈ typeVars cj -> i = j).
Proof.
  intros V result. split; [vm_compute; reflexivity|].
  assert (Hrun : computeConnectedComponents csPairs 4 V graphPairs
                 = Done (result.1, result.2)) by (vm_compute; reflexivity).
  assert (Hn : forallb (fun v => hasNodeb graphPairs v &&
                          hasNodeb graphPairs (getRepresentative csPairs v))
                 V = true) by (vm_compute; reflexivity).
  exact (computeConnectedComponents_variables csPairs 4 V graphPairs
           result.1 result.2 (nodesOf_checked csPairs graphPairs V Hn) Hrun).
Defined.

(** X14: no constraint is listed twice in the reported components, neither
    within one component nor in two of them; every listed constraint comes
    from the node of a variable of its component, and every constraint of
    the node of a reported variable is listed, in the component of that
    variable when the constraints of the input variables' nodes mention
    their variable. *)
Theorem computeConnectedComponents_constraints cs fuel V g comps g' :
  (forall v, v ∈ V -> hasNode g v /\ hasNode g (getRepresentative cs v)) ->
  computeConnectedComponents cs fuel V g = Done (comps, g') ->
  (forall i comp, comps !! i = Some comp -> NoDup (constraints comp)) /\
  (forall i j ci cj c, comps !! i = Some ci -> comps !! j = Some cj ->
     c ∈ constraints ci -> c ∈ constraints cj -> i = j) /\
  (forall i comp c, comps !! i = Some comp -> c ∈ constraints comp ->
     exists v, v ∈ typeVars comp /\ c ∈ constraintsOf g v) /\
  (forall i comp v c, comps !! i = Some comp -> v ∈ typeVars comp ->
     c ∈ constraintsOf g v ->
     exists j cj, comps !! j = Some cj /\ c ∈ constraints cj /\
       ((forall u, u ∈ V -> c ∈ constraintsOf g u ->
                   u ∈ getTypeVariables cs c) -> j = i)).
Proof.
  intros Hn Hrun.
  destruct (computeConnectedComponents_layout cs fuel V g comps g' Hn Hrun)
    as (_ & _ & H3 & H4 & H5 & H6). done.
Qed.

Lemma computeConnectedComponents_constraints_witness :
  let V := [3; 2; 1; 0; 2] in
  let result :=
    finished ([], emptyGraph)
      (computeConnectedComponents csPairs 4 V graphPairs) in
  let comps := result.1 in
  map constraints comps = [[1]; [0; 2]] /\
  (forall i comp, comps !! i = Some comp -> NoDup (constraints comp)) /\
  (forall i j ci cj c, comps !! i = Some ci -> comps !! j = Some cj ->
     c ∈ constraints ci -> c ∈ constraints cj -> i = j) /\
  (forall i comp c, comps !! i = Some comp -> c ∈ constraints comp ->
     exists v, v ∈ typeVars comp /\ c ∈ constraintsOf graphPairs v) /\
  (forall i comp v c, comps !! i = Some comp -> v ∈ typeVars comp ->
     c ∈ constraintsOf graphPairs v ->
     exists j cj, comps !! j = Some cj /\ c ∈ constraints cj /\
       ((forall u, u ∈ V -> c ∈ constraintsOf graphPairs u ->
                   u ∈ getTypeVariables csPairs c) -> j = i)).
Proof.
  intros V result comps. split; [vm_compute; reflexivity|].
  assert (Hrun : computeConnectedComponents csPairs 4 V graphPairs
                 = Done (comps, result.2)) by (vm_compute; reflexivity).
  assert (Hn : forallb (fun v => hasNodeb graphPairs v &&
                          hasNodeb graphPairs (getRepresentative csPairs v))
                 V = true) by (vm_compute; reflexivity).
  exact (computeConnectedComponents_constraints csPairs 4 V graphPairs
           comps result.2 (nodesOf_checked csPairs graphPairs V Hn) Hrun).
Defined.

(** ** The digraph of the one-way constraints *)

Definition outOf (dg : gmap TypeVariableType RawOneWayComponent)
    (b : TypeVariableType) : list TypeVariableType :=
  outAdjacencies (digraphAt dg b).

Definition inOf (dg : gmap TypeVariableType RawOneWayComponent)
    (a : TypeVariableType) : list TypeVariableType :=
  inAdjacencies (digraphAt dg a).

Definition placedAt (dg : gmap TypeVariableType RawOneWayComponent)
    (r : TypeVariableType) : list TypeVariableType :=
  rawTypeVars (digraphAt dg r).

Lemma insertIfUnique_elem l y x :
  x ∈ insertIfUnique l y <-> x ∈ l \/ x = y.
Proof.
  unfold insertIfUnique. case_bool_decide as Hy.
  - split; [auto|]. intros [?| ->]; done.
  - by rewrite elem_of_app, list_elem_of_singleton.
Qed.

Lemma insertIfUnique_NoDup l y : NoDup l -> NoDup (insertIfUnique l y).
Proof.
  intros Hnd. unfold insertIfUnique. case_bool_decide as Hy; [done|].
  apply NoDup_app. split; [done|]. split; [|apply NoDup_singleton].
  intros x Hx Hx'. apply list_elem_of_singleton in Hx'. by subst.
Qed.

Lemma addOneWayEdge_out lhs rhs dg b :
  outOf (addOneWayEdge lhs rhs dg) b =
  if bool_decide (b = rhs) then insertIfUnique (outOf dg b) lhs
  else outOf dg b.
Proof.
  unfold outOf, addOneWayEdge, digraphAt. cbv zeta.
  destruct (decide (b = lhs)) as [->|Hl].
  - rewrite lookup_insert_eq. simpl.
    destruct (decide (lhs = rhs)) as [->|Hr].
    + by rewrite lookup_insert_eq, bool_decide_eq_true_2.
    + rewrite lookup_insert_ne by done.
      by rewrite (bool_decide_eq_false_2 _ Hr).
  - rewrite lookup_insert_ne by done.
    destruct (decide (b = rhs)) as [->|Hr].
    + by rewrite lookup_insert_eq, bool_decide_eq_true_2.
    + rewrite lookup_insert_ne by done.
      by rewrite (bool_decide_eq_false_2 _ Hr).
Qed.

Lemma addOneWayEdge_in lhs rhs dg a :
  inOf (addOneWayEdge lhs rhs dg) a =
  if bool_decide (a = lhs) then insertIfUnique (inOf dg a) rhs
  else inOf dg a.
Proof.
  unfold inOf, addOneWayEdge, digraphAt. cbv zeta.
  destruct (decide (a = lhs)) as [->|Hl].
  - rewrite lookup_insert_eq, bool_decide_eq_true_2 by done. simpl.
    destruct (decide (lhs = rhs)) as [->|Hr].
    + by rewrite lookup_insert_eq.
    + by rewrite lookup_insert_ne.
  - rewrite lookup_insert_ne, (bool_decide_eq_false_2 _ Hl) by done.
    destruct (decide (a = rhs)) as [->|Hr].
    + by rewrite lookup_insert_eq.
    + by rewrite lookup_insert_ne.
Qed.

Lemma addOneWayEdge_placed lhs rhs dg r :
  placedAt (addOneWayEdge lhs rhs dg) r = placedAt dg r.
Proof.
  unfold placedAt, addOneWayEdge, digraphAt. cbv zeta.
  destruct (decide (r = lhs)) as [->|Hl].
  - rewrite lookup_insert_eq. simpl.
    destruct (decide (lhs = rhs)) as [->|Hr].
    + by rewrite lookup_insert_eq.
    + by rewrite lookup_insert_ne.
  - rewrite lookup_insert_ne by done.
    destruct (decide (r = rhs)) as [->|Hr].
    + by rewrite lookup_insert_eq.
    + by rewrite lookup_insert_ne.
Qed.

Lemma addOneWayEdge_dom lhs rhs dg r :
  is_Some (addOneWayEdge lhs rhs dg !! r) <->
  is_Some (dg !! r) \/ r = lhs \/ r = rhs.
Proof.
  unfold addOneWayEdge. cbv zeta.
  rewrite !lookup_insert_is_Some.
  destruct (decide (lhs = r)), (decide (rhs = r)); subst; naive_solver.
Qed.

(** The digraph is well formed, its edges are those of [edges], and its
    nodes are the end points of the edges. *)
Record digraphOf (edges : relation TypeVariableType)
    (dg : gmap TypeVariableType RawOneWayComponent) : Prop := {
  dg_out : forall b, NoDup (outOf dg b);
  dg_in : forall a, NoDup (inOf dg a);
  dg_edges : forall a b, a ∈ outOf dg b <-> edges a b;
  dg_back : forall a b, b ∈ inOf dg a <-> edges a b;
  dg_nodes : forall r, is_Some (dg !! r) <->
                       exists x, edges r x \/ edges x r;
}.

Lemma digraphOf_empty : digraphOf (fun _ _ => False) ∅.
Proof.
  split; unfold outOf, inOf, digraphAt; intros; rewrite ?lookup_empty; simpl.
  - apply NoDup_nil_2.
  - apply NoDup_nil_2.
  - by rewrite elem_of_nil.
  - by rewrite elem_of_nil.
  - split; [by intros [? ?]|]. intros (x & [[]|[]]).
Qed.

Lemma digraphOf_ext edges edges' dg :
  (forall a b, edges a b <-> edges' a b) ->
  digraphOf edges dg -> digraphOf edges' dg.
Proof.
  intros Hext [H1 H2 H3 H4 H5]. split; try done.
  - intros a b. by rewrite H3.
  - intros a b. by rewrite H4.
  - intros r. rewrite H5. split; intros (x & Hx); exists x;
      by rewrite <- !Hext || rewrite !Hext.
Qed.

Lemma digraphOf_addOneWayEdge edges dg lhs rhs :
  digraphOf edges dg ->
  digraphOf (fun a b => edges a b \/ (a = lhs /\ b = rhs))
            (addOneWayEdge lhs rhs dg).
Proof.
  intros [H1 H2 H3 H4 H5]. split.
  - intros b. rewrite addOneWayEdge_out.
    case_bool_decide; [by apply insertIfUnique_NoDup|done].
  - intros a. rewrite addOneWayEdge_in.
    case_bool_decide; [by apply insertIfUnique_NoDup|done].
  - intros a b. rewrite addOneWayEdge_out. case_bool_decide as Hb.
    + rewrite insertIfUnique_elem, H3. naive_solver.
    + rewrite H3. naive_solver.
  - intros a b. rewrite addOneWayEdge_in. case_bool_decide as Ha.
    + rewrite insertIfUnique_elem, H4. naive_solver.
    + rewrite H4. naive_solver.
  - intros r. rewrite addOneWayEdge_dom, H5. split.
    + intros [(x & Hx)|[->| ->]].
      * exists x. tauto.
      * exists rhs. auto.
      * exists lhs. auto.
    + intros (x & [[Hx|[-> ->]]|[Hx|[-> ->]]]); eauto.
Qed.

Lemma digraphOf_addEdgesFrom lhs rhsTypeReps : forall edges dg,
  digraphOf edges dg ->
  digraphOf (fun a b => edges a b \/ (a = lhs /\ b ∈ rhsTypeReps))
    (foldl (fun dg rhsTypeRep => addOneWayEdge lhs rhsTypeRep dg)
           dg rhsTypeReps).
Proof.
  induction rhsTypeReps as [|r l IH]; intros edges dg Hdg; simpl.
  - apply (digraphOf_ext edges); [|done]. intros a b. set_solver.
  - pose proof (IH _ _ (digraphOf_addOneWayEdge edges dg lhs r Hdg)) as H.
    revert H. apply digraphOf_ext. intros a b. rewrite elem_of_cons.
    naive_solver.
Qed.

Lemma digraphOf_addOneWayEdges lhsTypeReps rhsTypeReps : forall edges dg,
  digraphOf edges dg ->
  digraphOf (fun a b => edges a b \/ (a ∈ lhsTypeReps /\ b ∈ rhsTypeReps))
    (addOneWayEdges lhsTypeReps rhsTypeReps dg).
Proof.
  unfold addOneWayEdges.
  induction lhsTypeReps as [|x l IH]; intros edges dg Hdg; simpl.
  - apply (digraphOf_ext edges); [|done]. intros a b. set_solver.
  - pose proof (IH _ _ (digraphOf_addEdgesFrom x rhsTypeReps edges dg Hdg))
      as H.
    revert H. apply digraphOf_ext. intros a b. rewrite elem_of_cons.
    naive_solver.
Qed.

Lemma addOneWayEdges_placed lhsTypeReps rhsTypeReps dg r :
  placedAt (addOneWayEdges lhsTypeReps rhsTypeReps dg) r = placedAt dg r.
Proof.
  unfold addOneWayEdges. revert dg.
  induction lhsTypeReps as [|x l IH]; intros dg; simpl; [done|].
  rewrite IH. clear IH. revert dg.
  induction rhsTypeReps as [|y k IH]; intros dg; simpl; [done|].
  by rewrite IH, addOneWayEdge_placed.
Qed.

(** [getRepresentativesInType] returns the roots of the variables of the
    type, each once. *)
Lemma getRepresentativesInType_roots fuel type reps l reps' :
  descending reps ->
  getRepresentativesInType fuel type reps = Done (l, reps') ->
  NoDup l /\
  forall r, r ∈ l <-> exists x, x ∈ typeVariablesIn type /\ rootsTo reps x r.
Proof.
  intros Hd Hrun. unfold getRepresentativesInType in Hrun.
  apply (forEach_prefix_invariant
           (fun pre (st : list nat * gmap nat nat) =>
              compressed reps st.2 /\ NoDup st.1 /\
              forall r, r ∈ st.1 <-> exists x, x ∈ pre /\ rootsTo reps x r))
    in Hrun; [by destruct Hrun as (_ & ? & ?)| |].
  - split; [by apply compressed_refl|]. split; [apply NoDup_nil_2|].
    intros r. simpl. split; [by rewrite elem_of_nil|].
    intros (x & Hx & _). by apply elem_of_nil in Hx.
  - intros pre x [l1 r1] [l2 r2] _ (Hc & Hnd & Hl) Hstep.
    unfold repInTypeStep in Hstep. simpl in *.
    apply bind_Done in Hstep as ([r r2'] & Hf & Hstep).
    injection Hstep as <- <-.
    destruct (compressed_find fuel x r1 r r2' (proj1 Hc) Hf) as [Hc' Hr].
    apply Hc in Hr.
    split; [by apply (compressed_trans reps r1)|].
    split; [by apply insertIfUnique_NoDup|].
    intros s. rewrite insertIfUnique_elem, Hl. split.
    + intros [(y & Hy & Hys)| ->]; [exists y|exists x]; set_solver.
    + intros (y & Hy & Hys). apply elem_of_app in Hy as [Hy|Hy]; [eauto|].
      apply list_elem_of_singleton in Hy. subst y. right.
      by apply (rootsTo_functional reps x).
Qed.

(** The edges of the one-way digraph: [a] is the representative of a
    variable of the first type of a one-way constraint and [b] that of a
    variable of its second type. *)
Definition oneWayEdge (cs : ConstraintSystem)
    (reps : gmap TypeVariableType TypeVariableType)
    (oneWay : list Constraint) : relation TypeVariableType :=
  fun a b => exists c x y,
    c ∈ oneWay /\ x ∈ typeVariablesIn (getFirstType cs c) /\
    y ∈ typeVariablesIn (getSecondType cs c) /\
    rootsTo reps x a /\ rootsTo reps y b.

Lemma digraphOf_place edges dg rep known tvs :
  dg !! rep = Some known ->
  digraphOf edges dg ->
  digraphOf edges
    (<[rep := {| rawTypeVars := tvs; outAdjacencies := outAdjacencies known;
                 inAdjacencies := inAdjacencies known |}]> dg).
Proof.
  intros Hk [H1 H2 H3 H4 H5].
  assert (Ho : forall b, outOf (<[rep := {| rawTypeVars := tvs;
                 outAdjacencies := outAdjacencies known;
                 inAdjacencies := inAdjacencies known |}]> dg) b = outOf dg b).
  { intros b. unfold outOf, digraphAt. destruct (decide (rep = b)) as [->|Hne].
    - by rewrite lookup_insert_eq, Hk.
    - by rewrite lookup_insert_ne. }
  assert (Hi : forall a, inOf (<[rep := {| rawTypeVars := tvs;
                 outAdjacencies := outAdjacencies known;
                 inAdjacencies := inAdjacencies known |}]> dg) a = inOf dg a).
  { intros a. unfold inOf, digraphAt. destruct (decide (rep = a)) as [->|Hne].
    - by rewrite lookup_insert_eq, Hk.
    - by rewrite lookup_insert_ne. }
  split.
  - intros b. by rewrite Ho.
  - intros a. by rewrite Hi.
  - intros a b. by rewrite Ho.
  - intros a b. by rewrite Hi.
  - intros r. rewrite <- H5, lookup_insert_is_Some.
    destruct (decide (rep = r)) as [->|Hne]; [|naive_solver].
    split; [eauto|]. intros _. by left.
Qed.

Lemma buildOneWayConstraintGraph_spec cs fuel V oneWay cc cc' :
  descending (representatives cc) -> oneWayDigraph cc = ∅ ->
  buildOneWayConstraintGraph cs fuel V oneWay cc = Done cc' ->
  digraphOf (oneWayEdge cs (representatives cc) oneWay) (oneWayDigraph cc') /\
  forall r v, v ∈ placedAt (oneWayDigraph cc') r <->
    is_Some (oneWayDigraph cc' !! r) /\ v ∈ V /\
    rootsTo (representatives cc) v r.
Proof.
  intros Hd Hempty Hrun. unfold buildOneWayConstraintGraph in Hrun.
  apply bind_Done in Hrun as (cc1 & H1 & H2).
  set (reps0 := representatives cc) in *.
  apply (forEach_prefix_invariant
           (fun pre (s : ConnectedComponents) =>
              compressed reps0 (representatives s) /\
              digraphOf (oneWayEdge cs reps0 pre) (oneWayDigraph s) /\
              forall r, placedAt (oneWayDigraph s) r = [])) in H1.
  2:{ split; [by apply compressed_refl|]. rewrite Hempty. split.
      - apply (digraphOf_ext (fun _ _ => False)); [|apply digraphOf_empty].
        intros a b. split; [done|]. intros (c & x & y & Hc & _).
        by apply elem_of_nil in Hc.
      - intros r. unfold placedAt, digraphAt. by rewrite lookup_empty. }
  2:{ intros pre c s1 s2 _ (Hc & Hdg & Hpl) Hstep.
      unfold oneWayEdgesStep in Hstep.
      apply bind_Done in Hstep as ([l1 r1] & G1 & Hstep).
      apply bind_Done in Hstep as ([l2 r2] & G2 & Hstep).
      injection Hstep as <-. simpl.
      pose proof (getRepresentativesInType_compressed fuel _ _ _ _
                    (proj1 Hc) G1) as C1.
      pose proof (getRepresentativesInType_compressed fuel _ _ _ _
                    (proj1 C1) G2) as C2.
      destruct (getRepresentativesInType_roots fuel _ _ _ _ (proj1 Hc) G1)
        as [_ R1].
      destruct (getRepresentativesInType_roots fuel _ _ _ _ (proj1 C1) G2)
        as [_ R2].
      split; [|split].
      - apply (compressed_trans _ (representatives s1)); [done|].
        by apply (compressed_trans _ r1).
      - pose proof (digraphOf_addOneWayEdges l1 l2 _ _ Hdg) as H.
        revert H. apply digraphOf_ext. intros a b.
        rewrite R1, R2. unfold oneWayEdge. split.
        + intros [(c' & x & y & Hc' & Hx & Hy & Ha & Hb)
                 |[(x & Hx & Ha) (y & Hy & Hb)]].
          * exists c', x, y. split; [set_solver|done].
          * exists c, x, y. split; [set_solver|]. split; [done|].
            split; [done|]. split; [by apply Hc|].
            apply Hc. by apply C1.
        + intros (c' & x & y & Hc' & Hx & Hy & Ha & Hb).
          apply elem_of_app in Hc' as [Hc'|Hc'].
          * left. by exists c', x, y.
          * apply list_elem_of_singleton in Hc'. subst c'. right. split.
            -- exists x. split; [done|]. by apply Hc.
            -- exists y. split; [done|]. apply C1. by apply Hc.
      - intros r. by rewrite addOneWayEdges_placed. }
  destruct H1 as (Hc1 & Hdg1 & Hpl1).
  apply (forEach_prefix_invariant
           (fun pre (s : ConnectedComponents) =>
              compressed reps0 (representatives s) /\
              digraphOf (oneWayEdge cs reps0 oneWay) (oneWayDigraph s) /\
              forall r v, v ∈ placedAt (oneWayDigraph s) r <->
                is_Some (oneWayDigraph s !! r) /\ v ∈ pre /\
                rootsTo reps0 v r)) in H2.
  - by destruct H2 as (_ & ? & ?).
  - split; [done|]. split; [done|]. intros r v. rewrite Hpl1.
    split; [by rewrite elem_of_nil|]. intros (_ & Hv & _).
    by apply elem_of_nil in Hv.
  - intros pre v s1 s2 _ (Hc & Hdg & Hpl) Hstep.
    unfold placeTypeVarStep in Hstep.
    apply bind_Done in Hstep as ([rep r1] & F & Hstep).
    destruct (compressed_find fuel v _ rep r1 (proj1 Hc) F) as [Hc' Hrep].
    apply Hc in Hrep.
    assert (Hcr : compressed reps0 r1)
      by (by apply (compressed_trans reps0 (representatives s1))).
    destruct (oneWayDigraph s1 !! rep) as [known|] eqn:Hk;
      injection Hstep as <-; simpl.
    + split; [done|]. split; [by apply digraphOf_place|].
      intros r u. rewrite lookup_insert_is_Some.
      unfold placedAt, digraphAt.
      destruct (decide (rep = r)) as [->|Hne].
      * rewrite lookup_insert_eq. simpl.
        rewrite elem_of_app, list_elem_of_singleton.
        pose proof (Hpl r u) as Hu. unfold placedAt, digraphAt in Hu.
        rewrite Hk in Hu. simpl in Hu. rewrite Hu. split.
        -- intros [(_ & Hin & Hr)| ->]; (split; [by left|]); set_solver.
        -- intros (_ & Hin & Hr). apply elem_of_app in Hin as [Hin|Hin].
           ++ left. split; [eauto|done].
           ++ right. by apply list_elem_of_singleton in Hin.
      * rewrite lookup_insert_ne by done.
        pose proof (Hpl r u) as Hu. unfold placedAt, digraphAt in Hu.
        rewrite Hu. split.
        -- intros (Hs & Hin & Hr). split; [by right|]. set_solver.
        -- intros ([?|[_ Hs]] & Hin & Hr); [done|]. split; [done|].
           split; [|done]. apply elem_of_app in Hin as [Hin|Hin]; [done|].
           apply list_elem_of_singleton in Hin. subst u.
           destruct Hne. by apply (rootsTo_functional reps0 v).
    + split; [done|]. split; [done|]. intros r u. rewrite Hpl. split.
      * intros (Hs & Hin & Hr). split; [done|]. set_solver.
      * intros (Hs & Hin & Hr). split; [done|]. split; [|done].
        apply elem_of_app in Hin as [Hin|Hin]; [done|].
        apply list_elem_of_singleton in Hin. subst u.
        rewrite (rootsTo_functional reps0 v r rep Hr Hrep) in Hs.
        rewrite Hk in Hs. by destruct Hs.
Qed.

(** X15: [buildOneWayConstraintGraph], started on an empty digraph, builds
    exactly the edges of the one-way constraints between representatives:
    [a] is in the out-adjacencies of [b] if and only if [b] is in the
    in-adjacencies of [a], if and only if some one-way constraint has a
    variable of representative [a] in its first type and one of
    representative [b] in its second type.  No adjacency list has a
    duplicate, the nodes are the end points of the edges, and each node
    lists the input variables it represents. *)
Theorem buildOneWayConstraintGraph_digraph cs fuel V oneWay cc cc' :
  descending (representatives cc) -> oneWayDigraph cc = ∅ ->
  buildOneWayConstraintGraph cs fuel V oneWay cc = Done cc' ->
  (forall a b, a ∈ outOf (oneWayDigraph cc') b <->
               oneWayEdge cs (representatives cc) oneWay a b) /\
  (forall a b, b ∈ inOf (oneWayDigraph cc') a <->
               oneWayEdge cs (representatives cc) oneWay a b) /\
  (forall r, NoDup (outOf (oneWayDigraph cc') r) /\
             NoDup (inOf (oneWayDigraph cc') r)) /\
  (forall r, is_Some (oneWayDigraph cc' !! r) <->
     exists x, oneWayEdge cs (representatives cc) oneWay r x \/
               oneWayEdge cs (representatives cc) oneWay x r) /\
  (forall r v, v ∈ placedAt (oneWayDigraph cc') r <->
     is_Some (oneWayDigraph cc' !! r) /\ v ∈ V /\
     rootsTo (representatives cc) v r).
Proof.
  intros Hd He Hrun.
  destruct (buildOneWayConstraintGraph_spec cs fuel V oneWay cc cc' Hd He Hrun)
    as [[H1 H2 H3 H4 H5] Hpl].
  split; [done|]. split; [done|]. split; [by split|]. by split.
Qed.

Lemma buildOneWayConstraintGraph_digraph_witness :
  let cc := {| cg := graphOneWay; representatives := {[1 := 0; 3 := 2]};
               oneWayDigraph := ∅ |} in
  let V := [0; 1; 2; 3] in
  let cc' := finished cc (buildOneWayConstraintGraph csOneWay 4 V [2] cc) in
  (outOf (oneWayDigraph cc') 2 = [0] /\ inOf (oneWayDigraph cc') 0 = [2] /\
   placedAt (oneWayDigraph cc') 2 = [2; 3] /\
   placedAt (oneWayDigraph cc') 0 = [0; 1]) /\
  (forall a b, a ∈ outOf (oneWayDigraph cc') b <->
               oneWayEdge csOneWay (representatives cc) [2] a b) /\
  (forall a b, b ∈ inOf (oneWayDigraph cc') a <->
               oneWayEdge csOneWay (representatives cc) [2] a b) /\
  (forall r, NoDup (outOf (oneWayDigraph cc') r) /\
             NoDup (inOf (oneWayDigraph cc') r)) /\
  (forall r, is_Some (oneWayDigraph cc' !! r) <->
     exists x, oneWayEdge csOneWay (representatives cc) [2] r x \/
               oneWayEdge csOneWay (representatives cc) [2] x r) /\
  (forall r v, v ∈ placedAt (oneWayDigraph cc') r <->
     is_Some (oneWayDigraph cc' !! r) /\ v ∈ V /\
     rootsTo (representatives cc) v r).
Proof.
  intros cc V cc'. split; [vm_compute; auto|].
  apply (buildOneWayConstraintGraph_digraph csOneWay 4 V [2] cc cc').
  - apply (bool_decide_unpack
             (map_Forall (fun v p => p < v) (representatives cc))).
    vm_compute. exact I.
  - reflexivity.
  - vm_compute. reflexivity.
Defined.

(** ** What [verify] accepts *)

Lemma Consistent_same g g' : sameGraph g g' -> Consistent g -> Consistent g'.
Proof.
  intros Hs [Hwf Hnwf Hk].
  pose proof Hs as (HT & HI & _ & _ & _ & F). split.
  - apply (GraphWF_frame g); [done|done| |done].
    intros u. symmetry. by apply sameGraph_hasNode.
  - intros tv n' Hn'. specialize (F tv). rewrite Hn' in F.
    inversion F as [n ? (_ & Hc & Hi & _) Hn|]; subst.
    intros c i. rewrite <- Hc, <- Hi. symmetry in Hn. by apply (Hnwf tv n).
  - intros tv n' Hn'. specialize (F tv). rewrite Hn' in F.
    inversion F as [n ? (Ht & _) Hn|]; subst. rewrite <- Ht. symmetry in Hn.
    by apply (Hk tv n).
Qed.

(** The first loop of [verify] accepts the variable [tv]: its
    representative is a representative; it is in the equivalence class of
    its representative, or it is a representative and represents every
    member of its class. *)
Definition represented (cs : ConstraintSystem) (g : ConstraintGraph)
    (tv : TypeVariableType) : Prop :=
  let rep := getRepresentative cs tv in
  getRepresentative cs rep = rep /\
  (tv <> rep -> tv ∈ classOf g rep) /\
  (tv = rep -> forall e, e ∈ classOf g rep -> getRepresentative cs e = tv).

Lemma verifyRepresented_spec cs fuel g tv s :
  Consistent g -> sameGraph g s -> hasNode g (getRepresentative cs tv) ->
  (forall s', verifyRepresented cs fuel tv s = Done s' ->
              sameGraph g s' /\ represented cs g tv) /\
  (represented cs g tv -> exists s', verifyRepresented cs fuel tv s = Done s').
Proof.
  intros Hc Hs Hn.
  pose proof (Consistent_same g s Hs Hc) as [Hwf _ Hk].
  set (rep := getRepresentative cs tv) in *.
  pose proof (proj1 (sameGraph_hasNode g s rep Hs) Hn) as [n Hnode].
  destruct (lookupNode_existing cs fuel s rep Hwf ltac:(by exists n))
    as (i & L & _).
  pose proof (Hk rep n Hnode) as Hkey.
  assert (Hclass : EquivalenceClass (materialize n) = classOf g rep).
  { rewrite (sameGraph_classOf g s rep Hs). unfold classOf. by rewrite Hnode. }
  assert (Hsame : sameGraph g
            (setNodes s (<[rep := materialize n]> (Nodes s)))).
  { apply (sameGraph_trans g s); [done|].
    pose proof (sameGraph_materialize rep n s Hnode) as H.
    unfold updateClass in H. by rewrite <- materialize_set in H. }
  unfold verifyRepresented, represented. fold rep. rewrite L. simpl.
  unfold getEquivalenceClass. rewrite Hnode. simpl.
  unfold node_getEquivalenceClass, node_getEquivalenceClassUnsafe.
  rewrite Hkey.
  destruct (decide (rep = getRepresentative cs rep)) as [Hrr|Hrr].
  2:{ rewrite (bool_decide_eq_false_2 _ Hrr). simpl.
      destruct (bool_decide (tv ≠ rep)); (split; [done|]);
        intros [Hrr' _]; by destruct Hrr. }
  rewrite (bool_decide_eq_true_2 _ Hrr). simpl. rewrite Hclass.
  destruct (decide (tv = rep)) as [Heq|Hne].
  2:{ rewrite (bool_decide_eq_true_2 _ Hne).
      destruct (decide (tv ∈ classOf g rep)) as [Hin|Hin].
      - rewrite (bool_decide_eq_true_2 _ Hin). simpl.
        split; [|eauto]. intros s' [= <-]. split; [done|].
        split; [done|]. split; [done|]. done.
      - rewrite (bool_decide_eq_false_2 _ Hin). simpl.
        split; [done|]. intros (_ & Hin' & _). destruct Hin; auto. }
  rewrite bool_decide_eq_false_2 by (intros H; by apply H).
  - destruct (forEach (verifyEquivalent cs tv) (classOf g rep) tt)
      as [[]| |] eqn:Hloop; simpl.
    + split; [|eauto]. intros s' [= <-]. split; [done|].
      split; [done|]. split; [done|]. intros _ e He.
      pose proof (proj1 (forEach_checks _ _) Hloop e He) as Hchk.
      unfold verifyEquivalent in Hchk. rename Hchk into Hloop'.
      clear Hloop. rename Hloop' into Hloop.
      by apply assert_Done_iff, bool_decide_eq_true in Hloop.
    + split; [done|]. intros (_ & _ & Hall). specialize (Hall Heq).
      assert (Hok : forEach (verifyEquivalent cs tv) (classOf g rep) tt
                    = Done tt).
      { apply forEach_checks. intros e He. unfold verifyEquivalent.
        apply assert_Done_iff, bool_decide_eq_true. symmetry. auto. }
      congruence.
    + split; [done|]. intros (_ & _ & Hall). specialize (Hall Heq).
      assert (Hok : forEach (verifyEquivalent cs tv) (classOf g rep) tt
                    = Done tt).
      { apply forEach_checks. intros e He. unfold verifyEquivalent.
        apply assert_Done_iff, bool_decide_eq_true. symmetry. auto. }
      congruence.
Qed.

Lemma verifyRepresented_loop cs fuel g l :
  Consistent g -> (forall tv, tv ∈ l -> hasNode g (getRepresentative cs tv)) ->
  forall s, sameGraph g s ->
    (forall s', forEach (verifyRepresented cs fuel) l s = Done s' ->
       sameGraph g s' /\ forall tv, tv ∈ l -> represented cs g tv) /\
    ((forall tv, tv ∈ l -> represented cs g tv) ->
     exists s', forEach (verifyRepresented cs fuel) l s = Done s').
Proof.
  intros Hc. induction l as [|x l IH]; intros Hn s Hs.
  { split.
    - intros s' [= <-]. split; [done|]. intros tv Htv.
      by apply elem_of_nil in Htv.
    - intros _. by exists s. }
  assert (Hnx : hasNode g (getRepresentative cs x))
    by (apply Hn; apply list_elem_of_here).
  assert (Hnl : forall tv, tv ∈ l -> hasNode g (getRepresentative cs tv))
    by (intros tv Htv; apply Hn; by apply list_elem_of_further).
  destruct (verifyRepresented_spec cs fuel g x s Hc Hs Hnx) as [Hto Hfrom].
  split.
  - intros s' Hrun. simpl in Hrun.
    apply bind_Done in Hrun as (s1 & Hstep & Hrun).
    destruct (Hto s1 Hstep) as [Hs1 Hx].
    destruct (IH Hnl s1 Hs1) as [Hto' _].
    destruct (Hto' s' Hrun) as [Hs' Hl]. split; [done|].
    intros tv Htv. apply elem_of_cons in Htv as [->|Htv]; auto.
  - intros Hall.
    destruct (Hfrom (Hall x (list_elem_of_here x l))) as [s1 Hstep].
    destruct (Hto s1 Hstep) as [Hs1 _].
    destruct (IH Hnl s1 Hs1) as [_ Hfrom'].
    destruct Hfrom' as [s' Hrun].
    { intros tv Htv. apply Hall. by apply list_elem_of_further. }
    exists s'. simpl. by rewrite Hstep.
Qed.

Lemma collectKnown_loop cs fuel g l :
  GraphWF g -> (forall tv, tv ∈ l -> hasNode g tv) ->
  forall acc, exists known,
    forEach (collectKnown cs fuel) l (acc, g) = Done (known, g) /\
    forall c, c ∈ known <->
      c ∈ acc \/ exists tv, tv ∈ l /\ c ∈ constraintsOf g tv.
Proof.
  intros Hwf. induction l as [|x l IH]; intros Hn acc.
  { exists acc. split; [done|]. intros c. split; [auto|].
    intros [?|(tv & Htv & _)]; [done|]. by apply elem_of_nil in Htv. }
  destruct (Hn x (list_elem_of_here x l)) as [n Hnode].
  destruct (lookupNode_existing cs fuel g x Hwf ltac:(by exists n))
    as (i & L & _).
  destruct (IH (fun tv Htv => Hn tv (list_elem_of_further _ _ _ Htv))
              (acc ∪ list_to_set (Constraints n))) as (known & Hrun & Hk).
  exists known. split.
  - cbn [forEach]. apply bind_Done.
    exists (acc ∪ list_to_set (Constraints n), g). split; [|exact Hrun].
    unfold collectKnown. cbn [fst snd].
    apply bind_Done. exists (i, g). split; [exact L|].
    unfold getConstraints. by rewrite Hnode.
  - intros c. rewrite Hk, elem_of_union, elem_of_list_to_set. split.
    + intros [[?|Hc]|(tv & Htv & Hc)]; [by left| |].
      * right. exists x. split; [apply list_elem_of_here|].
        unfold constraintsOf. by rewrite Hnode.
      * right. exists tv. split; [by apply list_elem_of_further|done].
    + intros [?|(tv & Htv & Hc)]; [by left; left|].
      apply elem_of_cons in Htv as [->|Htv].
      * left. right. unfold constraintsOf in Hc. by rewrite Hnode in Hc.
      * right. eauto.
Qed.

Lemma verifyConstraint_Done cs known g c :
  NodesWF g ->
  verifyConstraint cs known g c tt = Done tt <->
  (c ∈ known \/ getTypeVariables cs c = []) /\
  forall tv, tv ∈ getTypeVariables cs c -> c ∈ constraintsOf g tv.
Proof.
  intros Hnwf.
  assert (Hmention : forall tv,
            verifyMention g c tv tt = Done tt <-> c ∈ constraintsOf g tv).
  { intros tv. unfold verifyMention, constraintsOf.
    destruct (Nodes g !! tv) as [n|] eqn:Hn; simpl.
    - rewrite assert_Done_iff, bool_decide_eq_true.
      symmetry. apply IndexWF_elem. by apply (Hnwf tv).
    - split; [done|]. by rewrite elem_of_nil. }
  unfold verifyConstraint. split.
  - intros H. apply bind_Done in H as ([] & Ha & H).
    apply assert_Done_iff, orb_true_iff in Ha. split.
    + destruct Ha as [Ha|Ha]; apply bool_decide_eq_true in Ha; auto.
    + intros tv Htv. apply Hmention.
      by apply (proj1 (forEach_checks _ _) H).
  - intros [Hk Hall].
    assert (Ha : bool_decide (c ∈ known) ||
                 bool_decide (getTypeVariables cs c = []) = true).
    { apply orb_true_iff.
      destruct Hk as [Hk|Hk]; [left|right]; by apply bool_decide_eq_true. }
    rewrite Ha. simpl. apply forEach_checks. intros tv Htv.
    apply Hmention. auto.
Qed.

Lemma verify_rest cs fuel constraints g g1 :
  Consistent g -> sameGraph g g1 ->
  let rest :=
    _ ← forEach (verifyIndex g1) (imap pair (TypeVariables g1)) tt;
    _ ← forEach (verifyNode g1) (TypeVariables g1) tt;
    '(knownConstraints, g2) ← forEach (collectKnown cs fuel)
                                (TypeVariables g1) (∅, g1);
    _ ← forEach (verifyConstraint cs knownConstraints g2) constraints tt;
    Done g2 in
  let accounted :=
    forall c tv, c ∈ constraints -> tv ∈ getTypeVariables cs c ->
                 c ∈ constraintsOf g tv in
  (forall g', rest = Done g' -> g' = g1 /\ accounted) /\
  (accounted -> rest = Done g1).
Proof.
  intros Hc Hs rest accounted.
  pose proof (Consistent_same g g1 Hs Hc) as Hc1.
  destruct (Consistent_verifies g1 Hc1) as [H2 H3].
  destruct Hc1 as [Hwf1 Hnwf1 _].
  destruct (collectKnown_loop cs fuel g1 (TypeVariables g1) Hwf1
              (fun tv Htv => proj2 (wf_nodes g1 Hwf1 tv) Htv) ∅)
    as (known & H4 & Hknown).
  assert (Hrest : rest = (_ ← forEach (verifyConstraint cs known g1)
                                constraints tt; Done g1)).
  { unfold rest. by rewrite H2, H3, H4. }
  assert (Hiff : forEach (verifyConstraint cs known g1) constraints tt
                 = Done tt <-> accounted).
  { rewrite forEach_checks. unfold accounted. split.
    - intros Hall c tv Hcin Htv.
      pose proof (proj1 (verifyConstraint_Done cs known g1 c Hnwf1)
                    (Hall c Hcin)) as [_ Hm].
      rewrite (sameGraph_constraintsOf g g1 tv Hs). auto.
    - intros Hacc c Hcin.
      apply (verifyConstraint_Done cs known g1 c Hnwf1). split.
      + destruct (getTypeVariables cs c) as [|tv0 vars] eqn:Hvars; [by right|].
        left. apply Hknown. right. exists tv0.
        assert (Hin : c ∈ constraintsOf g1 tv0).
        { rewrite <- (sameGraph_constraintsOf g g1 tv0 Hs).
          apply Hacc; [done|]. rewrite Hvars. apply list_elem_of_here. }
        split; [|done]. apply (wf_nodes g1 Hwf1). unfold constraintsOf in Hin.
        destruct (Nodes g1 !! tv0); [eauto|]. by apply elem_of_nil in Hin.
      + intros tv Htv. rewrite <- (sameGraph_constraintsOf g g1 tv Hs). auto. }
  rewrite Hrest. split.
  - intros g' H. apply bind_Done in H as ([] & Hchk & H).
    injection H as <-. split; [done|]. by apply Hiff.
  - intros Hacc. apply Hiff in Hacc. by rewrite Hacc.
Qed.

(** X16: on a consistent graph in which the representative of every
    variable of the vector has a node, [verify] succeeds exactly when
    (1) every variable of the vector is either in the equivalence class of
    its representative (which is its own representative) or is a
    representative that represents every member of its class, and (2) each
    of the constraint system's constraints is held by the node of every type
    variable it mentions.  A successful [verify] changes nothing but the
    still-empty equivalence classes it fills in. *)
Theorem verify_accepts cs fuel constraints g :
  Consistent g ->
  (forall tv, tv ∈ TypeVariables g -> hasNode g (getRepresentative cs tv)) ->
  ((exists g', verify cs fuel constraints g = Done g') <->
   (forall tv, tv ∈ TypeVariables g -> represented cs g tv) /\
   (forall c tv, c ∈ constraints -> tv ∈ getTypeVariables cs c ->
                 c ∈ constraintsOf g tv)) /\
  (forall g', verify cs fuel constraints g = Done g' -> sameGraph g g').
Proof.
  intros Hc Hreps.
  destruct (verifyRepresented_loop cs fuel g (TypeVariables g) Hc Hreps g
              (sameGraph_refl g)) as [Hto Hfrom].
  unfold verify. split; [split|].
  - intros (g' & Hrun). apply bind_Done in Hrun as (g1 & H1 & Hrun).
    destruct (Hto g1 H1) as [Hs HA]. split; [done|].
    by destruct (proj1 (verify_rest cs fuel constraints g g1 Hc Hs) g' Hrun).
  - intros [HA HB]. destruct (Hfrom HA) as [g1 H1].
    destruct (Hto g1 H1) as [Hs _]. exists g1. rewrite H1. simpl.
    by apply (proj2 (verify_rest cs fuel constraints g g1 Hc Hs)).
  - intros g' Hrun. apply bind_Done in Hrun as (g1 & H1 & Hrun).
    destruct (Hto g1 H1) as [Hs _].
    by destruct (proj1 (verify_rest cs fuel constraints g g1 Hc Hs) g' Hrun)
      as [-> _].
Qed.

Lemma verify_accepts_witness :
  let ms := [MAddConstraint 0; MAddConstraint 1; MLookup 3] in
  let g := finished emptyGraph (applyMutations csMerged 4 ms emptyGraph) in
  (TypeVariables g = [0; 1; 2; 3] /\ classOf g 2 = [2; 3] /\
   exists g', verify csMerged 0 [0; 1] g = Done g') /\
  ((exists g', verify csMerged 0 [0; 1] g = Done g') <->
   (forall tv, tv ∈ TypeVariables g -> represented csMerged g tv) /\
   (forall c tv, c ∈ [0; 1] -> tv ∈ getTypeVariables csMerged c ->
                 c ∈ constraintsOf g tv)) /\
  (forall g', verify csMerged 0 [0; 1] g = Done g' -> sameGraph g g').
Proof.
  intros ms g. split.
  { split; [vm_compute; reflexivity|]. split; [vm_compute; reflexivity|].
    eexists. vm_compute. reflexivity. }
  assert (Hc : Consistent g).
  { apply (Consistent_applyMutations csMerged 4 ms emptyGraph);
      [apply emptyGraph_Consistent|vm_compute; reflexivity]. }
  assert (Hn : forallb (fun v => hasNodeb g v &&
                          hasNodeb g (getRepresentative csMerged v))
                 (TypeVariables g) = true) by (vm_compute; reflexivity).
  exact (verify_accepts csMerged 0 [0; 1] g Hc
           (fun tv Htv =>
              proj2 (nodesOf_checked csMerged g (TypeVariables g) Hn tv Htv))).
Defined.

(** ** Adding a constraint and removing it again *)

(** The node with [c] appended to its constraints. *)
Definition withAdded (c : Constraint) (n : ConstraintGraphNode)
  : ConstraintGraphNode :=
  setConstraints n (Constraints n ++ [c])
    (<[c := length (Constraints n)]> (ConstraintIndex n)).

Lemma node_removeConstraint_added c n :
  ConstraintIndex n !! c = None ->
  node_removeConstraint c (withAdded c n) = Done n.
Proof.
  intros Hnone. unfold node_removeConstraint, withAdded. simpl.
  rewrite lookup_insert_eq. simpl.
  assert (Hlast : (Constraints n ++ [c]) !! length (Constraints n) = Some c)
    by apply list_lookup_middle, eq_refl.
  rewrite (bool_decide_eq_true_2 _ Hlast). simpl.
  rewrite bool_decide_eq_true_2 by (rewrite length_app; simpl; lia).
  rewrite pop_back_snoc, delete_insert_id by done.
  by destruct n.
Qed.

(** Everything but the nodes. *)
Definition framed (g g' : ConstraintGraph) : Prop :=
  TypeVariables g' = TypeVariables g /\ GraphIndex g' = GraphIndex g /\
  OrphanedConstraints g' = OrphanedConstraints g /\
  ActiveScope g' = ActiveScope g /\ Changes g' = Changes g.

Lemma graph_eq g g' : framed g g' -> Nodes g' = Nodes g -> g' = g.
Proof.
  destruct g, g'. unfold framed. simpl.
  intros (-> & -> & -> & -> & ->) ->. done.
Qed.

Lemma framed_recordChange ch g g' :
  framed g g' -> framed (recordChange ch g) (recordChange ch g').
Proof.
  intros (A & B & C & D & E). unfold recordChange. rewrite D.
  destruct (ActiveScope g) eqn:Hs; repeat split; simpl; congruence.
Qed.

Lemma Nodes_recordChange ch g : Nodes (recordChange ch g) = Nodes g.
Proof. unfold recordChange. by destruct (ActiveScope g). Qed.

(** The loop of [addConstraint] on nodes that exist. *)
Lemma addConstraintLoop_exact cs fuel c l g ga :
  GraphWF g -> (forall v, v ∈ l -> hasNode g v) ->
  forEach (addConstraintStep cs fuel c) l g = Done ga ->
  framed g ga /\ NoDup l /\
  (forall v, v ∈ l -> exists n, Nodes g !! v = Some n /\
                               ConstraintIndex n !! c = None) /\
  (forall v, Nodes ga !! v =
     if bool_decide (v ∈ l) then withAdded c <$> Nodes g !! v
     else Nodes g !! v).
Proof.
  intros Hwf Hn Hrun.
  apply (forEach_prefix_invariant
           (fun pre s =>
              (framed g s /\ NoDup pre /\
               (forall v, v ∈ pre -> exists n, Nodes g !! v = Some n /\
                                             ConstraintIndex n !! c = None) /\
               (forall v, Nodes s !! v =
                  if bool_decide (v ∈ pre) then withAdded c <$> Nodes g !! v
                  else Nodes g !! v)) /\ pre `prefix_of` l)) in Hrun;
    [apply Hrun| |].
  - split; [|apply prefix_nil]. split; [done|]. split; [apply NoDup_nil_2|].
    split; [intros v Hv; by apply elem_of_nil in Hv|]. intros v.
    rewrite bool_decide_eq_false_2; [done|apply not_elem_of_nil].
  - intros pre v s s' Hpre [(Hf & Hnd & Hold & Hmap) _] Hstep.
    split; [|done]. unfold addConstraintStep in Hstep.
    apply bind_Done in Hstep as ([i s1] & L & Hstep).
    assert (Hv : hasNode g v).
    { apply Hn. destruct Hpre as [k ->]. set_solver. }
    assert (Hvs : hasNode s v).
    { unfold hasNode. rewrite Hmap. destruct Hv as [n0 Hn0]. rewrite Hn0.
      by case_bool_decide. }
    apply (lookupNode_existing_inv _ _ _ _ _ _ Hvs) in L as [-> _].
    apply withNode_Done in Hstep as (n & n' & Hnode & Hop & ->).
    apply node_addConstraint_Done in Hop as [Hnone ->].
    assert (Hfresh : v ∉ pre).
    { intros Hin. rewrite Hmap, (bool_decide_eq_true_2 _ Hin) in Hnode.
      destruct (Nodes g !! v) as [n0|]; [|done]. injection Hnode as <-.
      simpl in Hnone. by rewrite lookup_insert_eq in Hnone. }
    rewrite Hmap, (bool_decide_eq_false_2 _ Hfresh) in Hnode.
    split; [done|]. split.
    { apply NoDup_app. split; [done|]. split; [|apply NoDup_singleton].
      intros x Hx Hx'. apply list_elem_of_singleton in Hx'. by subst. }
    split.
    { intros u Hu. apply elem_of_app in Hu as [Hu|Hu]; [auto|].
      apply list_elem_of_singleton in Hu. subst u. eauto. }
    intros u. simpl. destruct (decide (v = u)) as [<-|Hne].
    + rewrite lookup_insert_eq, bool_decide_eq_true_2 by set_solver.
      by rewrite Hnode.
    + rewrite lookup_insert_ne, Hmap by done.
      rewrite (bool_decide_ext (u ∈ pre ++ [v]) (u ∈ pre)); [done|].
      rewrite elem_of_app, list_elem_of_singleton. naive_solver.
Qed.

(** The loop of [removeConstraint] right after the constraint was added:
    it returns, and puts the nodes of [ns0] back. *)
Lemma removeConstraintLoop_exact cs fuel c
    (ns0 : gmap TypeVariableType ConstraintGraphNode) l :
  forall h, NoDup l -> GraphWF h ->
    (forall v, v ∈ l -> exists n, ns0 !! v = Some n /\
       ConstraintIndex n !! c = None /\ Nodes h !! v = Some (withAdded c n)) ->
    exists h', forEach (removeConstraintStep cs fuel c) l h = Done h' /\
      framed h h' /\
      forall v, Nodes h' !! v =
        if bool_decide (v ∈ l) then ns0 !! v else Nodes h !! v.
Proof.
  induction l as [|v l IH]; intros h Hnd Hwf Hall.
  { exists h. split; [done|]. split; [by repeat split|]. intros v.
    rewrite bool_decide_eq_false_2; [done|apply not_elem_of_nil]. }
  apply NoDup_cons in Hnd as [Hv Hnd].
  destruct (Hall v (list_elem_of_here v l)) as (n & Hn0 & Hnone & Hnode).
  destruct (lookupNode_existing cs fuel h v Hwf ltac:(by eexists))
    as (i & L & _).
  set (h1 := setNodes h (<[v := n]> (Nodes h))).
  assert (Hstep : removeConstraintStep cs fuel c v h = Done h1).
  { unfold removeConstraintStep. rewrite L. simpl.
    unfold withNode. rewrite Hnode. simpl.
    by rewrite (node_removeConstraint_added c n Hnone). }
  assert (Hwf1 : GraphWF h1).
  { apply GraphWF_nodes_only; [|done]. intros u.
    destruct (decide (v = u)) as [<-|Hne].
    - rewrite lookup_insert_eq, Hnode. split; eauto.
    - by rewrite lookup_insert_ne. }
  destruct (IH h1 Hnd Hwf1) as (h' & Hrun & Hf & Hmap).
  { intros u Hu. destruct (Hall u (list_elem_of_further _ _ _ Hu))
      as (m & Hm0 & Hmn & Hm).
    exists m. split; [done|]. split; [done|]. unfold h1. simpl.
    rewrite lookup_insert_ne; [done|]. intros ->. done. }
  exists h'. split; [cbn [forEach]; by rewrite Hstep|]. split.
  - destruct Hf as (A & B & C & D & E). by repeat split.
  - intros u. rewrite Hmap. unfold h1. simpl.
    destruct (decide (v = u)) as [<-|Hne].
    + rewrite (bool_decide_eq_false_2 _ Hv), lookup_insert_eq.
      by rewrite bool_decide_eq_true_2 by apply list_elem_of_here.
    + rewrite lookup_insert_ne by done.
      rewrite (bool_decide_ext (u ∈ v :: l) (u ∈ l)); [done|].
      rewrite elem_of_cons. naive_solver.
Qed.

Lemma removeOrphan_pushed c g :
  removeOrphan c (setOrphanedConstraints g (OrphanedConstraints g ++ [c]))
  = Done (setOrphanedConstraints g (OrphanedConstraints g)).
Proof.
  unfold removeOrphan. simpl.
  assert (Hfind : exists k, findIndex c (OrphanedConstraints g ++ [c]) = Some k
                  /\ (OrphanedConstraints g ++ [c]) !! k = Some c).
  { induction (OrphanedConstraints g) as [|x l IH]; simpl.
    - exists 0. by rewrite bool_decide_eq_true_2.
    - case_bool_decide as Hx; [exists 0; by subst|].
      destruct IH as (k & -> & Hk). by exists (S k). }
  destruct Hfind as (k & -> & Hk). simpl.
  unfold back. rewrite last_snoc. simpl.
  by rewrite list_insert_id, pop_back_snoc.
Qed.

Lemma removeOrphan_recordChange c ch g :
  removeOrphan c (recordChange ch g) =
  g' ← removeOrphan c g; Done (recordChange ch g').
Proof.
  unfold removeOrphan, recordChange.
  destruct (ActiveScope g) eqn:Hs; simpl;
    destruct (findIndex c (OrphanedConstraints g)); simpl; try done;
    destruct (back (OrphanedConstraints g)); simpl; try done;
    by rewrite Hs.
Qed.

Lemma framed_trans g1 g2 g3 : framed g1 g2 -> framed g2 g3 -> framed g1 g3.
Proof.
  intros (A1 & B1 & C1 & D1 & E1) (A2 & B2 & C2 & D2 & E2).
  repeat split; congruence.
Qed.

(** X17: when the type variables of a constraint have nodes, removing the
    constraint right after adding it gives back the graph exactly, with
    every constraint list in its original order (for an orphaned constraint
    too), apart from the two journal entries recorded under an active
    scope. *)
Theorem addConstraint_then_remove cs fuel fuel' c g g1 :
  GraphWF g -> (forall v, v ∈ getTypeVariables cs c -> hasNode g v) ->
  addConstraint cs fuel c g = Done g1 ->
  removeConstraint cs fuel' c g1 =
  Done (recordChange (RemovedConstraint c)
          (recordChange (AddedConstraint c) g)).
Proof.
  intros Hwf Hn Hrun. unfold addConstraint in Hrun.
  apply bind_Done in Hrun as (ga & Hloop & Hrun). injection Hrun as <-.
  destruct (addConstraintLoop_exact cs fuel c _ g ga Hwf Hn Hloop)
    as (Hf & Hnd & Hold & Hmap).
  unfold removeConstraint.
  destruct (getTypeVariables cs c) as [|v0 l] eqn:Hvars.
  - injection Hloop as <-. cbn [forEach]. simpl.
    rewrite removeOrphan_recordChange, removeOrphan_pushed. simpl.
    by destruct g.
  - set (h := recordChange (AddedConstraint c) ga).
    assert (Hwfh : GraphWF h).
    { apply GraphWF_recordChange.
      destruct Hf as (A & B & _). apply (GraphWF_frame g); [done|done| |done].
      intros u. unfold hasNode. rewrite Hmap.
      case_bool_decide; [|done]. destruct (Nodes g !! u); simpl; split;
        intros [? ?]; eauto; done. }
    destruct (removeConstraintLoop_exact cs fuel' c (Nodes g) (v0 :: l) h
                Hnd Hwfh) as (h' & Hrun' & Hf' & Hmap').
    { intros u Hu. destruct (Hold u Hu) as (n & Hnu & Hnone).
      exists n. split; [done|]. split; [done|]. unfold h.
      rewrite Nodes_recordChange, Hmap, (bool_decide_eq_true_2 _ Hu), Hnu.
      done. }
    rewrite Hrun'. simpl. do 2 f_equal.
    apply graph_eq.
    + apply (framed_trans _ h); [|done]. by apply framed_recordChange.
    + rewrite Nodes_recordChange. apply map_eq. intros u. rewrite Hmap'.
      case_bool_decide as Hu; [done|]. unfold h.
      by rewrite Nodes_recordChange, Hmap, (bool_decide_eq_false_2 _ Hu).
Qed.

Lemma addConstraint_then_remove_witness :
  let g := (openScope graphPlain).2 in
  let g1 := finished emptyGraph (addConstraint csPairs 3 2 g) in
  let g2 := finished emptyGraph
              (addConstraint csPlain 3 0 (finished emptyGraph
                 (removeConstraint csPlain 3 0 graphPlain))) in
  (constraintsOf g 0 = [0] /\ constraintsOf g1 0 = [0; 2] /\
   constraintsOf graphPlain 1 = [0; 1] /\ constraintsOf g2 1 = [1; 0]) /\
  removeConstraint csPairs 0 2 g1 =
  Done (recordChange (RemovedConstraint 2)
          (recordChange (AddedConstraint 2) g)).
Proof.
  intros g g1 g2. split; [vm_compute; auto|].
  assert (Hwf : GraphWF g).
  { apply (co_wf g), Consistent_openScope, graphPlain_Consistent. }
  assert (Hall : forallb (hasNodeb g) (getTypeVariables csPairs 2) = true)
    by (vm_compute; reflexivity).
  assert (Hrun : addConstraint csPairs 3 2 g = Done g1)
    by (vm_compute; reflexivity).
  exact (addConstraint_then_remove csPairs 3 0 2 g g1 Hwf
           (hasNodes_checked g _ Hall) Hrun).
Defined.

(** ** Merging two nodes *)

(** [g'] is [g] up to the equivalence classes and the journal. *)
Definition reclassed (g g' : ConstraintGraph) : Prop :=
  TypeVariables g' = TypeVariables g /\ GraphIndex g' = GraphIndex g /\
  OrphanedConstraints g' = OrphanedConstraints g /\
  ActiveScope g' = ActiveScope g /\ nodesRelated (agree exceptClass) g g'.

Lemma reclassed_refl g : reclassed g g.
Proof. repeat split. apply nodesRelated_refl. Qed.

Lemma reclassed_trans g1 g2 g3 :
  reclassed g1 g2 -> reclassed g2 g3 -> reclassed g1 g3.
Proof.
  intros (A1 & B1 & C1 & D1 & E1) (A2 & B2 & C2 & D2 & E2).
  repeat split; try congruence. by apply (nodesRelated_trans _ g1 g2).
Qed.

Lemma reclassed_updateClass tv n ec g :
  Nodes g !! tv = Some n -> reclassed g (updateClass tv n ec g).
Proof.
  intros Hn. repeat split.
  by apply (nodesRelated_insert exceptClass tv n (setEquivalenceClass n ec)).
Qed.

Lemma reclassed_recordChange ch g : reclassed g (recordChange ch g).
Proof.
  unfold recordChange. destruct (ActiveScope g) eqn:Hs;
    [|apply reclassed_refl].
  repeat split; simpl; try done. exact (nodesRelated_refl exceptClass g).
Qed.

Lemma reclassed_hasNode g g' u : reclassed g g' -> hasNode g' u <-> hasNode g u.
Proof.
  intros (_ & _ & _ & _ & R). by apply (nodesRelated_hasNode _ _ _ _ R).
Qed.

Lemma reclassed_lists g g' u :
  reclassed g g' ->
  constraintsOf g' u = constraintsOf g u /\
  fixedBindingsOf g' u = fixedBindingsOf g u.
Proof.
  intros (_ & _ & _ & _ & R). split.
  - apply (nodesRelated_constraintsOf (agree exceptClass)); [|done].
    intros n n' H. by destruct (exceptClass_inv n n' H) as (_ & ? & _).
  - apply (nodesRelated_fixedBindingsOf (agree exceptClass)); [|done].
    intros n n' H. by destruct (exceptClass_inv n n' H) as (_ & _ & _ & ?).
Qed.

Lemma reclassed_Consistent g g' : reclassed g g' -> Consistent g -> Consistent g'.
Proof.
  intros Hr [Hwf Hnwf Hk]. pose proof Hr as (A & B & _ & _ & R). split.
  - apply (GraphWF_frame g); [done|done| |done].
    intros u. by apply reclassed_hasNode.
  - apply (nodesRelated_NodesWF (agree exceptClass) g g'); [|done|done].
    intros n n' H. by destruct (exceptClass_inv n n' H) as (_ & ? & ? & _).
  - apply (nodesRelated_keyed (agree exceptClass) g g'); [|done|done].
    intros n n' H. by destruct (exceptClass_inv n n' H) as (? & _).
Qed.

Lemma classOf_recordChange ch g u : classOf (recordChange ch g) u = classOf g u.
Proof. unfold classOf. by rewrite Nodes_recordChange. Qed.

Lemma classOf_updateClass tv n ec g u :
  ec <> [] ->
  classOf (updateClass tv n ec g) u =
  if bool_decide (u = tv) then ec else classOf g u.
Proof.
  intros Hec. unfold classOf, updateClass. simpl. case_bool_decide as Hu.
  - subst. rewrite lookup_insert_eq. unfold materialize. simpl.
    by destruct ec.
  - by rewrite lookup_insert_ne.
Qed.

Lemma classOf_nonempty g u : hasNode g u -> classOf g u <> [].
Proof.
  intros [n Hn]. unfold classOf. rewrite Hn.
  pose proof (materialize_length n) as Hlen. intros E. rewrite E in Hlen.
  simpl in Hlen. lia.
Qed.

Lemma classOf_materialized tv n g :
  Nodes g !! tv = Some n -> forall u,
  classOf (updateClass tv n (EquivalenceClass (materialize n)) g) u
  = classOf g u.
Proof.
  intros Hn u. symmetry. apply sameGraph_classOf.
  by apply sameGraph_materialize.
Qed.

(** What a [mergeNodes] that returns has done, when both variables have
    nodes. *)
Lemma mergeNodes_effect cs fuel tv1 tv2 g g' :
  hasNode g tv1 -> hasNode g tv2 ->
  mergeNodes cs fuel tv1 tv2 g = Done g' ->
  let rep := getRepresentative cs tv1 in
  let nonRep := if bool_decide (tv1 = rep) then tv2 else tv1 in
  (getRepresentative cs tv2 = rep /\ (tv1 = rep \/ tv2 = rep)) /\
  reclassed g g' /\
  classOf g' rep = classOf g rep ++ classOf g nonRep /\
  (forall u, u <> rep -> classOf g' u = classOf g u) /\
  Changes g' =
    Changes g ++
    (if ActiveScope g
     then [ExtendedEquivalenceClass rep (length (classOf g rep))] else []).
Proof.
  intros Hn1 Hn2 Hrun rep nonRep.
  apply mergeNodesWith_Done in Hrun
    as (i1 & g1 & g2 & i3 & g3 & ec & g4 & H1 & L1 & H2 & R & L3 & E & W).
  fold rep in H1, L1, H2, R, W.
  change (lookupNode cs fuel nonRep g2 = Done (i3, g3)) in L3.
  change (getEquivalenceClassUnsafe nonRep g3 = Done (ec, g4)) in E.
  assert (Hnr : hasNode g rep) by (destruct H2 as [<-|<-]; done).
  assert (Hnn : hasNode g nonRep)
    by (unfold nonRep; by destruct (bool_decide (tv1 = rep))).
  apply (lookupNode_existing_inv _ _ _ _ _ _ Hnr) in L1 as [-> _].
  assert (F2 : reclassed g g2 /\ (forall u, classOf g2 u = classOf g u) /\
               Changes g2 = Changes g ++
                 (if ActiveScope g
                  then [ExtendedEquivalenceClass rep (length (classOf g rep))]
                  else [])).
  { unfold recordedExtension in R. destruct (ActiveScope g) eqn:Hs.
    - destruct R as (n & Hn & _ & ->). split; [|split].
      + apply (reclassed_trans g (updateClass rep n
                 (EquivalenceClass (materialize n)) g));
          [by apply reclassed_updateClass|apply reclassed_recordChange].
      + intros u. rewrite classOf_recordChange.
        by apply classOf_materialized.
      + unfold recordChange. simpl. rewrite Hs. simpl.
        unfold classOf. by rewrite Hn.
    - subst g2. split; [apply reclassed_refl|]. split; [done|].
      by rewrite app_nil_r. }
  destruct F2 as (R2 & C2 & J2).
  assert (Hnn2 : hasNode g2 nonRep) by (by apply (reclassed_hasNode g g2)).
  apply (lookupNode_existing_inv _ _ _ _ _ _ Hnn2) in L3 as [-> _].
  apply getEquivalenceClassUnsafe_Done in E as (n3 & Hn3 & Hec & ->).
  assert (Hec' : ec = classOf g nonRep).
  { rewrite <- C2. unfold classOf. by rewrite Hn3. }
  apply addToEquivalenceClass_Done in W as (n4 & Hn4 & _ & ->).
  assert (C4 : forall u, classOf (updateClass nonRep n3 ec g2) u = classOf g u).
  { intros u. rewrite Hec, classOf_materialized by done. apply C2. }
  assert (Hm4 : EquivalenceClass (materialize n4) = classOf g rep).
  { rewrite <- C4. unfold classOf. by rewrite Hn4. }
  assert (Hne : EquivalenceClass (materialize n4) ++ ec <> []).
  { rewrite Hm4. intros E'. apply app_eq_nil in E' as [E' _].
    by apply (classOf_nonempty g rep). }
  split; [by split|]. split; [|split; [|split]].
  - apply (reclassed_trans g g2); [done|].
    apply (reclassed_trans g2 (updateClass nonRep n3 ec g2));
      [by apply reclassed_updateClass|by apply reclassed_updateClass].
  - rewrite classOf_updateClass, bool_decide_eq_true_2 by done.
    by rewrite Hm4, Hec'.
  - intros u Hu. rewrite classOf_updateClass by done.
    rewrite (bool_decide_eq_false_2 _ Hu). apply C4.
  - exact J2.
Qed.

(** [mergeNodes] returns when the variables have nodes and one of them is
    the representative of both. *)
Lemma mergeNodes_total cs fuel tv1 tv2 g :
  Consistent g -> hasNode g tv1 -> hasNode g tv2 ->
  getRepresentative cs tv2 = getRepresentative cs tv1 ->
  (tv1 = getRepresentative cs tv1 \/ tv2 = getRepresentative cs tv1) ->
  exists g', mergeNodes cs fuel tv1 tv2 g = Done g'.
Proof.
  intros Hc Hn1 Hn2 H1 H2.
  set (rep := getRepresentative cs tv1) in *.
  set (nonRep := if bool_decide (tv1 = rep) then tv2 else tv1).
  assert (Hrr : getRepresentative cs rep = rep).
  { destruct H2 as [H2|H2]; [by rewrite <- H2 at 1|by rewrite <- H2 at 1]. }
  assert (Hnr : hasNode g rep) by (destruct H2 as [<-|<-]; done).
  assert (Hnn : hasNode g nonRep)
    by (unfold nonRep; by destruct (bool_decide (tv1 = rep))).
  assert (Hstep : forall s, Consistent s -> hasNode s rep ->
            exists ec s', getEquivalenceClass cs rep s = Done (ec, s') /\
                          reclassed s s').
  { intros s [_ _ Hk] [n Hn]. unfold getEquivalenceClass. rewrite Hn. simpl.
    unfold node_getEquivalenceClass. rewrite (Hk rep n Hn), Hrr.
    rewrite bool_decide_eq_true_2 by done. simpl. eexists _, _.
    split; [done|]. unfold node_getEquivalenceClassUnsafe.
    rewrite materialize_set. by apply (reclassed_updateClass rep n). }
  destruct Hc as [Hwf Hnwf Hk].
  destruct (lookupNode_existing cs fuel g rep Hwf Hnr) as (i1 & L1 & _).
  (* The journal step. *)
  assert (H3 : exists g2,
            match ActiveScope g with
            | Some _ =>
                '(ec, g) ← getEquivalenceClass cs rep g;
                Done (recordChange
                        (ExtendedEquivalenceClass rep (length ec)) g)
            | None => Done g
            end = Done g2 /\ reclassed g g2).
  { destruct (ActiveScope g); [|exists g; split; [done|apply reclassed_refl]].
    destruct (Hstep g ltac:(by split) Hnr) as (ec & s' & -> & Hr). simpl.
    eexists. split; [done|].
    apply (reclassed_trans g s'); [done|apply reclassed_recordChange]. }
  destruct H3 as (g2 & H3 & R2).
  pose proof (reclassed_Consistent g g2 R2 ltac:(by split)) as Hc2.
  assert (Hnn2 : hasNode g2 nonRep) by (by apply (reclassed_hasNode g g2)).
  destruct (lookupNode_existing cs fuel g2 nonRep (co_wf g2 Hc2) Hnn2)
    as (i3 & L3 & _).
  destruct Hnn2 as [n3 Hn3].
  set (g4 := updateClass nonRep n3 (EquivalenceClass (materialize n3)) g2).
  assert (E : getEquivalenceClassUnsafe nonRep g2
              = Done (EquivalenceClass (materialize n3), g4)).
  { unfold getEquivalenceClassUnsafe, node_getEquivalenceClassUnsafe.
    rewrite Hn3. simpl. unfold g4, updateClass.
    by rewrite <- materialize_set. }
  pose proof (reclassed_updateClass nonRep n3
                (EquivalenceClass (materialize n3)) g2 Hn3) as R4.
  fold g4 in R4.
  pose proof (reclassed_Consistent g2 g4 R4 Hc2) as [_ _ Hk4].
  assert (Hnr4 : hasNode g4 rep).
  { apply (reclassed_hasNode g2 g4 rep R4).
    by apply (reclassed_hasNode g g2). }
  destruct Hnr4 as [n4 Hn4].
  unfold mergeNodes, mergeNodesWith. fold rep.
  rewrite (bool_decide_eq_true_2 (rep = getRepresentative cs tv2))
    by done.
  cbn [assert mbind Res_bind]. rewrite L1. cbn [mbind Res_bind].
  assert (Ha : bool_decide (tv1 = rep) || bool_decide (tv2 = rep) = true).
  { apply orb_true_iff.
    destruct H2 as [H2|H2]; [left|right]; by apply bool_decide_eq_true. }
  rewrite Ha. cbn [assert mbind Res_bind]. rewrite H3. cbn [mbind Res_bind].
  fold nonRep. rewrite L3. cbn [mbind Res_bind]. rewrite E.
  cbn [mbind Res_bind]. unfold withNode. rewrite Hn4. simpl.
  unfold node_addToEquivalenceClass. rewrite (Hk4 rep n4 Hn4), Hrr.
  rewrite bool_decide_eq_true_2 by done. simpl. eauto.
Qed.

(** X18: on a consistent graph and for two variables that have nodes,
    [mergeNodes] returns exactly when both have the same representative and
    one of them is it.  It then appends the equivalence class of the other
    variable to that of the representative (merging a representative with
    itself doubles its class), leaves every other class, the constraint
    lists, the fixed bindings and the vector of type variables alone, and
    under an active scope journals the representative with the previous
    size of its class. *)
Theorem mergeNodes_classes cs fuel tv1 tv2 g :
  Consistent g -> hasNode g tv1 -> hasNode g tv2 ->
  let rep := getRepresentative cs tv1 in
  let nonRep := if bool_decide (tv1 = rep) then tv2 else tv1 in
  ((exists g', mergeNodes cs fuel tv1 tv2 g = Done g') <->
   getRepresentative cs tv2 = rep /\ (tv1 = rep \/ tv2 = rep)) /\
  forall g', mergeNodes cs fuel tv1 tv2 g = Done g' ->
    classOf g' rep = classOf g rep ++ classOf g nonRep /\
    (forall u, u <> rep -> classOf g' u = classOf g u) /\
    (forall u, constraintsOf g' u = constraintsOf g u /\
               fixedBindingsOf g' u = fixedBindingsOf g u) /\
    TypeVariables g' = TypeVariables g /\
    Changes g' =
      Changes g ++
      (if ActiveScope g
       then [ExtendedEquivalenceClass rep (length (classOf g rep))] else []).
Proof.
  intros Hc Hn1 Hn2 rep nonRep. split; [split|].
  - intros (g' & Hrun).
    by destruct (mergeNodes_effect cs fuel tv1 tv2 g g' Hn1 Hn2 Hrun)
      as (? & _).
  - intros [H1 H2]. by apply mergeNodes_total.
  - intros g' Hrun.
    destruct (mergeNodes_effect cs fuel tv1 tv2 g g' Hn1 Hn2 Hrun)
      as (_ & Hr & Hc1 & Hc2 & Hj).
    split; [done|]. split; [done|].
    split; [intros u; by apply reclassed_lists|].
    split; [apply Hr|done].
Qed.

Lemma mergeNodes_classes_witness :
  let g := (openScope
              (finished emptyGraph
                 (applyMutations csMerged 4 [MLookup 2; MLookup 3; MLookup 0]
                    emptyGraph))).2 in
  (TypeVariables g = [2; 3; 0] /\ classOf g 2 = [2; 3] /\
   classOf g 3 = [3] /\
   mergeNodes csMerged 0 3 0 g = Abort) /\
  ((exists g', mergeNodes csMerged 0 3 2 g = Done g') <->
   getRepresentative csMerged 2 = 2 /\ (3 = 2 \/ 2 = 2)) /\
  forall g', mergeNodes csMerged 0 3 2 g = Done g' ->
    classOf g' 2 = classOf g 2 ++ classOf g 3 /\
    (forall u, u <> 2 -> classOf g' u = classOf g u) /\
    (forall u, constraintsOf g' u = constraintsOf g u /\
               fixedBindingsOf g' u = fixedBindingsOf g u) /\
    TypeVariables g' = TypeVariables g /\
    Changes g' =
      Changes g ++
      (if ActiveScope g
       then [ExtendedEquivalenceClass 2 (length (classOf g 2))] else []).
Proof.
  intros g. split; [vm_compute; auto|].
  assert (Hc : Consistent g).
  { apply Consistent_openScope.
    apply (Consistent_applyMutations csMerged 4
             [MLookup 2; MLookup 3; MLookup 0] emptyGraph);
      [apply emptyGraph_Consistent|vm_compute; reflexivity]. }
  assert (Hall : forallb (hasNodeb g) [3; 2] = true)
    by (vm_compute; reflexivity).
  pose proof (hasNodes_checked g _ Hall) as Hn.
  exact (mergeNodes_classes csMerged 0 3 2 g Hc
           (Hn 3 (list_elem_of_here 3 [2]))
           (Hn 2 (list_elem_of_further 2 3 [2] (list_elem_of_here 2 [])))).
Defined.

(** ** [computeConnectedComponents] returns *)

(** A loop returns when each iteration does, under an invariant of the
    part of the range already seen. *)
Lemma forEach_prefix_total {A S} (P : list A -> S -> Prop)
    (body : A -> S -> Res S) (l : list A) (s : S) :
  P [] s ->
  (forall pre x s1, prefix (pre ++ [x]) l -> P pre s1 ->
     exists s2, body x s1 = Done s2 /\ P (pre ++ [x]) s2) ->
  exists s', forEach body l s = Done s' /\ P l s'.
Proof.
  intros Hs Hbody.
  assert (Hgen : forall rest pre s, pre ++ rest = l -> P pre s ->
            exists s', forEach body rest s = Done s' /\ P l s').
  { induction rest as [|x rest IH]; simpl; intros pre t Hl Ht.
    - rewrite app_nil_r in Hl. subst. eauto.
    - destruct (Hbody pre x t) as (t1 & H1 & Ht1); [|done|].
      { exists rest. by rewrite <- app_assoc. }
      rewrite H1. simpl. apply (IH (pre ++ [x]) t1); [|done].
      by rewrite <- app_assoc. }
  by apply (Hgen l [] s).
Qed.

Lemma forEach_total {A S} (P : S -> Prop)
    (body : A -> S -> Res S) (l : list A) (s : S) :
  P s ->
  (forall x s1, x ∈ l -> P s1 -> exists s2, body x s1 = Done s2 /\ P s2) ->
  exists s', forEach body l s = Done s' /\ P s'.
Proof.
  intros Hs Hbody.
  apply (forEach_prefix_total (fun _ => P)); [done|].
  intros pre x s1 [k Hk] H1. apply Hbody; [|done]. rewrite Hk. set_solver.
Qed.

Lemma unionSets_total fuel a b reps :
  descending reps -> getID a < fuel -> getID b < fuel ->
  exists flag reps',
    unionSets fuel a b reps = Done (flag, reps') /\ descending reps'.
Proof.
  intros Hd Ha Hb.
  destruct (findRepresentative_total fuel a reps Hd Ha) as (r1 & reps1 & F1).
  destruct (findRepresentative_spec fuel a reps r1 reps1 Hd F1)
    as (Hd1 & _ & _ & _).
  destruct (findRepresentative_total fuel b reps1 Hd1 Hb) as (r2 & reps2 & F2).
  assert (Hrun : exists flag reps',
            unionSets fuel a b reps = Done (flag, reps')).
  { unfold unionSets. rewrite F1. simpl. rewrite F2. simpl.
    destruct (bool_decide (r1 = r2)); [eauto|].
    destruct (bool_decide (getID r1 < getID r2)); eauto. }
  destruct Hrun as (flag & reps' & Hrun). exists flag, reps'.
  split; [done|]. by destruct (unionSets_spec fuel a b reps flag reps' Hd Hrun).
Qed.

(** The state of a loop of unions: the parent links still descend, and the
    rest of the object is as it was. *)
Definition unionsOf (cc0 cc : ConnectedComponents) : Prop :=
  descending (representatives cc) /\ cg cc = cg cc0 /\
  oneWayDigraph cc = oneWayDigraph cc0.

Lemma ccUnionLoop_total fuel tv l cc :
  descending (representatives cc) -> getID tv < fuel ->
  (forall o, o ∈ l -> getID o < fuel) ->
  exists cc', forEach (ccUnion fuel tv) l cc = Done cc' /\ unionsOf cc cc'.
Proof.
  intros Hd Htv Hl.
  apply (forEach_total (unionsOf cc)); [by split|].
  intros o s Ho (Hds & Hg & Hdg).
  destruct (unionSets_total fuel tv o (representatives s) Hds Htv (Hl o Ho))
    as (flag & reps' & Hrun & Hd').
  unfold ccUnion. rewrite Hrun. simpl. eexists. split; [done|]. by split.
Qed.

Lemma unionSetsViaConstraint_total cs fuel c reps :
  descending reps -> (forall x, x ∈ getTypeVariables cs c -> getID x < fuel) ->
  exists flag reps',
    unionSetsViaConstraint cs fuel c reps = Done (flag, reps') /\
    descending reps'.
Proof.
  intros Hd Hl. unfold unionSetsViaConstraint.
  destruct (getTypeVariables cs c) as [|tv [|o rest]]; [eauto|eauto|].
  assert (Hbody : forall x (s1 : bool * gmap nat nat),
            x ∈ o :: rest -> descending s1.2 ->
            exists s2, unionStep fuel tv x s1 = Done s2 /\ descending s2.2).
  { intros x [f1 r1] Hx Hd1. simpl in Hd1.
    destruct (unionSets_total fuel tv x r1 Hd1) as (flag & reps' & Hrun & Hd').
    - apply Hl. apply list_elem_of_here.
    - apply Hl. by apply list_elem_of_further.
    - unfold unionStep. simpl. rewrite Hrun. simpl. eauto. }
  destruct (forEach_total (fun st : bool * gmap nat nat => descending st.2)
              (unionStep fuel tv) (o :: rest) (false, reps) Hd Hbody)
    as (st' & Hrun & Hd').
  destruct st' as [flag reps']. eauto.
Qed.

Lemma getEquivalenceClass_total cs r g :
  keyed g -> hasNode g r -> getRepresentative cs r = r ->
  exists ec g', getEquivalenceClass cs r g = Done (ec, g').
Proof.
  intros Hk [n Hn] Hr. unfold getEquivalenceClass. rewrite Hn. simpl.
  unfold node_getEquivalenceClass. rewrite (Hk r n Hn), Hr.
  rewrite bool_decide_eq_true_2 by done. simpl. eauto.
Qed.

Lemma assignConstraintLoop_total l : forall st,
  exists st', forEach assignConstraintStep l st = Done st'.
Proof.
  induction l as [|c l IH]; intros st; [by exists st|].
  assert (Hstep : exists s1, assignConstraintStep c st = Done s1).
  { unfold assignConstraintStep. destruct (bool_decide (c ∈ st.1)); eauto. }
  destruct Hstep as [s1 Hstep]. cbn [forEach]. rewrite Hstep. simpl.
  apply IH.
Qed.

Section ComponentsReturn.

Context (cs : ConstraintSystem) (fuel : nat).
Context (V : list TypeVariableType) (g : ConstraintGraph).
Hypothesis consistent : Consistent g.
Hypothesis nodesOfV :
  forall v, v ∈ V -> hasNode g v /\ hasNode g (getRepresentative cs v).
Hypothesis repsOfV : forall v, v ∈ V ->
  getRepresentative cs (getRepresentative cs v) = getRepresentative cs v.
Hypothesis plain : forall v c,
  v ∈ V -> c ∈ constraintsOf g v -> isOneWay (getKind cs c) = false.
Hypothesis bounded : forall v, v ∈ V ->
  getID v < fuel /\
  (forall m, m ∈ classOf g (getRepresentative cs v) -> getID m < fuel) /\
  (forall b, b ∈ fixedBindingsOf g v -> getID b < fuel) /\
  (forall c x, c ∈ constraintsOf g v -> x ∈ getTypeVariables cs c ->
               getID x < fuel).

(** The state of [connectedComponents] when no one-way constraint is
    met. *)
Definition plainState (st : CCLoop) : Prop :=
  sameGraph g (cg (ccState st)) /\
  descending (representatives (ccState st)) /\
  oneWayDigraph (ccState st) = ∅ /\ oneWayConstraints st = [].

Lemma ccConstraint_total c st :
  plainState st -> isOneWay (getKind cs c) = false ->
  (forall x, x ∈ getTypeVariables cs c -> getID x < fuel) ->
  exists st', ccConstraint cs fuel c st = Done st' /\ plainState st'.
Proof using Type.
  intros (Hg & Hd & Hdg & Hone) Hk Hl. unfold ccConstraint.
  destruct (bool_decide (c ∈ ccVisited st)); [by eexists|]. rewrite Hk.
  destruct (unionSetsViaConstraint_total cs fuel c _ Hd Hl)
    as (flag & reps' & -> & Hd').
  simpl. eexists. split; [done|]. by split.
Qed.

Lemma ccTypeVar_total v st :
  plainState st -> v ∈ V ->
  exists st', ccTypeVar cs fuel v st = Done st' /\ plainState st'.
Proof using All.
  intros (Hg & Hd & Hdg & Hone) Hv.
  destruct (nodesOfV v Hv) as [Hnv Hnr].
  destruct (bounded v Hv) as (Bv & Bclass & Bfixed & Bcons).
  set (cc := ccState st) in *. set (rep := getRepresentative cs v) in *.
  pose proof (Consistent_same g (cg cc) Hg consistent) as [Hwf0 _ Hk0].
  assert (Hnr0 : hasNode (cg cc) rep) by (by apply (sameGraph_hasNode g)).
  destruct (lookupNode_existing cs fuel (cg cc) rep Hwf0 Hnr0) as (i1 & L1 & _).
  destruct (getEquivalenceClass_total cs rep (cg cc) Hk0 Hnr0 (repsOfV v Hv))
    as (ec & s1 & Hec).
  destruct (getEquivalenceClass_same cs rep (cg cc) ec s1 Hec) as [Hec' Hs1].
  assert (Hg1 : sameGraph g s1) by (by apply (sameGraph_trans g (cg cc))).
  assert (Hecg : ec = classOf g rep)
    by (by rewrite Hec', <- (sameGraph_classOf g (cg cc))).
  destruct (ccUnionLoop_total fuel v ec (setCg cc s1) Hd Bv)
    as (cc1 & Hloop1 & Hd1 & Hcg1 & Hdg1).
  { intros o Ho. apply Bclass. by rewrite <- Hecg. }
  simpl in Hcg1, Hdg1.
  pose proof (Consistent_same g s1 Hg1 consistent) as [Hwf1 _ _].
  assert (Hnv1 : hasNode s1 v) by (by apply (sameGraph_hasNode g)).
  destruct (lookupNode_existing cs fuel s1 v Hwf1 Hnv1) as (i2 & L2 & _).
  destruct (ccUnionLoop_total fuel v (fixedBindingsOf s1 v) (setCg cc1 s1)
              Hd1 Bv) as (cc2 & Hloop2 & Hd2 & Hcg2 & Hdg2).
  { intros o Ho. apply Bfixed. by rewrite (sameGraph_fixedBindingsOf g s1). }
  simpl in Hcg2, Hdg2.
  assert (Hloop3 : exists st',
            forEach (ccConstraint cs fuel) (constraintsOf s1 v)
              {| oneWayConstraints := oneWayConstraints st;
                 ccVisited := ccVisited st; ccState := cc2 |} = Done st' /\
            plainState st').
  { apply (forEach_total plainState).
    - split; simpl; [by rewrite Hcg2|]. split; [done|].
      split; [by rewrite Hdg2, Hdg1|done].
    - intros c s Hc Hs.
      rewrite <- (sameGraph_constraintsOf g s1) in Hc by done.
      apply ccConstraint_total; [done|by apply (plain v)|].
      intros x Hx. by apply (Bcons c x). }
  destruct Hloop3 as (st' & Hloop3 & Hst').
  exists st'. split; [|done].
  unfold ccTypeVar. fold cc rep. cbv zeta.
  rewrite L1. cbn [mbind Res_bind]. rewrite Hec. cbn [mbind Res_bind].
  rewrite Hloop1. cbn [mbind Res_bind]. rewrite Hcg1, L2.
  cbn [mbind Res_bind].
  destruct Hnv1 as [n Hn]. unfold getFixedBindings, getConstraints.
  rewrite Hn. cbn [mbind Res_bind fromOption].
  unfold fixedBindingsOf in Hloop2. rewrite Hn in Hloop2. rewrite Hloop2.
  cbn [mbind Res_bind].
  unfold constraintsOf in Hloop3. rewrite Hn in Hloop3. exact Hloop3.
Qed.

Lemma makeConnectedComponents_total :
  exists cc, makeConnectedComponents cs fuel V g = Done cc /\
             oneWayDigraph cc = ∅.
Proof using All.
  destruct (forEach_total plainState (ccTypeVar cs fuel) V
              {| oneWayConstraints := []; ccVisited := ∅;
                 ccState := {| cg := g; representatives := ∅;
                               oneWayDigraph := ∅ |} |})
    as (st & Hrun & (Hg & Hd & Hdg & Hone)).
  - split; [apply sameGraph_refl|]. split; [|done].
    intros v p Hp. simpl in Hp. by rewrite lookup_empty in Hp.
  - intros v s Hv Hs. by apply ccTypeVar_total.
  - exists (ccState st). split; [|done].
    unfold makeConnectedComponents, connectedComponents.
    rewrite Hrun. cbn [mbind Res_bind]. by rewrite Hone.
Qed.

Lemma assignStep_total reps0 g1 unbound pre v st :
  GraphWF g1 -> hasNode g1 v -> getID v < fuel ->
  AssignInv reps0 g1 unbound pre st ->
  exists st', assignStep cs fuel unbound v st = Done st'.
Proof using Type.
  intros Hwf1 Hnv Hv [Hg Hc Hsz Hrange _ _ _ _].
  destruct (findRepresentative_total fuel v _ (proj1 Hc) Hv)
    as (rep & reps & F).
  destruct (lookupNode_existing cs fuel g1 v Hwf1 Hnv) as (i & L & _).
  destruct Hnv as [n Hn].
  unfold assignStep. rewrite F. cbn [mbind Res_bind].
  destruct (bool_decide (rep ∈ unbound)); simpl; [|eauto].
  assert (Hsel : exists componentIdx idxMap comps comp0,
            match componentIdxMap st !! rep with
            | Some idx => (idx, componentIdxMap st, components st)
            | None =>
                (size (componentIdxMap st),
                 <[rep := size (componentIdxMap st)]> (componentIdxMap st),
                 components st ++ [emptyComponent])
            end = (componentIdx, idxMap, comps) /\
            comps !! componentIdx = Some comp0).
  { destruct (componentIdxMap st !! rep) as [idx|] eqn:Hidx.
    - destruct (Hrange rep idx Hidx) as [Hlt _].
      destruct (lookup_lt_is_Some_2 _ _ Hlt) as [comp0 Hcomp0]. eauto 10.
    - eexists _, _, _, emptyComponent. split; [done|].
      rewrite Hsz. by apply list_lookup_middle. }
  destruct Hsel as (componentIdx & idxMap & comps & comp0 & -> & Hcomp0).
  rewrite Hcomp0. cbn [mbind Res_bind fromOption]. simpl cg. rewrite Hg, L.
  cbn [mbind Res_bind]. unfold getConstraints. rewrite Hn.
  cbn [mbind Res_bind fromOption].
  destruct (assignConstraintLoop_total (Constraints n)
              (knownConstraints st,
               {| typeVars := typeVars comp0 ++ [v];
                  constraints := constraints comp0;
                  oneWayComponents := oneWayComponents comp0 |}))
    as ([known comp'] & ->).
  cbn [mbind Res_bind]. eauto.
Qed.

Lemma getComponents_total cc :
  sameGraph g (cg cc) -> descending (representatives cc) ->
  oneWayDigraph cc = ∅ ->
  exists comps cc', getComponents cs fuel V cc = Done (comps, cc').
Proof using All.
  intros Hg Hd Hdg.
  pose proof (Consistent_same g (cg cc) Hg consistent) as [Hwf1 _ _].
  assert (Hn1 : forall v, v ∈ V -> hasNode (cg cc) v).
  { intros v Hv. apply (sameGraph_hasNode g _ _ Hg). by apply nodesOfV. }
  destruct (forEach_total
              (fun st : gset nat * gmap nat nat =>
                 compressed (representatives cc) st.2)
              (unboundStep cs fuel) V (∅, representatives cc))
    as ([unbound reps1] & HU & Hc1).
  { by apply compressed_refl. }
  { intros v [U r1] Hv Hc. simpl in Hc. unfold unboundStep.
    destruct (getFixedType cs v); [by eexists|]. simpl.
    destruct (findRepresentative_total fuel v r1 (proj1 Hc))
      as (rep & r2 & F); [by apply bounded|].
    rewrite F. simpl. eexists. split; [done|]. simpl.
    apply (compressed_trans _ r1); [done|].
    by destruct (compressed_find fuel v r1 rep r2 (proj1 Hc) F). }
  simpl in Hc1.
  destruct (forEach_prefix_total
              (fun pre s =>
                 AssignInv (representatives cc) (cg cc) unbound pre s)
              (assignStep cs fuel unbound) V
              {| components := []; componentIdxMap := ∅;
                 knownConstraints := ∅;
                 assignState := setRepresentatives cc reps1 |})
    as (st & Hloop & _).
  { split; simpl.
    - done.
    - done.
    - by rewrite map_size_empty.
    - intros r i Hr. by rewrite lookup_empty in Hr.
    - intros r r' i Hr. by rewrite lookup_empty in Hr.
    - intros i comp tv Hi. by rewrite lookup_nil in Hi.
    - intros v r Hv. by apply elem_of_nil in Hv.
    - intros i comp Hi. by rewrite lookup_nil in Hi. }
  { intros pre v s1 Hpre Hinv.
    assert (Hv : v ∈ V) by (destruct Hpre as [k ->]; set_solver).
    destruct (assignStep_total (representatives cc) (cg cc) unbound pre v s1
                Hwf1 (Hn1 v Hv) (proj1 (bounded v Hv)) Hinv) as [s2 Hstep].
    exists s2. split; [done|].
    by apply (assignStep_spec cs fuel V g nodesOfV _ _ _ pre v s1 s2 Hd
                (Hn1 v Hv)). }
  unfold getComponents. rewrite HU. cbn [mbind Res_bind]. rewrite Hloop.
  cbn [mbind Res_bind]. rewrite bool_decide_eq_true_2 by done. eauto.
Qed.

Lemma computeConnectedComponents_total :
  exists comps g', computeConnectedComponents cs fuel V g = Done (comps, g').
Proof using All.
  destruct makeConnectedComponents_total as (cc & Hmake & Hdg).
  destruct (makeConnectedComponents_spec cs fuel V g nodesOfV cc Hmake)
    as (Hg & Hd & _).
  destruct (getComponents_total cc Hg Hd Hdg) as (comps & cc' & Hget).
  unfold computeConnectedComponents. rewrite Hmake. cbn [mbind Res_bind].
  rewrite Hget. cbn [mbind Res_bind]. eauto.
Qed.

End ComponentsReturn.

Lemma getComponents_plain cs fuel V cc comps cc' :
  oneWayDigraph cc = ∅ ->
  getComponents cs fuel V cc = Done (comps, cc') ->
  forall comp, comp ∈ comps -> oneWayComponents comp = [].
Proof.
  intros Hdg Hrun. unfold getComponents in Hrun.
  apply bind_Done in Hrun as ([unbound reps] & _ & Hrun).
  apply bind_Done in Hrun as (st & Hloop & Hrun).
  rewrite bool_decide_eq_true_2 in Hrun by done. injection Hrun as <- <-.
  apply Forall_forall.
  eapply (forEach_invariant
            (fun st => Forall (fun comp => oneWayComponents comp = [])
                         (components st))); [| |exact Hloop].
  - constructor.
  - intros v s1 s2 _. apply assignStep_noOneWay.
Qed.

(** A checker for the inputs on which [computeConnectedComponents] is
    shown to return. *)
Definition plainInputb (cs : ConstraintSystem) (fuel : nat)
    (V : list TypeVariableType) (g : ConstraintGraph) : bool :=
  forallb (fun v =>
    bool_decide (getRepresentative cs (getRepresentative cs v)
                 = getRepresentative cs v) &&
    bool_decide (getID v < fuel) &&
    forallb (fun m => bool_decide (getID m < fuel))
            (classOf g (getRepresentative cs v)) &&
    forallb (fun b => bool_decide (getID b < fuel)) (fixedBindingsOf g v) &&
    forallb (fun c =>
               negb (isOneWay (getKind cs c)) &&
               forallb (fun x => bool_decide (getID x < fuel))
                       (getTypeVariables cs c))
            (constraintsOf g v)) V.

Lemma plainInputb_true cs fuel V g :
  plainInputb cs fuel V g = true ->
  (forall v, v ∈ V ->
     getRepresentative cs (getRepresentative cs v) = getRepresentative cs v) /\
  (forall v c, v ∈ V -> c ∈ constraintsOf g v ->
               isOneWay (getKind cs c) = false) /\
  (forall v, v ∈ V ->
     getID v < fuel /\
     (forall m, m ∈ classOf g (getRepresentative cs v) -> getID m < fuel) /\
     (forall b, b ∈ fixedBindingsOf g v -> getID b < fuel) /\
     (forall c x, c ∈ constraintsOf g v -> x ∈ getTypeVariables cs c ->
                  getID x < fuel)).
Proof.
  unfold plainInputb. rewrite forallb_forall. intros Hall.
  assert (Hv : forall v, v ∈ V ->
            getRepresentative cs (getRepresentative cs v)
              = getRepresentative cs v /\
            getID v < fuel /\
            (forall m, m ∈ classOf g (getRepresentative cs v) ->
                       getID m < fuel) /\
            (forall b, b ∈ fixedBindingsOf g v -> getID b < fuel) /\
            (forall c, c ∈ constraintsOf g v ->
               isOneWay (getKind cs c) = false /\
               forall x, x ∈ getTypeVariables cs c -> getID x < fuel)).
  { intros v Hin. apply list_elem_of_In, Hall in Hin.
    apply andb_true_iff in Hin as [Hin H5].
    apply andb_true_iff in Hin as [Hin H4].
    apply andb_true_iff in Hin as [Hin H3].
    apply andb_true_iff in Hin as [H1 H2].
    apply bool_decide_eq_true in H1, H2.
    rewrite forallb_forall in H3, H4, H5.
    split; [done|]. split; [done|]. split; [|split].
    - intros m Hm. apply list_elem_of_In, H3 in Hm.
      by apply bool_decide_eq_true in Hm.
    - intros b Hb. apply list_elem_of_In, H4 in Hb.
      by apply bool_decide_eq_true in Hb.
    - intros c Hc. apply list_elem_of_In, H5 in Hc.
      apply andb_true_iff in Hc as [Hk Hx]. split.
      + by apply negb_true_iff in Hk.
      + rewrite forallb_forall in Hx. intros x Hin'.
        apply list_elem_of_In, Hx in Hin'.
        by apply bool_decide_eq_true in Hin'. }
  split; [|split].
  - intros v Hin. by destruct (Hv v Hin).
  - intros v c Hin Hc. destruct (Hv v Hin) as (_ & _ & _ & _ & H5).
    by destruct (H5 c Hc).
  - intros v Hin. destruct (Hv v Hin) as (_ & H2 & H3 & H4 & H5).
    split; [done|]. split; [done|]. split; [done|].
    intros c x Hc Hx. destruct (H5 c Hc) as [_ H6]. auto.
Qed.

(** X19: on a consistent graph, for input variables that have nodes and
    whose representatives have nodes and are their own representatives,
    when none of the constraints in the input variables' nodes is a
    one-way constraint and the recursion budget exceeds the IDs of the
    variables involved, [computeConnectedComponents] returns: no assertion
    fails.  The components it returns have no one-way subcomponents. *)
Theorem computeConnectedComponents_returns cs fuel V g :
  Consistent g ->
  (forall v, v ∈ V -> hasNode g v /\ hasNode g (getRepresentative cs v)) ->
  (forall v, v ∈ V ->
     getRepresentative cs (getRepresentative cs v) = getRepresentative cs v) ->
  (forall v c, v ∈ V -> c ∈ constraintsOf g v ->
               isOneWay (getKind cs c) = false) ->
  (forall v, v ∈ V ->
     getID v < fuel /\
     (forall m, m ∈ classOf g (getRepresentative cs v) -> getID m < fuel) /\
     (forall b, b ∈ fixedBindingsOf g v -> getID b < fuel) /\
     (forall c x, c ∈ constraintsOf g v -> x ∈ getTypeVariables cs c ->
                  getID x < fuel)) ->
  exists comps g',
    computeConnectedComponents cs fuel V g = Done (comps, g') /\
    forall comp, comp ∈ comps -> oneWayComponents comp = [].
Proof.
  intros Hc Hn Hr Hp Hb.
  destruct (computeConnectedComponents_total cs fuel V g Hc Hn Hr Hp Hb)
    as (comps & g' & Hrun).
  exists comps, g'. split; [done|].
  destruct (makeConnectedComponents_total cs fuel V g Hc Hn Hr Hp Hb)
    as (cc & Hmake & Hdg).
  unfold computeConnectedComponents in Hrun. rewrite Hmake in Hrun.
  cbn [mbind Res_bind] in Hrun.
  apply bind_Done in Hrun as ([comps1 cc1] & Hget & Hrun).
  injection Hrun as -> <-.
  by apply (getComponents_plain cs fuel V cc comps cc1).
Qed.

Lemma computeConnectedComponents_returns_witness :
  let V := [3; 2; 1; 0; 2] in
  exists comps g',
    computeConnectedComponents csPairs 4 V graphPairs = Done (comps, g') /\
    forall comp, comp ∈ comps -> oneWayComponents comp = [].
Proof.
  intros V.
  assert (Hc : Consistent graphPairs).
  { apply (Consistent_applyMutations csPairs 4
             [MAddConstraint 0; MAddConstraint 1; MAddConstraint 2]
             emptyGraph); [apply emptyGraph_Consistent|vm_compute; reflexivity]. }
  assert (Hn : forallb (fun v => hasNodeb graphPairs v &&
                          hasNodeb graphPairs (getRepresentative csPairs v))
                 V = true) by (vm_compute; reflexivity).
  assert (Hp : plainInputb csPairs 4 V graphPairs = true)
    by (vm_compute; reflexivity).
  destruct (plainInputb_true csPairs 4 V graphPairs Hp) as (H1 & H2 & H3).
  exact (computeConnectedComponents_returns csPairs 4 V graphPairs Hc
           (nodesOf_checked csPairs graphPairs V Hn) H1 H2 H3).
Defined.

(** ** The solver between two calls

    [lookupNode] and [mergeNodes] read the representatives and the fixed
    types at each call, and the solver changes them between two calls.  The
    type variables of a constraint are stored in the constraint and stay. *)

Record Bindings : Type := {
  representativeOf : TypeVariableType -> TypeVariableType;
  fixedTypeOf : TypeVariableType -> option Ty;
}.

Definition withBindings (cs : ConstraintSystem) (b : Bindings)
  : ConstraintSystem :=
  {| getRepresentative := representativeOf b;
     getFixedType := fixedTypeOf b;
     canBindToLValue := canBindToLValue cs;
     canBindToInOut := canBindToInOut cs;
     getPotentialBindings := getPotentialBindings cs;
     getKind := getKind cs;
     getFirstType := getFirstType cs;
     getSecondType := getSecondType cs;
     getTypeVariables := getTypeVariables cs;
     ActiveConstraints := ActiveConstraints cs;
     InactiveConstraints := InactiveConstraints cs;
     solverState := solverState cs |}.

(** The bindings that a constraint system holds. *)
Definition bindingsOf (cs : ConstraintSystem) : Bindings :=
  {| representativeOf := getRepresentative cs;
     fixedTypeOf := getFixedType cs |}.

Lemma withBindings_bindingsOf cs : withBindings cs (bindingsOf cs) = cs.
Proof. by destruct cs. Qed.

(** Nobody merged or bound. *)
Definition plainBindings : Bindings :=
  {| representativeOf := fun tv => tv; fixedTypeOf := fun _ => None |}.

(** [T3] has been merged into [T2]. *)
Definition mergedBindings : Bindings :=
  {| representativeOf := fun tv => if bool_decide (tv = 3) then 2 else tv;
     fixedTypeOf := fun _ => None |}.

(** A call of a public mutator, under the bindings of the moment. *)
Definition Call : Type := Bindings * Mutation.

Definition applyCall (cs : ConstraintSystem) (fuel : nat) (c : Call)
    (g : ConstraintGraph) : Res ConstraintGraph :=
  applyMutation (withBindings cs c.1) fuel c.2 g.

Definition applyCalls (cs : ConstraintSystem) (fuel : nat)
    (calls : list Call) (g : ConstraintGraph) : Res ConstraintGraph :=
  forEach (applyCall cs fuel) calls g.

(** A run under bindings that stay is a run of [applyMutations]. *)
Lemma applyCall_bindingsOf cs fuel m g :
  applyCall cs fuel (bindingsOf cs, m) g = applyMutation cs fuel m g.
Proof. unfold applyCall. cbn [fst snd]. by rewrite withBindings_bindingsOf. Qed.

Lemma applyCalls_bindingsOf cs fuel ms g :
  applyCalls cs fuel ((fun m => (bindingsOf cs, m)) <$> ms) g
  = applyMutations cs fuel ms g.
Proof.
  revert g. induction ms as [|m ms IH]; intros g; [done|].
  change (applyCall cs fuel (bindingsOf cs, m) g
            ≫= applyCalls cs fuel ((fun m => (bindingsOf cs, m)) <$> ms)
          = applyMutation cs fuel m g ≫= applyMutations cs fuel ms).
  rewrite applyCall_bindingsOf.
  destruct (applyMutation cs fuel m g) as [g1| |]; [|done|done].
  cbn [mbind Res_bind]. apply IH.
Qed.

(** The invariants of a scope read the constraint system only for the type
    variables of the constraints. *)
Definition sameTypeVariables (cs cs' : ConstraintSystem) : Prop :=
  forall c, getTypeVariables cs' c = getTypeVariables cs c.

Lemma sameTypeVariables_withBindings cs b :
  sameTypeVariables cs (withBindings cs b).
Proof. by intros c. Qed.

Lemma sameTypeVariables_sym cs cs' :
  sameTypeVariables cs cs' -> sameTypeVariables cs' cs.
Proof. intros H c. by rewrite H. Qed.

Lemma mentions_ext cs cs' e :
  sameTypeVariables cs cs' -> mentions cs' e = mentions cs e.
Proof. intros H. destruct e; simpl; by rewrite ?H. Qed.

Lemma TrackedTypeVars_ext cs cs' g0 g :
  sameTypeVariables cs cs' ->
  TrackedTypeVars cs g0 g -> TrackedTypeVars cs' g0 g.
Proof.
  intros H [Hs Hv Hw Hm]. split; [done|done|done|].
  intros j1 e j2 Hj v. rewrite (mentions_ext cs cs' e H). by apply (Hm j1 e j2).
Qed.

Lemma replay_ext strict relevant relevant' es l :
  (forall c, relevant' c = relevant c) ->
  replay strict relevant' es l = replay strict relevant es l.
Proof.
  intros H. induction es as [|e es IH] using rev_ind; [done|].
  rewrite !replay_snoc, IH.
  destruct (replay strict relevant es l) as [l1|]; [|done]. simpl.
  destruct e as [added c]. simpl. by rewrite H.
Qed.

Lemma TrackedConstraints_ext cs cs' g0 es g :
  sameTypeVariables cs cs' ->
  TrackedConstraints cs g0 es g -> TrackedConstraints cs' g0 es g.
Proof.
  intros H [Hw Hnd Hl Ho]. split; [done| | |].
  - intros e He. rewrite H. by apply Hnd.
  - intros tv. destruct (Hl tv) as (l & Hr & Hp). exists l. split; [|done].
    rewrite <- Hr. apply replay_ext. intros c. unfold mentionedBy.
    by rewrite H.
  - destruct Ho as (l & Hr & Hp). exists l. split; [|done].
    rewrite <- Hr. apply replay_ext. intros c. unfold orphaned. by rewrite H.
Qed.

Lemma Tracked_ext cs cs' g0 g :
  sameTypeVariables cs cs' -> Tracked cs g0 g -> Tracked cs' g0 g.
Proof.
  intros H (es & [[TT TB] [TC TE]] & TK). exists es. split.
  - split; split; try done. by apply (TrackedTypeVars_ext cs).
  - by apply (TrackedConstraints_ext cs).
Qed.

Lemma Tracked_applyCall cs fuel g0 c g g' :
  Tracked cs g0 g -> applyCall cs fuel c g = Done g' -> Tracked cs g0 g'.
Proof.
  intros HT Hrun. pose proof (sameTypeVariables_withBindings cs c.1) as H.
  apply (Tracked_ext _ cs g0 g' (sameTypeVariables_sym _ _ H)).
  apply (Tracked_applyMutation (withBindings cs c.1) fuel g0 c.2 g g');
    [|done].
  by apply (Tracked_ext cs).
Qed.

Lemma Tracked_applyCalls cs fuel g0 calls g g' :
  Tracked cs g0 g -> applyCalls cs fuel calls g = Done g' -> Tracked cs g0 g'.
Proof.
  intros HT Hrun.
  eapply (forEach_invariant (Tracked cs g0)); [exact HT| |exact Hrun].
  intros c s1 s2 _. apply Tracked_applyCall.
Qed.

Lemma unwind_Tracked_any cs cs' fuel g0 iters :
  sameTypeVariables cs cs' -> Consistent g0 ->
  forall g, Tracked cs g0 g -> noSelfBinding (journalSince g0 g) ->
    length (journalSince g0 g) <= iters ->
    exists g', unwind cs' iters fuel (length (Changes g0)) g = Done g' /\
               Tracked cs g0 g' /\ journalSince g0 g' = [].
Proof.
  intros H Hco g HT Hself Hlen.
  destruct (unwind_Tracked cs' fuel g0 iters Hco g
              (Tracked_ext cs cs' g0 g H HT) Hself Hlen) as (g' & Hu & HT' & Hj).
  exists g'. split; [done|]. split; [|done].
  by apply (Tracked_ext cs' cs g0 g' (sameTypeVariables_sym _ _ H)).
Qed.

(** C1, amended: for every sequence of calls of the public mutators under a
    single scope, each call under the bindings of its moment, closing the
    scope returns, and restores the vector of type variables, the nodes,
    their fixed bindings, their equivalence classes as read through
    [getEquivalenceClassUnsafe], the journal and the active scope; the
    constraint list of every node and the orphaned constraints are restored
    up to their order.  This is for scopes in which no type variable was
    bound to a type that mentions the variable itself. *)
Theorem C1_scope_restores cs fuel fuel' calls b g0 g2 :
  Consistent g0 ->
  applyCalls cs fuel calls (openScope g0).2 = Done g2 ->
  noSelfBinding (journalSince g0 g2) ->
  exists g3,
    closeScope (withBindings cs b) fuel' (openScope g0).1 g2 = Done g3 /\
    restored g0 g3.
Proof.
  intros Hco Hrun Hself.
  pose proof (Tracked_applyCalls cs fuel g0 calls (openScope g0).2 g2
                (Tracked_open cs g0 Hco) Hrun) as HT.
  pose proof (proj2 (Tracked_scoped cs g0 g2 HT)) as Hp.
  destruct (unwind_Tracked_any cs (withBindings cs b) fuel' g0
              (length (Changes g2)) (sameTypeVariables_withBindings cs b)
              Hco g2 HT Hself)
    as (g' & Hun & HT' & Hj').
  { unfold journalSince. rewrite length_drop. lia. }
  exists (setActiveScope g' (ActiveScope g0)). split.
  - unfold closeScope. simpl.
    rewrite bool_decide_eq_true_2 by (by apply prefix_length).
    simpl. by rewrite Hun.
  - by apply (Tracked_restored cs).
Qed.

(** ** Scopes within scopes

    A run of the solver on the graph: calls of the public mutators, each
    under the bindings of its moment, and scopes that are opened and closed
    in between.  Scopes are objects on the stack of the solver, so the scope
    that is destroyed is the active one. *)

Inductive Step : Type :=
| SCall (b : Bindings) (m : Mutation)
| SOpen
| SClose (b : Bindings).

Definition applyStep (cs : ConstraintSystem) (fuel : nat) (st : Step)
    (g : ConstraintGraph) : Res ConstraintGraph :=
  match st with
  | SCall b m => applyMutation (withBindings cs b) fuel m g
  | SOpen => Done (openScope g).2
  | SClose b =>
      s ← fromOption (ActiveScope g);
      closeScope (withBindings cs b) fuel s g
  end.

Definition applySteps (cs : ConstraintSystem) (fuel : nat)
    (steps : list Step) (g : ConstraintGraph) : Res ConstraintGraph :=
  forEach (applyStep cs fuel) steps g.

(** The journal of the active scope. *)
Definition scopeJournal (g : ConstraintGraph) : list Change :=
  match ActiveScope g with
  | Some s => drop (NumChanges s) (Changes g)
  | None => []
  end.

(** Every scope that the run closes has a journal with the property
    [ok]. *)
Fixpoint closing (ok : list Change -> Prop) (cs : ConstraintSystem)
    (fuel : nat) (steps : list Step) (g : ConstraintGraph) : Prop :=
  match steps with
  | [] => True
  | st :: rest =>
      match st with
      | SClose _ => ok (scopeJournal g)
      | _ => True
      end /\
      match applyStep cs fuel st g with
      | Done g' => closing ok cs fuel rest g'
      | _ => True
      end
  end.

Lemma closing_impl (ok ok' : list Change -> Prop) cs fuel steps g :
  (forall j, ok j -> ok' j) ->
  closing ok cs fuel steps g -> closing ok' cs fuel steps g.
Proof.
  intros H. revert g. induction steps as [|st rest IH]; intros g; [done|].
  simpl. intros [H1 H2]. split.
  - destruct st; auto.
  - destruct (applyStep cs fuel st g); auto.
Qed.

Lemma closing_True cs fuel steps g : closing (fun _ => True) cs fuel steps g.
Proof.
  revert g. induction steps as [|st rest IH]; intros g; [done|]. simpl.
  split; [by destruct st|]. destruct (applyStep cs fuel st g); auto.
Qed.

(** Under no scope nothing is journalled: an undo leaves the journal and
    the scope as they are. *)
Lemma unjournalled_unbind cs fuel j tv fixed g g' :
  unjournalled j g -> unbindTypeVariable cs fuel tv fixed g = Done g' ->
  unjournalled j g'.
Proof.
  intros Hu Hrun. unfold unbindTypeVariable in Hrun.
  destruct (hasTypeVariable fixed); simpl in Hrun; [|by injection Hrun as <-].
  apply bind_Done in Hrun as ([i g1] & L & Hrun).
  apply (unjournalled_lookup _ _ _ _ _ _ _ Hu) in L.
  apply bind_Done in Hrun as ([known g2] & Hloop & Hrun).
  injection Hrun as <-.
  change g2 with (known, g2).2.
  apply (forEach_invariant (fun st => unjournalled j st.2) _ _ (∅, g1)
           (known, g2)) in Hloop; [exact Hloop|exact L|].
  intros v [k1 s1] [k2 s2] _ H1 Hstep. simpl in *.
  destruct (bool_decide (v ∈ k1)); [by injection Hstep as <- <-|].
  apply bind_Done in Hstep as ([i' ga] & L' & Hstep).
  apply (unjournalled_lookup _ _ _ _ _ _ _ H1) in L'.
  apply bind_Done in Hstep as (gb & W1 & Hstep).
  apply bind_Done in Hstep as (gc & W2 & Hstep). injection Hstep as <- <-.
  eapply unjournalled_withNode; [|exact W2].
  eapply unjournalled_withNode; [|exact W1]. done.
Qed.

Lemma undo_journal cs fuel e g g' :
  undo cs fuel e g = Done g' ->
  Changes g' = Changes g /\ ActiveScope g' = ActiveScope g.
Proof.
  intros Hrun. unfold undo in Hrun.
  apply bind_Done in Hrun as (gop & Hop & Hrun). injection Hrun as <-.
  split; [|done]. simpl.
  assert (Hu : unjournalled (Changes g) (setActiveScope g None)) by done.
  destruct e as [tv|c|c|tv m|tv fixed].
  - unfold removeNode in Hop.
    apply bind_Done in Hop as (i & _ & Hop).
    apply bind_Done in Hop as (u & _ & Hop).
    apply bind_Done in Hop as (tvs & _ & Hop). by injection Hop as <-.
  - by destruct (unjournalled_applyMutation cs fuel (MRemoveConstraint c) _ _ _
                   Hu Hop).
  - by destruct (unjournalled_applyMutation cs fuel (MAddConstraint c) _ _ _
                   Hu Hop).
  - apply bind_Done in Hop as ([i g1] & L & Hop).
    apply (unjournalled_lookup _ _ _ _ _ _ _ Hu) in L.
    by destruct (unjournalled_withNode _ _ _ _ _ L Hop).
  - by destruct (unjournalled_unbind cs fuel _ tv fixed _ _ Hu Hop).
Qed.

Lemma unwind_length cs iters fuel numChanges g g' :
  unwind cs iters fuel numChanges g = Done g' ->
  length (Changes g') <= numChanges.
Proof.
  revert g. induction iters as [|iters IH]; intros g Hrun; simpl in Hrun.
  - case_bool_decide as Hlen; [done|]. injection Hrun as <-. lia.
  - case_bool_decide as Hlen; [|injection Hrun as <-; lia].
    apply bind_Done in Hrun as (ch & Hb & Hrun).
    apply bind_Done in Hrun as (g1 & Hundo & Hrun). by apply (IH _ Hrun).
Qed.

Lemma back_snoc {A} (l : list A) (x : A) :
  back l = Some x -> l = pop_back l ++ [x].
Proof.
  unfold back, pop_back. intros H.
  destruct l as [|y l _] using rev_ind; [done|].
  rewrite last_snoc in H. injection H as ->. by rewrite removelast_last.
Qed.

Lemma applyMutation_ActiveScope cs fuel m g g' :
  applyMutation cs fuel m g = Done g' -> ActiveScope g' = ActiveScope g.
Proof.
  intros Hrun.
  apply (applyMutation_keeps cs (fun s => ActiveScope s = ActiveScope g))
    with (fuel := fuel) (m := m) (g := g); [| | | |done|done].
  - apply simpleStepInvariant.
    + intros tv s _ Hs. unfold createNode.
      by rewrite recordChange_ActiveScope.
    + intros ch s _ Hs. by rewrite recordChange_ActiveScope.
    + by intros tv n ec s _ Hs.
    + by intros tv other n1 n2 s _ _ _ Hs.
  - by intros tv n n' s _ _ _ _ Hs.
  - by intros oc s Hs.
  - intros ch s Hs. by rewrite recordChange_ActiveScope.
Qed.

Section ScopeInvariant.

Context (cs : ConstraintSystem).
(** [Q] holds of the graph between two steps; [I b g] relates the graph [g]
    to the graph [b] at the opening of a scope that is still open. *)
Context (Q : ConstraintGraph -> Prop).
Context (I : ConstraintGraph -> ConstraintGraph -> Prop).
Context (ok : Change -> Prop).

Hypothesis I_scoped : forall b g, I b g -> scoped b g.
Hypothesis I_open : forall g, Q g -> I g (openScope g).2.
Hypothesis I_scope : forall b g s, I b g -> I b (setActiveScope g (Some s)).
Hypothesis Q_scope : forall g s, Q g -> Q (setActiveScope g s).
Hypothesis Q_call : forall b fuel m g g',
  Q g -> applyMutation (withBindings cs b) fuel m g = Done g' -> Q g'.
Hypothesis I_call : forall b fuel m g0 g g',
  I g0 g -> applyMutation (withBindings cs b) fuel m g = Done g' -> I g0 g'.
Hypothesis I_undo : forall b fuel g0 g j e g1,
  Q g0 -> I g0 g -> journalSince g0 g = j ++ [e] -> ok e ->
  undo (withBindings cs b) fuel e g = Done g1 ->
  I g0 (setChanges g1 (pop_back (Changes g1))).
Hypothesis Q_close : forall b g,
  Q b -> I b g -> journalSince b g = [] ->
  Q (setActiveScope g (ActiveScope b)).

(** The scopes that are open, innermost first, by the graphs at their
    openings. *)
Inductive Scopes : list ConstraintGraph -> ConstraintGraph -> Prop :=
| Scopes_none g : ActiveScope g = None -> Q g -> Scopes [] g
| Scopes_some b bases g s :
    Scopes bases b -> Q g -> ActiveScope g = Some s ->
    NumChanges s = length (Changes b) -> ParentScope s = ActiveScope b ->
    (forall b', b' ∈ b :: bases -> I b' g) ->
    Scopes (b :: bases) g.

Lemma Scopes_Q bases g : Scopes bases g -> Q g.
Proof using Type. by destruct 1. Qed.

Lemma Scopes_bases bases g :
  Scopes bases g -> forall b, b ∈ bases -> Q b.
Proof using Type.
  induction 1 as [|b bases g s Hb IH HQ Hs Hn Hp HI]; intros b' Hin.
  - by apply elem_of_nil in Hin.
  - apply elem_of_cons in Hin as [->|Hin]; [by apply (Scopes_Q bases)|auto].
Qed.

Lemma Scopes_call bases b fuel m g g' :
  Scopes bases g -> applyMutation (withBindings cs b) fuel m g = Done g' ->
  Scopes bases g'.
Proof using Q_call I_call.
  intros HS Hrun.
  pose proof (applyMutation_ActiveScope _ _ _ _ _ Hrun) as Hact.
  destruct HS as [g Hs HQ|b0 bases g s Hb HQ Hs Hn Hp HI].
  - apply Scopes_none; [congruence|eauto].
  - apply (Scopes_some b0 bases g' s); eauto; congruence.
Qed.

Lemma Scopes_open bases g : Scopes bases g -> Scopes (g :: bases) (openScope g).2.
Proof using I_open I_scope Q_scope.
  intros HS. pose proof (Scopes_Q bases g HS) as HQ.
  apply (Scopes_some g bases _ (openScope g).1); try done.
  - by apply Q_scope.
  - intros b' Hin. apply elem_of_cons in Hin as [->|Hin]; [by apply I_open|].
    destruct HS as [g Hs _|b0 bases g s Hb _ Hs Hn Hp HI];
      [by apply elem_of_nil in Hin|].
    apply I_scope. auto.
Qed.

Lemma Scopes_unwinding (bs : list ConstraintGraph) b fuel numChanges g g' :
  unwinding (withBindings cs b) fuel numChanges g g' ->
  (forall b', b' ∈ bs ->
     Q b' /\ I b' g /\ length (Changes b') <= numChanges) ->
  Forall ok (drop numChanges (Changes g)) ->
  forall b', b' ∈ bs -> I b' g'.
Proof using I_scoped I_undo.
  induction 1 as [g|g ch g1 g' Hlen Hb Hundo _ IH]; intros Hbs Hok b' Hin.
  { by destruct (Hbs b' Hin) as (_ & ? & _). }
  destruct (undo_journal _ _ _ _ _ Hundo) as [HC HA].
  pose proof (back_snoc _ _ Hb) as Hsplit.
  assert (Hpl : numChanges <= length (pop_back (Changes g))).
  { rewrite Hsplit, length_app in Hlen. simpl in Hlen. lia. }
  rewrite Hsplit, drop_app_le in Hok by done.
  apply Forall_app in Hok as [Hok1 Hok2].
  apply IH; [|simpl; by rewrite HC|done].
  intros b1 Hb1. destruct (Hbs b1 Hb1) as (HQ & HI & Hl).
  split; [done|]. split; [|done].
  destruct (journalSince_back b1 g ch (proj2 (I_scoped _ _ HI))
              ltac:(lia) Hb) as [j Hj].
  apply (I_undo b fuel b1 g j ch g1); try done.
  by inversion Hok2.
Qed.

(** Closing the active scope: the scopes that remain are as before, and
    the graph left by the loop of the destructor has an empty journal
    relative to the opening. *)
Lemma Scopes_close b0 bases b fuel g s g' :
  Scopes (b0 :: bases) g -> ActiveScope g = Some s ->
  Forall ok (scopeJournal g) ->
  closeScope (withBindings cs b) fuel s g = Done g' ->
  Scopes bases g' /\
  exists ge, g' = setActiveScope ge (ActiveScope b0) /\ I b0 ge /\
             journalSince b0 ge = [].
Proof using All.
  intros HS Hs Hok Hrun. unfold scopeJournal in Hok. rewrite Hs in Hok.
  inversion HS as [|b0' bases' g0 s' Hb HQ Hs' Hn Hp HI]; subst.
  rewrite Hs in Hs'. injection Hs' as <-.
  unfold closeScope in Hrun.
  apply bind_Done in Hrun as (u & _ & Hrun).
  apply bind_Done in Hrun as (ge & Hun & Hrun). injection Hrun as <-.
  pose proof (unwind_length _ _ _ _ _ _ Hun) as Hlen.
  apply unwind_unwinding in Hun.
  assert (Hbs : forall b', b' ∈ b0 :: bases ->
            Q b' /\ I b' g /\ length (Changes b') <= NumChanges s).
  { intros b' Hin. split; [|split; [by apply HI|]].
    - apply elem_of_cons in Hin as [->|Hin]; [by apply (Scopes_Q bases)|].
      by apply (Scopes_bases bases b0).
    - rewrite Hn. apply elem_of_cons in Hin as [->|Hin]; [done|].
      destruct Hb as [|b1 bases b0 s0 Hb1 HQ0 Hs0 Hn0 Hp0 HI0];
        [by apply elem_of_nil in Hin|].
      apply prefix_length, (I_scoped b' b0), HI0, Hin. }
  pose proof (Scopes_unwinding (b0 :: bases) b fuel (NumChanges s) g ge
                Hun Hbs Hok) as HIe.
  assert (Hj : journalSince b0 ge = []).
  { destruct (I_scoped b0 ge (HIe b0 ltac:(left))) as [_ [k Hk]].
    unfold journalSince. rewrite Hk, drop_app_length.
    rewrite Hk, length_app, <- Hn in Hlen. destruct k; [done|].
    simpl in Hlen. lia. }
  split; [|exists ge; split; [by rewrite Hp|split; [apply HIe; left|done]]].
  rewrite Hp.
  assert (HQe : Q (setActiveScope ge (ActiveScope b0))).
  { apply Q_close; [by apply (Scopes_Q bases)|apply HIe; left|done]. }
  destruct Hb as [b0 Hs0 HQ0|b1 bases b0 s0 Hb1 HQ0 Hs0 Hn0 Hp0 HI0].
  - apply Scopes_none; [done|done].
  - apply (Scopes_some b1 bases _ s0); try done.
    intros b' Hin. rewrite Hs0. apply I_scope, HIe. by right.
Qed.

Lemma Scopes_steps fuel steps :
  forall bases g g',
    Scopes bases g -> closing (Forall ok) cs fuel steps g ->
    applySteps cs fuel steps g = Done g' ->
    exists bases', Scopes bases' g'.
Proof using All.
  induction steps as [|st rest IH]; intros bases g g' HS Hok Hrun.
  { injection Hrun as <-. eauto. }
  change (applyStep cs fuel st g ≫= applySteps cs fuel rest = Done g') in Hrun.
  apply bind_Done in Hrun as (g1 & Hstep & Hrun).
  destruct Hok as [Hok1 Hok2]. rewrite Hstep in Hok2.
  destruct st as [b m|b|b]; cbn [applyStep] in Hstep.
  - apply (IH bases g1 g'); [|done|done]. by apply (Scopes_call bases b fuel m g).
  - injection Hstep as <-.
    apply (IH (g :: bases) (openScope g).2 g'); [|done|done].
    by apply Scopes_open.
  - apply bind_Done in Hstep as (s & Hs & Hstep). apply fromOption_Done in Hs.
    destruct HS as [g Hs' _|b0 bases g s' Hb HQ Hs' Hn Hp HI]; [congruence|].
    destruct (Scopes_close b0 bases b fuel g s g1) as [HS1 _]; try done.
    { by apply (Scopes_some b0 bases g s'). }
    by apply (IH bases g1 g').
Qed.

End ScopeInvariant.

(** *** The type variables under scopes within scopes *)

Lemma GraphWF_scope g s : GraphWF g -> GraphWF (setActiveScope g s).
Proof. intros [H1 H2 H3]. by split. Qed.

Lemma GraphWF_applyMutation cs fuel m g g' :
  GraphWF g -> applyMutation cs fuel m g = Done g' -> GraphWF g'.
Proof.
  apply (applyMutation_keeps cs GraphWF GraphWF_steps).
  - intros tv n n' s Hn _ _ _ Hwf.
    apply GraphWF_nodes_only; [|done]. intros u.
    apply (hasNode_setNodes_insert tv n n' s u Hn).
  - intros oc s [Hnd Hidx Hn]. by split.
  - intros ch s. apply GraphWF_recordChange.
Qed.

Lemma TrackedTypeVars_scope cs b g s :
  TrackedTypeVars cs b g -> TrackedTypeVars cs b (setActiveScope g (Some s)).
Proof.
  intros [[Hs Hp] Hv Hw Hm]. split; [|done|by apply GraphWF_scope|done].
  split; [by eexists|done].
Qed.

Lemma TrackedTypeVars_call cs b fuel m g0 g g' :
  TrackedTypeVars cs g0 g ->
  applyMutation (withBindings cs b) fuel m g = Done g' ->
  TrackedTypeVars cs g0 g'.
Proof.
  intros HT Hrun. pose proof (sameTypeVariables_withBindings cs b) as H.
  apply (TrackedTypeVars_ext _ cs g0 g' (sameTypeVariables_sym _ _ H)).
  apply (TrackedTypeVars_applyMutation _ fuel g0 m g g'); [|done].
  by apply (TrackedTypeVars_ext cs).
Qed.

Lemma TrackedTypeVars_undo cs b fuel g0 g j e g1 :
  TrackedTypeVars cs g0 g -> journalSince g0 g = j ++ [e] ->
  undo (withBindings cs b) fuel e g = Done g1 ->
  TrackedTypeVars cs g0 (setChanges g1 (pop_back (Changes g1))).
Proof.
  intros HT Hj Hrun. pose proof (sameTypeVariables_withBindings cs b) as H.
  apply (TrackedTypeVars_ext _ cs g0 _ (sameTypeVariables_sym _ _ H)).
  apply (undo_TrackedTypeVars _ fuel g0 g j e g1); [|done|done].
  by apply (TrackedTypeVars_ext cs).
Qed.

(** The graphs that a run reaches from a graph without a scope: the open
    scopes are given by the graphs at their openings, and the type variables
    are tracked relative to each of them. *)
Definition TypeVarScopes (cs : ConstraintSystem) :=
  Scopes GraphWF (TrackedTypeVars cs).

Lemma TypeVarScopes_steps cs fuel steps g g' :
  GraphWF g -> ActiveScope g = None ->
  applySteps cs fuel steps g = Done g' ->
  exists bases, TypeVarScopes cs bases g'.
Proof.
  intros Hwf Hs Hrun.
  apply (Scopes_steps cs GraphWF (TrackedTypeVars cs) (fun _ => True))
    with (fuel := fuel) (steps := steps) (bases := []) (g := g).
  - apply tv_scoped.
  - apply TrackedTypeVars_open.
  - apply TrackedTypeVars_scope.
  - apply GraphWF_scope.
  - intros b f m s s'. apply GraphWF_applyMutation.
  - apply TrackedTypeVars_call.
  - intros b f g0 s j e g1 _ HT Hj _. by apply (TrackedTypeVars_undo cs b f g0 s j).
  - intros b s _ HT _. apply GraphWF_scope, (tv_wf cs b s HT).
  - by apply Scopes_none.
  - apply (closing_impl (fun _ => True)); [|apply closing_True].
    intros j _. apply Forall_forall. done.
  - done.
Qed.

Lemma unwinding_TypeVars cs b fuel g0 numChanges g g' :
  TrackedTypeVars cs g0 g -> length (Changes g0) <= numChanges ->
  unwinding (withBindings cs b) fuel numChanges g g' ->
  TrackedTypeVars cs g0 g'.
Proof.
  intros HT Hlen Hu.
  induction Hu as [g|g ch g1 g' Hl Hb Hundo _ IH]; [done|].
  apply IH.
  destruct (journalSince_back g0 g ch (proj2 (tv_scoped cs g0 g HT))
              ltac:(lia) Hb) as [j Hj].
  by apply (TrackedTypeVars_undo cs b fuel g0 g j ch).
Qed.

(** C10: in every run from a well-formed graph without a scope, with calls
    under changing bindings and scopes opened and closed within scopes, when
    the unwinding of the active scope reaches an [AddedTypeVariable] entry,
    its variable is in the last slot of [TypeVariables] and its stored index
    is that slot; [removeNode] then pops the vector without relocating
    another variable, and every remaining variable's stored index is its
    slot. *)
Theorem C10_removeNode_last_slot cs fuel fuel' steps b g0 g2 s g tv :
  GraphWF g0 -> ActiveScope g0 = None ->
  applySteps cs fuel steps g0 = Done g2 ->
  ActiveScope g2 = Some s ->
  unwinding (withBindings cs b) fuel' (NumChanges s) g2 g ->
  NumChanges s < length (Changes g) ->
  back (Changes g) = Some (AddedTypeVariable tv) ->
  let lastIndex := length (TypeVariables g) - 1 in
  GraphIndex g !! tv = Some lastIndex /\
  TypeVariables g !! lastIndex = Some tv /\
  exists g', removeNode tv (setActiveScope g None) = Done g' /\
    TypeVariables g' = take lastIndex (TypeVariables g) /\
    GraphIndex g' = GraphIndex g /\
    forall i u, TypeVariables g' !! i = Some u -> GraphIndex g' !! u = Some i.
Proof.
  intros Hwf0 Hs0 Hrun Hs Hu Hlen Hb lastIndex.
  destruct (TypeVarScopes_steps cs fuel steps g0 g2 Hwf0 Hs0 Hrun)
    as [bases HS].
  destruct HS as [g2 Hs' _|b0 bases g2 s' _ _ Hs' Hn _ HI]; [congruence|].
  rewrite Hs in Hs'. injection Hs' as <-.
  pose proof (HI b0 ltac:(left)) as H2.
  assert (HT : TrackedTypeVars cs b0 g).
  { apply (unwinding_TypeVars cs b fuel' b0 (NumChanges s) g2 g); [done|lia|done]. }
  rewrite Hn in Hlen.
  destruct (journalSince_back b0 g _ (proj2 (tv_scoped cs b0 g HT)) Hlen Hb)
    as [j Hj].
  pose proof (TrackedTypeVars_last cs b0 g j tv HT Hj) as Hl.
  pose proof (tv_wf cs b0 g HT) as Hwf.
  assert (HwfN : GraphWF (setActiveScope g None)) by (destruct Hwf; by split).
  assert (Hlast : lastIndex = length (TypeVariables b0 ++ addedTypeVars j)).
  { unfold lastIndex. rewrite Hl, length_app. simpl. lia. }
  assert (Hslot : TypeVariables g !! lastIndex = Some tv).
  { rewrite Hlast, Hl, lookup_app_r by lia.
    by replace (_ - _) with 0 by lia. }
  split; [by apply (wf_index g Hwf)|]. split; [done|].
  eexists. split; [apply (removeNode_last tv _ _ HwfN Hl)|]. simpl.
  split; [by rewrite Hlast, Hl, take_app_length|]. split; [done|].
  intros i u Hi. apply (wf_index g Hwf). rewrite Hl.
  by apply lookup_app_l_Some.
Qed.

(** *** Everything under scopes within scopes *)












Lemma C1_scope_restores_witness :
  let g0 := finished emptyGraph
              (applyMutations csPlain 3 [MAddConstraint 0; MAddConstraint 1]
                 emptyGraph) in
  let calls := [(plainBindings, MRemoveConstraint 0);
                (plainBindings, MLookup 3);
                (mergedBindings, MMergeNodes 2 3);
                (mergedBindings,
                 MBindTypeVariable 0 (TyFunction (TyVar 1) (TyVar 2)));
                (plainBindings, MAddConstraint 5)] in
  let g2 := finished emptyGraph
              (applyCalls csPlain 3 calls (openScope g0).2) in
  journalSince g0 g2 =
    [RemovedConstraint 0; AddedTypeVariable 3; ExtendedEquivalenceClass 2 1;
     BoundTypeVariable 0 (TyFunction (TyVar 1) (TyVar 2));
     AddedConstraint 5] /\
  exists g3,
    closeScope (withBindings csPlain mergedBindings) 0 (openScope g0).1 g2
      = Done g3 /\
    restored g0 g3.
Proof.
  intros g0 calls g2.
  assert (Hj : journalSince g0 g2 =
    [RemovedConstraint 0; AddedTypeVariable 3; ExtendedEquivalenceClass 2 1;
     BoundTypeVariable 0 (TyFunction (TyVar 1) (TyVar 2));
     AddedConstraint 5]) by (vm_compute; reflexivity).
  split; [exact Hj|].
  assert (Hself : noSelfBinding (journalSince g0 g2)).
  { rewrite Hj. clear. intros tv fixed Hin.
    repeat (apply elem_of_cons in Hin as [Hin|Hin]; [try discriminate Hin|]).
    - injection Hin as -> ->. simpl. set_solver.
    - by apply elem_of_nil in Hin. }
  assert (Hco : Consistent g0).
  { apply (Consistent_applyMutations csPlain 3
             [MAddConstraint 0; MAddConstraint 1] emptyGraph);
      [apply emptyGraph_Consistent|vm_compute; reflexivity]. }
  assert (Hrun : applyCalls csPlain 3 calls (openScope g0).2 = Done g2)
    by (vm_compute; reflexivity).
  exact (C1_scope_restores csPlain 3 0 calls mergedBindings g0 g2 Hco Hrun
           Hself).
Defined.

Lemma C10_removeNode_last_slot_witness :
  let steps := [SCall plainBindings (MAddConstraint 0); SOpen;
                SCall plainBindings (MLookup 3); SOpen;
                SCall plainBindings (MLookup 4); SClose plainBindings;
                SCall mergedBindings (MMergeNodes 2 3)] in
  let g2 := finished emptyGraph (applySteps csPlain 3 steps emptyGraph) in
  let g1 := finished emptyGraph
              (undo (withBindings csPlain mergedBindings) 0
                 (ExtendedEquivalenceClass 2 1) g2) in
  let g := setChanges g1 (pop_back (Changes g1)) in
  (Changes g2 = [AddedTypeVariable 3; AddedTypeVariable 2;
                 ExtendedEquivalenceClass 2 1] /\
   TypeVariables g = [0; 1; 3; 2]) /\
  GraphIndex g !! 2 = Some 3 /\
  TypeVariables g !! 3 = Some 2 /\
  exists g', removeNode 2 (setActiveScope g None) = Done g' /\
    TypeVariables g' = take 3 (TypeVariables g) /\
    GraphIndex g' = GraphIndex g /\
    forall i u, TypeVariables g' !! i = Some u -> GraphIndex g' !! u = Some i.
Proof.
  intros steps g2 g1 g. split; [split; reflexivity|].
  assert (Hrun : applySteps csPlain 3 steps emptyGraph = Done g2)
    by (vm_compute; reflexivity).
  assert (Hundo : undo (withBindings csPlain mergedBindings) 0
                    (ExtendedEquivalenceClass 2 1) g2 = Done g1)
    by (vm_compute; reflexivity).
  assert (Hu : unwinding (withBindings csPlain mergedBindings) 0
                 (NumChanges (mkScope None 0)) g2 g).
  { apply (unwinding_undo _ 0 _ g2 (ExtendedEquivalenceClass 2 1) g1 g);
      [vm_compute; lia|reflexivity|exact Hundo|apply unwinding_here]. }
  apply (C10_removeNode_last_slot csPlain 3 0 steps mergedBindings emptyGraph
           g2 (mkScope None 0) g 2 emptyGraph_wf eq_refl Hrun eq_refl Hu);
    [vm_compute; lia|reflexivity].
Defined.

(** *** Checking the journals of the scopes that a run closes *)








(** ** The journal of a call that creates nodes *)
















Lemma addedTypeVars_elem tv j :
  AddedTypeVariable tv ∈ j -> tv ∈ addedTypeVars j.
Proof.
  intros H. unfold addedTypeVars. apply list_elem_of_omap.
  by exists (AddedTypeVariable tv).
Qed.

Section Creation.

Context (cs : ConstraintSystem).








End Creation.




(** ** The components and the graph of the specification *)






